(** * Hexagon Clink toolkit: a shallow embedding of the combinatorial engines

    The development follows the Go sources of the repository:

    - [filter_maximal.go], [canonicalize.go]: edge-bitmask graphs, Heap's
      permutation generator, graph6 codec, canonical form, maximality filter;
    - [solver_k/solver_13_3.go]: the exhaustive n = 13, k = 3 search;
    - [solver_20/solver.go]: the bounded-overlap backtracker on the spiral;
    - [find_fourth/hex.go], [find_fourth/main.go]: the penny spiral, the
      coverage bookkeeping and the CNF built for the last arrangement.

    Go [int] values that are array indices or counters are [nat]; a [Graph]
    (Go [uint64]) is a [Z] with the 64-bit wrap-around written out; strings are
    lists of byte values; [float64] is Rocq's primitive binary64 float. *)

From Stdlib Require Import ZArith Lia List Bool Arith PeanoNat Ascii.
From Stdlib Require Import Floats.PrimFloat.
From Stdlib Require Import Sorted Permutation.
From stdpp Require Import base list gmap sorting.

Set Warnings "-inexact-float".
Unset Default Proof Using.

(** ** Slices and arrays

    A Go slice or fixed-size array is a list; [a[i]] on an index in range is
    [get d a i] (every read in the embedded code is in range, where Go would
    panic otherwise), and [a[i] = v] is stdpp's [<[i:=v]> a]. *)

Definition get {A : Type} (d : A) (l : list A) (i : nat) : A := nth i l d.

(** [for i := lo; i < hi; i++] ranges over [range lo hi]. *)
Definition range (lo hi : nat) : list nat := seq lo (hi - lo).

(** Two-dimensional arrays ([[][]int], [[numItems][numItems]bool]):
    [t[i][j]] and [t[i][j] = v]. *)
Definition get2 {A : Type} (d : A) (t : list (list A)) (i j : nat) : A :=
  get d (get [] t i) j.

Definition set2 {A : Type} (t : list (list A)) (i j : nat) (v : A) : list (list A) :=
  <[i := <[j := v]> (get [] t i)]> t.

Definition Table : Type := list (list bool).

Definition newTable (rows cols : nat) : Table := replicate rows (replicate cols false).

Definition tget (t : Table) (i j : nat) : bool := get2 false t i j.

Definition tset (t : Table) (i j : nat) (v : bool) : Table := set2 t i j v.

(** ** The shared [found] flag

    [atomic.Bool] is read by one worker while others may set it.  A worker's
    view of the flag is its last observed value together with the observations
    still to come: each [Load] takes the next one ([true] when another worker
    has set the flag by then).  The flag only ever goes from false to true. *)

Record Flag : Type := mkFlag { isSet : bool; pending : list bool }.

Definition Load (f : Flag) : bool * Flag :=
  let v := isSet f || hd false (pending f) in
  (v, mkFlag v (tl (pending f))).

(** [found.CompareAndSwap(false, true)]: succeeds iff the flag is still false. *)
Definition CompareAndSwap (f : Flag) : bool * Flag :=
  let v := isSet f || hd false (pending f) in
  (negb v, mkFlag true (tl (pending f))).

(** A flag nobody else touches. *)
Definition quietFlag : Flag := mkFlag false [].

(** ** Pair-sets and coverage (spec section 3)

    The pair-set induced by a graph (edge list over slots) and an arrangement
    [arr : slot -> item], and what it means for a family of pair-sets to cover
    every unordered pair of [n] items. *)

Definition pairSet (edges : list (nat * nat)) (arr : list nat) : list (nat * nat) :=
  map (fun e => (get 0 arr (fst e), get 0 arr (snd e))) edges.

Definition covers (ps : list (nat * nat)) (a b : nat) : Prop :=
  In (a, b) ps \/ In (b, a) ps.

Definition coversAll (n : nat) (ps : list (nat * nat)) : Prop :=
  forall a b, a < b < n -> covers ps a b.

(** An arrangement is a bijection between slots and items [0..n-1]. *)
Definition isArrangement (n : nat) (arr : list nat) : Prop :=
  length arr = n /\ List.NoDup arr /\ Forall (fun i => i < n) arr.

Definition identity (n : nat) : list nat := seq 0 n.

(** * find_fourth/hex.go: the penny spiral *)

Module Hex.

Local Open Scope float_scope.

Definition hexDirs : list (float * float) :=
  [ (1.5, 0); (0.75, 1.3); (-0.75, 1.3); (-1.5, 0); (-0.75, -1.3); (0.75, -1.3) ].

Record Vec2 : Type := mkVec2 { x : float; y : float }.

Record Edge : Type := mkEdge { a : nat; b : nat }.

Definition vecClose (p q : Vec2) : bool :=
  ltb (abs (x p - x q)) 0.1 && ltb (abs (y p - y q)) 0.1.

Definition vecAdd (p : Vec2) (dx dy : float) : Vec2 := mkVec2 (x p + dx) (y p + dy).

Definition positionOccupied (pos : Vec2) (positions : list Vec2) (count : nat) : bool :=
  existsb (fun i => vecClose pos (get (mkVec2 0 0) positions i)) (range 0 count).

(** The inner [for dd] loop with its [break]: does [cand] sit on one of the
    six hexagonal neighbours of [p]? *)
Definition touches (cand p : Vec2) : bool :=
  existsb (fun d => vecClose cand (vecAdd p (fst d) (snd d))) hexDirs.

(** Loop state of the candidate scan: [bestPos], [bestContacts], [bestDist]. *)
Definition tryDir (positions : list Vec2) (node : nat) (prevPos : Vec2)
    (best : Vec2 * Z * float) (d : float * float) : Vec2 * Z * float :=
  let '(bestPos, bestContacts, bestDist) := best in
  let cand := vecAdd prevPos (fst d) (snd d) in
  if positionOccupied cand positions node then best
  else
    let contacts :=
      Z.of_nat (length (filter (fun i => touches cand (get (mkVec2 0 0) positions i))
                               (range 0 node))) in
    let dist := x cand * x cand + y cand * y cand in
    if (Z.ltb bestContacts contacts) || (Z.eqb contacts bestContacts && ltb dist bestDist)
    then (cand, contacts, dist)
    else best.

(** One iteration of [for node := 1; node < n; node++]. *)
Definition placeNode (st : list Vec2 * list Edge) (node : nat) : list Vec2 * list Edge :=
  let '(positions, edges) := st in
  let prevPos := get (mkVec2 0 0) positions (node - 1)%nat in
  let '(bestPos, _, _) :=
    fold_left (tryDir positions node prevPos) hexDirs (mkVec2 0 0, (-1)%Z, 1e9) in
  let positions := <[node := bestPos]> positions in
  let newEdges :=
    map (fun i => mkEdge i node)
        (filter (fun i => touches bestPos (get (mkVec2 0 0) positions i)) (range 0 node)) in
  (positions, edges ++ newEdges).

Definition buildSpiral (n : nat) : list Edge * nat :=
  let positions := replicate n (mkVec2 0 0) in
  if (n <? 1)%nat then ([], 0%nat)
  else if (n =? 1)%nat then ([], 0%nat)
  else
    let '(_, edges) := fold_left placeNode (range 1 n) (positions, []) in
    (edges, length edges).

End Hex.

(** * filter_maximal.go, canonicalize.go, verify_penny: edge-bitmask graphs *)

Module Graphs.

(** [type Graph uint64]. *)
Definition Graph : Type := Z.

Definition u64 (z : Z) : Z := z mod 2 ^ 64.

(** [1 << k] at type [Graph]: zero once the shift count reaches the width. *)
Definition bit (k : nat) : Graph := u64 (Z.shiftl 1 (Z.of_nat k)).

(** The package-level tables set by [initEdges]. *)
Record Tables : Type := mkTables {
  n : nat;
  numEdges : nat;
  edgeIndex : list (list nat);
  edgePairs : list (nat * nat)
}.

Definition initEdges (vertices : nat) : Tables :=
  let n := vertices in
  let numEdges := n * (n - 1) / 2 in
  let edgeIndex := replicate n (replicate n 0) in
  let edgePairs := replicate numEdges (0, 0) in
  let '(edgeIndex, edgePairs, _) :=
    fold_left
      (fun st i =>
         fold_left
           (fun st j =>
              let '(edgeIndex, edgePairs, idx) := st in
              (set2 (set2 edgeIndex i j idx) j i idx, <[idx := (i, j)]> edgePairs, S idx))
           (range (i + 1) n) st)
      (range 0 n) (edgeIndex, edgePairs, 0) in
  mkTables n numEdges edgeIndex edgePairs.

(** [arr[i], arr[j] = arr[j], arr[i]]. *)
Definition swap (arr : list nat) (i j : nat) : list nat :=
  <[j := get 0 arr i]> (<[i := get 0 arr j]> arr).

(** The recursive closure [generate] of [permutations] and of [canonical]
    (Heap's algorithm, swapping after every recursive call).  The two closures
    differ only in what they do with a finished permutation, here [visit]. *)
Fixpoint generate {St : Type} (visit : list nat -> St -> St) (k : nat)
    (arr : list nat) (s : St) : list nat * St :=
  match k with
  | 0 => (arr, s)
  | S k' =>
    if k =? 1 then (arr, visit arr s)
    else
      fold_left
        (fun st i =>
           let '(arr, s) := generate visit k' (fst st) (snd st) in
           (if Nat.even k then swap arr i (k - 1) else swap arr 0 (k - 1), s))
        (range 0 k) (arr, s)
  end.

Definition permutations (n : nat) : list (list nat) :=
  if n =? 0 then [[]]
  else snd (generate (fun perm result => result ++ [perm]) n (identity n) []).

(** [allPerms], filled by [initEdges] in filter_maximal.go. *)
Definition allPerms (T : Tables) : list (list nat) := permutations (n T).

(** The relabelling loop shared by [canonical] and [isIsomorphicSubgraphOf]. *)
Definition relabel (T : Tables) (g : Graph) (perm : list nat) : Graph :=
  fold_left
    (fun relabeled idx =>
       if (Z.land g (bit idx) =? 0)%Z then relabeled
       else
         let '(i, j) := get (0, 0) (edgePairs T) idx in
         let ni := get 0 perm i in
         let nj := get 0 perm j in
         let '(ni, nj) := if nj <? ni then (nj, ni) else (ni, nj) in
         Z.lor relabeled (bit (get2 0 (edgeIndex T) ni nj)))
    (range 0 (numEdges T)) 0%Z.

Definition canonical (T : Tables) (g : Graph) : Graph :=
  snd (generate
         (fun perm best =>
            let relabeled := relabel T g perm in
            if (relabeled <? best)%Z then relabeled else best)
         (n T) (identity (n T)) g).

(** [for tmp != 0 { count += int(tmp & 1); tmp >>= 1 }]: a [uint64] is
    exhausted after at most 64 shifts. *)
Fixpoint edgeCountLoop (fuel : nat) (tmp : Graph) (count : nat) : nat :=
  match fuel with
  | 0 => count
  | S fuel' =>
    if (tmp =? 0)%Z then count
    else edgeCountLoop fuel' (Z.shiftr tmp 1) (count + Z.to_nat (Z.land tmp 1))
  end.

Definition edgeCount (g : Graph) : nat := edgeCountLoop 64 g 0.

Definition isIsomorphicSubgraphOf (T : Tables) (g other : Graph) : bool :=
  existsb
    (fun perm =>
       let relabeled := relabel T g perm in
       (Z.land relabeled other =? relabeled)%Z)
    (allPerms T).

(** *** Strings

    A Go string is its sequence of bytes.  [int(line[i])] and [byte(v)]: *)

Definition intOf (c : ascii) : Z := Z.of_nat (nat_of_ascii c).

Definition byteOf (z : Z) : ascii := ascii_of_nat (Z.to_nat (z mod 256)).

(** [strings.TrimSpace] of the Go standard library.  Its fast path works on
    ASCII bytes with the table [asciiSpace]; on meeting a byte [>= RuneSelf]
    it hands the rest to the Unicode-aware [TrimFunc] / [TrimRightFunc] with
    [unicode.IsSpace], which stay parameters here. *)
Definition asciiSpace (c : ascii) : bool :=
  match nat_of_ascii c with
  | 9 | 10 | 11 | 12 | 13 | 32 => true
  | _ => false
  end.

Definition RuneSelf : nat := 128.

Section Codec.

Variable TrimFunc_IsSpace : list ascii -> list ascii.
Variable TrimRightFunc_IsSpace : list ascii -> list ascii.

(** The scan from the end, on the reversed remainder [s[start:stop]]. *)
Fixpoint trimStop (r : list ascii) : list ascii :=
  match r with
  | [] => []
  | c :: r' =>
    if RuneSelf <=? nat_of_ascii c then TrimRightFunc_IsSpace (rev r)
    else if asciiSpace c then trimStop r'
    else rev r
  end.

Fixpoint TrimSpace (s : list ascii) : list ascii :=
  match s with
  | [] => trimStop (rev s)
  | c :: rest =>
    if RuneSelf <=? nat_of_ascii c then TrimFunc_IsSpace s
    else if asciiSpace c then TrimSpace rest
    else trimStop (rev s)
  end.

(** *** graph6 *)

Definition parseGraph6 (T : Tables) (line : list ascii) : Graph :=
  let line := TrimSpace line in
  match line with
  | [] => 0%Z
  | c0 :: rest =>
    let nFromLine := (intOf c0 - 63)%Z in
    if negb (nFromLine =? Z.of_nat (n T))%Z then 0%Z
    else
      let bits :=
        flat_map
          (fun c =>
             let val := (intOf c - 63)%Z in
             map (fun b => (Z.land (Z.shiftr val (Z.of_nat b)) 1 mod 256)%Z)
                 [5; 4; 3; 2; 1; 0])
          rest in
      let '(g, _) :=
        fold_left
          (fun st j =>
             fold_left
               (fun st i =>
                  let '(g, bitIdx) := st in
                  (if (bitIdx <? length bits) && (get 0 bits bitIdx =? 1)%Z
                   then Z.lor g (bit (get2 0 (edgeIndex T) i j))
                   else g,
                   S bitIdx))
               (range 0 j) st)
          (range 1 (n T)) (0%Z, 0) in
      g
  end.

(** [for len(bits)%6 != 0 { bits = append(bits, 0) }]: at most five rounds. *)
Fixpoint padBits (fuel : nat) (bits : list Z) : list Z :=
  match fuel with
  | 0 => bits
  | S fuel' => if length bits mod 6 =? 0 then bits else padBits fuel' (bits ++ [0%Z])
  end.

Definition toGraph6 (T : Tables) (g : Graph) : list ascii :=
  let result := [byteOf (Z.of_nat (n T) + 63)] in
  let bits :=
    flat_map
      (fun j =>
         map (fun i => if Z.eqb (Z.land g (bit (get2 0 (edgeIndex T) i j))) 0
                       then 0%Z else 1%Z)
             (range 0 j))
      (range 1 (n T)) in
  let bits := padBits 6 bits in
  result ++
  map (fun k =>
         let i := 6 * k in
         let val :=
           (Z.lor (Z.shiftl (get 0 bits i) 5 mod 256)
           (Z.lor (Z.shiftl (get 0 bits (i + 1)%nat) 4 mod 256)
           (Z.lor (Z.shiftl (get 0 bits (i + 2)%nat) 3 mod 256)
           (Z.lor (Z.shiftl (get 0 bits (i + 3)%nat) 2 mod 256)
           (Z.lor (Z.shiftl (get 0 bits (i + 4)%nat) 1 mod 256)
                  (get 0 bits (i + 5)%nat))))))%Z in
         byteOf (val + 63))
      (range 0 ((length bits + 5) / 6)).

(** *** filter_maximal.go, [main] *)

(** The scanner loop over one input file: [allGraphs] and [count]. *)
Definition readLine (T : Tables) (st : list Graph * nat) (line : list ascii)
    : list Graph * nat :=
  let g := parseGraph6 T line in
  if negb (g =? 0)%Z then (fst st ++ [g], S (snd st)) else st.

Definition readLines (T : Tables) (allGraphs : list Graph) (lines : list (list ascii))
    : list Graph * nat :=
  fold_left (readLine T) lines (allGraphs, 0).

(** The scanner loop of verify_penny's [main] over a [.g6] input: [graphs]. *)
Definition readGraph (T : Tables) (graphs : list Graph) (line : list ascii)
    : list Graph :=
  let g := parseGraph6 T line in
  if negb (g =? 0)%Z then graphs ++ [g] else graphs.

Definition readGraphs (T : Tables) (lines : list (list ascii)) : list Graph :=
  fold_left (readGraph T) lines [].

(** The filter loop over the pool sorted by [sort.Slice]. *)
Definition filterStep (T : Tables) (maximal : list Graph) (g : Graph) : list Graph :=
  if existsb (fun m => isIsomorphicSubgraphOf T g m) maximal then maximal
  else maximal ++ [g].

Definition filterMaximal (T : Tables) (allGraphs : list Graph) : list Graph :=
  fold_left (filterStep T) allGraphs [].

End Codec.

End Graphs.

(** * verify_penny: the graph queries

    The program keeps the tables of [initEdges] and the [Graph] type of
    filter_maximal.go; its [edgeCount], [parseGraph6] and [toGraph6] are the
    ones above. *)

Module Penny.

Import Graphs.

Definition hasEdge (T : Tables) (g : Graph) (i j : nat) : bool :=
  let '(i, j) := if j <? i then (j, i) else (i, j) in
  negb (Z.eqb (Z.land g (bit (get2 0 (edgeIndex T) i j))) 0).

Definition edges (T : Tables) (g : Graph) : list (nat * nat) :=
  fold_left
    (fun result idx =>
       if negb (Z.eqb (Z.land g (bit idx)) 0)
       then result ++ [get (0, 0) (edgePairs T) idx]
       else result)
    (range 0 (numEdges T)) [].

(** [hasK4]: the four nested loops, leaving with [true] at the first clique. *)
Definition hasK4 (T : Tables) (g : Graph) : bool :=
  existsb
    (fun a =>
       existsb
         (fun b =>
            if negb (hasEdge T g a b) then false
            else
              existsb
                (fun c =>
                   if negb (hasEdge T g a c) || negb (hasEdge T g b c) then false
                   else
                     existsb
                       (fun d => hasEdge T g a d && hasEdge T g b d && hasEdge T g c d)
                       (range (c + 1) (n T)))
                (range (b + 1) (n T)))
         (range (a + 1) (n T)))
    (range 0 (n T)).

End Penny.

(** * canonicalize.go: [main] *)

Module Canonicalize.

Import Graphs.

(** A worker's [seen := make(map[Graph]bool)] for one group: the map only
    ever holds [true], so it is the set of its keys. *)
Definition seenOf (T : Tables) (graphs : list Graph) : gset Z :=
  fold_left (fun seen gr => let canon := canonical T gr in {[ canon ]} ∪ seen) graphs ∅.

(** [allUnique], merged from the workers' results in whatever order they
    arrive; [groups] is what the reading loop has left. *)
Definition allUniqueOf (T : Tables) (groups : list (list Graph)) : gset Z :=
  fold_left (fun allUnique graphs => seenOf T graphs ∪ allUnique) groups ∅.

(** [totalGraphs], and at the end [canonCalls]. *)
Definition totalGraphs (groups : list (list Graph)) : nat :=
  fold_left (fun total graphs => total + length graphs) groups 0.

(** The lines of the [.txt] output: the keys of [allUnique], sorted by
    [sort.Slice] with [<]. *)
Definition sortedOf (allUnique : gset Z) : list Z := merge_sort Z.le (elements allUnique).

End Canonicalize.

(** * solver_k/solver_13_3.go: three arrangements for n = 13 *)

Module Solver13.

(** All 4 maximal penny graphs on 13 vertices (26 edges each). *)
Definition allGraphs : list (list (nat * nat)) :=
  [ (* Graph A *)
    [ (2, 3); (1, 4); (0, 6); (5, 6); (3, 7); (5, 7);
      (2, 8); (4, 8); (0, 9); (1, 9); (6, 9); (1, 10);
      (4, 10); (8, 10); (9, 10); (5, 11); (6, 11); (7, 11);
      (9, 11); (10, 11); (2, 12); (3, 12); (7, 12); (8, 12);
      (10, 12); (11, 12) ];
    (* Graph B *)
    [ (1, 3); (2, 4); (0, 5); (0, 6); (5, 6); (3, 7);
      (6, 7); (4, 8); (5, 8); (1, 9); (2, 9); (5, 10);
      (6, 10); (7, 10); (8, 10); (1, 11); (3, 11); (7, 11);
      (9, 11); (10, 11); (2, 12); (4, 12); (8, 12); (9, 12);
      (10, 12); (11, 12) ];
    (* Graph C *)
    [ (0, 3); (1, 4); (3, 5); (4, 6); (2, 7); (5, 7);
      (2, 8); (6, 8); (0, 9); (1, 9); (0, 10); (3, 10);
      (5, 10); (7, 10); (9, 10); (1, 11); (4, 11); (6, 11);
      (8, 11); (9, 11); (2, 12); (7, 12); (8, 12); (9, 12);
      (10, 12); (11, 12) ];
    (* Graph D *)
    [ (0, 2); (1, 3); (1, 4); (0, 5); (2, 6); (4, 7);
      (3, 8); (6, 8); (5, 9); (7, 9); (0, 10); (2, 10);
      (5, 10); (6, 10); (9, 10); (1, 11); (3, 11); (4, 11);
      (7, 11); (8, 11); (6, 12); (7, 12); (8, 12); (9, 12);
      (10, 12); (11, 12) ] ].

Definition numItems : nat := 13.
Definition numEdges : nat := 26.

(** [init]: neighbour lists and the list of all pairs. *)
Definition addEdge (neighbors : list (list nat)) (e : nat * nat) : list (list nat) :=
  let neighbors := <[fst e := get [] neighbors (fst e) ++ [snd e]]> neighbors in
  <[snd e := get [] neighbors (snd e) ++ [fst e]]> neighbors.

Definition allNeighbors : list (list (list nat)) :=
  map (fun g => fold_left addEdge g (replicate numItems [])) allGraphs.

Definition allPairs : list (nat * nat) :=
  flat_map (fun i => map (fun j => (i, j)) (range (i + 1) numItems))
           (range 0 (numItems - 1)).

Definition buildPairsTable (shapeIdx : nat) (arr : list nat) : Table :=
  fold_left
    (fun table e =>
       let item1 := get 0 arr (fst e) in
       let item2 := get 0 arr (snd e) in
       tset (tset table item1 item2 true) item2 item1 true)
    (get [] allGraphs shapeIdx) (newTable numItems numItems).

Record Solution : Type := mkSolution {
  shape0 : nat; shape1 : nat; shape2 : nat;
  arr1 : list nat; arr2 : list nat
}.

(** ** [searchArr2] *)

(** The variables captured by the closure [search] of [searchArr2], with the
    worker's view of [found]. *)
Record Frame2 : Type := mkFrame2 {
  f2_arr2 : list nat;
  f2_used2 : list bool;
  f2_pairsCovered : nat;
  f2_result : list nat;
  f2_success : bool;
  f2_found : Flag
}.

(** [for _, nPos := range neighbors2[pos]] with its [break]: [(isWaste, newPairs)]. *)
Fixpoint scanWaste (neededTable : Table) (arr2 : list nat) (pos item : nat)
    (nbrs : list nat) (newPairs : nat) : bool * nat :=
  match nbrs with
  | [] => (false, newPairs)
  | nPos :: nbrs' =>
    if nPos <? pos then
      let nItem := get 0 arr2 nPos in
      if tget neededTable item nItem
      then scanWaste neededTable arr2 pos item nbrs' (S newPairs)
      else (true, newPairs)
    else scanWaste neededTable arr2 pos item nbrs' newPairs
  end.

(** [search(pos)]; [fuel] bounds the recursion depth, [numItems - pos] calls
    deep at most. *)
Fixpoint search2 (fuel : nat) (neighbors2 : list (list nat)) (neededTable : Table)
    (neededCount : nat) (pos : nat) (st : Frame2) : Frame2 :=
  if f2_success st then st
  else
    let '(isFound, fl) := Load (f2_found st) in
    let st := mkFrame2 (f2_arr2 st) (f2_used2 st) (f2_pairsCovered st)
                       (f2_result st) (f2_success st) fl in
    if isFound then st
    else if pos =? numItems then
      if f2_pairsCovered st =? neededCount
      then mkFrame2 (f2_arr2 st) (f2_used2 st) (f2_pairsCovered st)
                    (f2_arr2 st) true (f2_found st)
      else st
    else
      match fuel with
      | 0 => st
      | S fuel' =>
        fold_left
          (fun st item =>
             if get false (f2_used2 st) item then st
             else
               let arr2 := <[pos := item]> (f2_arr2 st) in
               let used2 := <[item := true]> (f2_used2 st) in
               let '(isWaste, newPairs) :=
                 scanWaste neededTable arr2 pos item (get [] neighbors2 pos) 0 in
               let st := mkFrame2 arr2 used2 (f2_pairsCovered st)
                                  (f2_result st) (f2_success st) (f2_found st) in
               let st :=
                 if negb isWaste then
                   let st := mkFrame2 (f2_arr2 st) (f2_used2 st)
                                      (f2_pairsCovered st + newPairs)
                                      (f2_result st) (f2_success st) (f2_found st) in
                   let st := search2 fuel' neighbors2 neededTable neededCount (pos + 1) st in
                   mkFrame2 (f2_arr2 st) (f2_used2 st)
                            (f2_pairsCovered st - newPairs)
                            (f2_result st) (f2_success st) (f2_found st)
                 else st in
               mkFrame2 (<[pos := 0]> (f2_arr2 st)) (<[item := false]> (f2_used2 st))
                        (f2_pairsCovered st) (f2_result st) (f2_success st) (f2_found st))
          (range 0 numItems) st
      end.

Definition searchArr2 (shape2 : nat) (neededTable : Table) (neededCount : nat)
    (found : Flag) : bool * list nat * Flag :=
  let neighbors2 := get [] allNeighbors shape2 in
  let st :=
    search2 numItems neighbors2 neededTable neededCount 0
      (mkFrame2 (replicate numItems 0) (replicate numItems false) 0
                (replicate numItems 0) false found) in
  (f2_success st, f2_result st, f2_found st).

(** ** [searchArr1Worker] *)

(** The closure variables of the worker's [search], the flag, and what the
    worker has sent on [resultChan]. *)
Record Frame1 : Type := mkFrame1 {
  f1_arr1 : list nat;
  f1_used1 : list bool;
  f1_localCount : nat;
  f1_found : Flag;
  f1_sent : list Solution
}.

Fixpoint scanOverlap (pairs0Table : Table) (arr1 : list nat) (pos item : nat)
    (nbrs : list nat) : bool :=
  match nbrs with
  | [] => false
  | nPos :: nbrs' =>
    if nPos <? pos then
      let nItem := get 0 arr1 nPos in
      if tget pairs0Table item nItem then true
      else scanOverlap pairs0Table arr1 pos item nbrs'
    else scanOverlap pairs0Table arr1 pos item nbrs'
  end.

(** The needed pairs once [arr1] is complete: [(neededTable, neededCount)]. *)
Definition neededPairs (pairs0Table pairs1Table : Table) : Table * nat :=
  fold_left
    (fun st p =>
       let '(neededTable, neededCount) := st in
       if negb (tget pairs0Table (fst p) (snd p)) && negb (tget pairs1Table (fst p) (snd p))
       then (tset (tset neededTable (fst p) (snd p) true) (snd p) (fst p) true,
             S neededCount)
       else st)
    allPairs (newTable numItems numItems, 0).

(** [for shape2 := shape1; shape2 < 4 && !found.Load(); shape2++], over the
    shapes still to try; a successful compare-and-swap sends and returns. *)
Fixpoint tryShapes2 (shapes : list nat) (shape0 shape1 : nat) (neededTable : Table)
    (neededCount : nat) (st : Frame1) : Frame1 :=
  match shapes with
  | [] => st
  | shape2 :: shapes' =>
    let '(isFound, fl) := Load (f1_found st) in
    if isFound
    then mkFrame1 (f1_arr1 st) (f1_used1 st) (f1_localCount st) fl (f1_sent st)
    else
      let '(success, arr2, fl) := searchArr2 shape2 neededTable neededCount fl in
      if success then
        let '(swapped, fl) := CompareAndSwap fl in
        if swapped then
          mkFrame1 (f1_arr1 st) (f1_used1 st) (f1_localCount st) fl
                   (f1_sent st ++ [mkSolution shape0 shape1 shape2 (f1_arr1 st) arr2])
        else
          tryShapes2 shapes' shape0 shape1 neededTable neededCount
            (mkFrame1 (f1_arr1 st) (f1_used1 st) (f1_localCount st) fl (f1_sent st))
      else
        tryShapes2 shapes' shape0 shape1 neededTable neededCount
          (mkFrame1 (f1_arr1 st) (f1_used1 st) (f1_localCount st) fl (f1_sent st))
  end.

Fixpoint search1 (fuel : nat) (shape0 shape1 : nat) (pairs0Table : Table)
    (pos : nat) (st : Frame1) : Frame1 :=
  let '(isFound, fl) := Load (f1_found st) in
  let st := mkFrame1 (f1_arr1 st) (f1_used1 st) (f1_localCount st) fl (f1_sent st) in
  if isFound then st
  else if pos =? numItems then
    let st := mkFrame1 (f1_arr1 st) (f1_used1 st) (S (f1_localCount st))
                       (f1_found st) (f1_sent st) in
    let pairs1Table := buildPairsTable shape1 (f1_arr1 st) in
    let '(neededTable, neededCount) := neededPairs pairs0Table pairs1Table in
    tryShapes2 (range shape1 4) shape0 shape1 neededTable neededCount st
  else
    match fuel with
    | 0 => st
    | S fuel' =>
      fold_left
        (fun st item =>
           if get false (f1_used1 st) item then st
           else
             let arr1 := <[pos := item]> (f1_arr1 st) in
             let used1 := <[item := true]> (f1_used1 st) in
             let hasOverlap :=
               scanOverlap pairs0Table arr1 pos item
                           (get [] (get [] allNeighbors shape1) pos) in
             let st := mkFrame1 arr1 used1 (f1_localCount st) (f1_found st) (f1_sent st) in
             let st :=
               if negb hasOverlap
               then search1 fuel' shape0 shape1 pairs0Table (pos + 1) st
               else st in
             mkFrame1 (<[pos := 0]> (f1_arr1 st)) (<[item := false]> (f1_used1 st))
                      (f1_localCount st) (f1_found st) (f1_sent st))
        (range 0 numItems) st
    end.

(** The worker: what it leaves in [found], what it sent on [resultChan] and
    the count it sends on [countChan]. *)
Definition searchArr1Worker (shape0 shape1 firstItem : nat) (pairs0Table : Table)
    (found : Flag) (resultChan : list Solution) : Frame1 :=
  let arr1 := <[0 := firstItem]> (replicate numItems 0) in
  let used1 := <[firstItem := true]> (replicate numItems false) in
  search1 numItems shape0 shape1 pairs0Table 1
          (mkFrame1 arr1 used1 0 found resultChan).

(** ** [main]

    The thirteen workers of a shape pair are run one after the other on the
    shared flag (one schedule of the goroutines); nobody else sets it. *)
Definition runWorkers (shape0 shape1 : nat) (pairs0Table : Table)
    (st : Flag * list Solution) : Flag * list Solution :=
  fold_left
    (fun st firstItem =>
       let w := searchArr1Worker shape0 shape1 firstItem pairs0Table (fst st) (snd st) in
       (f1_found w, f1_sent w))
    (range 0 numItems) st.

(** [for shape1 := shape0; shape1 < 4 && !found.Load(); shape1++ { ...;
    if found.Load() { break } }]. *)
Fixpoint shape1Loop (shapes : list nat) (shape0 : nat) (pairs0Table : Table)
    (st : Flag * list Solution) : Flag * list Solution :=
  match shapes with
  | [] => st
  | shape1 :: shapes' =>
    let '(isFound, fl) := Load (fst st) in
    if isFound then (fl, snd st)
    else
      let st := runWorkers shape0 shape1 pairs0Table (fl, snd st) in
      let '(isFound, fl) := Load (fst st) in
      if isFound then (fl, snd st)
      else shape1Loop shapes' shape0 pairs0Table (fl, snd st)
  end.

Fixpoint shape0Loop (shapes : list nat) (st : Flag * list Solution)
    : Flag * list Solution :=
  match shapes with
  | [] => st
  | shape0 :: shapes' =>
    let '(isFound, fl) := Load (fst st) in
    if isFound then (fl, snd st)
    else
      let pairs0Table := buildPairsTable shape0 (identity numItems) in
      let st := shape1Loop (range shape0 4) shape0 pairs0Table (fl, snd st) in
      shape0Loop shapes' st
  end.

(** The outcome of [main]: the solution it prints, or [None] for
    "No solution found." *)
Definition main : option Solution :=
  let st := shape0Loop (range 0 4) (quietFlag, []) in
  if fst (Load (fst st)) then head (snd st) else None.

End Solver13.

(** * find_fourth/main.go: coverage bookkeeping and the SAT reduction *)

Module FindFourth.

Import Hex.

(** ** [main]: tables built from the spiral *)

Definition pairTable (n : nat) : list (list nat) :=
  map (fun a =>
         map (fun b =>
                if a <? b then a * n - a * (a + 1) / 2 + (b - a - 1)
                else if b <? a then b * n - b * (b + 1) / 2 + (a - b - 1)
                else 0)
             (range 0 n))
      (range 0 n).

Definition fullAdj (n : nat) (edges : list Edge) : list (list nat) :=
  fold_left
    (fun fullAdj e =>
       let fullAdj := <[a e := get [] fullAdj (a e) ++ [b e]]> fullAdj in
       <[b e := get [] fullAdj (b e) ++ [a e]]> fullAdj)
    edges (replicate n []).

Definition adjMatrix (n : nat) (edges : list Edge) : Table :=
  fold_left
    (fun adjMatrix e => tset (tset adjMatrix (a e) (b e) true) (b e) (a e) true)
    edges (newTable n n).

(** [covered0]: the pairs covered by [arr0 = identity]. *)
Definition covered0 (n : nat) (edges : list Edge) : list bool :=
  fold_left
    (fun covered0 e => <[get2 0 (pairTable n) (a e) (b e) := true]> covered0)
    edges (replicate (n * (n - 1) / 2) false).

(** The worker's two marking loops, one arrangement at a time. *)
Definition markArr (n : nat) (edges : list Edge) (arr : list nat) (covered : list bool)
    : list bool :=
  fold_left
    (fun covered slot =>
       let item := get 0 arr slot in
       fold_left
         (fun covered adjSlot =>
            let adjItem := get 0 arr adjSlot in
            <[get2 0 (pairTable n) item adjItem := true]> covered)
         (get [] (fullAdj n edges) slot) covered)
    (range 0 n) covered.

Definition uncoveredPairs (n : nat) (covered : list bool) : list (nat * nat) :=
  flat_map
    (fun a =>
       flat_map
         (fun b => if negb (get false covered (get2 0 (pairTable n) a b)) then [(a, b)] else [])
         (range (a + 1) n))
    (range 0 n).

(** What is left uncovered once [arr0], [arr1], [arr2] are laid on the spiral. *)
Definition uncoveredAfter (n : nat) (arr1 arr2 : list nat) : list (nat * nat) :=
  let edges := fst (buildSpiral n) in
  uncoveredPairs n (markArr n edges arr2 (markArr n edges arr1 (covered0 n edges))).

(** ** [solveSAT]: the clauses handed to the solver *)

Local Open Scope Z_scope.

Definition varIdx (n item slot : nat) : Z := Z.of_nat (item * n + slot + 1).

(** Constraint 1: each item in at least one slot. *)
Definition itemSomewhere (n : nat) : list (list Z) :=
  map (fun item => map (fun slot => varIdx n item slot) (range 0 n)) (range 0 n).

(** Constraint 2: each item in at most one slot. *)
Definition itemOnce (n : nat) : list (list Z) :=
  flat_map
    (fun item =>
       flat_map
         (fun s1 => map (fun s2 => [- varIdx n item s1; - varIdx n item s2])
                        (range (s1 + 1) n))
         (range 0 n))
    (range 0 n).

(** Constraint 3: each slot has at least one item. *)
Definition slotFilled (n : nat) : list (list Z) :=
  map (fun slot => map (fun item => varIdx n item slot) (range 0 n)) (range 0 n).

(** Constraint 4: each slot has at most one item. *)
Definition slotOnce (n : nat) : list (list Z) :=
  flat_map
    (fun slot =>
       flat_map
         (fun i1 => map (fun i2 => [- varIdx n i1 slot; - varIdx n i2 slot])
                        (range (i1 + 1) n))
         (range 0 n))
    (range 0 n).

(** Constraint 5, one uncovered pair: the loop state is
    [(clauses, nextVar, auxVars)]. *)
Definition coverPair (n : nat) (adjMatrix : Table) (st : list (list Z) * Z)
    (pair : nat * nat) : list (list Z) * Z :=
  let '(a, b) := pair in
  let '(clauses, nextVar, auxVars) :=
    fold_left
      (fun st s1 =>
         fold_left
           (fun st s2 =>
              let '(clauses, nextVar, auxVars) := st in
              if tget adjMatrix s1 s2 then
                let aux := nextVar in
                (clauses ++ [ [- aux; varIdx n a s1];
                              [- aux; varIdx n b s2];
                              [- varIdx n a s1; - varIdx n b s2; aux] ],
                 nextVar + 1,
                 auxVars ++ [aux])
              else st)
           (range 0 n) st)
      (range 0 n) (fst st, snd st, []) in
  (clauses ++ [auxVars], nextVar).

(** [clauses] as passed to [solver.ParseSlice]. *)
Definition buildClauses (n : nat) (uncoveredPairs : list (nat * nat)) (adjMatrix : Table)
    : list (list Z) :=
  let clauses := itemSomewhere n ++ itemOnce n ++ slotFilled n ++ slotOnce n in
  let nextVar := Z.of_nat (n * n + 1) in
  fst (fold_left (coverPair n adjMatrix) uncoveredPairs (clauses, nextVar)).

(** A model is the solver's 0/1 vector, [model[v-1]] the value of variable [v]. *)
Definition litTrue (model : list bool) (l : Z) : bool :=
  if 0 <? l then get false model (Z.to_nat (l - 1))
  else negb (get false model (Z.to_nat (- l - 1))).

Definition clauseTrue (model : list bool) (clause : list Z) : bool :=
  existsb (litTrue model) clause.

Definition satisfies (model : list bool) (clauses : list (list Z)) : bool :=
  forallb (clauseTrue model) clauses.

(** "Extract solution": [arr3] read off the model. *)
Definition extract (n : nat) (model : list bool) : list nat :=
  fold_left
    (fun arr3 item =>
       match find (fun slot =>
                     let v := varIdx n item slot in
                     (v <=? Z.of_nat (length model)) && get false model (Z.to_nat (v - 1)))
                  (range 0 n) with
       | Some slot => <[slot := item]> arr3
       | None => arr3
       end)
    (range 0 n) (replicate n 0%nat).

(** [solveSAT], given the answer of the external solver on the clauses
    ([Some model] for [solver.Sat]). *)
Definition solveSAT (solve : list (list Z) -> option (list bool)) (n : nat)
    (uncoveredPairs : list (nat * nat)) (adjMatrix : Table) : bool * list nat :=
  match solve (buildClauses n uncoveredPairs adjMatrix) with
  | None => (false, [])
  | Some model => (true, extract n model)
  end.

End FindFourth.

(** * solver_20/solver.go: the bounded-overlap backtracker, N = 20, K = 5 *)

Module Solver20.

Import Hex.

Definition N : nat := 20.
Definition K : nat := 5.

(** [buildSpiral()]: the spiral of [find_fourth/hex.go] with its helper
    functions written in line, for the constant [N]. *)
Definition buildSpiral : list Edge :=
  let positions := replicate N (mkVec2 0 0) in
  snd (fold_left placeNode (range 1 N) (positions, [])).

(** The fields of [Solver] that are set once; [found] and [solution] are in
    [World] below, [printedLevel] and [mu] only serve the progress lines and
    the lock. *)
Record Solver : Type := mkSolver {
  numPairs : nat;
  numEdges : nat;
  edges : list Edge;
  slotAdj : list (list nat);
  slotDeg : list nat;
  pairTable : list (list nat);
  maxOverlapArr : list Z
}.

Definition NewSolver : Solver :=
  let edges := buildSpiral in
  let slotAdj :=
    fold_left
      (fun slotAdj e =>
         let slotAdj := <[a e := get [] slotAdj (a e) ++ [b e]]> slotAdj in
         <[b e := get [] slotAdj (b e) ++ [a e]]> slotAdj)
      edges (replicate N []) in
  let slotDeg := map (fun i => length (get [] slotAdj i)) (range 0 N) in
  let pairTable :=
    map (fun a =>
           map (fun b =>
                  if a <? b then a * N - a * (a + 1) / 2 + (b - a - 1)
                  else if b <? a then b * N - b * (b + 1) / 2 + (a - b - 1)
                  else 0)
               (range 0 N))
        (range 0 N) in
  mkSolver (N * (N - 1) / 2) (length edges) edges slotAdj slotDeg pairTable [].

Definition pairIndex (s : Solver) (a b : nat) : nat := get2 0 (pairTable s) a b.

Definition SetMaxOverlap (s : Solver) (limits : list Z) : Solver :=
  mkSolver (numPairs s) (numEdges s) (edges s) (slotAdj s) (slotDeg s) (pairTable s) limits.

Definition countNeededPartners (s : Solver) (item : nat) (coveredSet : list bool) : nat :=
  fold_left
    (fun count other =>
       if other =? item then count
       else if negb (get false coveredSet (pairIndex s item other)) then count + 1
       else count)
    (range 0 N) 0.

Definition specialSlot : nat := 19.
Definition specialSlotDegree : nat := 2.

(** Go's [copy(dst, src)]. *)
Definition copySlice {A : Type} (dst src : list A) : list A :=
  take (length dst) src ++ drop (length src) dst.

(** What a worker shares with the others, and its random source. *)
Record World (R : Type) : Type := mkWorld {
  w_found : Flag;
  w_solution : list (list Z);
  w_rng : R
}.
Arguments mkWorld {R} _ _ _.
Arguments w_found {R} _.
Arguments w_solution {R} _.
Arguments w_rng {R} _.

(** The variables of one call of [solve] that [enumerate] updates. *)
Record Local : Type := mkLocal {
  arr : list Z;
  used : list bool;
  filledSlots : list nat;
  coveredSet : list bool
}.

(** The variables of one call of [solve] that [enumerate] only reads. *)
Record Frame : Type := mkFrame {
  level : nat;
  parentArrs : list (list Z);
  remaining : Z;
  maxOverlap : Z;
  order : list nat;
  slotOrder : list nat;
  isLastLevel : bool
}.

(** The scan of the slots adjacent to [slot]: [(newOverlap, newPairs)]. *)
Definition scanAdj (s : Solver) (loc : Local) (slot item : nat) : Z * list nat :=
  fold_left
    (fun st adjSlot =>
       let '(newOverlap, newPairs) := st in
       if Z.eqb (get 0%Z (arr loc) adjSlot) (-1) then st
       else
         let adjItem := Z.to_nat (get 0%Z (arr loc) adjSlot) in
         let pi := pairIndex s item adjItem in
         if get false (coveredSet loc) pi then ((newOverlap + 1)%Z, newPairs)
         else (newOverlap, newPairs ++ [pi]))
    (get [] (slotAdj s) slot) (0%Z, []).

(** The doomed-pair check of the last arrangement. *)
Definition isDoomed (s : Solver) (loc : Local) (item : nat) (newPairs : list nat) : bool :=
  existsb
    (fun filledSlot =>
       let other := Z.to_nat (get 0%Z (arr loc) filledSlot) in
       let pi := pairIndex s item other in
       if get false (coveredSet loc) pi then false
       else negb (existsb (Nat.eqb pi) newPairs))
    (filledSlots loc).

Definition candidatesOf (s : Solver) (fr : Frame) (loc : Local) (depth : nat) : list nat :=
  if isLastLevel fr && (depth =? 0) then
    List.filter
      (fun item =>
         negb (get false (used loc) item)
         && (countNeededPartners s item (coveredSet loc) <=? specialSlotDegree))
      (order fr)
  else List.filter (fun item => negb (get false (used loc) item)) (order fr).

Definition markPairs (coveredSet : list bool) (newPairs : list nat) (v : bool) : list bool :=
  fold_left (fun coveredSet pi => <[pi := v]> coveredSet) newPairs coveredSet.

Definition place (loc : Local) (slot item : nat) (newPairs : list nat) : Local :=
  mkLocal (<[slot := Z.of_nat item]> (arr loc)) (<[item := true]> (used loc))
          (filledSlots loc ++ [slot]) (markPairs (coveredSet loc) newPairs true).

Definition unplace (loc : Local) (slot item : nat) (newPairs : list nat) : Local :=
  mkLocal (<[slot := (-1)%Z]> (arr loc)) (<[item := false]> (used loc))
          (take (length (filledSlots loc) - 1) (filledSlots loc))
          (markPairs (coveredSet loc) newPairs false).

(** [for i, perm := range newParentArrs { s.solution[i+1] = perm }]. *)
Definition storeSolution (solution newParentArrs : list (list Z)) : list (list Z) :=
  fold_left (fun solution i => <[i + 1 := get [] newParentArrs i]> solution)
            (range 0 (length newParentArrs)) solution.

Section Search.

(** [rng.Shuffle] on the worker's random source. *)
Variable R : Type.
Variable Shuffle : R -> list nat -> list nat * R.
Variable s : Solver.

Definition setFound (w : World R) (fl : Flag) : World R :=
  mkWorld fl (w_solution w) (w_rng w).

Fixpoint solve (fuel : nat) (level : nat) (covered : list bool) (coveredCount : nat)
    (parentArrs : list (list Z)) (w : World R) {struct fuel} : World R :=
  match fuel with
  | 0 => w
  | S fuel' =>
    let '(isFound, fl) := Load (w_found w) in
    let w := setFound w fl in
    if isFound then w
    else
      let remaining := (Z.of_nat K - Z.of_nat level - 1)%Z in
      let missing := (Z.of_nat (numPairs s) - Z.of_nat coveredCount)%Z in
      if (missing >? remaining * Z.of_nat (numEdges s))%Z then w
      else
        let maxOverlap :=
          if level <? length (maxOverlapArr s) then get 0%Z (maxOverlapArr s) level
          else
            let minNewEdges := Z.quot (missing + remaining - 1) remaining in
            (Z.of_nat (numEdges s) - minNewEdges)%Z in
        let arr := replicate N (-1)%Z in
        let used := replicate N false in
        let filledSlots := [] in
        let coveredSet := copySlice (replicate (numPairs s) false) covered in
        let '(order, rng) := Shuffle (w_rng w) (range 0 N) in
        let w := mkWorld (w_found w) (w_solution w) rng in
        let isLastLevel := level =? K - 2 in
        let slotOrder :=
          if isLastLevel
          then specialSlot :: List.filter (fun i => negb (i =? specialSlot)) (range 0 N)
          else range 0 N in
        snd (enumerate fuel'
               (mkFrame level parentArrs remaining maxOverlap order slotOrder isLastLevel)
               0 0%Z coveredCount
               (mkLocal arr used filledSlots coveredSet, w))
  end
with enumerate (fuel : nat) (fr : Frame) (depth : nat) (overlap : Z) (localCovered : nat)
    (st : Local * World R) {struct fuel} : Local * World R :=
  match fuel with
  | 0 => st
  | S fuel' =>
    let '(loc, w) := st in
    let '(isFound, fl) := Load (w_found w) in
    let w := setFound w fl in
    if isFound then (loc, w)
    else if depth =? N then
      let arrCopy := copySlice (replicate N 0%Z) (arr loc) in
      let coveredCopy := copySlice (replicate (numPairs s) false) (coveredSet loc) in
      let newParentArrs := parentArrs fr ++ [arrCopy] in
      if level fr =? K - 2 then
        if localCovered =? numPairs s then
          let '(swapped, fl) := CompareAndSwap (w_found w) in
          if swapped
          then (loc, mkWorld fl (storeSolution (w_solution w) newParentArrs) (w_rng w))
          else (loc, setFound w fl)
        else (loc, w)
      else (loc, solve fuel' (level fr + 1) coveredCopy localCovered newParentArrs w)
    else
      let slot := get 0 (slotOrder fr) depth in
      (fix tryItems (candidates : list nat) (st : Local * World R) : Local * World R :=
         match candidates with
         | [] => st
         | item :: candidates' =>
           let '(loc, w) := st in
           let '(isFound, fl) := Load (w_found w) in
           let w := setFound w fl in
           if isFound then (loc, w)
           else
             let '(newOverlap, newPairs) := scanAdj s loc slot item in
             if (overlap + newOverlap >? maxOverlap fr)%Z then tryItems candidates' (loc, w)
             else if (remaining fr =? 1)%Z && isDoomed s loc item newPairs
             then tryItems candidates' (loc, w)
             else
               let '(loc, w) :=
                 enumerate fuel' fr (depth + 1) (overlap + newOverlap)%Z
                           (localCovered + length newPairs)
                           (place loc slot item newPairs, w) in
               tryItems candidates' (unplace loc slot item newPairs, w)
         end) (candidatesOf s fr loc depth) (loc, w)
  end.

(** Enough for [K - 1] levels of [N] slots. *)
Definition solveFuel : nat := K * (N + 2).

(** [Solve]: the workers, one after the other, each with its own source. *)
Definition Solve (seeds : list R) (dummy : R) : bool * list (list Z) :=
  let arr0 := map Z.of_nat (range 0 N) in
  let solution := <[0 := arr0]> (replicate K []) in
  let '(covered, coveredCount) :=
    fold_left
      (fun st e =>
         let '(covered, coveredCount) := st in
         let pi := pairIndex s (a e) (b e) in
         if negb (get false covered pi) then (<[pi := true]> covered, coveredCount + 1)
         else st)
      (edges s) (replicate (numPairs s) false, 0) in
  let w :=
    fold_left
      (fun w seed =>
         solve solveFuel 0 covered coveredCount []
               (mkWorld (w_found w) (w_solution w) seed))
      seeds (mkWorld quietFlag solution dummy) in
  (fst (Load (w_found w)), w_solution w).

End Search.

End Solver20.

(** * solver_20/solver.go, second program: the backtracker for any n and k *)

Module SolverNK.

Import Hex.

(** [buildSpiral(n)]: the spiral of [find_fourth/hex.go] with its helper
    functions written in line; [nil] below two nodes. *)
Definition buildSpiral (n : nat) : list Edge :=
  if n <? 2 then []
  else
    let positions := replicate n (mkVec2 0 0) in
    snd (fold_left placeNode (range 1 n) (positions, [])).

(** The fields of [Solver] that are set once; [found] and [solution] are in
    [World] below, [mu] is the lock around storing. *)
Record Solver : Type := mkSolver {
  n : nat;
  k : nat;
  numPairs : nat;
  numEdges : nat;
  edges : list Edge;
  slotAdj : list (list nat);
  remEdges : list nat;
  pairTable : list (list nat)
}.

Definition NewSolver (n k : nat) : Solver :=
  let edges := buildSpiral n in
  let slotAdj :=
    map (fun s =>
           fold_left
             (fun adj e =>
                if (a e =? s) && (b e <? s) then adj ++ [b e]
                else if (b e =? s) && (a e <? s) then adj ++ [a e]
                else adj)
             edges [])
        (range 0 n) in
  let remEdges :=
    map (fun slot =>
           fold_left
             (fun count e => if (slot <=? a e) || (slot <=? b e) then count + 1 else count)
             edges 0)
        (range 0 (n + 1)) in
  let pairTable :=
    map (fun a =>
           map (fun b =>
                  if a <? b then a * n - a * (a + 1) / 2 + (b - a - 1)
                  else if b <? a then b * n - b * (b + 1) / 2 + (a - b - 1)
                  else 0)
               (range 0 n))
        (range 0 n) in
  mkSolver n k (n * (n - 1) / 2) (length edges) edges slotAdj remEdges pairTable.

Definition pairIndex (s : Solver) (a b : nat) : nat := get2 0 (pairTable s) a b.

(** What a worker shares with the others, and its random source. *)
Record World (R : Type) : Type := mkWorld {
  w_found : Flag;
  w_solution : list (list nat);
  w_rng : R
}.
Arguments mkWorld {R} _ _ _.
Arguments w_found {R} _.
Arguments w_solution {R} _.
Arguments w_rng {R} _.

(** The variables of one call of [solve] that [enumerate] updates; [copy]
    and the marking loops are those of the first program. *)
Record Local : Type := mkLocal {
  arr : list nat;
  used : list bool;
  usedItems : list nat;
  coveredSet : list bool
}.

(** The variables of one call of [solve] that [enumerate] only reads. *)
Record Frame : Type := mkFrame {
  level : nat;
  parentArrs : list (list nat);
  remaining : Z;
  maxOverlap : Z;
  order : list nat
}.

(** The scan of the earlier slots adjacent to [slot]: [(newOverlap, newPairs)]. *)
Definition scanAdj (s : Solver) (loc : Local) (slot item : nat) : Z * list nat :=
  fold_left
    (fun st adjSlot =>
       let '(newOverlap, newPairs) := st in
       let adjItem := get 0 (arr loc) adjSlot in
       let pi := pairIndex s item adjItem in
       if get false (coveredSet loc) pi then ((newOverlap + 1)%Z, newPairs)
       else (newOverlap, newPairs ++ [pi]))
    (get [] (slotAdj s) slot) (0%Z, []).

(** The doomed-pair check of the last arrangement. *)
Definition isDoomed (s : Solver) (loc : Local) (item : nat) (newPairs : list nat) : bool :=
  existsb
    (fun other =>
       let pi := pairIndex s item other in
       if get false (coveredSet loc) pi then false
       else negb (existsb (Nat.eqb pi) newPairs))
    (usedItems loc).

Definition place (loc : Local) (slot item : nat) (newPairs : list nat) : Local :=
  mkLocal (<[slot := item]> (arr loc)) (<[item := true]> (used loc))
          (usedItems loc ++ [item]) (Solver20.markPairs (coveredSet loc) newPairs true).

(** After the recursive call; [arr[slot]] keeps the item. *)
Definition unplace (loc : Local) (item : nat) (newPairs : list nat) : Local :=
  mkLocal (arr loc) (<[item := false]> (used loc))
          (take (length (usedItems loc) - 1) (usedItems loc))
          (Solver20.markPairs (coveredSet loc) newPairs false).

(** [for i, perm := range newParentArrs { s.solution[i+1] = perm }]. *)
Definition storeSolution (solution newParentArrs : list (list nat)) : list (list nat) :=
  fold_left (fun solution i => <[i + 1 := get [] newParentArrs i]> solution)
            (range 0 (length newParentArrs)) solution.

Section Search.

(** [rng.Shuffle] on the worker's random source. *)
Variable R : Type.
Variable Shuffle : R -> list nat -> list nat * R.
Variable s : Solver.

Definition setFound (w : World R) (fl : Flag) : World R :=
  mkWorld fl (w_solution w) (w_rng w).

Fixpoint solve (fuel : nat) (level : nat) (covered : list bool) (coveredCount : nat)
    (parentArrs : list (list nat)) (w : World R) {struct fuel} : World R :=
  match fuel with
  | 0 => w
  | S fuel' =>
    let '(isFound, fl) := Load (w_found w) in
    let w := setFound w fl in
    if isFound then w
    else
      let remaining := (Z.of_nat (k s) - Z.of_nat level - 1)%Z in
      let missing := (Z.of_nat (numPairs s) - Z.of_nat coveredCount)%Z in
      if (missing >? remaining * Z.of_nat (numEdges s))%Z then w
      else
        let minNewEdges := Z.quot (missing + remaining - 1) remaining in
        let maxOverlap := (Z.of_nat (numEdges s) - minNewEdges)%Z in
        let arr := replicate (n s) 0 in
        let used := replicate (n s) false in
        let usedItems := [] in
        let coveredSet := Solver20.copySlice (replicate (numPairs s) false) covered in
        let '(order, rng) := Shuffle (w_rng w) (range 0 (n s)) in
        let w := mkWorld (w_found w) (w_solution w) rng in
        snd (enumerate fuel' (mkFrame level parentArrs remaining maxOverlap order)
               0 0%Z coveredCount
               (mkLocal arr used usedItems coveredSet, w))
  end
with enumerate (fuel : nat) (fr : Frame) (slot : nat) (overlap : Z) (localCovered : nat)
    (st : Local * World R) {struct fuel} : Local * World R :=
  match fuel with
  | 0 => st
  | S fuel' =>
    let '(loc, w) := st in
    let '(isFound, fl) := Load (w_found w) in
    let w := setFound w fl in
    if isFound then (loc, w)
    else
      let missingNow := (Z.of_nat (numPairs s) - Z.of_nat localCovered)%Z in
      let maxPossible :=
        (Z.of_nat (get 0%nat (remEdges s) slot)
         + (remaining fr - 1) * Z.of_nat (numEdges s))%Z in
      if (missingNow >? maxPossible)%Z then (loc, w)
      else if slot =? n s then
        let arrCopy := Solver20.copySlice (replicate (n s) 0) (arr loc) in
        let coveredCopy := Solver20.copySlice (replicate (numPairs s) false) (coveredSet loc) in
        let newParentArrs := parentArrs fr ++ [arrCopy] in
        if (Z.of_nat (level fr) =? Z.of_nat (k s) - 2)%Z then
          if localCovered =? numPairs s then
            let '(swapped, fl) := CompareAndSwap (w_found w) in
            if swapped
            then (loc, mkWorld fl (storeSolution (w_solution w) newParentArrs) (w_rng w))
            else (loc, setFound w fl)
          else (loc, w)
        else (loc, solve fuel' (level fr + 1) coveredCopy localCovered newParentArrs w)
      else
        (fix tryItems (items : list nat) (st : Local * World R) : Local * World R :=
           match items with
           | [] => st
           | item :: items' =>
             let '(loc, w) := st in
             let '(isFound, fl) := Load (w_found w) in
             let w := setFound w fl in
             if isFound then (loc, w)
             else if get false (used loc) item then tryItems items' (loc, w)
             else
               let '(newOverlap, newPairs) := scanAdj s loc slot item in
               if (overlap + newOverlap >? maxOverlap fr)%Z then tryItems items' (loc, w)
               else if (remaining fr =? 1)%Z && isDoomed s loc item newPairs
               then tryItems items' (loc, w)
               else
                 let '(loc, w) :=
                   enumerate fuel' fr (slot + 1) (overlap + newOverlap)%Z
                             (localCovered + length newPairs)
                             (place loc slot item newPairs, w) in
                 tryItems items' (unplace loc item newPairs, w)
           end) (order fr) (loc, w)
  end.

(** Enough for [k - 1] levels of [n] slots. *)
Definition solveFuel : nat := k s * (n s + 2).

(** [Solve]: the workers, one after the other, each with its own source. *)
Definition Solve (seeds : list R) (dummy : R) : bool * list (list nat) :=
  let arr0 := range 0 (n s) in
  let solution := <[0 := arr0]> (replicate (k s) []) in
  let '(covered, coveredCount) :=
    fold_left
      (fun st e =>
         let '(covered, coveredCount) := st in
         let pi := pairIndex s (a e) (b e) in
         if negb (get false covered pi) then (<[pi := true]> covered, coveredCount + 1)
         else st)
      (edges s) (replicate (numPairs s) false, 0) in
  if k s =? 1 then (coveredCount =? numPairs s, solution)
  else
    let w :=
      fold_left
        (fun w seed =>
           solve solveFuel 0 covered coveredCount []
                 (mkWorld (w_found w) (w_solution w) seed))
        seeds (mkWorld quietFlag solution dummy) in
    (fst (Load (w_found w)), w_solution w).

End Search.

End SolverNK.

(** * Facts about slices, tables and coverage *)

Lemma in_range (lo hi x : nat) : In x (range lo hi) <-> lo <= x < hi.
Proof. unfold range. rewrite in_seq. lia. Qed.

Lemma range_length (lo hi : nat) : length (range lo hi) = hi - lo.
Proof. unfold range. apply length_seq. Qed.

Lemma range_split (lo mid hi : nat) :
  lo <= mid <= hi -> range lo hi = range lo mid ++ range mid hi.
Proof.
  intros H. unfold range.
  replace (hi - lo) with ((mid - lo) + (hi - mid)) by lia.
  rewrite seq_app. do 2 f_equal. lia.
Qed.

Lemma range_succ_r (lo hi : nat) : lo <= hi -> range lo (S hi) = range lo hi ++ [hi].
Proof.
  intros H. rewrite (range_split lo hi (S hi)) by lia. f_equal.
  unfold range. replace (S hi - hi) with 1 by lia. reflexivity.
Qed.

Lemma range_cons (lo hi : nat) : lo < hi -> range lo hi = lo :: range (S lo) hi.
Proof.
  intros H. unfold range. replace (hi - lo) with (S (hi - S lo)) by lia. reflexivity.
Qed.

Lemma range_nil (lo hi : nat) : hi <= lo -> range lo hi = [].
Proof. intros H. unfold range. replace (hi - lo) with 0 by lia. reflexivity. Qed.

Lemma get_lookup {A : Type} (d : A) (l : list A) (i : nat) (x : A) :
  l !! i = Some x -> get d l i = x.
Proof. intros H. unfold get. rewrite nth_lookup, H. reflexivity. Qed.

Lemma get_insert_eq {A : Type} (d : A) (l : list A) (i : nat) (x : A) :
  i < length l -> get d (<[i := x]> l) i = x.
Proof. intros H. apply get_lookup. apply list_lookup_insert_eq; assumption. Qed.

Lemma get_insert_ne {A : Type} (d : A) (l : list A) (i j : nat) (x : A) :
  i <> j -> get d (<[i := x]> l) j = get d l j.
Proof.
  intros H. unfold get. rewrite !nth_lookup, list_lookup_insert_ne by assumption.
  reflexivity.
Qed.

Lemma get_insert {A : Type} (d : A) (l : list A) (i j : nat) (x : A) :
  i < length l -> get d (<[i := x]> l) j = if decide (i = j) then x else get d l j.
Proof.
  intros H. destruct (decide (i = j)) as [->|Hne].
  - apply get_insert_eq; assumption.
  - apply get_insert_ne; assumption.
Qed.

Lemma get_ge {A : Type} (d : A) (l : list A) (i : nat) : length l <= i -> get d l i = d.
Proof. intros H. unfold get. apply nth_overflow. assumption. Qed.

Lemma get_replicate {A : Type} (d x : A) (k i : nat) : i < k -> get d (replicate k x) i = x.
Proof. intros H. apply get_lookup. apply lookup_replicate_2. assumption. Qed.

Lemma get_seq (d lo len i : nat) : i < len -> get d (seq lo len) i = lo + i.
Proof. intros H. unfold get. apply seq_nth. assumption. Qed.

Lemma get_identity (n i : nat) : i < n -> get 0 (identity n) i = i.
Proof. intros H. unfold identity. rewrite get_seq by assumption. reflexivity. Qed.

Lemma get_map {A B : Type} (f : A -> B) (db : B) (da : A) (l : list A) (i : nat) :
  i < length l -> get db (map f l) i = f (get da l i).
Proof.
  intros H. unfold get. rewrite (nth_indep _ db (f da)) by (rewrite length_map; assumption).
  apply map_nth.
Qed.

Lemma get_In {A : Type} (d : A) (l : list A) (i : nat) : i < length l -> In (get d l i) l.
Proof. intros H. unfold get. apply nth_In. assumption. Qed.

Lemma In_get {A : Type} (d : A) (l : list A) (x : A) :
  In x l -> exists i, i < length l /\ get d l i = x.
Proof. intros H. unfold get. apply In_nth. assumption. Qed.

(** Tables. *)

Definition tableDims (rows cols : nat) (t : Table) : Prop :=
  length t = rows /\ Forall (fun r => length r = cols) t.

Lemma tableDims_row (rows cols : nat) (t : Table) (i : nat) :
  tableDims rows cols t -> i < rows -> length (get [] t i) = cols.
Proof.
  intros [Hl Hr] Hi. rewrite List.Forall_forall in Hr. apply Hr, get_In. lia.
Qed.

Lemma newTable_dims (rows cols : nat) : tableDims rows cols (newTable rows cols).
Proof.
  unfold newTable. split.
  - apply length_replicate.
  - apply List.Forall_forall. intros r Hr. apply list_elem_of_In, elem_of_replicate in Hr.
    destruct Hr as [-> _]. apply length_replicate.
Qed.

Lemma tset_dims (rows cols : nat) (t : Table) (i j : nat) (v : bool) :
  tableDims rows cols t -> tableDims rows cols (tset t i j v).
Proof.
  intros [Hl Hr]. unfold tset, set2. split.
  - rewrite length_insert. assumption.
  - destruct (decide (i < length t)) as [Hi|Hi].
    + apply Forall_insert; [assumption|]. rewrite length_insert.
      rewrite List.Forall_forall in Hr. apply Hr, get_In. assumption.
    + rewrite list_insert_ge by lia. assumption.
Qed.

Lemma tget_newTable (rows cols i j : nat) : tget (newTable rows cols) i j = false.
Proof.
  unfold tget, get2, newTable.
  destruct (decide (i < rows)) as [Hi|Hi].
  - rewrite get_replicate by assumption.
    destruct (decide (j < cols)) as [Hj|Hj].
    + apply get_replicate. assumption.
    + apply get_ge. rewrite length_replicate. lia.
  - rewrite (get_ge [] _ i) by (rewrite length_replicate; lia). apply get_ge. simpl. lia.
Qed.

Lemma tget_tset (rows cols : nat) (t : Table) (i j i' j' : nat) (v : bool) :
  tableDims rows cols t -> i < rows -> j < cols ->
  tget (tset t i j v) i' j' = if decide (i = i' /\ j = j') then v else tget t i' j'.
Proof.
  intros Hd Hi Hj. pose proof (tableDims_row _ _ _ i Hd Hi) as Hrow.
  destruct Hd as [Hl Hr]. unfold tget, tset, get2, set2.
  rewrite get_insert by lia.
  destruct (decide (i = i')) as [<-|Hne].
  - rewrite get_insert by lia.
    destruct (decide (j = j')) as [<-|Hne'].
    + rewrite decide_True by auto. reflexivity.
    + rewrite decide_False by tauto. reflexivity.
  - rewrite decide_False by tauto. reflexivity.
Qed.

(** Coverage as a computation. *)

Definition pairEqb (p q : nat * nat) : bool :=
  (fst p =? fst q) && (snd p =? snd q).

Definition coversb (ps : list (nat * nat)) (a b : nat) : bool :=
  existsb (pairEqb (a, b)) ps || existsb (pairEqb (b, a)) ps.

Definition coversAllb (n : nat) (ps : list (nat * nat)) : bool :=
  forallb (fun a => forallb (fun b => coversb ps a b) (range (a + 1) n)) (range 0 n).

Lemma pairEqb_eq (p q : nat * nat) : pairEqb p q = true <-> p = q.
Proof.
  destruct p as [a b], q as [c d]. unfold pairEqb. simpl.
  rewrite andb_true_iff, !Nat.eqb_eq. split.
  - intros [-> ->]. reflexivity.
  - intros [= -> ->]. auto.
Qed.

Lemma existsb_pairEqb (ps : list (nat * nat)) (p : nat * nat) :
  existsb (pairEqb p) ps = true <-> In p ps.
Proof.
  rewrite existsb_exists. split.
  - intros [q [Hq He]]. apply pairEqb_eq in He. subst. assumption.
  - intros H. exists p. split; [assumption|]. apply pairEqb_eq. reflexivity.
Qed.

Lemma coversb_spec (ps : list (nat * nat)) (a b : nat) :
  coversb ps a b = true <-> covers ps a b.
Proof.
  unfold coversb, covers. rewrite orb_true_iff, !existsb_pairEqb. reflexivity.
Qed.

Lemma coversAllb_spec (n : nat) (ps : list (nat * nat)) :
  coversAllb n ps = true <-> coversAll n ps.
Proof.
  unfold coversAllb, coversAll. rewrite forallb_forall. split.
  - intros H a b Hab. apply coversb_spec.
    specialize (H a). rewrite forallb_forall in H.
    apply H; apply in_range; lia.
  - intros H a Ha. apply forallb_forall. intros b Hb.
    apply in_range in Ha. apply in_range in Hb.
    apply coversb_spec, H. lia.
Qed.

Definition isArrangementb (n : nat) (arr : list nat) : bool :=
  (length arr =? n) && forallb (fun i => existsb (Nat.eqb i) arr) (range 0 n).

Lemma NoDup_of_surjective (n : nat) (arr : list nat) :
  length arr = n -> (forall i, i < n -> In i arr) ->
  List.NoDup arr /\ Forall (fun i => i < n) arr.
Proof.
  intros Hlen Hsur.
  assert (Hincl : incl (seq 0 n) arr).
  { intros i Hi. apply in_seq in Hi. apply Hsur. lia. }
  assert (Hnd : List.NoDup arr).
  { apply (@List.NoDup_incl_NoDup _ (seq 0 n));
      [apply List.seq_NoDup| rewrite length_seq; lia | assumption]. }
  split; [assumption|].
  apply List.Forall_forall. intros i Hi.
  assert (Hrev : incl arr (seq 0 n)).
  { apply List.NoDup_length_incl;
      [apply List.seq_NoDup | rewrite length_seq; lia | assumption]. }
  apply Hrev in Hi. apply in_seq in Hi. lia.
Qed.

Lemma isArrangementb_sound (n : nat) (arr : list nat) :
  isArrangementb n arr = true -> isArrangement n arr.
Proof.
  unfold isArrangementb, isArrangement. rewrite andb_true_iff, Nat.eqb_eq, forallb_forall.
  intros [Hlen Hall]. split; [assumption|].
  apply NoDup_of_surjective; [assumption|].
  intros i Hi. specialize (Hall i). rewrite existsb_exists in Hall.
  destruct Hall as [j [Hj He]]; [apply in_range; lia|].
  apply Nat.eqb_eq in He. subst. assumption.
Qed.

(** * The n = 15 witness on the spiral (find_fourth) *)

Module SpiralWitness.

Import Hex FindFourth.

(** The spiral's edge list as slot pairs. *)
Definition spiralEdges (n : nat) : list (nat * nat) :=
  map (fun e => (a e, b e)) (fst (buildSpiral n)).

Definition arr1 : list nat := [4; 11; 7; 10; 6; 12; 1; 5; 14; 0; 9; 3; 8; 13; 2].
Definition arr2 : list nat := [12; 14; 9; 5; 8; 0; 10; 1; 3; 6; 11; 13; 7; 2; 4].
Definition arr3 : list nat := [8; 14; 11; 3; 5; 6; 7; 12; 2; 1; 13; 0; 9; 4; 10].

(** The slot an arrangement puts an item in. *)
Definition slotOf (arr : list nat) (item : nat) : nat :=
  default 0 (fst <$> list_find (Nat.eqb item) arr).

Lemma spiral15_edges :
  spiralEdges 15 =
  [ (0, 1); (0, 2); (1, 2); (0, 3); (2, 3); (0, 4); (3, 4); (0, 5); (4, 5); (0, 6);
    (1, 6); (5, 6); (1, 7); (6, 7); (1, 8); (7, 8); (1, 9); (2, 9); (8, 9); (2, 10);
    (9, 10); (2, 11); (3, 11); (10, 11); (3, 12); (11, 12); (3, 13); (4, 13);
    (12, 13); (4, 14); (13, 14) ].
Proof. vm_compute. reflexivity. Qed.

(** C8.  On the edge set produced by [buildSpiral 15] (31 edges), the
    arrangements [identity], [arr1], [arr2], [arr3] are bijections of
    {0,...,14} and their pair-sets together contain every one of the 105
    unordered pairs.  In the terms of [main]: the pairs its bookkeeping leaves
    uncovered after [arr0], [arr1], [arr2] all sit on adjacent slots of [arr3]. *)
Theorem spiral15_witness_covers :
  let E := spiralEdges 15 in
  snd (buildSpiral 15) = 31
  /\ isArrangement 15 (identity 15) /\ isArrangement 15 arr1
  /\ isArrangement 15 arr2 /\ isArrangement 15 arr3
  /\ coversAll 15 (pairSet E (identity 15) ++ pairSet E arr1 ++ pairSet E arr2 ++ pairSet E arr3)
  /\ Forall (fun p => tget (adjMatrix 15 (fst (buildSpiral 15)))
                           (slotOf arr3 (fst p)) (slotOf arr3 (snd p)) = true)
            (uncoveredAfter 15 arr1 arr2).
Proof.
  intros E. subst E.
  split; [vm_compute; reflexivity|].
  repeat (split; [apply isArrangementb_sound; vm_compute; reflexivity|]).
  split.
  - apply coversAllb_spec. rewrite spiral15_edges. vm_compute. reflexivity.
  - apply List.Forall_forall. intros p Hp.
    assert (Hb : forallb (fun p => tget (adjMatrix 15 (fst (buildSpiral 15)))
                           (slotOf arr3 (fst p)) (slotOf arr3 (snd p)))
                         (uncoveredAfter 15 arr1 arr2) = true)
      by (vm_compute; reflexivity).
    rewrite forallb_forall in Hb. apply Hb. assumption.
Qed.

End SpiralWitness.


(** * Facts about the edge tables and bitmask graphs *)

Module GraphFacts.

Import Graphs.

(** ** Bits of a [Graph] *)

Lemma bit_small (k : nat) : k < 64 -> bit k = (2 ^ Z.of_nat k)%Z.
Proof.
  intros H. unfold bit, u64. rewrite Z.shiftl_1_l.
  apply Z.mod_small. split; [apply Z.pow_nonneg; lia|].
  apply Z.pow_lt_mono_r; lia.
Qed.

Lemma bit_big (k : nat) : 64 <= k -> bit k = 0%Z.
Proof.
  intros H. unfold bit, u64. rewrite Z.shiftl_1_l.
  replace (Z.of_nat k) with (64 + (Z.of_nat k - 64))%Z by lia.
  rewrite Z.pow_add_r by lia. rewrite Z.mul_comm. apply Z.mod_mul. lia.
Qed.

Lemma testbit_bit (k : nat) (m : Z) :
  (0 <= m)%Z -> Z.testbit (bit k) m = (k <? 64) && (m =? Z.of_nat k)%Z.
Proof.
  intros Hm. destruct (Nat.ltb_spec k 64) as [Hk|Hk].
  - rewrite bit_small by assumption. simpl.
    destruct (Z.eqb_spec m (Z.of_nat k)) as [->|Hne].
    + apply Z.pow2_bits_true. lia.
    + apply Z.pow2_bits_false. lia.
  - rewrite bit_big by assumption. simpl. apply Z.bits_0.
Qed.

(** The test [g & (1 << idx) != 0] reads bit [idx] of [g]. *)
Lemma land_bit_zero (g : Graph) (k : nat) :
  (Z.land g (bit k) =? 0)%Z = negb (Z.testbit g (Z.of_nat k) && (k <? 64)).
Proof.
  destruct (Nat.ltb_spec k 64) as [Hk|Hk].
  - rewrite andb_true_r.
    destruct (Z.testbit g (Z.of_nat k)) eqn:Hb; simpl.
    + apply Z.eqb_neq. intros Hz.
      assert (Ht : Z.testbit (Z.land g (bit k)) (Z.of_nat k) = true).
      { rewrite Z.land_spec, Hb, testbit_bit by lia.
        rewrite Z.eqb_refl. destruct (Nat.ltb_spec k 64); [reflexivity|lia]. }
      rewrite Hz, Z.bits_0 in Ht. discriminate.
    + apply Z.eqb_eq. apply Z.bits_inj'. intros m Hm.
      rewrite Z.land_spec, Z.bits_0, testbit_bit by lia.
      destruct (Z.eqb_spec m (Z.of_nat k)) as [->|Hne].
      * rewrite Hb. reflexivity.
      * rewrite andb_false_r, andb_false_r. reflexivity.
  - rewrite bit_big by assumption. rewrite Z.land_0_r, andb_false_r. reflexivity.
Qed.

(** A graph is well formed for [m] edges when it is a [uint64] whose set bits
    are edge ids below [m]. *)
Definition validGraph (m : nat) (g : Graph) : Prop :=
  (0 <= g < 2 ^ 64)%Z /\ (g < 2 ^ Z.of_nat m)%Z.

Lemma testbit_above (g : Z) (k : Z) :
  (0 <= g < 2 ^ k)%Z -> forall m, (k <= m)%Z -> Z.testbit g m = false.
Proof.
  intros [H0 H1] m Hm.
  destruct (Z.eq_dec g 0%Z) as [->|Hne]; [apply Z.bits_0|].
  apply Z.bits_above_log2; [assumption|].
  assert (Hk : (0 <= k)%Z).
  { destruct (Z.le_gt_cases 0%Z k); [assumption|].
    rewrite Z.pow_neg_r in H1 by lia. lia. }
  assert (Z.log2 g < k)%Z by (apply Z.log2_lt_pow2; lia). lia.
Qed.

Lemma validGraph_bits (m : nat) (g : Graph) (k : nat) :
  validGraph m g -> Z.testbit g (Z.of_nat k) = true -> k < m /\ k < 64.
Proof.
  intros [H64 Hm] Hb. split.
  - destruct (Nat.lt_ge_cases k m) as [|Hge]; [assumption|].
    rewrite (testbit_above g (Z.of_nat m)) in Hb by lia. discriminate.
  - destruct (Nat.lt_ge_cases k 64) as [|Hge]; [assumption|].
    rewrite (testbit_above g 64) in Hb by lia. discriminate.
Qed.

Lemma validGraph_of_bits (m : nat) (g : Graph) :
  (0 <= g)%Z ->
  (forall k, Z.testbit g (Z.of_nat k) = true -> k < m /\ k < 64) ->
  validGraph m g.
Proof.
  intros H0 Hb.
  assert (Hlt : forall b : nat, (forall k, Z.testbit g (Z.of_nat k) = true -> k < b) ->
                          (g < 2 ^ Z.of_nat b)%Z).
  { intros b Hk. destruct (Z.eq_dec g 0%Z) as [->|Hne]; [apply Z.pow_pos_nonneg; lia|].
    apply Z.log2_lt_pow2; [lia|].
    assert (Ht : Z.testbit g (Z.log2 g) = true) by (apply Z.bit_log2; lia).
    pose proof (Z.log2_nonneg g) as Hl.
    specialize (Hk (Z.to_nat (Z.log2 g))). rewrite Z2Nat.id in Hk by assumption.
    specialize (Hk Ht). lia. }
  split; [split; [assumption|]|].
  - apply (Hlt 64). intros k Hk. apply Hb in Hk. lia.
  - apply Hlt. intros k Hk. apply Hb in Hk. lia.
Qed.

(** Two valid graphs with the same bits are equal. *)
Lemma graph_ext (g h : Graph) :
  (0 <= g)%Z -> (0 <= h)%Z ->
  (forall k : nat, Z.testbit g (Z.of_nat k) = Z.testbit h (Z.of_nat k)) -> g = h.
Proof.
  intros Hg Hh H. apply Z.bits_inj'. intros m Hm.
  specialize (H (Z.to_nat m)). rewrite Z2Nat.id in H by assumption. assumption.
Qed.

(** An or-accumulation of single bits, as in the relabelling and parsing
    loops. *)
Definition orBits {A : Type} (sel : A -> bool) (idx : A -> nat) (l : list A) (acc : Graph)
    : Graph :=
  fold_left (fun acc x => if sel x then Z.lor acc (bit (idx x)) else acc) l acc.

Lemma orBits_testbit {A : Type} (sel : A -> bool) (idx : A -> nat) (l : list A)
    (acc : Graph) (k : nat) :
  Z.testbit (orBits sel idx l acc) (Z.of_nat k) =
  Z.testbit acc (Z.of_nat k) || existsb (fun x => sel x && (idx x =? k) && (k <? 64)) l.
Proof.
  unfold orBits. revert acc. induction l as [|x l IH]; intros acc; simpl.
  - rewrite orb_false_r. reflexivity.
  - rewrite IH. destruct (sel x); simpl.
    + rewrite Z.lor_spec, testbit_bit by lia.
      rewrite <- orb_assoc. f_equal. f_equal.
      destruct (Nat.eqb_spec (idx x) k) as [->|Hne].
      * rewrite Z.eqb_refl, andb_true_r. reflexivity.
      * destruct (Z.eqb_spec (Z.of_nat k) (Z.of_nat (idx x))); [lia|].
        rewrite andb_false_r. reflexivity.
    + reflexivity.
Qed.

Lemma orBits_nonneg {A : Type} (sel : A -> bool) (idx : A -> nat) (l : list A)
    (acc : Graph) : (0 <= acc)%Z -> (0 <= orBits sel idx l acc)%Z.
Proof.
  unfold orBits. revert acc. induction l as [|x l IH]; intros acc Hacc; simpl.
  - assumption.
  - apply IH. destruct (sel x); [|assumption].
    apply Z.lor_nonneg. split; [assumption|].
    unfold bit, u64. apply Z.mod_pos_bound. lia.
Qed.


(** ** The tables of [initEdges] *)

Lemma fold_left_map_pair {S B C : Type} (F : S -> C -> S) (mk : B -> C) (l : list B) (s : S) :
  fold_left (fun st b => F st (mk b)) l s = fold_left F (map mk l) s.
Proof. revert s. induction l as [|b l IH]; intros s; simpl; [reflexivity|apply IH]. Qed.

(** A nested pair of [for] loops is one loop over the pairs in loop order. *)
Lemma nested_fold {S : Type} (step : S -> nat -> nat -> S) (inner : nat -> list nat)
    (outer : list nat) (s : S) :
  fold_left (fun st a => fold_left (fun st b => step st a b) (inner a) st) outer s =
  fold_left (fun st p => step st (fst p) (snd p))
            (flat_map (fun a => map (pair a) (inner a)) outer) s.
Proof.
  revert s. induction outer as [|a outer IH]; intros s; simpl; [reflexivity|].
  rewrite fold_left_app, <- IH. f_equal.
  rewrite <- (fold_left_map_pair (fun st p => step st (fst p) (snd p)) (pair a)).
  reflexivity.
Qed.

(** Row-major pairs [i < j < n], the order of [initEdges]. *)
Definition pairsRM (n : nat) : list (nat * nat) :=
  flat_map (fun i => map (pair i) (range (i + 1) n)) (range 0 n).

Lemma in_pairsRM (n i j : nat) : In (i, j) (pairsRM n) <-> i < j < n.
Proof.
  unfold pairsRM. rewrite in_flat_map. split.
  - intros [a [Ha Hin]]. apply in_map_iff in Hin. destruct Hin as [b [Heq Hb]].
    inversion Heq; subst. apply in_range in Ha. apply in_range in Hb. lia.
  - intros H. exists i. split; [apply in_range; lia|].
    apply in_map_iff. exists j. split; [reflexivity|apply in_range; lia].
Qed.

Lemma NoDup_map_pair {A B : Type} (a : A) (l : list B) :
  List.NoDup l -> List.NoDup (map (pair a) l).
Proof.
  intros H. apply List.NoDup_map_NoDup_ForallPairs; [|assumption].
  intros x y _ _ Heq. inversion Heq. reflexivity.
Qed.

Lemma NoDup_flat_map_pair {A B : Type} (l : list A) (f : A -> list B) :
  List.NoDup l -> (forall a, In a l -> List.NoDup (f a)) ->
  List.NoDup (flat_map (fun a => map (pair a) (f a)) l).
Proof.
  induction l as [|a l IH]; intros Hnd Hf; simpl; [constructor|].
  inversion Hnd as [|? ? Hnotin Hnd']; subst.
  apply NoDup_ListNoDup. apply NoDup_app. split; [|split].
  - apply NoDup_ListNoDup, NoDup_map_pair, Hf. left. reflexivity.
  - intros [x y] Hx Hy. apply list_elem_of_In in Hx. apply list_elem_of_In in Hy.
    apply in_map_iff in Hx. destruct Hx as [b [Heq _]]. inversion Heq; subst.
    apply in_flat_map in Hy. destruct Hy as [a' [Ha' Hin]].
    apply in_map_iff in Hin. destruct Hin as [b' [Heq' _]]. inversion Heq'; subst.
    contradiction.
  - apply NoDup_ListNoDup, IH; [assumption|]. intros a' Ha'. apply Hf. right. assumption.
Qed.

Lemma range_NoDup (lo hi : nat) : List.NoDup (range lo hi).
Proof. unfold range. apply List.seq_NoDup. Qed.

Lemma pairsRM_NoDup (n : nat) : List.NoDup (pairsRM n).
Proof.
  unfold pairsRM. apply NoDup_flat_map_pair; [apply range_NoDup|].
  intros a _. apply range_NoDup.
Qed.

Lemma pairsRM_prefix_length (n m : nat) :
  m <= n ->
  2 * length (flat_map (fun i => map (pair i) (range (i + 1) n)) (range 0 m)) =
  m * (2 * n - m - 1).
Proof.
  induction m as [|m IH]; intros Hm; [reflexivity|].
  rewrite range_succ_r by lia. rewrite flat_map_app, length_app. simpl.
  rewrite app_nil_r, length_map, range_length.
  specialize (IH ltac:(lia)). nia.
Qed.

Lemma pairsRM_length (n : nat) : length (pairsRM n) = n * (n - 1) / 2.
Proof.
  pose proof (pairsRM_prefix_length n n ltac:(lia)) as H. unfold pairsRM.
  replace (n * (2 * n - n - 1)) with (n * (n - 1)) in H by (f_equal; lia).
  rewrite <- H. rewrite Nat.mul_comm, Nat.div_mul by lia. reflexivity.
Qed.

(** What the rest of the development needs from the tables: [edgePairs] and
    [edgeIndex] are inverse to each other between edge ids and pairs [i < j]. *)
Record tablesOK (T : Tables) : Prop := mkTablesOK {
  ok_pairs_length : length (edgePairs T) = numEdges T;
  ok_pair_of_id : forall k, k < numEdges T ->
    exists i j, get (0, 0) (edgePairs T) k = (i, j) /\ i < j < n T
                /\ get2 0 (edgeIndex T) i j = k;
  ok_id_of_pair : forall i j, i < j < n T ->
    get2 0 (edgeIndex T) i j < numEdges T
    /\ get (0, 0) (edgePairs T) (get2 0 (edgeIndex T) i j) = (i, j)
}.

Definition natDims (rows cols : nat) (t : list (list nat)) : Prop :=
  length t = rows /\ Forall (fun r => length r = cols) t.

Lemma natDims_set2 (rows cols : nat) (t : list (list nat)) (i j v : nat) :
  natDims rows cols t -> natDims rows cols (set2 t i j v).
Proof.
  intros [Hl Hr]. unfold set2. split.
  - rewrite length_insert. assumption.
  - destruct (decide (i < length t)) as [Hi|Hi].
    + apply Forall_insert; [assumption|]. rewrite length_insert.
      rewrite List.Forall_forall in Hr. apply Hr, get_In. assumption.
    + rewrite list_insert_ge by lia. assumption.
Qed.

Lemma get2_set2 (rows cols : nat) (t : list (list nat)) (i j i' j' v : nat) :
  natDims rows cols t -> i < rows -> j < cols ->
  get2 0 (set2 t i j v) i' j' = if decide (i = i' /\ j = j') then v else get2 0 t i' j'.
Proof.
  intros [Hl Hr] Hi Hj.
  assert (Hrow : length (get [] t i) = cols).
  { rewrite List.Forall_forall in Hr. apply Hr, get_In. lia. }
  unfold get2, set2. rewrite get_insert by lia.
  destruct (decide (i = i')) as [<-|Hne].
  - rewrite get_insert by lia.
    destruct (decide (j = j')) as [<-|Hne'].
    + rewrite decide_True by auto. reflexivity.
    + rewrite decide_False by tauto. reflexivity.
  - rewrite decide_False by tauto. reflexivity.
Qed.

Definition initStep (st : list (list nat) * list (nat * nat) * nat) (i j : nat)
    : list (list nat) * list (nat * nat) * nat :=
  let '(edgeIndex, edgePairs, idx) := st in
  (set2 (set2 edgeIndex i j idx) j i idx, <[idx := (i, j)]> edgePairs, S idx).

Lemma initFold_spec (n : nat) (L : list (nat * nat)) (EI0 : list (list nat))
    (EP0 : list (nat * nat)) :
  natDims n n EI0 -> length L <= length EP0 -> List.NoDup L ->
  (forall i j, In (i, j) L -> i < j < n) ->
  let '(EI, EP, idx) :=
    fold_left (fun st p => initStep st (fst p) (snd p)) L (EI0, EP0, 0) in
  idx = length L /\ natDims n n EI /\ length EP = length EP0
  /\ forall k, k < length L ->
       get (0, 0) EP k = get (0, 0) L k
       /\ get2 0 EI (fst (get (0, 0) L k)) (snd (get (0, 0) L k)) = k.
Proof.
  intros Hd. induction L as [|p L IH] using rev_ind; intros Hlen Hnd Hin.
  - simpl. split; [reflexivity|]. split; [assumption|]. split; [reflexivity|].
    intros k Hk. simpl in Hk. lia.
  - rewrite fold_left_app. simpl.
    rewrite length_app in Hlen. simpl in Hlen.
    apply List.NoDup_remove in Hnd. rewrite app_nil_r in Hnd. destruct Hnd as [Hnd Hp].
    specialize (IH ltac:(lia) Hnd).
    destruct (fold_left _ L _) as [[EI EP] idx].
    destruct IH as (Hidx & HdE & HlE & Hk).
    { intros i j Hij. apply Hin. apply in_or_app. left. assumption. }
    destruct p as [i j]. simpl.
    assert (Hij : i < j < n) by (apply Hin; apply in_or_app; right; left; reflexivity).
    subst idx. rewrite length_app. simpl.
    split; [lia|]. split; [do 2 apply natDims_set2; assumption|].
    split; [rewrite length_insert; assumption|].
    intros k Hklt.
    destruct (decide (k = length L)) as [->|Hne].
    + rewrite get_insert_eq by lia.
      unfold get at 1 2 3. rewrite !app_nth2 by lia. rewrite Nat.sub_diag. simpl.
      split; [reflexivity|].
      rewrite (get2_set2 n n) by (try apply natDims_set2; try assumption; lia).
      rewrite decide_False by lia.
      rewrite (get2_set2 n n) by (try assumption; lia).
      rewrite decide_True by auto. reflexivity.
    + assert (Hk' : k < length L) by lia.
      specialize (Hk k Hk'). destruct Hk as [Hk1 Hk2].
      rewrite get_insert_ne by lia.
      unfold get at 2 3 4. rewrite !app_nth1 by lia. fold (get (0, 0) L k).
      split; [assumption|].
      assert (HinL : In (get (0, 0) L k) L) by (apply get_In; assumption).
      destruct (get (0, 0) L k) as [i' j'] eqn:Hg. simpl in *.
      assert (Hij' : i' < j' < n).
      { apply Hin. apply in_or_app. left. assumption. }
      rewrite (get2_set2 n n) by (try apply natDims_set2; try assumption; lia).
      rewrite decide_False by lia.
      rewrite (get2_set2 n n) by (try assumption; lia).
      rewrite decide_False; [assumption|].
      intros [-> ->]. contradiction.
Qed.

Lemma initEdges_fields (vertices : nat) :
  n (initEdges vertices) = vertices
  /\ numEdges (initEdges vertices) = vertices * (vertices - 1) / 2.
Proof.
  unfold initEdges.
  destruct (fold_left _ (range 0 vertices) _) as [[EI EP] idx]. simpl. auto.
Qed.

Lemma initEdges_ok (vertices : nat) : tablesOK (initEdges vertices).
Proof.
  pose proof (initFold_spec vertices (pairsRM vertices)
                (replicate vertices (replicate vertices 0))
                (replicate (vertices * (vertices - 1) / 2) (0, 0))) as H.
  unfold initEdges.
  rewrite (nested_fold initStep (fun i => range (i + 1) vertices)).
  fold (pairsRM vertices).
  destruct (fold_left _ (pairsRM vertices) _) as [[EI EP] idx].
  destruct H as (Hidx & HdE & HlE & Hk).
  - split; [apply length_replicate|].
    apply List.Forall_forall. intros r Hr. apply list_elem_of_In, elem_of_replicate in Hr.
    destruct Hr as [-> _]. apply length_replicate.
  - rewrite length_replicate, pairsRM_length. lia.
  - apply pairsRM_NoDup.
  - intros i j Hij. apply in_pairsRM. assumption.
  - rewrite length_replicate in HlE. rewrite pairsRM_length in Hk.
    constructor; simpl.
    + assumption.
    + intros k Hklt. specialize (Hk k Hklt). destruct Hk as [Hk1 Hk2].
      assert (HinL : In (get (0, 0) (pairsRM vertices) k) (pairsRM vertices)).
      { apply get_In. rewrite pairsRM_length. assumption. }
      destruct (get (0, 0) (pairsRM vertices) k) as [i j] eqn:Hg.
      apply in_pairsRM in HinL. exists i, j. simpl in Hk2. auto.
    + intros i j Hij. apply in_pairsRM in Hij.
      destruct (In_get (0, 0) _ _ Hij) as [k [Hklt Hg]].
      rewrite pairsRM_length in Hklt. specialize (Hk k Hklt).
      rewrite Hg in Hk. simpl in Hk. destruct Hk as [Hk1 Hk2].
      rewrite Hk2. split; [assumption|]. assumption.
Qed.

(** ** Heap's algorithm, as written in [generate] *)

Lemma swap_length (arr : list nat) (i j : nat) : length (swap arr i j) = length arr.
Proof. unfold swap. rewrite !length_insert. reflexivity. Qed.

Lemma get_swap (arr : list nat) (i j m : nat) :
  i < length arr -> j < length arr ->
  get 0 (swap arr i j) m =
  if decide (m = j) then get 0 arr i
  else if decide (m = i) then get 0 arr j else get 0 arr m.
Proof.
  intros Hi Hj. unfold swap.
  rewrite get_insert by (rewrite length_insert; assumption).
  destruct (decide (j = m)) as [->|Hne].
  - rewrite decide_True by reflexivity. reflexivity.
  - rewrite decide_False by auto. rewrite get_insert by assumption.
    destruct (decide (i = m)) as [->|Hne'].
    + rewrite decide_True by reflexivity. reflexivity.
    + rewrite decide_False by auto. reflexivity.
Qed.

Lemma count_occ_insert (l : list nat) (i y x : nat) :
  i < length l ->
  count_occ Nat.eq_dec (<[i := y]> l) x + (if Nat.eq_dec (get 0 l i) x then 1 else 0) =
  count_occ Nat.eq_dec l x + (if Nat.eq_dec y x then 1 else 0).
Proof.
  revert i. induction l as [|h l IH]; intros i Hi; simpl in Hi; [lia|].
  destruct i as [|i]; simpl.
  - unfold get. simpl. destruct (Nat.eq_dec y x), (Nat.eq_dec h x); lia.
  - specialize (IH i ltac:(lia)). unfold get in *. simpl.
    destruct (Nat.eq_dec h x); lia.
Qed.

Lemma swap_Permutation (arr : list nat) (i j : nat) :
  i < length arr -> j < length arr -> Permutation (swap arr i j) arr.
Proof.
  intros Hi Hj. apply (Permutation_count_occ Nat.eq_dec). intros x.
  unfold swap.
  pose proof (count_occ_insert arr i (get 0 arr j) x Hi) as H1.
  pose proof (count_occ_insert (<[i := get 0 arr j]> arr) j (get 0 arr i) x
                ltac:(rewrite length_insert; assumption)) as H2.
  rewrite get_insert in H2 by assumption.
  destruct (decide (i = j)) as [->|Hne].
  - destruct (Nat.eq_dec (get 0 arr j) x); lia.
  - destruct (Nat.eq_dec (get 0 arr j) x), (Nat.eq_dec (get 0 arr i) x); lia.
Qed.

(** [q] rearranges the first [k] entries of [a] and leaves the rest alone. *)
Definition arranges (k : nat) (a q : list nat) : Prop :=
  length q = length a /\ Permutation (take k q) (take k a) /\ drop k q = drop k a.

Lemma arranges_refl (k : nat) (a : list nat) : arranges k a a.
Proof. repeat split; reflexivity. Qed.

Lemma arranges_trans (k : nat) (a b c : list nat) :
  arranges k a b -> arranges k b c -> arranges k a c.
Proof.
  intros (H1 & H2 & H3) (H4 & H5 & H6). repeat split.
  - congruence.
  - etransitivity; eassumption.
  - congruence.
Qed.

Lemma arranges_mono (k k' : nat) (a q : list nat) :
  k <= k' -> arranges k a q -> arranges k' a q.
Proof.
  intros Hk (H1 & H2 & H3). repeat split; [assumption| |].
  - replace k' with (k + (k' - k)) by lia.
    rewrite <- !take_take_drop, H3. apply Permutation_app_tail. assumption.
  - replace k' with (k + (k' - k)) by lia.
    rewrite <- !drop_drop, H3. reflexivity.
Qed.

Lemma arranges_swap (k : nat) (a : list nat) (i j : nat) :
  i < k -> j < k -> k <= length a -> arranges k a (swap a i j).
Proof.
  intros Hi Hj Hk. repeat split.
  - apply swap_length.
  - unfold swap. rewrite !take_insert_lt by assumption.
    assert (Hl : length (take k a) = k) by (apply length_take_le; assumption).
    assert (Hgi : get 0 a i = get 0 (take k a) i).
    { unfold get. rewrite !nth_lookup, lookup_take_lt by assumption. reflexivity. }
    assert (Hgj : get 0 a j = get 0 (take k a) j).
    { unfold get. rewrite !nth_lookup, lookup_take_lt by assumption. reflexivity. }
    rewrite Hgi, Hgj. apply (swap_Permutation (take k a)); lia.
  - unfold swap. rewrite !drop_insert_lt by assumption. reflexivity.
Qed.

Lemma get_take (l : list nat) (k i : nat) : i < k -> get 0 (take k l) i = get 0 l i.
Proof. intros H. unfold get. rewrite !nth_lookup, lookup_take_lt by assumption. reflexivity. Qed.

Lemma lookup_get (l : list nat) (i : nat) : i < length l -> l !! i = Some (get 0 l i).
Proof.
  intros H. unfold get. destruct (nth_lookup_or_length l i 0) as [Hs|Hl]; [assumption|lia].
Qed.

(** Peeling position [k'] off a rearrangement of the first [S k'] entries. *)
Lemma arranges_split (k' : nat) (a c q : list nat) :
  S k' <= length a -> arranges (S k') a c ->
  (arranges k' c q <-> arranges (S k') a q /\ get 0 q k' = get 0 c k').
Proof.
  intros Hk (Hc1 & Hc2 & Hc3). split.
  - intros (Hq1 & Hq2 & Hq3).
    assert (Hg : get 0 q k' = get 0 c k').
    { unfold get. rewrite !nth_lookup.
      replace k' with (k' + 0) by lia. rewrite <- !lookup_drop, Hq3. reflexivity. }
    split; [|assumption]. repeat split.
    + congruence.
    + rewrite (take_S_r q k' (get 0 q k')) by (apply lookup_get; lia).
      rewrite <- Hc2. rewrite (take_S_r c k' (get 0 c k')) by (apply lookup_get; lia).
      rewrite Hg. apply Permutation_app_tail. assumption.
    + rewrite <- Hc3. replace (S k') with (k' + 1) by lia.
      rewrite <- !drop_drop, Hq3. reflexivity.
  - intros [(Hq1 & Hq2 & Hq3) Hg]. repeat split.
    + congruence.
    + rewrite <- Hc2 in Hq2.
      rewrite (take_S_r q k' (get 0 q k')) in Hq2 by (apply lookup_get; lia).
      rewrite (take_S_r c k' (get 0 c k')) in Hq2 by (apply lookup_get; lia).
      rewrite Hg in Hq2. apply Permutation_app_inv_r in Hq2. assumption.
    + rewrite (drop_S q (get 0 q k') k') by (apply lookup_get; lia).
      rewrite (drop_S c (get 0 c k') k') by (apply lookup_get; lia).
      rewrite Hg, Hq3, Hc3. reflexivity.
Qed.

(** The entry at position [k'] of a rearrangement is one of the first
    [S k'] entries of the original. *)
Lemma arranges_last (k' : nat) (a q : list nat) :
  S k' <= length a -> arranges (S k') a q ->
  exists m, m <= k' /\ get 0 q k' = get 0 a m.
Proof.
  intros Hk (Hq1 & Hq2 & Hq3).
  assert (Hin : In (get 0 q k') (take (S k') a)).
  { apply (Permutation_in _ Hq2). rewrite <- (get_take q (S k')) by lia.
    apply get_In. rewrite length_take_le by lia. lia. }
  destruct (In_get 0 _ _ Hin) as [m [Hm Hgm]].
  rewrite length_take_le in Hm by lia. rewrite get_take in Hgm by assumption.
  exists m. split; [lia|congruence].
Qed.

(** The array left behind and the permutations visited, in order. *)
Fixpoint heap (k : nat) (arr : list nat) : list nat * list (list nat) :=
  match k with
  | 0 => (arr, [])
  | S k' =>
    if k =? 1 then (arr, [arr])
    else
      fold_left
        (fun st i =>
           (if Nat.even k then swap (fst (heap k' (fst st))) i (k - 1)
            else swap (fst (heap k' (fst st))) 0 (k - 1),
            snd st ++ snd (heap k' (fst st))))
        (range 0 k) (arr, [])
  end.

Definition heapBody (k k' : nat) (st : list nat * list (list nat)) (i : nat)
    : list nat * list (list nat) :=
  (if Nat.even k then swap (fst (heap k' (fst st))) i (k - 1)
   else swap (fst (heap k' (fst st))) 0 (k - 1),
   snd st ++ snd (heap k' (fst st))).

Lemma heap_succ (k' : nat) (arr : list nat) :
  heap (S k') arr =
  if S k' =? 1 then (arr, [arr])
  else fold_left (heapBody (S k') k') (range 0 (S k')) (arr, []).
Proof. reflexivity. Qed.

Lemma heapBody_shift (k k' : nat) (l : list nat) (a : list nat) (vs : list (list nat)) :
  fold_left (heapBody k k') l (a, vs) =
  (fst (fold_left (heapBody k k') l (a, [])),
   vs ++ snd (fold_left (heapBody k k') l (a, []))).
Proof.
  revert a vs. induction l as [|i l IH]; intros a vs.
  - simpl. rewrite app_nil_r. reflexivity.
  - cbn [fold_left]. unfold heapBody at 2 4 6. cbn [fst snd].
    rewrite IH. rewrite (IH _ ([] ++ _)). cbn [fst snd].
    rewrite app_nil_l, app_assoc. reflexivity.
Qed.

Lemma generate_heap {St : Type} (visit : list nat -> St -> St) (k : nat) :
  forall arr s,
    generate visit k arr s =
    (fst (heap k arr), fold_left (fun s p => visit p s) (snd (heap k arr)) s).
Proof.
  induction k as [|k' IH]; intros arr s; [reflexivity|].
  rewrite heap_succ. cbn [generate]. destruct (S k' =? 1); [reflexivity|].
  generalize (range 0 (S k')). intros l. revert arr s.
  induction l as [|i l IHl]; intros arr s; [reflexivity|].
  cbn [fold_left fst snd]. rewrite IH, IHl.
  set (a' := if Nat.even (S k') then swap (fst (heap k' arr)) i (S k' - 1)
             else swap (fst (heap k' arr)) 0 (S k' - 1)).
  change (heapBody (S k') k' (arr, []) i) with (a', snd (heap k' arr)).
  rewrite (heapBody_shift _ _ l a' (snd (heap k' arr))). cbn [fst snd].
  rewrite fold_left_app. reflexivity.
Qed.

(** Where the entries end up: position [j] of the array after [generate k]
    holds the entry that was at [rho k j] (a rotation for even [k], nothing
    for odd [k]); after [i] rounds of the loop of [generate k] it holds the
    entry that was at [sigma k i j], and round [m] runs with the entry from
    [lam k m] in the last position. *)
Definition rho (k j : nat) : nat :=
  if Nat.even k then (if j <? k then (if j =? 0 then k - 1 else j - 1) else j) else j.

Definition sigma (k i j : nat) : nat :=
  if j <? k then
    if Nat.even k then
      if i =? 0 then j
      else if j =? 0 then k - 1
      else if j <? i then j - 1
      else if j =? k - 1 then i - 1
      else j
    else if j <? i then j + k - i else j - i
  else j.

Definition lam (k m : nat) : nat :=
  if Nat.even k then (if m =? 0 then k - 1 else m - 1) else k - 1 - m.

Ltac idx_cases :=
  repeat match goal with
         | |- context [?x <? ?y] => destruct (Nat.ltb_spec x y); try lia
         | |- context [?x =? ?y] => destruct (Nat.eqb_spec x y); try lia
         | |- context [decide (?x = ?y)] => destruct (decide (x = y)); try lia
         end;
  try lia.

Lemma sigma_0 (k j : nat) : sigma k 0 j = j.
Proof. unfold sigma. destruct (Nat.even k); idx_cases. Qed.

Lemma sigma_full (k j : nat) : 2 <= k -> sigma k k j = rho k j.
Proof. intros Hk. unfold sigma, rho. destruct (Nat.even k); idx_cases. Qed.

Lemma sigma_last (k i : nat) : 2 <= k -> i < k -> sigma k i (k - 1) = lam k i.
Proof. intros Hk Hi. unfold sigma, lam. destruct (Nat.even k); idx_cases. Qed.

Lemma sigma_step_even (k' i j : nat) :
  1 <= k' -> i <= k' -> Nat.even (S k') = true ->
  sigma (S k') (S i) j =
  if decide (j = k') then sigma (S k') i i
  else if decide (j = i) then sigma (S k') i k' else sigma (S k') i j.
Proof. intros Hk Hi He. unfold sigma. rewrite He. idx_cases. Qed.

Lemma sigma_step_odd (k' i j : nat) :
  1 <= k' -> i <= k' -> Nat.even (S k') = false -> Nat.even k' = true ->
  sigma (S k') (S i) j =
  if decide (j = k') then sigma (S k') i (rho k' 0)
  else if decide (j = 0) then sigma (S k') i (rho k' k') else sigma (S k') i (rho k' j).
Proof.
  intros Hk Hi He He'. unfold sigma, rho. rewrite He, He'. idx_cases.
Qed.

Lemma lam_onto (k m' : nat) : 2 <= k -> m' < k -> exists m, m < k /\ lam k m = m'.
Proof.
  intros Hk Hm. unfold lam. destruct (Nat.even k).
  - destruct (decide (m' = k - 1)) as [->|Hne].
    + exists 0. split; [lia|reflexivity].
    + exists (S m'). split; [lia|]. simpl. lia.
  - exists (k - 1 - m'). split; lia.
Qed.

(** What [generate k] does to an array of at least [k] entries. *)
Definition heapSpec (k : nat) (a : list nat) : Prop :=
  length (fst (heap k a)) = length a
  /\ (forall j, get 0 (fst (heap k a)) j = get 0 a (rho k j))
  /\ arranges k a (fst (heap k a))
  /\ forall q, In q (snd (heap k a)) <-> arranges k a q.

Lemma arranges_1 (a q : list nat) : 1 <= length a -> arranges 1 a q -> q = a.
Proof.
  intros Ha (H1 & H2 & H3).
  rewrite <- (take_drop 1 q), <- (take_drop 1 a), H3. f_equal.
  destruct q as [|x q]; [simpl in H1; lia|]. destruct a as [|y a]; [simpl in Ha; lia|].
  change (take 1 (x :: q)) with [x] in *. change (take 1 (y :: a)) with [y] in *.
  apply Permutation_length_1 in H2. congruence.
Qed.

Lemma heap_loop (k' : nat) (a : list nat) :
  1 <= k' -> S k' <= length a ->
  (forall c, k' <= length c -> heapSpec k' c) ->
  forall i, i <= S k' ->
    let st := fold_left (heapBody (S k') k') (range 0 i) (a, []) in
    length (fst st) = length a
    /\ (forall j, get 0 (fst st) j = get 0 a (sigma (S k') i j))
    /\ arranges (S k') a (fst st)
    /\ forall q, In q (snd st) <->
         arranges (S k') a q /\ exists m, m < i /\ get 0 q k' = get 0 a (lam (S k') m).
Proof.
  intros Hk Hlen IHk. induction i as [|i IHi]; intros Hi.
  - simpl. split; [reflexivity|]. split; [intros j; rewrite sigma_0; reflexivity|].
    split; [apply arranges_refl|]. intros q. split; [intros []|].
    intros [_ [m [Hm _]]]. lia.
  - rewrite range_succ_r by lia. rewrite fold_left_app. cbn [fold_left].
    specialize (IHi ltac:(lia)). cbv zeta in IHi.
    destruct (fold_left (heapBody (S k') k') (range 0 i) (a, [])) as [c V].
    cbn [fst snd] in IHi. destruct IHi as (Hc1 & Hc2 & Hc3 & Hc4).
    destruct (IHk c ltac:(lia)) as (Hh1 & Hh2 & Hh3 & Hh4).
    unfold heapBody. cbn [fst snd]. cbv zeta.
    assert (Hk1 : S k' - 1 = k') by lia. rewrite Hk1.
    assert (Hvis : forall q, In q (V ++ snd (heap k' c)) <->
              arranges (S k') a q /\
              exists m, m < S i /\ get 0 q k' = get 0 a (lam (S k') m)).
    { intros q. rewrite in_app_iff, Hc4, Hh4.
      rewrite (arranges_split k' a c q Hlen Hc3).
      pose proof (sigma_last (S k') i ltac:(lia) ltac:(lia)) as Hsl.
      replace (S k' - 1) with k' in Hsl by lia.
      rewrite Hc2, Hsl. split.
      - intros [[Ha [m [Hm Hg]]]|[Ha Hg]].
        + split; [assumption|]. exists m. split; [lia|assumption].
        + split; [assumption|]. exists i. split; [lia|assumption].
      - intros [Ha [m [Hm Hg]]]. destruct (decide (m = i)) as [->|Hne].
        + right. split; assumption.
        + left. split; [assumption|]. exists m. split; [lia|assumption]. }
    assert (Harr : forall x y, x <= k' -> y <= k' ->
              arranges (S k') a (swap (fst (heap k' c)) x y)).
    { intros x y Hx Hy.
      apply (arranges_trans _ _ c); [assumption|].
      apply (arranges_trans _ _ (fst (heap k' c))).
      - apply (arranges_mono k'); [lia|assumption].
      - apply arranges_swap; lia. }
    destruct (Nat.even (S k')) eqn:He.
    + split; [rewrite swap_length; lia|]. split; [|split; [apply Harr; lia|assumption]].
      intros j. rewrite get_swap by lia. rewrite !Hh2.
      assert (He' : Nat.even k' = false).
      { rewrite Nat.even_succ in He. rewrite <- Nat.negb_odd, He. reflexivity. }
      unfold rho. rewrite He'. rewrite !Hc2.
      rewrite sigma_step_even by (assumption || lia).
      repeat destruct (decide _); reflexivity.
    + split; [rewrite swap_length; lia|]. split; [|split; [apply Harr; lia|assumption]].
      intros j. rewrite get_swap by lia. rewrite !Hh2, !Hc2.
      assert (He' : Nat.even k' = true).
      { rewrite Nat.even_succ in He. rewrite <- Nat.negb_odd, He. reflexivity. }
      rewrite sigma_step_odd by (assumption || lia).
      repeat destruct (decide _); reflexivity.
Qed.

Lemma heap_spec (k : nat) : forall a, 1 <= k <= length a -> heapSpec k a.
Proof.
  induction k as [|k' IH]; intros a Hk; [lia|].
  destruct (decide (k' = 0)) as [->|Hne].
  - unfold heapSpec. simpl. split; [reflexivity|]. split; [intros j; reflexivity|].
    split; [apply arranges_refl|]. intros q. split.
    + intros [<-|[]]. apply arranges_refl.
    + intros Hq. left. symmetry. apply arranges_1; [lia|assumption].
  - assert (Hloop := heap_loop k' a ltac:(lia) ltac:(lia)
                       (fun c Hc => IH c ltac:(lia)) (S k') ltac:(lia)).
    cbv zeta in Hloop. unfold heapSpec. rewrite heap_succ.
    destruct (Nat.eqb_spec (S k') 1) as [He|_]; [lia|].
    destruct Hloop as (H1 & H2 & H3 & H4).
    split; [assumption|]. split; [|split; [assumption|]].
    + intros j. rewrite H2, sigma_full by lia. reflexivity.
    + intros q. rewrite H4. split; [tauto|]. intros Hq. split; [assumption|].
      destruct (arranges_last k' a q ltac:(lia) Hq) as [m' [Hm' Hg]].
      destruct (lam_onto (S k') m' ltac:(lia) ltac:(lia)) as [m [Hm Hl]].
      exists m. split; [assumption|]. rewrite Hl. assumption.
Qed.

(** ** The permutations produced *)

Definition isPerm (n : nat) (p : list nat) : Prop := Permutation p (identity n).

Lemma isPerm_length (n : nat) (p : list nat) : isPerm n p -> length p = n.
Proof.
  intros H. apply Permutation_length in H. unfold identity in H.
  rewrite length_seq in H. assumption.
Qed.

Lemma isPerm_NoDup (n : nat) (p : list nat) : isPerm n p -> List.NoDup p.
Proof.
  intros H. apply (Permutation_NoDup (Permutation_sym H)). apply List.seq_NoDup.
Qed.

Lemma isPerm_In (n : nat) (p : list nat) (i : nat) : isPerm n p -> (In i p <-> i < n).
Proof.
  intros H. split.
  - intros Hi. apply (Permutation_in _ H) in Hi. apply in_seq in Hi. lia.
  - intros Hi. apply (Permutation_in _ (Permutation_sym H)). apply in_seq. lia.
Qed.

Lemma isPerm_get_lt (n : nat) (p : list nat) (i : nat) :
  isPerm n p -> i < n -> get 0 p i < n.
Proof.
  intros H Hi. apply (isPerm_In n p); [assumption|].
  apply get_In. rewrite (isPerm_length n p H). assumption.
Qed.

Lemma isPerm_get_inj (n : nat) (p : list nat) (i j : nat) :
  isPerm n p -> i < n -> j < n -> get 0 p i = get 0 p j -> i = j.
Proof.
  intros H Hi Hj Heq. pose proof (isPerm_length n p H) as Hl.
  apply (proj1 (List.NoDup_nth p 0) (isPerm_NoDup n p H)); try lia. exact Heq.
Qed.

Lemma isPerm_of_surjective (n : nat) (p : list nat) :
  length p = n -> (forall i, i < n -> In i p) -> isPerm n p.
Proof.
  intros Hl Hs. destruct (NoDup_of_surjective n p Hl Hs) as [Hnd Hb].
  apply Permutation.NoDup_Permutation; [assumption|apply List.seq_NoDup|].
  intros x. unfold identity. rewrite in_seq. split.
  - intros Hx. rewrite List.Forall_forall in Hb. apply Hb in Hx. lia.
  - intros Hx. apply Hs. lia.
Qed.

Lemma isPerm_identity (n : nat) : isPerm n (identity n).
Proof. unfold isPerm. reflexivity. Qed.

(** Composition [q after p] and inverse, on permutations as arrays. *)
Definition compose (q p : list nat) : list nat := map (get 0 q) p.

Fixpoint indexOf (x : nat) (l : list nat) : nat :=
  match l with
  | [] => 0
  | y :: l' => if x =? y then 0 else S (indexOf x l')
  end.

Definition inverse (n : nat) (p : list nat) : list nat :=
  map (fun i => indexOf i p) (seq 0 n).

Lemma indexOf_In (x : nat) (l : list nat) :
  In x l -> indexOf x l < length l /\ get 0 l (indexOf x l) = x.
Proof.
  induction l as [|y l IH]; intros Hin; [destruct Hin|].
  simpl. destruct (Nat.eqb_spec x y) as [->|Hne].
  - split; [lia|reflexivity].
  - destruct Hin as [->|Hin]; [contradiction|].
    destruct (IH Hin) as [H1 H2]. split; [lia|]. exact H2.
Qed.

Lemma indexOf_get (l : list nat) (i : nat) :
  List.NoDup l -> i < length l -> indexOf (get 0 l i) l = i.
Proof.
  intros Hnd Hi.
  assert (Hin : In (get 0 l i) l) by (apply get_In; assumption).
  destruct (indexOf_In _ _ Hin) as [H1 H2].
  apply (proj1 (List.NoDup_nth l 0) Hnd); try assumption.
Qed.

Lemma get_compose (n : nat) (q p : list nat) (i : nat) :
  isPerm n p -> i < n -> get 0 (compose q p) i = get 0 q (get 0 p i).
Proof.
  intros Hp Hi. unfold compose. apply get_map. rewrite (isPerm_length n p Hp). assumption.
Qed.

Lemma compose_isPerm (n : nat) (q p : list nat) :
  isPerm n q -> isPerm n p -> isPerm n (compose q p).
Proof.
  intros Hq Hp. unfold isPerm, compose.
  rewrite (Permutation_map (get 0 q) Hp).
  assert (Heq : map (get 0 q) (identity n) = q).
  { pose proof (isPerm_length n q Hq) as Hl. apply (nth_ext _ _ 0 0).
    - rewrite length_map. unfold identity. rewrite length_seq. lia.
    - intros i Hi. rewrite length_map in Hi. unfold identity in Hi.
      rewrite length_seq in Hi. fold (get 0 (map (get 0 q) (identity n)) i).
      rewrite (get_map _ 0 0) by (unfold identity; rewrite length_seq; assumption).
      rewrite get_identity by assumption. reflexivity. }
  rewrite Heq. exact Hq.
Qed.

Lemma get_inverse (n : nat) (p : list nat) (i : nat) :
  i < n -> get 0 (inverse n p) i = indexOf i p.
Proof.
  intros Hi. unfold inverse.
  rewrite (get_map _ 0 0) by (rewrite length_seq; assumption).
  rewrite get_seq by assumption. reflexivity.
Qed.

Lemma inverse_isPerm (n : nat) (p : list nat) : isPerm n p -> isPerm n (inverse n p).
Proof.
  intros Hp. pose proof (isPerm_length n p Hp) as Hl.
  apply isPerm_of_surjective.
  - unfold inverse. rewrite length_map, length_seq. reflexivity.
  - intros i Hi. unfold inverse. apply in_map_iff. exists (get 0 p i). split.
    + apply indexOf_get; [apply (isPerm_NoDup n); assumption|lia].
    + apply in_seq. pose proof (isPerm_get_lt n p i Hp Hi). lia.
Qed.

Lemma get_inverse_r (n : nat) (p : list nat) (i : nat) :
  isPerm n p -> i < n -> get 0 p (get 0 (inverse n p) i) = i.
Proof.
  intros Hp Hi. rewrite get_inverse by assumption.
  apply indexOf_In. apply (isPerm_In n); assumption.
Qed.

Lemma get_inverse_l (n : nat) (p : list nat) (i : nat) :
  isPerm n p -> i < n -> get 0 (inverse n p) (get 0 p i) = i.
Proof.
  intros Hp Hi. rewrite get_inverse by (apply isPerm_get_lt; assumption).
  apply indexOf_get; [apply (isPerm_NoDup n); assumption|].
  rewrite (isPerm_length n p Hp). assumption.
Qed.

Lemma arranges_full (n : nat) (q : list nat) :
  arranges n (identity n) q <-> isPerm n q.
Proof.
  unfold arranges, isPerm. unfold identity at 1 2 3. rewrite length_seq. split.
  - intros (H1 & H2 & H3). rewrite !take_ge in H2 by (rewrite ?length_seq; lia).
    exact H2.
  - intros H. pose proof (isPerm_length n q H) as Hl.
    split; [assumption|]. split.
    + rewrite !take_ge by (rewrite ?length_seq; lia). exact H.
    + rewrite !drop_ge by (rewrite ?length_seq; lia). reflexivity.
Qed.

(** [permutations n] lists exactly the permutations of [0..n-1]. *)
Lemma in_heap_identity (n : nat) (q : list nat) :
  1 <= n -> (In q (snd (heap n (identity n))) <-> isPerm n q).
Proof.
  intros Hn. rewrite <- arranges_full.
  apply (heap_spec n (identity n)). unfold identity. rewrite length_seq. lia.
Qed.

Lemma in_permutations (n : nat) (q : list nat) :
  In q (permutations n) <-> isPerm n q.
Proof.
  unfold permutations. destruct (Nat.eqb_spec n 0) as [->|Hn].
  - unfold isPerm. simpl. split.
    + intros [<-|[]]. reflexivity.
    + intros H. left. symmetry. apply Permutation_nil. symmetry. exact H.
  - rewrite generate_heap. cbn [snd].
    assert (Hfold : forall (l acc : list (list nat)),
              fold_left (fun s p => s ++ [p]) l acc = acc ++ l).
    { induction l as [|x l IH]; intros acc; simpl.
      - rewrite app_nil_r. reflexivity.
      - rewrite IH, <- app_assoc. reflexivity. }
    rewrite Hfold, app_nil_l. apply in_heap_identity. lia.
Qed.

(** ** Relabelling *)

Lemma fold_left_ext_eq {A B : Type} (f g : A -> B -> A) (l : list B) (a : A) :
  (forall x y, f x y = g x y) -> fold_left f l a = fold_left g l a.
Proof.
  intros H. revert a. induction l as [|b l IH]; intros a; simpl; [reflexivity|].
  rewrite H. apply IH.
Qed.

(** The edge id an edge id is sent to when the vertices are renamed by [p]. *)
Definition relabelId (T : Tables) (p : list nat) (k : nat) : nat :=
  let '(i, j) := get (0, 0) (edgePairs T) k in
  let ni := get 0 p i in
  let nj := get 0 p j in
  let '(ni, nj) := if nj <? ni then (nj, ni) else (ni, nj) in
  get2 0 (edgeIndex T) ni nj.

Lemma relabel_orBits (T : Tables) (g : Graph) (p : list nat) :
  relabel T g p =
  orBits (fun k => negb (Z.land g (bit k) =? 0)%Z) (relabelId T p)
         (range 0 (numEdges T)) 0%Z.
Proof.
  unfold relabel, orBits. apply fold_left_ext_eq. intros r k. unfold relabelId.
  destruct (Z.land g (bit k) =? 0)%Z; simpl; [reflexivity|].
  destruct (get (0, 0) (edgePairs T) k) as [i j].
  destruct (get 0 p j <? get 0 p i); reflexivity.
Qed.

Lemma compose_inverse_l (n : nat) (p : list nat) :
  isPerm n p -> compose (inverse n p) p = identity n.
Proof.
  intros Hp. pose proof (isPerm_length n p Hp) as Hl.
  apply (nth_ext _ _ 0 0).
  - unfold compose, identity. rewrite length_map, length_seq. assumption.
  - intros i Hi. unfold compose in Hi. rewrite length_map, Hl in Hi.
    fold (get 0 (compose (inverse n p) p) i). fold (get 0 (identity n) i).
    rewrite (get_compose n) by assumption. rewrite get_identity by assumption.
    apply get_inverse_l; assumption.
Qed.

Lemma compose_inverse_r (n : nat) (p : list nat) :
  isPerm n p -> compose p (inverse n p) = identity n.
Proof.
  intros Hp. pose proof (inverse_isPerm n p Hp) as Hinv.
  pose proof (isPerm_length n _ Hinv) as Hl.
  apply (nth_ext _ _ 0 0).
  - unfold compose, identity. rewrite length_map, length_seq. assumption.
  - intros i Hi. unfold compose in Hi. rewrite length_map, Hl in Hi.
    fold (get 0 (compose p (inverse n p)) i). fold (get 0 (identity n) i).
    rewrite (get_compose n) by assumption. rewrite get_identity by assumption.
    apply get_inverse_r; assumption.
Qed.

Section RelabelId.

Variable T : Tables.
Hypothesis HT : tablesOK T.

Lemma relabelId_spec (p : list nat) (k : nat) :
  isPerm (n T) p -> k < numEdges T ->
  exists i j lo hi,
    get (0, 0) (edgePairs T) k = (i, j) /\ i < j < n T
    /\ lo < hi < n T
    /\ ((lo = get 0 p i /\ hi = get 0 p j) \/ (lo = get 0 p j /\ hi = get 0 p i))
    /\ relabelId T p k = get2 0 (edgeIndex T) lo hi.
Proof.
  intros Hp Hk. destruct (ok_pair_of_id T HT k Hk) as (i & j & Hg & Hij & Hid).
  pose proof (isPerm_get_lt _ p i Hp ltac:(lia)) as Hpi.
  pose proof (isPerm_get_lt _ p j Hp ltac:(lia)) as Hpj.
  assert (Hne : get 0 p i <> get 0 p j).
  { intros Heq. apply (isPerm_get_inj _ p i j Hp) in Heq; lia. }
  unfold relabelId. rewrite Hg.
  destruct (Nat.ltb_spec (get 0 p j) (get 0 p i)) as [Hlt|Hge].
  - exists i, j, (get 0 p j), (get 0 p i).
    split; [reflexivity|]. split; [lia|]. split; [lia|]. split; [|reflexivity].
    right. split; reflexivity.
  - exists i, j, (get 0 p i), (get 0 p j).
    split; [reflexivity|]. split; [lia|]. split; [lia|]. split; [|reflexivity].
    left. split; reflexivity.
Qed.

Lemma relabelId_lt (p : list nat) (k : nat) :
  isPerm (n T) p -> k < numEdges T -> relabelId T p k < numEdges T.
Proof.
  intros Hp Hk. destruct (relabelId_spec p k Hp Hk) as (i & j & lo & hi & _ & _ & Hlh & _ & ->).
  apply (ok_id_of_pair T HT). assumption.
Qed.

Lemma relabelId_compose (p q : list nat) (k : nat) :
  isPerm (n T) p -> isPerm (n T) q -> k < numEdges T ->
  relabelId T q (relabelId T p k) = relabelId T (compose q p) k.
Proof.
  intros Hp Hq Hk.
  destruct (relabelId_spec p k Hp Hk) as (i & j & lo & hi & Hg & Hij & Hlh & Hor & Hr).
  destruct (ok_id_of_pair T HT lo hi Hlh) as [Hlt Hpair].
  rewrite Hr. unfold relabelId at 1 2. rewrite Hpair, Hg.
  rewrite !(get_compose (n T)) by (assumption || lia).
  destruct Hor as [[-> ->]|[-> ->]].
  - reflexivity.
  - destruct (Nat.ltb_spec (get 0 q (get 0 p i)) (get 0 q (get 0 p j))) as [H1|H1];
      destruct (Nat.ltb_spec (get 0 q (get 0 p j)) (get 0 q (get 0 p i))) as [H2|H2];
      try reflexivity; try lia.
    assert (Heq : get 0 q (get 0 p i) = get 0 q (get 0 p j)) by lia.
    rewrite Heq. reflexivity.
Qed.

Lemma relabelId_identity (k : nat) :
  k < numEdges T -> relabelId T (identity (n T)) k = k.
Proof.
  intros Hk. destruct (ok_pair_of_id T HT k Hk) as (i & j & Hg & Hij & Hid).
  unfold relabelId. rewrite Hg. rewrite !get_identity by lia.
  destruct (Nat.ltb_spec j i); [lia|]. assumption.
Qed.

Lemma relabelId_inj (p : list nat) (k k' : nat) :
  isPerm (n T) p -> k < numEdges T -> k' < numEdges T ->
  relabelId T p k = relabelId T p k' -> k = k'.
Proof.
  intros Hp Hk Hk' Heq.
  pose proof (inverse_isPerm _ p Hp) as Hinv.
  assert (H : forall x, x < numEdges T ->
                relabelId T (inverse (n T) p) (relabelId T p x) = x).
  { intros x Hx. rewrite relabelId_compose by assumption.
    rewrite compose_inverse_l by assumption. apply relabelId_identity. assumption. }
  rewrite <- (H k Hk), <- (H k' Hk'), Heq. reflexivity.
Qed.

End RelabelId.

Section Relabel.

Variable T : Tables.
Hypothesis HT : tablesOK T.
Hypothesis H64 : numEdges T <= 64.

Lemma relabel_bit (g : Graph) (p : list nat) (k' : nat) :
  validGraph (numEdges T) g -> isPerm (n T) p ->
  (Z.testbit (relabel T g p) (Z.of_nat k') = true <->
   exists k, k < numEdges T /\ Z.testbit g (Z.of_nat k) = true /\ relabelId T p k = k').
Proof.
  intros Hg Hp. rewrite relabel_orBits, orBits_testbit, Z.bits_0, orb_false_l.
  rewrite existsb_exists. split.
  - intros [k [Hin Hb]]. apply in_range in Hin.
    rewrite !andb_true_iff, negb_true_iff, land_bit_zero, negb_false_iff in Hb.
    rewrite andb_true_iff, Nat.eqb_eq in Hb. destruct Hb as [[[Hb _] He] _].
    exists k. repeat split; (lia || assumption).
  - intros [k [Hk [Hb He]]]. exists k. split; [apply in_range; lia|].
    rewrite !andb_true_iff, negb_true_iff, land_bit_zero, negb_false_iff.
    rewrite andb_true_iff, Nat.eqb_eq, !Nat.ltb_lt.
    pose proof (relabelId_lt T HT p k Hp Hk). repeat split; (lia || assumption).
Qed.

Lemma relabel_nonneg (g : Graph) (p : list nat) : (0 <= relabel T g p)%Z.
Proof. rewrite relabel_orBits. apply orBits_nonneg. lia. Qed.

Lemma relabel_valid (g : Graph) (p : list nat) :
  validGraph (numEdges T) g -> isPerm (n T) p -> validGraph (numEdges T) (relabel T g p).
Proof.
  intros Hg Hp. apply validGraph_of_bits; [apply relabel_nonneg|].
  intros k Hk. apply (relabel_bit g p k Hg Hp) in Hk.
  destruct Hk as [k0 [Hk0 [_ <-]]]. pose proof (relabelId_lt T HT p k0 Hp Hk0). lia.
Qed.

Lemma relabel_compose (g : Graph) (p q : list nat) :
  validGraph (numEdges T) g -> isPerm (n T) p -> isPerm (n T) q ->
  relabel T (relabel T g p) q = relabel T g (compose q p).
Proof.
  intros Hg Hp Hq. apply graph_ext; try apply relabel_nonneg.
  intros k. apply eq_true_iff_eq.
  rewrite (relabel_bit _ q k (relabel_valid g p Hg Hp) Hq).
  rewrite (relabel_bit g _ k Hg (compose_isPerm _ q p Hq Hp)). split.
  - intros [k1 [Hk1 [Hb <-]]]. apply (relabel_bit g p k1 Hg Hp) in Hb.
    destruct Hb as [k0 [Hk0 [Hb <-]]]. exists k0. split; [assumption|]. split; [assumption|].
    symmetry. apply relabelId_compose; assumption.
  - intros [k0 [Hk0 [Hb <-]]]. exists (relabelId T p k0).
    split; [apply relabelId_lt; assumption|]. split.
    + apply (relabel_bit g p _ Hg Hp). exists k0. auto.
    + apply relabelId_compose; assumption.
Qed.

Lemma relabel_identity (g : Graph) :
  validGraph (numEdges T) g -> relabel T g (identity (n T)) = g.
Proof.
  intros Hg. apply graph_ext; [apply relabel_nonneg|apply Hg|].
  intros k. apply eq_true_iff_eq.
  rewrite (relabel_bit g _ k Hg (isPerm_identity _)). split.
  - intros [k0 [Hk0 [Hb <-]]]. rewrite relabelId_identity by assumption. assumption.
  - intros Hb. exists k. destruct (validGraph_bits _ g k Hg Hb) as [Hk _].
    split; [assumption|]. split; [assumption|]. apply relabelId_identity; assumption.
Qed.

End Relabel.

(** ** [canonical] *)

Lemma fold_min_spec {A : Type} (f : A -> Z) (L : list A) (b : Z) :
  let r := fold_left (fun best p => if (f p <? best)%Z then f p else best) L b in
  (r <= b)%Z /\ (forall p, In p L -> (r <= f p)%Z) /\ (r = b \/ exists p, In p L /\ r = f p).
Proof.
  revert b. induction L as [|x L IH]; intros b; simpl.
  - split; [lia|]. split; [intros p []|]. left. reflexivity.
  - specialize (IH (if (f x <? b)%Z then f x else b)). simpl in IH.
    destruct IH as (H1 & H2 & H3).
    destruct (Z.ltb_spec (f x) b) as [Hlt|Hge].
    + split; [lia|]. split.
      * intros p [<-|Hp]; [assumption|apply H2; assumption].
      * right. destruct H3 as [H3|[p [Hp H3]]].
        -- exists x. split; [left; reflexivity|assumption].
        -- exists p. split; [right; assumption|assumption].
    + split; [lia|]. split.
      * intros p [<-|Hp]; [lia|apply H2; assumption].
      * destruct H3 as [H3|[p [Hp H3]]]; [left; assumption|].
        right. exists p. split; [right; assumption|assumption].
Qed.

Lemma canonical_fold (T : Tables) (g : Graph) :
  canonical T g =
  fold_left (fun best p => if (relabel T g p <? best)%Z then relabel T g p else best)
            (snd (heap (n T) (identity (n T)))) g.
Proof. unfold canonical. rewrite generate_heap. reflexivity. Qed.

Lemma isPerm_0 (p : list nat) : isPerm 0 p -> p = identity 0.
Proof. unfold isPerm. simpl. intros H. apply Permutation_nil. symmetry. exact H. Qed.

Section Canonical.

Variable T : Tables.
Hypothesis HT : tablesOK T.
Hypothesis H64 : numEdges T <= 64.

(** [canonical g] is the least relabelling of [g]. *)
Lemma canonical_le (g : Graph) (p : list nat) :
  validGraph (numEdges T) g -> isPerm (n T) p -> (canonical T g <= relabel T g p)%Z.
Proof.
  intros Hg Hp. rewrite canonical_fold.
  pose proof (fold_min_spec (relabel T g) (snd (heap (n T) (identity (n T)))) g) as H.
  cbv zeta in H. destruct H as (H1 & H2 & _).
  destruct (Nat.eq_dec (n T) 0) as [H0|H0].
  - rewrite H0 in Hp. apply isPerm_0 in Hp. subst p. rewrite <- H0.
    rewrite (relabel_identity T HT H64 g Hg). exact H1.
  - apply H2. apply in_heap_identity; [lia|assumption].
Qed.

Lemma canonical_attained (g : Graph) :
  validGraph (numEdges T) g ->
  exists p, isPerm (n T) p /\ canonical T g = relabel T g p.
Proof.
  intros Hg. rewrite canonical_fold.
  pose proof (fold_min_spec (relabel T g) (snd (heap (n T) (identity (n T)))) g) as H.
  cbv zeta in H. destruct H as (_ & _ & [H3|[p [Hp H3]]]).
  - exists (identity (n T)). split; [apply isPerm_identity|].
    rewrite (relabel_identity T HT H64 g Hg). exact H3.
  - exists p. split; [|exact H3].
    destruct (Nat.eq_dec (n T) 0) as [H0|H0].
    + rewrite H0 in Hp. simpl in Hp. destruct Hp.
    + apply in_heap_identity in Hp; [assumption|lia].
Qed.

Lemma compose_cancel (p q : list nat) :
  isPerm (n T) p -> isPerm (n T) q ->
  compose (compose p (inverse (n T) q)) q = p.
Proof.
  intros Hp Hq. pose proof (isPerm_length _ p Hp) as Hlp.
  pose proof (isPerm_length _ q Hq) as Hlq.
  pose proof (inverse_isPerm _ q Hq) as Hinv.
  apply (nth_ext _ _ 0 0).
  - unfold compose. rewrite length_map. lia.
  - intros i Hi. unfold compose in Hi. rewrite length_map, Hlq in Hi.
    fold (get 0 (compose (compose p (inverse (n T) q)) q) i). fold (get 0 p i).
    rewrite (get_compose (n T)) by assumption.
    rewrite (get_compose (n T)) by (try assumption; apply isPerm_get_lt; assumption).
    rewrite get_inverse_l by assumption. reflexivity.
Qed.

Lemma canonical_relabel (g : Graph) (pi : list nat) :
  validGraph (numEdges T) g -> isPerm (n T) pi ->
  canonical T (relabel T g pi) = canonical T g.
Proof.
  intros Hg Hpi.
  pose proof (relabel_valid T HT H64 g pi Hg Hpi) as Hg'.
  apply Z.le_antisymm.
  - destruct (canonical_attained g Hg) as [p2 [Hp2 ->]].
    pose proof (inverse_isPerm _ pi Hpi) as Hinv.
    pose proof (compose_isPerm _ p2 _ Hp2 Hinv) as Hc.
    pose proof (canonical_le (relabel T g pi) _ Hg' Hc) as Hle.
    rewrite (relabel_compose T HT H64 g pi _ Hg Hpi Hc) in Hle.
    rewrite compose_cancel in Hle by assumption. exact Hle.
  - destruct (canonical_attained (relabel T g pi) Hg') as [p1 [Hp1 ->]].
    rewrite (relabel_compose T HT H64 g pi p1 Hg Hpi Hp1).
    apply canonical_le; [assumption|]. apply compose_isPerm; assumption.
Qed.

Lemma canonical_idempotent (g : Graph) :
  validGraph (numEdges T) g -> canonical T (canonical T g) = canonical T g.
Proof.
  intros Hg. destruct (canonical_attained g Hg) as [p [Hp Heq]].
  rewrite Heq at 1. apply canonical_relabel; assumption.
Qed.

End Canonical.

Lemma numEdges_initEdges_le (vertices : nat) :
  vertices <= 11 -> numEdges (initEdges vertices) <= 64.
Proof.
  intros H. destruct (initEdges_fields vertices) as [_ ->].
  assert (H' : vertices * (vertices - 1) <= 11 * 10) by nia.
  pose proof (Nat.Div0.div_le_mono _ _ 2 H') as Hd.
  change (11 * 10 / 2) with 55 in Hd. lia.
Qed.

(** ** Renaming the vertices of a graph *)

(** The dense id of the edge between two distinct vertices. *)
Definition edgeId (T : Tables) (i j : nat) : nat :=
  get2 0 (edgeIndex T) (Nat.min i j) (Nat.max i j).

(** Vertices [i] and [j] are joined in [g]. *)
Definition joined (T : Tables) (g : Graph) (i j : nat) : bool :=
  Z.testbit g (Z.of_nat (edgeId T i j)).

(** [h] is the graph [g] with its vertices renamed by [pi]: [pi i] and [pi j]
    are joined in [h] exactly when [i] and [j] are joined in [g]. *)
Definition relabelling (T : Tables) (pi : list nat) (g h : Graph) : Prop :=
  validGraph (numEdges T) h
  /\ forall i j, i < n T -> j < n T -> i <> j ->
       joined T h (get 0 pi i) (get 0 pi j) = joined T g i j.

Lemma edgeId_sym (T : Tables) (i j : nat) : edgeId T i j = edgeId T j i.
Proof. unfold edgeId. rewrite Nat.min_comm, Nat.max_comm. reflexivity. Qed.

Lemma edgeId_lt (T : Tables) (i j : nat) :
  i < j -> edgeId T i j = get2 0 (edgeIndex T) i j.
Proof.
  intros H. unfold edgeId. rewrite Nat.min_l, Nat.max_r by lia. reflexivity.
Qed.

Section Renaming.

Variable T : Tables.
Hypothesis HT : tablesOK T.

Lemma relabelId_edgeId (p : list nat) (i j : nat) :
  i < j < n T ->
  relabelId T p (edgeId T i j) = edgeId T (get 0 p i) (get 0 p j).
Proof.
  intros Hij. rewrite edgeId_lt by lia.
  destruct (ok_id_of_pair T HT i j Hij) as [_ Hpair].
  unfold relabelId. rewrite Hpair. unfold edgeId.
  destruct (Nat.ltb_spec (get 0 p j) (get 0 p i)) as [Hlt|Hge].
  - rewrite Nat.min_r, Nat.max_l by lia. reflexivity.
  - rewrite Nat.min_l, Nat.max_r by lia. reflexivity.
Qed.

(** Every edge id is the id of a pair [i < j], and its image under [p] is the
    id of the pair of images. *)
Lemma relabelId_pair (p : list nat) (k : nat) :
  k < numEdges T ->
  exists i j, i < j < n T /\ k = edgeId T i j
              /\ relabelId T p k = edgeId T (get 0 p i) (get 0 p j).
Proof.
  intros Hk. destruct (ok_pair_of_id T HT k Hk) as (i & j & _ & Hij & Hid).
  exists i, j. split; [assumption|].
  assert (He : k = edgeId T i j) by (rewrite edgeId_lt by lia; symmetry; exact Hid).
  split; [assumption|]. rewrite He at 1. apply relabelId_edgeId. assumption.
Qed.

Lemma relabelId_onto (p : list nat) (k : nat) :
  isPerm (n T) p -> k < numEdges T ->
  exists k0, k0 < numEdges T /\ relabelId T p k0 = k.
Proof.
  intros Hp Hk. pose proof (inverse_isPerm _ p Hp) as Hinv.
  exists (relabelId T (inverse (n T) p) k).
  split; [apply relabelId_lt; assumption|].
  rewrite (relabelId_compose T HT) by assumption.
  rewrite compose_inverse_r by assumption. apply relabelId_identity; assumption.
Qed.

Hypothesis H64 : numEdges T <= 64.

Lemma relabel_image (g : Graph) (p : list nat) (k : nat) :
  validGraph (numEdges T) g -> isPerm (n T) p -> k < numEdges T ->
  Z.testbit (relabel T g p) (Z.of_nat (relabelId T p k)) = Z.testbit g (Z.of_nat k).
Proof.
  intros Hg Hp Hk. apply eq_true_iff_eq.
  rewrite (relabel_bit T HT H64 g p _ Hg Hp). split.
  - intros (k1 & Hk1 & Hb & He).
    apply (relabelId_inj T HT p k1 k Hp Hk1 Hk) in He. subst k1. exact Hb.
  - intros Hb. exists k. auto.
Qed.

(** A renamed graph is determined bit by bit. *)
Lemma relabelling_image (pi : list nat) (g h : Graph) (k : nat) :
  relabelling T pi g h -> k < numEdges T ->
  Z.testbit h (Z.of_nat (relabelId T pi k)) = Z.testbit g (Z.of_nat k).
Proof.
  intros [_ Hadj] Hk.
  destruct (relabelId_pair pi k Hk) as (i & j & Hij & -> & ->).
  apply (Hadj i j); lia.
Qed.

(** The relabelling loop of the program renames the vertices. *)
Lemma relabel_relabelling (g : Graph) (pi : list nat) :
  validGraph (numEdges T) g -> isPerm (n T) pi -> relabelling T pi g (relabel T g pi).
Proof.
  intros Hg Hpi. split; [apply relabel_valid; assumption|].
  assert (Hlt : forall i j, i < j < n T ->
            joined T (relabel T g pi) (get 0 pi i) (get 0 pi j) = joined T g i j).
  { intros i j Hij. unfold joined.
    rewrite <- (relabelId_edgeId pi i j Hij).
    apply relabel_image; try assumption.
    rewrite edgeId_lt by lia. apply (ok_id_of_pair T HT i j Hij). }
  intros i j Hi Hj Hne. destruct (Nat.lt_ge_cases i j) as [Hlt'|Hge].
  - apply Hlt. lia.
  - unfold joined. rewrite (edgeId_sym T (get 0 pi i)), (edgeId_sym T i).
    apply (Hlt j i). lia.
Qed.

(** ... and nothing else does. *)
Lemma relabelling_unique (g h : Graph) (pi : list nat) :
  validGraph (numEdges T) g -> isPerm (n T) pi ->
  relabelling T pi g h -> h = relabel T g pi.
Proof.
  intros Hg Hpi Hrel. pose proof (relabel_relabelling g pi Hg Hpi) as Hrel'.
  assert (Hbits : forall g1 g2, relabelling T pi g g1 -> relabelling T pi g g2 ->
            forall k, Z.testbit g1 (Z.of_nat k) = true -> Z.testbit g2 (Z.of_nat k) = true).
  { intros g1 g2 H1 H2 k Hb.
    destruct (validGraph_bits _ g1 k (proj1 H1) Hb) as [Hk _].
    destruct (relabelId_onto pi k Hpi Hk) as (k0 & Hk0 & <-).
    rewrite (relabelling_image pi g g2 k0 H2 Hk0).
    rewrite <- (relabelling_image pi g g1 k0 H1 Hk0). exact Hb. }
  apply graph_ext; [apply (proj1 Hrel)|apply (proj1 Hrel')|].
  intros k. apply eq_true_iff_eq. split; apply Hbits; assumption.
Qed.

End Renaming.

(** C7, as the code has it.  On [n <= 11] vertices the [C(n,2)] edge ids fit the 64-bit
    [Graph].  There, for every graph [g]: [canonical] is idempotent; every
    graph [h] obtained from [g] by renaming its vertices with a permutation
    [pi] has the canonical form of [g]; [canonical g] is itself such a
    renaming of [g] and is the least edge-bitmask among them; and the
    renamings are the graphs that the relabelling loop of [canonical]
    computes for the permutations produced by Heap's algorithm. *)
Theorem canonical_idempotent_invariant (vertices : nat) (g : Graph) :
  vertices <= 11 ->
  validGraph (numEdges (initEdges vertices)) g ->
  let T := initEdges vertices in
  canonical T (canonical T g) = canonical T g
  /\ (forall pi h, isPerm vertices pi -> relabelling T pi g h ->
        canonical T h = canonical T g)
  /\ (forall pi h, isPerm vertices pi -> relabelling T pi g h -> (canonical T g <= h)%Z)
  /\ (exists pi, isPerm vertices pi /\ relabelling T pi g (canonical T g))
  /\ (forall pi, isPerm vertices pi -> relabelling T pi g (relabel T g pi)).
Proof.
  intros Hv Hg T.
  pose proof (initEdges_ok vertices) as HT.
  pose proof (numEdges_initEdges_le vertices Hv) as H64.
  assert (Hn : n T = vertices) by apply initEdges_fields.
  fold T in HT, H64, Hg. rewrite <- Hn.
  split; [apply canonical_idempotent; assumption|].
  split.
  { intros pi h Hpi Hrel.
    rewrite (relabelling_unique T HT H64 g h pi Hg Hpi Hrel).
    apply canonical_relabel; assumption. }
  split.
  { intros pi h Hpi Hrel.
    rewrite (relabelling_unique T HT H64 g h pi Hg Hpi Hrel).
    apply canonical_le; assumption. }
  split.
  { destruct (canonical_attained T HT H64 g Hg) as (pi & Hpi & ->).
    exists pi. split; [assumption|]. apply relabel_relabelling; assumption. }
  intros pi Hpi. apply relabel_relabelling; assumption.
Qed.

(** The triangle with a pendant edge on four vertices. *)
Lemma canonical_idempotent_invariant_witness :
  let T := initEdges 4 in
  canonical T (canonical T 27%Z) = canonical T 27%Z
  /\ (forall pi h, isPerm 4 pi -> relabelling T pi 27%Z h ->
        canonical T h = canonical T 27%Z)
  /\ (forall pi h, isPerm 4 pi -> relabelling T pi 27%Z h -> (canonical T 27%Z <= h)%Z)
  /\ (exists pi, isPerm 4 pi /\ relabelling T pi 27%Z (canonical T 27%Z))
  /\ (forall pi, isPerm 4 pi -> relabelling T pi 27%Z (relabel T 27%Z pi)).
Proof.
  apply (canonical_idempotent_invariant 4 27%Z).
  - lia.
  - unfold validGraph. vm_compute. repeat split; intros; discriminate.
Defined.

(** The triangle 0-1-2 with the pendant edge 1-3 has the bitmask 27; its
    canonical form 15 is the same graph with the pendant edge at vertex 0,
    reached by exchanging the vertices 0 and 1. *)
Example canonical_demo :
  let T := initEdges 4 in
  canonical T 27%Z = 15%Z /\ relabel T 27%Z [1; 0; 2; 3] = 15%Z.
Proof. vm_compute. split; reflexivity. Qed.

(** ** Twelve vertices: edge ids beyond the width of [Graph] *)

Lemma orBits_ext {A : Type} (sel : A -> bool) (idx idx' : A -> nat) (l : list A)
    (acc : Graph) :
  (forall x, In x l -> sel x = true -> idx x = idx' x) ->
  orBits sel idx l acc = orBits sel idx' l acc.
Proof.
  unfold orBits. revert acc. induction l as [|x l IH]; intros acc H; simpl; [reflexivity|].
  destruct (sel x) eqn:Hs.
  - rewrite (H x (or_introl eq_refl) Hs). apply IH. intros y Hy. apply H. right. exact Hy.
  - apply IH. intros y Hy. apply H. right. exact Hy.
Qed.

(** The relabelling loop reads the permutation only at the ends of the edges
    of the graph. *)
Lemma relabel_ext (T : Tables) (g : Graph) (p q : list nat) :
  (forall k, k < numEdges T -> (Z.land g (bit k) =? 0)%Z = false ->
             relabelId T p k = relabelId T q k) ->
  relabel T g p = relabel T g q.
Proof.
  intros H. rewrite !relabel_orBits. apply orBits_ext.
  intros k Hk Hs. apply in_range in Hk. apply H; [lia|].
  apply negb_true_iff. exact Hs.
Qed.

Lemma relabel_ge_0 (T : Tables) (g : Graph) (p : list nat) : (0 <= relabel T g p)%Z.
Proof. rewrite relabel_orBits. apply orBits_nonneg. lia. Qed.

(** [canonical g] is the least of [g] and the bitmasks the relabelling loop
    computes, whatever the number of vertices. *)
Lemma canonical_least (T : Tables) (g : Graph) :
  1 <= n T ->
  (canonical T g <= g)%Z
  /\ (forall p, isPerm (n T) p -> (canonical T g <= relabel T g p)%Z)
  /\ (canonical T g = g \/ exists p, isPerm (n T) p /\ canonical T g = relabel T g p).
Proof.
  intros Hn. rewrite canonical_fold.
  pose proof (fold_min_spec (relabel T g) (snd (heap (n T) (identity (n T)))) g) as H.
  cbv zeta in H. destruct H as (H1 & H2 & H3).
  split; [exact H1|]. split.
  - intros p Hp. apply H2. apply in_heap_identity; assumption.
  - destruct H3 as [H3|(p & Hp & H3)]; [left; exact H3|].
    right. exists p. split; [|exact H3]. apply in_heap_identity in Hp; assumption.
Qed.

(** On twelve vertices the triangle 0-1-2 is the bitmask 2051 (edge ids 0, 1
    and 11); the edges 9-11 and 10-11 have the ids 64 and 65. *)
Definition triangle12 : Graph := 2051%Z.

(** The path 9-0-11 (edge ids 8 and 10). *)
Definition path12 : Graph := 1280%Z.

(** Sends the triangle 0-1-2 onto 0-9-11. *)
Definition toPath12 : list nat := [0; 9; 11; 3; 4; 5; 6; 7; 8; 1; 10; 2].

(** Sends the path 9-0-11 onto 9-11-10. *)
Definition toNothing12 : list nat := [11; 1; 2; 3; 4; 5; 6; 7; 8; 9; 0; 10].

Lemma isPerm_12 (p : list nat) :
  length p = 12 -> forallb (fun i => existsb (Nat.eqb i) p) (range 0 12) = true ->
  isPerm 12 p.
Proof.
  intros Hl Hb. apply isPerm_of_surjective; [assumption|].
  intros i Hi. rewrite forallb_forall in Hb.
  specialize (Hb i ltac:(apply in_range; lia)).
  apply existsb_exists in Hb. destruct Hb as (x & Hx & He).
  apply Nat.eqb_eq in He. subst x. exact Hx.
Qed.

(** Every relabelling of the triangle keeps at least two of its edges, and
    the least bitmask with two edges left is that of the path 9-0-11. *)
Lemma triangle12_relabel_ge (p : list nat) :
  isPerm 12 p -> (path12 <= relabel (initEdges 12) triangle12 p)%Z.
Proof.
  intros Hp. set (T := initEdges 12).
  set (a := get 0 p 0). set (b := get 0 p 1). set (c := get 0 p 2).
  assert (Hq : relabel T triangle12 p = relabel T triangle12 [a; b; c]).
  { apply relabel_ext. intros k Hk Hs.
    assert (Hchk : forallb (fun k => (Z.land triangle12 (bit k) =? 0)%Z
                              || existsb (Nat.eqb k) [0; 1; 11])
                     (range 0 (numEdges T)) = true) by (vm_compute; reflexivity).
    rewrite forallb_forall in Hchk.
    specialize (Hchk k ltac:(apply in_range; lia)).
    rewrite Hs in Hchk. cbn [orb existsb] in Hchk.
    assert (E0 : get (0, 0) (edgePairs T) 0 = (0, 1)) by (vm_compute; reflexivity).
    assert (E1 : get (0, 0) (edgePairs T) 1 = (0, 2)) by (vm_compute; reflexivity).
    assert (E11 : get (0, 0) (edgePairs T) 11 = (1, 2)) by (vm_compute; reflexivity).
    rewrite !orb_true_iff, !Nat.eqb_eq in Hchk.
    unfold relabelId.
    destruct Hchk as [->|[->|[->|Hf]]]; [rewrite E0|rewrite E1|rewrite E11|discriminate];
      reflexivity. }
  rewrite Hq.
  assert (Hall : forallb (fun a => forallb (fun b => forallb (fun c =>
                    (a =? b) || (a =? c) || (b =? c)
                    || (path12 <=? relabel T triangle12 [a; b; c])%Z)
                    (range 0 12)) (range 0 12)) (range 0 12) = true)
    by (vm_compute; reflexivity).
  assert (Ha : a < 12) by (apply (isPerm_get_lt 12 p 0 Hp); lia).
  assert (Hb : b < 12) by (apply (isPerm_get_lt 12 p 1 Hp); lia).
  assert (Hc : c < 12) by (apply (isPerm_get_lt 12 p 2 Hp); lia).
  assert (Hab : a <> b).
  { intros E. apply (isPerm_get_inj 12 p 0 1 Hp) in E; lia. }
  assert (Hac : a <> c).
  { intros E. apply (isPerm_get_inj 12 p 0 2 Hp) in E; lia. }
  assert (Hbc : b <> c).
  { intros E. apply (isPerm_get_inj 12 p 1 2 Hp) in E; lia. }
  rewrite forallb_forall in Hall.
  specialize (Hall a ltac:(apply in_range; lia)).
  rewrite forallb_forall in Hall.
  specialize (Hall b ltac:(apply in_range; lia)).
  rewrite forallb_forall in Hall.
  specialize (Hall c ltac:(apply in_range; lia)).
  rewrite !orb_true_iff, !Nat.eqb_eq in Hall.
  destruct Hall as [[[E|E]|E]|Hle]; try contradiction.
  apply Z.leb_le. exact Hle.
Qed.

Lemma canonical_triangle12 : canonical (initEdges 12) triangle12 = path12.
Proof.
  set (T := initEdges 12).
  assert (Hn : n T = 12) by apply initEdges_fields.
  destruct (canonical_least T triangle12 ltac:(lia)) as (_ & Hle & Hor).
  assert (Hp : isPerm 12 toPath12) by (apply isPerm_12; vm_compute; reflexivity).
  assert (Hr : relabel T triangle12 toPath12 = path12) by (vm_compute; reflexivity).
  apply Z.le_antisymm.
  - rewrite <- Hr. apply Hle. rewrite Hn. exact Hp.
  - destruct Hor as [->|(p & Hp' & ->)].
    + unfold path12, triangle12. lia.
    + apply triangle12_relabel_ge. rewrite <- Hn. exact Hp'.
Qed.

Lemma canonical_path12 : canonical (initEdges 12) path12 = 0%Z.
Proof.
  set (T := initEdges 12).
  assert (Hn : n T = 12) by apply initEdges_fields.
  destruct (canonical_least T path12 ltac:(lia)) as (_ & Hle & Hor).
  assert (Hp : isPerm 12 toNothing12) by (apply isPerm_12; vm_compute; reflexivity).
  assert (Hr : relabel T path12 toNothing12 = 0%Z) by (vm_compute; reflexivity).
  apply Z.le_antisymm.
  - rewrite <- Hr. apply Hle. rewrite Hn. exact Hp.
  - destruct Hor as [->|(p & _ & ->)]; [unfold path12; lia|apply relabel_ge_0].
Qed.

(** Against C7 as stated, for every [n]: on twelve vertices [canonical] is not
    idempotent, and relabelling a graph first changes its canonical form.
    The canonical form of the triangle 0-1-2 is the path 9-0-11, the triangle
    0-9-11 without its edge 9-11, whose id 64 is beyond the 64 bits of
    [Graph]; the canonical form of that path is the empty graph. *)
Lemma canonical_not_idempotent_12 :
  let T := initEdges 12 in
  validGraph (numEdges T) triangle12
  /\ canonical T triangle12 = path12
  /\ canonical T path12 = 0%Z
  /\ canonical T (canonical T triangle12) <> canonical T triangle12
  /\ isPerm 12 toPath12
  /\ canonical T (relabel T triangle12 toPath12) <> canonical T triangle12.
Proof.
  cbv zeta.
  assert (Hr : relabel (initEdges 12) triangle12 toPath12 = path12)
    by (vm_compute; reflexivity).
  rewrite Hr, canonical_triangle12, canonical_path12.
  split; [unfold validGraph; vm_compute; repeat split; intros; discriminate|].
  split; [reflexivity|]. split; [reflexivity|].
  split; [unfold path12; lia|].
  split; [apply isPerm_12; vm_compute; reflexivity|].
  unfold path12; lia.
Qed.

(** ** Edge counts *)

(** The set bits of a graph among the edge ids below [m]. *)
Definition bitsOf (m : nat) (g : Graph) : list nat :=
  filter (fun k => Z.testbit g (Z.of_nat k)) (seq 0 m).

Lemma in_bitsOf (m : nat) (g : Graph) (k : nat) :
  In k (bitsOf m g) <-> k < m /\ Z.testbit g (Z.of_nat k) = true.
Proof.
  unfold bitsOf. rewrite <- list_elem_of_In, list_elem_of_filter, list_elem_of_In, in_seq.
  split; intros [H1 H2]; split; try lia; try assumption.
  - destruct (Z.testbit g (Z.of_nat k)); [reflexivity|contradiction].
  - rewrite H2. exact I.
Qed.

Lemma bitsOf_NoDup (m : nat) (g : Graph) : List.NoDup (bitsOf m g).
Proof.
  unfold bitsOf. apply NoDup_ListNoDup, NoDup_filter, NoDup_ListNoDup, List.seq_NoDup.
Qed.

Lemma filter_length_ext {A : Type} (f g : A -> bool) (l : list A) :
  (forall x, In x l -> f x = g x) -> length (filter f l) = length (filter g l).
Proof.
  induction l as [|a l IH]; intros H; [reflexivity|].
  rewrite !filter_cons. rewrite <- (H a) by (left; reflexivity).
  destruct (f a); simpl.
  - destruct (decide True); [|tauto]. simpl. f_equal. apply IH.
    intros x Hx. apply H. right. assumption.
  - destruct (decide False); [tauto|]. apply IH. intros x Hx. apply H. right. assumption.
Qed.

Lemma filter_cons_length {A : Type} (f : A -> bool) (a : A) (l : list A) :
  length (filter f (a :: l)) = (if f a then 1 else 0) + length (filter f l).
Proof.
  rewrite filter_cons. destruct (f a); simpl.
  - destruct (decide True); [reflexivity|tauto].
  - destruct (decide False); [tauto|reflexivity].
Qed.

Lemma edgeCountLoop_spec (fuel : nat) :
  forall tmp count, (0 <= tmp < 2 ^ Z.of_nat fuel)%Z ->
    edgeCountLoop fuel tmp count = count + length (bitsOf fuel tmp).
Proof.
  induction fuel as [|fuel IH]; intros tmp count Htmp.
  - simpl. unfold bitsOf. simpl. lia.
  - cbn [edgeCountLoop]. destruct (Z.eqb_spec tmp 0) as [->|Hne].
    + assert (Hz : bitsOf (S fuel) 0%Z = []).
      { unfold bitsOf. induction (seq 0 (S fuel)) as [|a l IHl]; [reflexivity|].
        rewrite filter_cons, Z.bits_0. destruct (decide False); [tauto|]. assumption. }
      rewrite Hz. simpl. lia.
    + rewrite IH.
      2:{ rewrite Z.shiftr_div_pow2 by lia. change (2 ^ 1)%Z with 2%Z.
          rewrite Nat2Z.inj_succ, Z.pow_succ_r in Htmp by lia.
          split; [apply Z.div_pos; lia|]. apply Z.div_lt_upper_bound; lia. }
      assert (Hb0 : Z.to_nat (Z.land tmp 1) = if Z.testbit tmp 0 then 1 else 0).
      { change 1%Z with (Z.ones 1). rewrite Z.land_ones by lia.
        change (2 ^ 1)%Z with 2%Z. rewrite <- Z.bit0_mod.
        destruct (Z.testbit tmp 0); reflexivity. }
      rewrite Hb0. unfold bitsOf. rewrite <- cons_seq, filter_cons_length.
      change (Z.of_nat 0) with 0%Z. rewrite <- seq_shift.
      assert (Hlen : length (filter (fun k => Z.testbit tmp (Z.of_nat k)) (map S (seq 0 fuel)))
                     = length (filter (fun k => Z.testbit (Z.shiftr tmp 1) (Z.of_nat k))
                                      (seq 0 fuel))).
      { induction (seq 0 fuel) as [|a l IHl]; [reflexivity|].
        cbn [map]. rewrite !filter_cons_length.
        rewrite Z.shiftr_spec by lia.
        replace (Z.of_nat a + 1)%Z with (Z.of_nat (S a)) by lia.
        rewrite IHl. reflexivity. }
      rewrite Hlen. lia.
Qed.

Lemma edgeCount_bitsOf (m : nat) (g : Graph) :
  validGraph m g -> edgeCount g = length (bitsOf m g).
Proof.
  intros Hg. unfold edgeCount. rewrite edgeCountLoop_spec by apply Hg. simpl.
  apply Permutation_length. apply Permutation.NoDup_Permutation; try apply bitsOf_NoDup.
  intros k. rewrite !in_bitsOf. split; intros [Hk Hb].
  - split; [|assumption]. apply (validGraph_bits m g k Hg Hb).
  - split; [|assumption]. apply (validGraph_bits m g k Hg Hb).
Qed.

(** ** Isomorphic subgraphs and the maximality filter *)

(** [g] is an isomorphic subgraph of [h]: some renaming of the vertices sends
    every edge of [g] to an edge of [h]. *)
Definition isoSubgraph (T : Tables) (g h : Graph) : Prop :=
  exists p, isPerm (n T) p /\
    forall k, k < numEdges T -> Z.testbit g (Z.of_nat k) = true ->
              Z.testbit h (Z.of_nat (relabelId T p k)) = true.

Section Filter.

Variable T : Tables.
Hypothesis HT : tablesOK T.

Lemma relabel_bit_sound (g : Graph) (p : list nat) (k' : nat) :
  Z.testbit (relabel T g p) (Z.of_nat k') = true ->
  exists k, k < numEdges T /\ Z.testbit g (Z.of_nat k) = true /\ relabelId T p k = k'.
Proof.
  rewrite relabel_orBits, orBits_testbit, Z.bits_0, orb_false_l, existsb_exists.
  intros [k [Hin Hb]]. apply in_range in Hin.
  rewrite !andb_true_iff, negb_true_iff, land_bit_zero, negb_false_iff in Hb.
  rewrite andb_true_iff, Nat.eqb_eq in Hb. destruct Hb as [[[Hb _] He] _].
  exists k. repeat split; (lia || assumption).
Qed.

(** Whenever [g] is an isomorphic subgraph of [h], the test finds it. *)
Lemma isoSubgraph_test (g h : Graph) :
  isoSubgraph T g h -> isIsomorphicSubgraphOf T g h = true.
Proof.
  intros [p [Hp Hsub]]. unfold isIsomorphicSubgraphOf. apply existsb_exists.
  exists p. split; [apply in_permutations; assumption|].
  apply Z.eqb_eq. apply Z.bits_inj'. intros m Hm.
  rewrite Z.land_spec. destruct (Z.testbit (relabel T g p) m) eqn:Hr; [|reflexivity].
  rewrite <- (Z2Nat.id m Hm) in Hr |- *.
  destruct (relabel_bit_sound g p _ Hr) as [k [Hk [Hb He]]].
  rewrite <- He. rewrite (Hsub k Hk Hb). reflexivity.
Qed.

(** With at most 64 edge ids the test is exact. *)
Lemma test_isoSubgraph (g h : Graph) :
  numEdges T <= 64 -> validGraph (numEdges T) g ->
  isIsomorphicSubgraphOf T g h = true -> isoSubgraph T g h.
Proof.
  intros H64 Hg Ht. unfold isIsomorphicSubgraphOf in Ht. apply existsb_exists in Ht.
  destruct Ht as [p [Hp Heq]]. apply in_permutations in Hp. apply Z.eqb_eq in Heq.
  exists p. split; [assumption|]. intros k Hk Hb.
  assert (Hr : Z.testbit (relabel T g p) (Z.of_nat (relabelId T p k)) = true).
  { apply (relabel_bit T HT H64 g p _ Hg Hp). exists k. auto. }
  rewrite <- Heq, Z.land_spec in Hr. apply andb_true_iff in Hr. apply Hr.
Qed.

(** A graph with at least as many edges that embeds into [h] fills it, so [h]
    embeds back. *)
Lemma isoSubgraph_back (g h : Graph) :
  validGraph (numEdges T) g -> validGraph (numEdges T) h ->
  edgeCount h <= edgeCount g -> isoSubgraph T g h -> isoSubgraph T h g.
Proof.
  intros Hg Hh Hcount [p [Hp Hsub]].
  rewrite (edgeCount_bitsOf _ g Hg), (edgeCount_bitsOf _ h Hh) in Hcount.
  set (f := relabelId T p).
  assert (Hnd : List.NoDup (map f (bitsOf (numEdges T) g))).
  { apply List.NoDup_map_NoDup_ForallPairs; [|apply bitsOf_NoDup].
    intros a b Ha Hb Heq. apply in_bitsOf in Ha. apply in_bitsOf in Hb.
    apply (relabelId_inj T HT p a b Hp); tauto. }
  assert (Hincl : incl (map f (bitsOf (numEdges T) g)) (bitsOf (numEdges T) h)).
  { intros k' Hk'. apply in_map_iff in Hk'. destruct Hk' as [k [<- Hk]].
    apply in_bitsOf in Hk. destruct Hk as [Hk Hb]. apply in_bitsOf. split.
    - apply relabelId_lt; assumption.
    - apply Hsub; assumption. }
  assert (Hback : incl (bitsOf (numEdges T) h) (map f (bitsOf (numEdges T) g))).
  { apply List.NoDup_length_incl; [assumption| rewrite length_map; lia |assumption]. }
  exists (inverse (n T) p). split; [apply inverse_isPerm; assumption|].
  intros k' Hk' Hb'.
  assert (Hin : In k' (bitsOf (numEdges T) h)) by (apply in_bitsOf; auto).
  apply Hback, in_map_iff in Hin. destruct Hin as [k [<- Hk]].
  apply in_bitsOf in Hk. destruct Hk as [Hk Hb]. unfold f.
  rewrite relabelId_compose by (try assumption; apply inverse_isPerm; assumption).
  rewrite compose_inverse_l by assumption.
  rewrite relabelId_identity by assumption. exact Hb.
Qed.

Definition moreEdges (g h : Graph) : Prop := edgeCount h <= edgeCount g.

Lemma StronglySorted_app_remove {A : Type} (R : A -> A -> Prop) (l1 l2 : list A) (x : A) :
  StronglySorted R (l1 ++ x :: l2) -> StronglySorted R (l1 ++ l2).
Proof.
  induction l1 as [|a l1 IH]; simpl; intros H.
  - inversion H. assumption.
  - inversion H as [|? ? Hs Hf]; subst. constructor; [apply IH; assumption|].
    rewrite List.Forall_forall in Hf |- *. intros y Hy. apply Hf.
    apply in_app_iff in Hy. apply in_app_iff. destruct Hy; [left|right; right]; assumption.
Qed.

Lemma StronglySorted_app_inv {A : Type} (R : A -> A -> Prop) (l1 l2 : list A) (x y : A) :
  StronglySorted R (l1 ++ x :: l2) -> In y l2 -> R x y.
Proof.
  induction l1 as [|a l1 IH]; simpl; intros H Hy.
  - inversion H as [|? ? _ Hf]; subst. rewrite List.Forall_forall in Hf. apply Hf. assumption.
  - inversion H; subst. apply IH; assumption.
Qed.

(** What the filter loop keeps invariant: the kept graphs followed by the
    graphs still to come are in descending edge-count order, and no kept
    graph passed the test against a graph kept before it. *)
Lemma filterMaximal_inv (pool kept : list Graph) :
  StronglySorted moreEdges (kept ++ pool) ->
  (forall A g B, kept = A ++ g :: B ->
     forall m, In m A -> isIsomorphicSubgraphOf T g m = false) ->
  let out := fold_left (filterStep T) pool kept in
  StronglySorted moreEdges out
  /\ (forall A g B, out = A ++ g :: B ->
        forall m, In m A -> isIsomorphicSubgraphOf T g m = false)
  /\ (forall g, In g out -> In g kept \/ In g pool).
Proof.
  revert kept. induction pool as [|g pool IH]; intros kept Hs Hk; simpl.
  - rewrite app_nil_r in Hs. split; [assumption|]. split; [assumption|]. auto.
  - assert (Hstep : filterStep T kept g =
                     if existsb (fun m => isIsomorphicSubgraphOf T g m) kept
                     then kept else kept ++ [g]) by reflexivity.
    rewrite Hstep. clear Hstep.
    destruct (existsb (fun m => isIsomorphicSubgraphOf T g m) kept) eqn:He.
    + destruct (IH kept (StronglySorted_app_remove _ _ _ _ Hs) Hk) as (H1 & H2 & H3).
      split; [assumption|]. split; [assumption|].
      intros x Hx. destruct (H3 x Hx); auto.
    + assert (Hk' : forall A x B, kept ++ [g] = A ++ x :: B ->
                forall m, In m A -> isIsomorphicSubgraphOf T x m = false).
      { intros A x B Heq m Hm.
        destruct B as [|b B].
        - apply app_inj_tail in Heq. destruct Heq as [-> ->].
          destruct (isIsomorphicSubgraphOf T x m) eqn:Hi; [|reflexivity].
          assert (Hex : existsb (fun m => isIsomorphicSubgraphOf T x m) A = true).
          { apply existsb_exists. exists m. auto. }
          congruence.
        - destruct (@exists_last _ (b :: B) ltac:(discriminate)) as [B' [z HB]].
          rewrite HB in Heq.
          assert (Heq' : kept ++ [g] = (A ++ x :: B') ++ [z]).
          { rewrite Heq. rewrite <- app_assoc. reflexivity. }
          apply app_inj_tail in Heq'. destruct Heq' as [Hkept _].
          apply (Hk A x _ Hkept m Hm). }
      destruct (IH (kept ++ [g])) as (H1 & H2 & H3).
      * rewrite <- app_assoc. simpl. assumption.
      * assumption.
      * split; [assumption|]. split; [assumption|].
        intros x Hx. destruct (H3 x Hx) as [Hin|Hin]; [|auto].
        apply in_app_iff in Hin. destruct Hin as [Hin|[<-|[]]]; auto.
Qed.

End Filter.

(** C4.  Run on a pool of graphs on [vertices] vertices in descending
    edge-count order, the filter keeps graphs of which no one is an isomorphic
    subgraph of another: for distinct kept [G] and [H], no renaming of the
    vertices sends the edges of [G] into those of [H], whichever of the two
    was kept first; and up to 11 vertices (edge ids within the 64 bits of a
    [Graph]) the program's own test [isIsomorphicSubgraphOf G H] is false. *)
Theorem filterMaximal_pairwise_maximal (vertices : nat) (pool : list Graph) (G H : Graph) :
  let T := initEdges vertices in
  StronglySorted moreEdges pool ->
  Forall (validGraph (numEdges T)) pool ->
  In G (filterMaximal T pool) -> In H (filterMaximal T pool) -> G <> H ->
  ~ isoSubgraph T G H
  /\ (vertices <= 11 -> isIsomorphicSubgraphOf T G H = false).
Proof.
  intros T Hsorted Hvalid HG HH Hne.
  pose proof (initEdges_ok vertices) as HT. fold T in HT.
  destruct (filterMaximal_inv T pool [] Hsorted) as (Hs & Hlater & Hin).
  { intros A g B Heq. destruct A; discriminate. }
  cbv zeta in Hs, Hlater, Hin. fold (filterMaximal T pool) in Hs, Hlater, Hin.
  assert (Hval : forall g, In g (filterMaximal T pool) -> validGraph (numEdges T) g).
  { intros g Hg. destruct (Hin g Hg) as [[]|Hp].
    rewrite List.Forall_forall in Hvalid. apply Hvalid. assumption. }
  assert (Hno : ~ isoSubgraph T G H).
  { destruct (in_split G _ HG) as [A [B Hout]].
    rewrite Hout in HH. apply in_app_iff in HH.
    destruct HH as [HA|[Heq|HB]]; [|congruence|].
    - intros Hsub. apply (isoSubgraph_test T) in Hsub.
      rewrite (Hlater A G B Hout H HA) in Hsub. discriminate.
    - intros Hsub.
      assert (Hcount : moreEdges G H).
      { rewrite Hout in Hs. apply (StronglySorted_app_inv _ _ _ _ _ Hs HB). }
      apply (isoSubgraph_back T HT G H (Hval G HG)) in Hsub;
        [| apply Hval; rewrite Hout; apply in_app_iff; right; right; assumption
         | exact Hcount].
      apply (isoSubgraph_test T) in Hsub.
      destruct (in_split H _ HB) as [B1 [B2 HBeq]].
      assert (Hout' : filterMaximal T pool = (A ++ G :: B1) ++ H :: B2).
      { rewrite Hout, HBeq, <- app_assoc. reflexivity. }
      rewrite (Hlater _ H B2 Hout' G) in Hsub; [discriminate|].
      apply in_app_iff. right. left. reflexivity. }
  split; [exact Hno|].
  intros Hv. destruct (isIsomorphicSubgraphOf T G H) eqn:Ht; [|reflexivity].
  exfalso. apply Hno.
  apply (test_isoSubgraph T HT G H (numEdges_initEdges_le vertices Hv) (Hval G HG) Ht).
Qed.

Lemma validGraph_dec (m : nat) (g : Graph) :
  ((0 <=? g) && (g <? 2 ^ 64) && (g <? 2 ^ Z.of_nat m))%Z = true -> validGraph m g.
Proof.
  rewrite !andb_true_iff, Z.leb_le, !Z.ltb_lt. unfold validGraph. tauto.
Qed.

(** Four vertices: the 4-cycle, the star, the triangle and the path; the path
    is dropped, the star and the triangle are both kept. *)
Lemma filterMaximal_pairwise_maximal_witness :
  ~ isoSubgraph (initEdges 4) 7%Z 11%Z
  /\ (4 <= 11 -> isIsomorphicSubgraphOf (initEdges 4) 7%Z 11%Z = false).
Proof.
  apply (filterMaximal_pairwise_maximal 4 [45; 7; 11; 9]%Z 7%Z 11%Z).
  - unfold moreEdges. repeat constructor; vm_compute; lia.
  - repeat (constructor; [apply validGraph_dec; vm_compute; reflexivity|]). constructor.
  - vm_compute. tauto.
  - vm_compute. tauto.
  - discriminate.
Defined.

(** ** graph6 *)

(** Column-major pairs [(j, i)], [i < j < n]: the order of the codec loops. *)
Definition pairsCM (n : nat) : list (nat * nat) :=
  flat_map (fun j => map (pair j) (range 0 j)) (range 1 n).

Lemma in_pairsCM (n i j : nat) : In (j, i) (pairsCM n) <-> i < j < n.
Proof.
  unfold pairsCM. rewrite in_flat_map. split.
  - intros [a [Ha Hin]]. apply in_map_iff in Hin. destruct Hin as [b [Heq Hb]].
    inversion Heq; subst. apply in_range in Ha. apply in_range in Hb. lia.
  - intros H. exists j. split; [apply in_range; lia|].
    apply in_map_iff. exists i. split; [reflexivity|apply in_range; lia].
Qed.

Lemma flat_map_map_pair {A B C : Type} (F : A -> B -> C) (inner : A -> list B)
    (outer : list A) :
  flat_map (fun a => map (F a) (inner a)) outer =
  map (fun p => F (fst p) (snd p)) (flat_map (fun a => map (pair a) (inner a)) outer).
Proof.
  induction outer as [|a outer IH]; simpl; [reflexivity|].
  rewrite map_app, map_map, IH. reflexivity.
Qed.

Lemma nat_of_byteOf (z : Z) : (0 <= z < 256)%Z -> nat_of_ascii (byteOf z) = Z.to_nat z.
Proof.
  intros H. unfold byteOf. rewrite Z.mod_small by assumption.
  apply nat_ascii_embedding. lia.
Qed.

Lemma intOf_byteOf (z : Z) : (0 <= z < 256)%Z -> intOf (byteOf z) = z.
Proof. intros H. unfold intOf. rewrite nat_of_byteOf by assumption. lia. Qed.

Lemma asciiSpace_printable (c : ascii) : 33 <= nat_of_ascii c -> asciiSpace c = false.
Proof.
  unfold asciiSpace. generalize (nat_of_ascii c). intros v Hv.
  do 33 (destruct v as [|v]; [lia|]). reflexivity.
Qed.

Section Trim.

Variable TrimFunc_IsSpace : list ascii -> list ascii.
Variable TrimRightFunc_IsSpace : list ascii -> list ascii.

(** A line that starts and ends with a printable ASCII byte is left alone. *)
Lemma TrimSpace_printable (s : list ascii) :
  Forall (fun c => 33 <= nat_of_ascii c < 128) s ->
  TrimSpace TrimFunc_IsSpace TrimRightFunc_IsSpace s = s.
Proof.
  intros Hs.
  assert (Hstop : forall r, Forall (fun c => 33 <= nat_of_ascii c < 128) r ->
                            trimStop TrimRightFunc_IsSpace r = rev r).
  { intros [|c r] Hr; [reflexivity|]. inversion Hr as [|? ? Hc _]; subst.
    cbn [trimStop]. unfold RuneSelf.
    destruct (Nat.leb_spec 128 (nat_of_ascii c)); [lia|].
    rewrite asciiSpace_printable by lia. reflexivity. }
  destruct s as [|c s]; [reflexivity|].
  inversion Hs as [|? ? Hc _]; subst. cbn [TrimSpace].
  unfold RuneSelf. destruct (Nat.leb_spec 128 (nat_of_ascii c)); [lia|].
  rewrite asciiSpace_printable by lia.
  rewrite Hstop.
  - apply rev_involutive.
  - apply List.Forall_forall. intros x Hx. apply in_rev in Hx.
    rewrite List.Forall_forall in Hs. apply Hs. assumption.
Qed.

End Trim.

(** Six bits to a character and back. *)
Definition packVal (b0 b1 b2 b3 b4 b5 : Z) : Z :=
  Z.lor (Z.shiftl b0 5 mod 256)
  (Z.lor (Z.shiftl b1 4 mod 256)
  (Z.lor (Z.shiftl b2 3 mod 256)
  (Z.lor (Z.shiftl b3 2 mod 256)
  (Z.lor (Z.shiftl b4 1 mod 256) b5)))).

Definition isBit (b : Z) : Prop := b = 0%Z \/ b = 1%Z.

Lemma packVal_range (b0 b1 b2 b3 b4 b5 : Z) :
  isBit b0 -> isBit b1 -> isBit b2 -> isBit b3 -> isBit b4 -> isBit b5 ->
  (0 <= packVal b0 b1 b2 b3 b4 b5 < 64)%Z.
Proof.
  intros [->| ->] [->| ->] [->| ->] [->| ->] [->| ->] [->| ->]; vm_compute;
    split; congruence.
Qed.

Lemma unpack_packVal (b0 b1 b2 b3 b4 b5 : Z) :
  isBit b0 -> isBit b1 -> isBit b2 -> isBit b3 -> isBit b4 -> isBit b5 ->
  map (fun b => (Z.land (Z.shiftr (packVal b0 b1 b2 b3 b4 b5) (Z.of_nat b)) 1 mod 256)%Z)
      [5; 4; 3; 2; 1; 0] = [b0; b1; b2; b3; b4; b5].
Proof.
  intros [->| ->] [->| ->] [->| ->] [->| ->] [->| ->] [->| ->]; vm_compute; reflexivity.
Qed.

Lemma mod6_decomp (q r : nat) : r < 6 -> (6 * q + r) mod 6 = r.
Proof.
  intros Hr. rewrite Nat.add_comm, Nat.mul_comm, Nat.Div0.mod_add.
  apply Nat.mod_small. assumption.
Qed.

Lemma padBits_decomp (fuel : nat) :
  forall (bits : list Z) (q r : nat),
    length bits = 6 * q + r -> r < 6 -> (r = 0 \/ 6 - r <= fuel) ->
    exists r', padBits fuel bits = bits ++ replicate r' 0%Z
               /\ length (padBits fuel bits) mod 6 = 0.
Proof.
  induction fuel as [|fuel IH]; intros bits q r Hl Hr Hf.
  - exists 0. cbn [padBits replicate]. rewrite app_nil_r. split; [reflexivity|].
    rewrite Hl, mod6_decomp by assumption. lia.
  - cbn [padBits]. rewrite Hl, mod6_decomp by assumption.
    destruct (Nat.eqb_spec r 0) as [H0|H0].
    + exists 0. cbn [replicate]. rewrite app_nil_r. split; [reflexivity|].
      rewrite Hl, mod6_decomp by assumption. assumption.
    + destruct (Nat.eq_dec r 5) as [H5|H5].
      * destruct (IH (bits ++ [0%Z]) (S q) 0) as [r' [Hr1 Hr2]];
          [rewrite length_app; simpl; lia | lia | left; reflexivity |].
        exists (S r'). split; [|assumption]. rewrite Hr1, <- app_assoc. reflexivity.
      * destruct (IH (bits ++ [0%Z]) q (S r)) as [r' [Hr1 Hr2]];
          [rewrite length_app; simpl; lia | lia | right; lia |].
        exists (S r'). split; [|assumption]. rewrite Hr1, <- app_assoc. reflexivity.
Qed.

Lemma padBits_spec (bits : list Z) :
  exists r, padBits 6 bits = bits ++ replicate r 0%Z
            /\ length (padBits 6 bits) mod 6 = 0.
Proof.
  pose proof (Nat.div_mod_eq (length bits) 6) as Hd.
  pose proof (Nat.mod_upper_bound (length bits) 6 ltac:(lia)) as Hm.
  apply (padBits_decomp 6 bits (length bits / 6) (length bits mod 6)); lia.
Qed.

Lemma get_skip6 (a0 a1 a2 a3 a4 a5 : Z) (l : list Z) (x : nat) :
  get 0%Z (a0 :: a1 :: a2 :: a3 :: a4 :: a5 :: l) (6 + x) = get 0%Z l x.
Proof. reflexivity. Qed.

Definition chunk6 (l : list Z) (k : nat) : list Z :=
  [get 0%Z l (6 * k); get 0%Z l (6 * k + 1); get 0%Z l (6 * k + 2);
   get 0%Z l (6 * k + 3); get 0%Z l (6 * k + 4); get 0%Z l (6 * k + 5)].

Lemma flat_map_chunks (q : nat) :
  forall l : list Z, length l = 6 * q -> flat_map (chunk6 l) (range 0 q) = l.
Proof.
  induction q as [|q IH]; intros l Hl.
  - destruct l; [reflexivity|cbn [length] in Hl; lia].
  - destruct l as [|a0 [|a1 [|a2 [|a3 [|a4 [|a5 l]]]]]]; cbn [length] in Hl; try lia.
    rewrite range_cons by lia. cbn [flat_map].
    assert (H0 : chunk6 (a0 :: a1 :: a2 :: a3 :: a4 :: a5 :: l) 0 = [a0; a1; a2; a3; a4; a5])
      by reflexivity.
    rewrite H0. cbn [app]. do 6 f_equal.
    rewrite <- (IH l) at 2 by lia.
    unfold range. rewrite !Nat.sub_0_r. replace (S q - 1) with q by lia.
    rewrite <- seq_shift, flat_map_concat_map, map_map, <- flat_map_concat_map.
    apply flat_map_ext. intros k. unfold chunk6.
    replace (6 * S k) with (6 + 6 * k) by lia.
    rewrite <- !Nat.add_assoc, !get_skip6. reflexivity.
Qed.

Lemma flat_map_map {A B C : Type} (f : B -> list C) (g : A -> B) (l : list A) :
  flat_map f (map g l) = flat_map (fun x => f (g x)) l.
Proof. induction l as [|a l IH]; simpl; [reflexivity|]. rewrite IH. reflexivity. Qed.

Lemma isBit_get (l : list Z) (i : nat) : Forall isBit l -> isBit (get 0%Z l i).
Proof.
  intros H. destruct (Nat.lt_ge_cases i (length l)) as [Hi|Hi].
  - rewrite List.Forall_forall in H. apply H, get_In. assumption.
  - rewrite get_ge by assumption. left. reflexivity.
Qed.

Lemma div6_exact (len : nat) : len mod 6 = 0 -> len = 6 * ((len + 5) / 6).
Proof.
  intros Hm. pose proof (Nat.div_mod_eq len 6) as Hd. rewrite Hm, Nat.add_0_r in Hd.
  rewrite Hd at 2. replace (6 * (len / 6) + 5) with (5 + (len / 6) * 6) by lia.
  rewrite Nat.div_add by lia. change (5 / 6) with 0. lia.
Qed.

Section Graph6.

Variable TrimFunc_IsSpace : list ascii -> list ascii.
Variable TrimRightFunc_IsSpace : list ascii -> list ascii.
Variable T : Tables.
Hypothesis HT : tablesOK T.
Variable g : Graph.

(** The bit written for the pair [(j, i)], its edge id, and whether it is set. *)
Definition bitValue (p : nat * nat) : Z :=
  if Z.eqb (Z.land g (bit (get2 0 (edgeIndex T) (snd p) (fst p)))) 0 then 0%Z else 1%Z.

Definition bitId (p : nat * nat) : nat := get2 0 (edgeIndex T) (snd p) (fst p).

Definition bitSet (p : nat * nat) : bool := negb (Z.land g (bit (bitId p)) =? 0)%Z.

Definition paddedBits : list Z := padBits 6 (map bitValue (pairsCM (n T))).

Lemma toGraph6_unfold :
  toGraph6 T g =
  byteOf (Z.of_nat (n T) + 63) ::
  map (fun k =>
         byteOf (packVal (get 0%Z paddedBits (6 * k)) (get 0%Z paddedBits (6 * k + 1))
                         (get 0%Z paddedBits (6 * k + 2)) (get 0%Z paddedBits (6 * k + 3))
                         (get 0%Z paddedBits (6 * k + 4)) (get 0%Z paddedBits (6 * k + 5))
                 + 63))
      (range 0 ((length paddedBits + 5) / 6)).
Proof.
  unfold toGraph6, paddedBits, pairsCM.
  rewrite (flat_map_map_pair
             (fun j i => if Z.eqb (Z.land g (bit (get2 0 (edgeIndex T) i j))) 0
                         then 0%Z else 1%Z)).
  reflexivity.
Qed.

Lemma paddedBits_spec :
  exists r, paddedBits = map bitValue (pairsCM (n T)) ++ replicate r 0%Z
            /\ length paddedBits mod 6 = 0.
Proof. unfold paddedBits. apply padBits_spec. Qed.

Lemma paddedBits_bits : Forall isBit paddedBits.
Proof.
  destruct paddedBits_spec as [r [-> _]]. apply Forall_app. split.
  - apply List.Forall_forall. intros b Hb. apply in_map_iff in Hb.
    destruct Hb as [p [<- _]]. unfold bitValue, isBit.
    destruct (Z.eqb _ 0); auto.
  - apply List.Forall_forall. intros b Hb. apply list_elem_of_In, elem_of_replicate in Hb.
    destruct Hb as [-> _]. left. reflexivity.
Qed.

(** The characters after the header decode to the padded bits. *)
Lemma decode_body :
  flat_map
    (fun c =>
       let val := (intOf c - 63)%Z in
       map (fun b => (Z.land (Z.shiftr val (Z.of_nat b)) 1 mod 256)%Z) [5; 4; 3; 2; 1; 0])
    (tl (toGraph6 T g)) = paddedBits.
Proof.
  rewrite toGraph6_unfold. cbn [tl]. rewrite flat_map_map.
  destruct paddedBits_spec as [r [_ Hmod]].
  transitivity (flat_map (chunk6 paddedBits) (range 0 ((length paddedBits + 5) / 6)));
    [|apply flat_map_chunks, div6_exact, Hmod].
  apply flat_map_ext. intros k. cbv zeta.
  pose proof paddedBits_bits as Hb.
  pose proof (packVal_range _ _ _ _ _ _
                (isBit_get _ (6 * k) Hb) (isBit_get _ (6 * k + 1) Hb)
                (isBit_get _ (6 * k + 2) Hb) (isBit_get _ (6 * k + 3) Hb)
                (isBit_get _ (6 * k + 4) Hb) (isBit_get _ (6 * k + 5) Hb)) as Hr.
  rewrite intOf_byteOf by lia.
  replace (packVal _ _ _ _ _ _ + 63 - 63)%Z
    with (packVal (get 0%Z paddedBits (6 * k)) (get 0%Z paddedBits (6 * k + 1))
                  (get 0%Z paddedBits (6 * k + 2)) (get 0%Z paddedBits (6 * k + 3))
                  (get 0%Z paddedBits (6 * k + 4)) (get 0%Z paddedBits (6 * k + 5))) by lia.
  apply unpack_packVal; apply isBit_get; assumption.
Qed.

(** The decoding loop, reading its bits at the running index. *)
Lemma parse_fold (bits : list Z) (L : list (nat * nat)) :
  forall (pre post : list Z) (acc : Graph),
    bits = pre ++ map bitValue L ++ post ->
    fold_left
      (fun st p =>
         (fun st j i =>
            let '(g', bitIdx) := st in
            (if (bitIdx <? length bits) && (get 0 bits bitIdx =? 1)%Z
             then Z.lor g' (bit (get2 0 (edgeIndex T) i j))
             else g',
             S bitIdx)) st (fst p) (snd p))
      L (acc, length pre) =
    (orBits bitSet bitId L acc, length pre + length L).
Proof.
  induction L as [|p L IH]; intros pre post acc Hbits.
  - simpl. rewrite Nat.add_0_r. reflexivity.
  - cbn [fold_left]. cbn [map] in Hbits.
    assert (Hlt : length pre < length bits).
    { rewrite Hbits, !length_app. simpl. lia. }
    assert (Hget : get 0%Z bits (length pre) = bitValue p).
    { rewrite Hbits. unfold get. rewrite app_nth2 by lia. rewrite Nat.sub_diag. reflexivity. }
    cbv beta iota zeta. rewrite Hget.
    destruct (Nat.ltb_spec (length pre) (length bits)) as [_|]; [|lia]. cbn [andb].
    specialize (IH (pre ++ [bitValue p]) post).
    rewrite length_app in IH. cbn [length] in IH.
    replace (length pre + 1) with (S (length pre)) in IH by lia.
    rewrite IH by (rewrite Hbits, <- app_assoc; reflexivity).
    cbn [length]. f_equal; [|lia].
    unfold orBits. cbn [fold_left]. f_equal.
    unfold bitSet, bitValue, bitId.
    destruct (Z.eqb (Z.land g (bit (get2 0 (edgeIndex T) (snd p) (fst p)))) 0); reflexivity.
Qed.

Lemma orBits_pairsCM :
  validGraph (numEdges T) g -> orBits bitSet bitId (pairsCM (n T)) 0%Z = g.
Proof.
  intros Hg. apply graph_ext; [apply orBits_nonneg; lia|apply Hg|].
  intros k. rewrite orBits_testbit, Z.bits_0, orb_false_l. apply eq_true_iff_eq.
  rewrite existsb_exists. split.
  - intros [[j i] [Hin Hb]]. unfold bitSet, bitId in Hb. cbn [fst snd] in Hb.
    rewrite !andb_true_iff, negb_true_iff, land_bit_zero, negb_false_iff in Hb.
    rewrite andb_true_iff, Nat.eqb_eq in Hb. destruct Hb as [[[Hb _] He] _].
    rewrite <- He. exact Hb.
  - intros Hb. destruct (validGraph_bits _ g k Hg Hb) as [Hk Hk64].
    destruct (ok_pair_of_id T HT k Hk) as (i & j & Hp & Hij & Hid).
    exists (j, i). split; [apply in_pairsCM; assumption|].
    unfold bitSet, bitId. cbn [fst snd]. rewrite Hid.
    rewrite !andb_true_iff, negb_true_iff, land_bit_zero, negb_false_iff.
    rewrite andb_true_iff, Nat.eqb_eq, Nat.ltb_lt. auto.
Qed.

Lemma toGraph6_printable :
  n T <= 64 -> Forall (fun c => 33 <= nat_of_ascii c < 128) (toGraph6 T g).
Proof.
  intros Hn. rewrite toGraph6_unfold. constructor.
  - rewrite nat_of_byteOf by lia. lia.
  - apply List.Forall_forall. intros c Hc. apply in_map_iff in Hc.
    destruct Hc as [k [<- _]].
    pose proof paddedBits_bits as Hb.
    pose proof (packVal_range _ _ _ _ _ _
                  (isBit_get _ (6 * k) Hb) (isBit_get _ (6 * k + 1) Hb)
                  (isBit_get _ (6 * k + 2) Hb) (isBit_get _ (6 * k + 3) Hb)
                  (isBit_get _ (6 * k + 4) Hb) (isBit_get _ (6 * k + 5) Hb)) as Hr.
    rewrite nat_of_byteOf by lia. lia.
Qed.

Lemma parse_toGraph6 :
  n T <= 64 -> validGraph (numEdges T) g ->
  parseGraph6 TrimFunc_IsSpace TrimRightFunc_IsSpace T (toGraph6 T g) = g.
Proof.
  intros Hn Hg. unfold parseGraph6.
  rewrite (TrimSpace_printable _ _ _ (toGraph6_printable Hn)).
  pose proof decode_body as Hdec.
  rewrite toGraph6_unfold in Hdec |- *. cbn [tl] in Hdec.
  rewrite intOf_byteOf by lia.
  replace (Z.of_nat (n T) + 63 - 63)%Z with (Z.of_nat (n T)) by lia.
  rewrite Z.eqb_refl. cbn [negb]. rewrite Hdec.
  rewrite (nested_fold
             (fun st j i =>
                let '(g', bitIdx) := st in
                (if (bitIdx <? length paddedBits) && (get 0 paddedBits bitIdx =? 1)%Z
                 then Z.lor g' (bit (get2 0 (edgeIndex T) i j))
                 else g',
                 S bitIdx))
             (fun j => range 0 j)).
  fold (pairsCM (n T)).
  destruct paddedBits_spec as [r [Hpad _]].
  pose proof (parse_fold paddedBits (pairsCM (n T)) [] (replicate r 0%Z) 0%Z Hpad) as Hf.
  match goal with
  | |- context [fold_left ?f ?l ?a] =>
    replace (fold_left f l a)
      with (orBits bitSet bitId (pairsCM (n T)) 0%Z, 0 + length (pairsCM (n T)))
      by (symmetry; exact Hf)
  end.
  apply orBits_pairsCM. assumption.
Qed.

End Graph6.

(** C6.  For a run on [vertices <= 64] vertices (the header byte
    [vertices + 63] is then a printable ASCII character, as graph6 asks) and
    every graph [g], an edge bitmask over the [C(n,2)] dense edge ids of
    [initEdges] held in the 64-bit [Graph], decoding the line written by
    [toGraph6] gives [g] back. *)
Theorem graph6_roundtrip (TrimFunc_IsSpace TrimRightFunc_IsSpace : list ascii -> list ascii)
    (vertices : nat) (g : Graph) :
  vertices <= 64 ->
  validGraph (numEdges (initEdges vertices)) g ->
  parseGraph6 TrimFunc_IsSpace TrimRightFunc_IsSpace (initEdges vertices)
              (toGraph6 (initEdges vertices) g) = g.
Proof.
  intros Hv Hg. apply parse_toGraph6; [apply initEdges_ok| |assumption].
  destruct (initEdges_fields vertices) as [-> _]. assumption.
Qed.

(** The path 0 - 3 - 2 on four vertices, written as the line [CD]. *)
Lemma graph6_roundtrip_witness :
  parseGraph6 (fun s => s) (fun s => s) (initEdges 4) (toGraph6 (initEdges 4) 36%Z) = 36%Z.
Proof.
  apply (graph6_roundtrip (fun s => s) (fun s => s) 4 36%Z).
  - lia.
  - apply validGraph_dec. vm_compute. reflexivity.
Defined.

(** ** Lines for another vertex count *)

Section WrongN.

Variable TrimFunc_IsSpace : list ascii -> list ascii.
Variable TrimRightFunc_IsSpace : list ascii -> list ascii.
Variable T : Tables.

Lemma parseGraph6_wrong_n (line : list ascii) (c : ascii) (rest : list ascii) :
  TrimSpace TrimFunc_IsSpace TrimRightFunc_IsSpace line = c :: rest ->
  (intOf c - 63)%Z <> Z.of_nat (n T) ->
  parseGraph6 TrimFunc_IsSpace TrimRightFunc_IsSpace T line = 0%Z.
Proof.
  intros Htrim Hn. unfold parseGraph6. rewrite Htrim.
  destruct (Z.eqb_spec (intOf c - 63) (Z.of_nat (n T))) as [He|_]; [contradiction|].
  reflexivity.
Qed.

Lemma readLine_zero (st : list Graph * nat) (line : list ascii) :
  parseGraph6 TrimFunc_IsSpace TrimRightFunc_IsSpace T line = 0%Z ->
  readLine TrimFunc_IsSpace TrimRightFunc_IsSpace T st line = st.
Proof. intros H. unfold readLine. rewrite H. reflexivity. Qed.

Lemma readGraph_zero (graphs : list Graph) (line : list ascii) :
  parseGraph6 TrimFunc_IsSpace TrimRightFunc_IsSpace T line = 0%Z ->
  readGraph TrimFunc_IsSpace TrimRightFunc_IsSpace T graphs line = graphs.
Proof. intros H. unfold readGraph. rewrite H. reflexivity. Qed.

End WrongN.

(** C9, as the code has it.  A line whose first character, once
    [strings.TrimSpace] has been applied, encodes a vertex count other than
    the run's [n] decodes to the zero sentinel; both reading loops leave
    their whole state as it was (the batch, and in filter_maximal the count
    of graphs read) and go on with the lines that follow, so that the
    result is that of the input without this line. *)
Theorem wrong_n_line_skipped (TrimFunc_IsSpace TrimRightFunc_IsSpace : list ascii -> list ascii)
    (T : Tables) (line : list ascii) (c : ascii) (rest : list ascii) :
  TrimSpace TrimFunc_IsSpace TrimRightFunc_IsSpace line = c :: rest ->
  (intOf c - 63)%Z <> Z.of_nat (n T) ->
  parseGraph6 TrimFunc_IsSpace TrimRightFunc_IsSpace T line = 0%Z
  /\ (forall st, readLine TrimFunc_IsSpace TrimRightFunc_IsSpace T st line = st)
  /\ (forall graphs, readGraph TrimFunc_IsSpace TrimRightFunc_IsSpace T graphs line = graphs)
  /\ (forall allGraphs before after,
         readLines TrimFunc_IsSpace TrimRightFunc_IsSpace T allGraphs (before ++ line :: after)
         = readLines TrimFunc_IsSpace TrimRightFunc_IsSpace T allGraphs (before ++ after))
  /\ (forall before after,
         readGraphs TrimFunc_IsSpace TrimRightFunc_IsSpace T (before ++ line :: after)
         = readGraphs TrimFunc_IsSpace TrimRightFunc_IsSpace T (before ++ after)).
Proof.
  intros Htrim Hn.
  pose proof (parseGraph6_wrong_n _ _ T line c rest Htrim Hn) as H0.
  split; [exact H0|].
  split; [intros st; apply readLine_zero; exact H0|].
  split; [intros graphs; apply readGraph_zero; exact H0|].
  split.
  - intros allGraphs before after. unfold readLines.
    rewrite !fold_left_app. cbn [fold_left]. rewrite readLine_zero by exact H0. reflexivity.
  - intros before after. unfold readGraphs.
    rewrite !fold_left_app. cbn [fold_left]. rewrite readGraph_zero by exact H0. reflexivity.
Qed.

(** A run on three vertices meeting the five-vertex line [D~{]. *)
Definition lineK5 : list ascii := ["D"; "~"; "{"]%char.

Lemma wrong_n_line_skipped_witness :
  let T := initEdges 3 in
  parseGraph6 (fun s => s) (fun s => s) T lineK5 = 0%Z
  /\ (forall st, readLine (fun s => s) (fun s => s) T st lineK5 = st)
  /\ (forall graphs, readGraph (fun s => s) (fun s => s) T graphs lineK5 = graphs)
  /\ (forall allGraphs before after,
         readLines (fun s => s) (fun s => s) T allGraphs (before ++ lineK5 :: after)
         = readLines (fun s => s) (fun s => s) T allGraphs (before ++ after))
  /\ (forall before after,
         readGraphs (fun s => s) (fun s => s) T (before ++ lineK5 :: after)
         = readGraphs (fun s => s) (fun s => s) T (before ++ after)).
Proof.
  apply (wrong_n_line_skipped (fun s => s) (fun s => s) (initEdges 3) lineK5
           "D"%char ["~"; "{"]%char).
  - vm_compute. reflexivity.
  - vm_compute. discriminate.
Defined.

(** Against C9 as stated: the skip leaves no trace.  After the wrong-[n] line
    the state of either loop is the state it had before, so nothing computed
    from that state counts skipped lines; the only counter, [count] of
    filter_maximal, counts the graphs read. *)
Lemma wrong_n_skip_not_counted :
  let T := initEdges 3 in
  readLines (fun s => s) (fun s => s) T [] [lineK5] = ([], 0)
  /\ readLines (fun s => s) (fun s => s) T [] [lineK5]
     = readLines (fun s => s) (fun s => s) T [] []
  /\ readGraphs (fun s => s) (fun s => s) T [lineK5]
     = readGraphs (fun s => s) (fun s => s) T []
  /\ ~ (exists skipped : list Graph * nat -> nat,
           skipped (readLines (fun s => s) (fun s => s) T [] [lineK5])
           <> skipped (readLines (fun s => s) (fun s => s) T [] [])).
Proof.
  assert (H : readLines (fun s => s) (fun s => s) (initEdges 3) [] [lineK5] = ([], 0))
    by (vm_compute; reflexivity).
  cbv zeta. rewrite H.
  split; [reflexivity|]. split; [reflexivity|]. split; [vm_compute; reflexivity|].
  intros [skipped Hs]. apply Hs. reflexivity.
Qed.

End GraphFacts.

(** * Facts about the SAT encoding of the fourth arrangement *)

Module SatFacts.

Import FindFourth.

(** [x[item][slot]] holds in the model. *)
Definition placed (n : nat) (model : list bool) (item slot : nat) : Prop :=
  litTrue model (varIdx n item slot) = true.

(** Every listed pair has its two items in adjacent slots of [arr]. *)
Definition coversPairs (n : nat) (adjMatrix : Table) (arr : list nat)
    (pairs : list (nat * nat)) : Prop :=
  forall a b, In (a, b) pairs ->
    exists s t, s < n /\ t < n /\ get 0 arr s = a /\ get 0 arr t = b
                /\ tget adjMatrix s t = true.

Lemma varIdx_pos (n item slot : nat) : (0 < varIdx n item slot)%Z.
Proof. unfold varIdx. lia. Qed.

Lemma litTrue_pos (model : list bool) (v : Z) :
  (0 < v)%Z -> litTrue model v = get false model (Z.to_nat (v - 1)).
Proof.
  intros H. unfold litTrue. destruct (Z.ltb_spec 0 v) as [_|]; [reflexivity|lia].
Qed.

Lemma litTrue_neg (model : list bool) (v : Z) :
  (0 < v)%Z -> litTrue model (- v) = negb (litTrue model v).
Proof.
  intros H. rewrite (litTrue_pos model v H). unfold litTrue.
  destruct (Z.ltb_spec 0 (- v)) as [|_]; [lia|].
  rewrite Z.opp_involutive. reflexivity.
Qed.

Lemma litTrue_varIdx (n : nat) (model : list bool) (item slot : nat) :
  litTrue model (varIdx n item slot) = get false model (item * n + slot).
Proof.
  rewrite litTrue_pos by apply varIdx_pos. f_equal. unfold varIdx. lia.
Qed.

Lemma satisfies_app (model : list bool) (c1 c2 : list (list Z)) :
  satisfies model (c1 ++ c2) = satisfies model c1 && satisfies model c2.
Proof. unfold satisfies. apply forallb_app. Qed.

Lemma satisfies_In (model : list bool) (cs : list (list Z)) :
  satisfies model cs = true <-> forall c, In c cs -> clauseTrue model c = true.
Proof. unfold satisfies. apply forallb_forall. Qed.

(** ** Constraints 1 to 4 *)

Lemma in_triples {A : Type} (F : nat -> nat -> nat -> A) (n : nat) (c : A) :
  In c (flat_map
          (fun i => flat_map (fun s1 => map (fun s2 => F i s1 s2) (range (s1 + 1) n))
                             (range 0 n))
          (range 0 n))
  <-> exists i s1 s2, i < n /\ s1 < s2 < n /\ c = F i s1 s2.
Proof.
  rewrite in_flat_map. split.
  - intros [i [Hi Hc]]. apply in_flat_map in Hc. destruct Hc as [s1 [Hs1 Hc]].
    apply in_map_iff in Hc. destruct Hc as [s2 [<- Hs2]].
    apply in_range in Hi, Hs1, Hs2. exists i, s1, s2. repeat split; lia.
  - intros (i & s1 & s2 & Hi & Hs & ->). exists i. split; [apply in_range; lia|].
    apply in_flat_map. exists s1. split; [apply in_range; lia|].
    apply in_map_iff. exists s2. split; [reflexivity|apply in_range; lia].
Qed.

Lemma clauseTrue_two_neg (model : list bool) (v w : Z) :
  (0 < v)%Z -> (0 < w)%Z ->
  clauseTrue model [(- v)%Z; (- w)%Z] = true
  <-> ~ (litTrue model v = true /\ litTrue model w = true).
Proof.
  intros Hv Hw. unfold clauseTrue. cbn [existsb].
  rewrite !litTrue_neg by assumption.
  destruct (litTrue model v), (litTrue model w); simpl; intuition congruence.
Qed.

Section Base.

Variable n : nat.
Variable model : list bool.

Lemma itemSomewhere_spec :
  satisfies model (itemSomewhere n) = true
  <-> forall item, item < n -> exists slot, slot < n /\ placed n model item slot.
Proof.
  rewrite satisfies_In. unfold itemSomewhere, placed. split.
  - intros H item Hi.
    specialize (H (map (fun slot => varIdx n item slot) (range 0 n))).
    unfold clauseTrue in H. rewrite existsb_exists in H.
    destruct H as [l [Hl Ht]].
    { apply in_map_iff. exists item. split; [reflexivity|apply in_range; lia]. }
    apply in_map_iff in Hl. destruct Hl as [slot [<- Hs]]. apply in_range in Hs.
    exists slot. split; [lia|assumption].
  - intros H c Hc. apply in_map_iff in Hc. destruct Hc as [item [<- Hi]].
    apply in_range in Hi. destruct (H item) as [slot [Hs Ht]]; [lia|].
    unfold clauseTrue. apply existsb_exists. exists (varIdx n item slot).
    split; [|assumption]. apply in_map_iff. exists slot.
    split; [reflexivity|apply in_range; lia].
Qed.

Lemma slotFilled_spec :
  satisfies model (slotFilled n) = true
  <-> forall slot, slot < n -> exists item, item < n /\ placed n model item slot.
Proof.
  rewrite satisfies_In. unfold slotFilled, placed. split.
  - intros H slot Hs.
    specialize (H (map (fun item => varIdx n item slot) (range 0 n))).
    unfold clauseTrue in H. rewrite existsb_exists in H.
    destruct H as [l [Hl Ht]].
    { apply in_map_iff. exists slot. split; [reflexivity|apply in_range; lia]. }
    apply in_map_iff in Hl. destruct Hl as [item [<- Hi]]. apply in_range in Hi.
    exists item. split; [lia|assumption].
  - intros H c Hc. apply in_map_iff in Hc. destruct Hc as [slot [<- Hs]].
    apply in_range in Hs. destruct (H slot) as [item [Hi Ht]]; [lia|].
    unfold clauseTrue. apply existsb_exists. exists (varIdx n item slot).
    split; [|assumption]. apply in_map_iff. exists item.
    split; [reflexivity|apply in_range; lia].
Qed.

Lemma itemOnce_spec :
  satisfies model (itemOnce n) = true
  <-> forall item s1 s2, item < n -> s1 < s2 < n ->
        ~ (placed n model item s1 /\ placed n model item s2).
Proof.
  rewrite satisfies_In. unfold itemOnce, placed. split.
  - intros H item s1 s2 Hi Hs.
    apply clauseTrue_two_neg; [apply varIdx_pos..|].
    apply H. apply (in_triples (fun item s1 s2 => [(- varIdx n item s1)%Z; (- varIdx n item s2)%Z])).
    exists item, s1, s2. auto.
  - intros H c Hc.
    apply (in_triples (fun item s1 s2 => [(- varIdx n item s1)%Z; (- varIdx n item s2)%Z])) in Hc.
    destruct Hc as (item & s1 & s2 & Hi & Hs & ->).
    apply clauseTrue_two_neg; [apply varIdx_pos..|]. apply H; assumption.
Qed.

Lemma slotOnce_spec :
  satisfies model (slotOnce n) = true
  <-> forall slot i1 i2, slot < n -> i1 < i2 < n ->
        ~ (placed n model i1 slot /\ placed n model i2 slot).
Proof.
  rewrite satisfies_In. unfold slotOnce, placed. split.
  - intros H slot i1 i2 Hs Hi.
    apply clauseTrue_two_neg; [apply varIdx_pos..|].
    apply H. apply (in_triples (fun slot i1 i2 => [(- varIdx n i1 slot)%Z; (- varIdx n i2 slot)%Z])).
    exists slot, i1, i2. auto.
  - intros H c Hc.
    apply (in_triples (fun slot i1 i2 => [(- varIdx n i1 slot)%Z; (- varIdx n i2 slot)%Z])) in Hc.
    destruct Hc as (slot & i1 & i2 & Hs & Hi & ->).
    apply clauseTrue_two_neg; [apply varIdx_pos..|]. apply H; assumption.
Qed.

(** What the four constraints say together. *)
Definition bijective : Prop :=
  (forall item, item < n -> exists slot, slot < n /\ placed n model item slot)
  /\ (forall item s1 s2, item < n -> s1 < n -> s2 < n ->
        placed n model item s1 -> placed n model item s2 -> s1 = s2)
  /\ (forall slot, slot < n -> exists item, item < n /\ placed n model item slot)
  /\ (forall slot i1 i2, slot < n -> i1 < n -> i2 < n ->
        placed n model i1 slot -> placed n model i2 slot -> i1 = i2).

Lemma base_spec :
  satisfies model (itemSomewhere n ++ itemOnce n ++ slotFilled n ++ slotOnce n) = true
  <-> bijective.
Proof.
  rewrite !satisfies_app, !andb_true_iff.
  rewrite itemSomewhere_spec, itemOnce_spec, slotFilled_spec, slotOnce_spec.
  unfold bijective. split.
  - intros (H1 & H2 & H3 & H4). repeat split; [exact H1| |exact H3|].
    + intros item s1 s2 Hi Hs1 Hs2 P1 P2.
      destruct (Nat.lt_total s1 s2) as [Hlt|[Heq|Hgt]]; [|assumption|].
      * exfalso. apply (H2 item s1 s2); auto.
      * exfalso. apply (H2 item s2 s1); auto.
    + intros slot i1 i2 Hs Hi1 Hi2 P1 P2.
      destruct (Nat.lt_total i1 i2) as [Hlt|[Heq|Hgt]]; [|assumption|].
      * exfalso. apply (H4 slot i1 i2); auto.
      * exfalso. apply (H4 slot i2 i1); auto.
  - intros (H1 & H2 & H3 & H4). repeat split; [exact H1| |exact H3|].
    + intros item s1 s2 Hi Hs [P1 P2].
      pose proof (H2 item s1 s2 Hi ltac:(lia) ltac:(lia) P1 P2). lia.
    + intros slot i1 i2 Hs Hi [P1 P2].
      pose proof (H4 slot i1 i2 Hs ltac:(lia) ltac:(lia) P1 P2). lia.
Qed.

End Base.

(** ** Constraint 5 *)

(** The ordered slot pairs [(s1, s2)] with [adjMatrix[s1][s2]], in loop order. *)
Definition adjSlots (n : nat) (adjMatrix : Table) : list (nat * nat) :=
  List.filter (fun p => tget adjMatrix (fst p) (snd p))
              (flat_map (fun s1 => map (pair s1) (range 0 n)) (range 0 n)).

Lemma in_adjSlots (n : nat) (adjMatrix : Table) (s t : nat) :
  In (s, t) (adjSlots n adjMatrix) <-> s < n /\ t < n /\ tget adjMatrix s t = true.
Proof.
  unfold adjSlots. rewrite filter_In, in_flat_map. cbn [fst snd]. split.
  - intros [[s1 [Hs1 Hin]] Ht]. apply in_map_iff in Hin.
    destruct Hin as [t' [[= -> ->] Ht']]. apply in_range in Hs1, Ht'. repeat split; [lia..|assumption].
  - intros (Hs & Ht & Ha). split; [|assumption]. exists s. split; [apply in_range; lia|].
    apply in_map_iff. exists t. split; [reflexivity|apply in_range; lia].
Qed.

(** The three clauses per auxiliary variable, the first variable being [nv]. *)
Fixpoint auxClauses (n : nat) (nv : Z) (a b : nat) (slots : list (nat * nat))
    : list (list Z) :=
  match slots with
  | [] => []
  | (s1, s2) :: slots' =>
    [ [(- nv)%Z; varIdx n a s1];
      [(- nv)%Z; varIdx n b s2];
      [(- varIdx n a s1)%Z; (- varIdx n b s2)%Z; nv] ]
    ++ auxClauses n (nv + 1) a b slots'
  end.

Fixpoint auxVarsFrom (nv : Z) (slots : list (nat * nat)) : list Z :=
  match slots with
  | [] => []
  | _ :: slots' => nv :: auxVarsFrom (nv + 1) slots'
  end.

Lemma fold_left_filter {St A : Type} (step : St -> A -> St) (keep : A -> bool)
    (l : list A) (s : St) :
  fold_left (fun st x => if keep x then step st x else st) l s
  = fold_left step (List.filter keep l) s.
Proof.
  revert s. induction l as [|x l IH]; intros s; simpl; [reflexivity|].
  destruct (keep x); simpl; apply IH.
Qed.

Lemma auxFold (n : nat) (a b : nat) (slots : list (nat * nat)) :
  forall (clauses : list (list Z)) (nextVar : Z) (auxVars : list Z),
    fold_left
      (fun (st : list (list Z) * Z * list Z) (p : nat * nat) =>
         let '(clauses, nextVar, auxVars) := st in
         (clauses ++ [ [(- nextVar)%Z; varIdx n a (fst p)];
                       [(- nextVar)%Z; varIdx n b (snd p)];
                       [(- varIdx n a (fst p))%Z; (- varIdx n b (snd p))%Z; nextVar] ],
          (nextVar + 1)%Z,
          auxVars ++ [nextVar]))
      slots (clauses, nextVar, auxVars)
    = (clauses ++ auxClauses n nextVar a b slots,
       (nextVar + Z.of_nat (length slots))%Z,
       auxVars ++ auxVarsFrom nextVar slots).
Proof.
  induction slots as [|[s1 s2] slots IH]; intros clauses nextVar auxVars.
  - simpl. rewrite !app_nil_r, Z.add_0_r. reflexivity.
  - cbn [fold_left fst snd]. rewrite IH. cbn [auxClauses auxVarsFrom length].
    rewrite <- !app_assoc. cbn [app].
    replace (nextVar + 1 + Z.of_nat (length slots))%Z
      with (nextVar + Z.of_nat (S (length slots)))%Z by lia.
    reflexivity.
Qed.

Lemma coverPair_eq (n : nat) (adjMatrix : Table) (clauses : list (list Z)) (nextVar : Z)
    (a b : nat) :
  coverPair n adjMatrix (clauses, nextVar) (a, b)
  = (clauses ++ auxClauses n nextVar a b (adjSlots n adjMatrix)
             ++ [auxVarsFrom nextVar (adjSlots n adjMatrix)],
     (nextVar + Z.of_nat (length (adjSlots n adjMatrix)))%Z).
Proof.
  unfold coverPair. cbn [fst snd].
  rewrite (GraphFacts.nested_fold
             (fun (st : list (list Z) * Z * list Z) s1 s2 =>
                let '(clauses, nextVar, auxVars) := st in
                if tget adjMatrix s1 s2 then
                  (clauses ++ [ [(- nextVar)%Z; varIdx n a s1];
                                [(- nextVar)%Z; varIdx n b s2];
                                [(- varIdx n a s1)%Z; (- varIdx n b s2)%Z; nextVar] ],
                   (nextVar + 1)%Z,
                   auxVars ++ [nextVar])
                else st)
             (fun _ => range 0 n)).
  match goal with
  | |- context [fold_left ?f ?l ?s] =>
    replace (fold_left f l s)
      with (clauses ++ auxClauses n nextVar a b (adjSlots n adjMatrix),
            (nextVar + Z.of_nat (length (adjSlots n adjMatrix)))%Z,
            [] ++ auxVarsFrom nextVar (adjSlots n adjMatrix))
  end.
  - cbn [app]. rewrite <- app_assoc. reflexivity.
  - rewrite <- auxFold. unfold adjSlots. rewrite <- fold_left_filter.
    apply GraphFacts.fold_left_ext_eq. intros [[cl nv] av] [s1 s2]. cbn [fst snd].
    destruct (tget adjMatrix s1 s2); reflexivity.
Qed.

(** All the clauses of constraint 5, the first free variable being [nv]. *)
Fixpoint pairsClauses (n : nat) (slots : list (nat * nat)) (nv : Z)
    (pairs : list (nat * nat)) : list (list Z) :=
  match pairs with
  | [] => []
  | (a, b) :: pairs' =>
    auxClauses n nv a b slots ++ [auxVarsFrom nv slots]
    ++ pairsClauses n slots (nv + Z.of_nat (length slots)) pairs'
  end.

Lemma coverFold (n : nat) (adjMatrix : Table) (pairs : list (nat * nat)) :
  forall (clauses : list (list Z)) (nextVar : Z),
    fst (fold_left (coverPair n adjMatrix) pairs (clauses, nextVar))
    = clauses ++ pairsClauses n (adjSlots n adjMatrix) nextVar pairs.
Proof.
  induction pairs as [|[a b] pairs IH]; intros clauses nextVar.
  - simpl. rewrite app_nil_r. reflexivity.
  - cbn [fold_left]. rewrite coverPair_eq, IH. cbn [pairsClauses].
    rewrite <- !app_assoc. reflexivity.
Qed.

Lemma buildClauses_eq (n : nat) (pairs : list (nat * nat)) (adjMatrix : Table) :
  buildClauses n pairs adjMatrix
  = (itemSomewhere n ++ itemOnce n ++ slotFilled n ++ slotOnce n)
    ++ pairsClauses n (adjSlots n adjMatrix) (Z.of_nat (n * n + 1)) pairs.
Proof. unfold buildClauses. apply coverFold. Qed.

(** *** From a model to the placement *)

Lemma aux_sound (n : nat) (model : list bool) (a b : nat) (slots : list (nat * nat)) :
  forall nv : Z,
    (0 < nv)%Z ->
    satisfies model (auxClauses n nv a b slots) = true ->
    clauseTrue model (auxVarsFrom nv slots) = true ->
    exists s t, In (s, t) slots /\ placed n model a s /\ placed n model b t.
Proof.
  induction slots as [|[s1 s2] slots IH]; intros nv Hnv Hsat Hone.
  - discriminate.
  - cbn [auxClauses] in Hsat. rewrite satisfies_app, andb_true_iff in Hsat.
    destruct Hsat as [Hhead Htail].
    cbn [auxVarsFrom] in Hone. unfold clauseTrue in Hone. cbn [existsb] in Hone.
    apply orb_true_iff in Hone. destruct Hone as [Hv|Hrest].
    + exists s1, s2. split; [left; reflexivity|].
      unfold satisfies, clauseTrue in Hhead. cbn [forallb existsb] in Hhead.
      rewrite litTrue_neg, Hv in Hhead by assumption. cbn [negb orb] in Hhead.
      rewrite !orb_false_r in Hhead. unfold placed.
      apply andb_true_iff in Hhead. destruct Hhead as [Ha Hhead].
      apply andb_true_iff in Hhead. destruct Hhead as [Hb _]. auto.
    + destruct (IH (nv + 1)%Z ltac:(lia) Htail Hrest) as (s & t & Hin & Hp).
      exists s, t. split; [right; assumption|assumption].
Qed.

Lemma pairs_sound (n : nat) (model : list bool) (slots pairs : list (nat * nat)) :
  forall nv : Z,
    (0 < nv)%Z ->
    satisfies model (pairsClauses n slots nv pairs) = true ->
    forall a b, In (a, b) pairs ->
      exists s t, In (s, t) slots /\ placed n model a s /\ placed n model b t.
Proof.
  induction pairs as [|[a0 b0] pairs IH]; intros nv Hnv Hsat a b Hin.
  - destruct Hin.
  - cbn [pairsClauses] in Hsat. rewrite !satisfies_app, !andb_true_iff in Hsat.
    destruct Hsat as (Haux & Hone & Hrest).
    destruct Hin as [[= -> ->]|Hin].
    + apply (aux_sound n model a b slots nv); [assumption..|].
      unfold satisfies in Hone. cbn [forallb] in Hone.
      rewrite andb_true_r in Hone. assumption.
    + apply (IH (nv + Z.of_nat (length slots))%Z); [lia|assumption..].
Qed.

(** *** The arrangement read off a model *)

Lemma extract_test (n : nat) (model : list bool) (item slot : nat) :
  (let v := varIdx n item slot in
   (v <=? Z.of_nat (length model))%Z && get false model (Z.to_nat (v - 1)))
  = litTrue model (varIdx n item slot).
Proof.
  cbv zeta. rewrite litTrue_pos by apply varIdx_pos.
  pose proof (varIdx_pos n item slot) as Hpos.
  destruct (Z.leb_spec (varIdx n item slot) (Z.of_nat (length model))) as [Hle|Hgt].
  - reflexivity.
  - rewrite get_ge by lia. reflexivity.
Qed.

(** [extract] after the first [i] items. *)
Definition extractUpTo (n : nat) (model : list bool) (i : nat) : list nat :=
  fold_left
    (fun arr3 item =>
       match find (fun slot =>
                     let v := varIdx n item slot in
                     (v <=? Z.of_nat (length model))%Z
                     && get false model (Z.to_nat (v - 1)))
                  (range 0 n) with
       | Some slot => <[slot := item]> arr3
       | None => arr3
       end)
    (range 0 i) (replicate n 0).

Lemma extractUpTo_spec (n : nat) (model : list bool) :
  bijective n model ->
  forall i, i <= n ->
    length (extractUpTo n model i) = n
    /\ forall slot item, slot < n -> item < i -> placed n model item slot ->
         get 0 (extractUpTo n model i) slot = item.
Proof.
  intros (_ & Hitem & _ & Hslot). induction i as [|i IH]; intros Hi.
  - split; [apply length_replicate|]. intros; lia.
  - destruct (IH ltac:(lia)) as [Hlen Hget]. unfold extractUpTo in *.
    rewrite range_succ_r, fold_left_app by lia. cbn [fold_left].
    set (arr := fold_left _ (range 0 i) _) in *.
    destruct (find _ (range 0 n)) as [s|] eqn:Hfind.
    + apply find_some in Hfind. destruct Hfind as [Hs Hp].
      apply in_range in Hs. rewrite extract_test in Hp.
      split; [rewrite length_insert; assumption|].
      intros slot item Hslot' Hit Hpl. rewrite get_insert by lia.
      destruct (decide (s = slot)) as [->|Hne].
      * apply (Hslot slot i item); [lia..|assumption|assumption].
      * assert (item <> i).
        { intros ->. apply Hne. apply (Hitem i s slot); [lia..|assumption|assumption]. }
        apply Hget; [assumption|lia|assumption].
    + split; [assumption|].
      intros slot item Hslot' Hit Hpl.
      assert (item <> i).
      { intros ->. assert (Hn : litTrue model (varIdx n i slot) = false).
        { rewrite <- extract_test. apply (find_none _ _ Hfind slot). apply in_range. lia. }
        unfold placed in Hpl. rewrite Hpl in Hn. discriminate Hn. }
      apply Hget; [assumption|lia|assumption].
Qed.

Lemma extract_spec (n : nat) (model : list bool) :
  bijective n model ->
  length (extract n model) = n
  /\ forall slot item, slot < n -> item < n ->
       (placed n model item slot <-> get 0 (extract n model) slot = item).
Proof.
  intros Hb. destruct (extractUpTo_spec n model Hb n (le_n n)) as [Hlen Hget].
  change (extractUpTo n model n) with (extract n model) in *.
  split; [assumption|]. intros slot item Hs Hi. split.
  - intros Hp. apply Hget; assumption.
  - intros <-. destruct Hb as (_ & _ & Hfill & _).
    destruct (Hfill slot Hs) as [item [Hit Hp]].
    rewrite (Hget slot item Hs Hit Hp). assumption.
Qed.

Lemma extract_arrangement (n : nat) (model : list bool) :
  bijective n model -> isArrangement n (extract n model).
Proof.
  intros Hb. destruct (extract_spec n model Hb) as [Hlen Hget].
  assert (Hlt : forall slot, slot < n -> get 0 (extract n model) slot < n).
  { intros slot Hs. destruct Hb as (_ & _ & Hfill & _).
    destruct (Hfill slot Hs) as [item [Hit Hp]].
    apply Hget in Hp; [|assumption..]. lia. }
  split; [assumption|]. split.
  - apply (List.NoDup_nth _ 0). intros i j Hi Hj He. rewrite Hlen in Hi, Hj.
    fold (get 0 (extract n model) i) in He. fold (get 0 (extract n model) j) in He.
    destruct Hb as (_ & Hitem & _ & _).
    apply (Hitem (get 0 (extract n model) i) i j); [apply Hlt; assumption|assumption..| |].
    + apply Hget; [assumption|apply Hlt; assumption|reflexivity].
    + apply Hget; [assumption|apply Hlt; assumption|symmetry; assumption].
  - apply List.Forall_forall. intros x Hx.
    destruct (In_get 0 _ x Hx) as [i [Hi <-]]. apply Hlt. lia.
Qed.

(** *** From a placement to a model *)

Lemma isArrangement_In (n : nat) (arr : list nat) (i : nat) :
  isArrangement n arr -> i < n -> In i arr.
Proof.
  intros (Hlen & Hnd & Hlt) Hi.
  assert (Hincl : incl (seq 0 n) arr).
  { apply List.NoDup_length_incl; [assumption|rewrite length_seq; lia|].
    intros x Hx. rewrite List.Forall_forall in Hlt. apply in_seq. specialize (Hlt x Hx). lia. }
  apply Hincl, in_seq. lia.
Qed.

Section Model.

Variable n : nat.
Variable arr : list nat.
Variable slots : list (nat * nat).

(** The values of the placement variables, of the auxiliary variables of one
    pair, and of all auxiliary variables. *)
Definition placement : list bool :=
  map (fun idx => get 0 arr (idx mod n) =? idx / n) (seq 0 (n * n)).

Definition auxVals (a b : nat) : list bool :=
  map (fun p => (get 0 arr (fst p) =? a) && (get 0 arr (snd p) =? b)) slots.

Definition pairsVals (pairs : list (nat * nat)) : list bool :=
  flat_map (fun p => auxVals (fst p) (snd p)) pairs.

Definition modelOf (pairs : list (nat * nat)) : list bool :=
  placement ++ pairsVals pairs.

Lemma placement_length : length placement = n * n.
Proof. unfold placement. rewrite length_map, length_seq. reflexivity. Qed.

Lemma placed_modelOf (rest : list bool) (item slot : nat) :
  item < n -> slot < n ->
  litTrue (placement ++ rest) (varIdx n item slot) = (get 0 arr slot =? item).
Proof.
  intros Hi Hs. rewrite litTrue_varIdx.
  assert (Hlt : item * n + slot < n * n) by nia.
  unfold get at 1. rewrite app_nth1 by (rewrite placement_length; assumption).
  fold (get false placement (item * n + slot)).
  unfold placement. rewrite (get_map _ false 0) by (rewrite length_seq; assumption).
  rewrite get_seq by assumption. cbn [Nat.add].
  rewrite Nat.div_add_l, Nat.div_small, Nat.add_0_r by lia.
  rewrite Nat.add_comm, Nat.Div0.mod_add, Nat.mod_small by lia.
  reflexivity.
Qed.

Lemma auxVals_length (a b : nat) : length (auxVals a b) = length slots.
Proof. unfold auxVals. apply length_map. Qed.

End Model.

Lemma aux_complete (n : nat) (arr : list nat) (model : list bool) (a b : nat)
    (slots : list (nat * nat)) :
  a < n -> b < n ->
  (forall item slot, item < n -> slot < n ->
     litTrue model (varIdx n item slot) = (get 0 arr slot =? item)) ->
  forall (pre post : list bool) (nv : Z),
    (forall s t, In (s, t) slots -> s < n /\ t < n) ->
    model = pre ++ auxVals arr slots a b ++ post ->
    Z.of_nat (length pre) = (nv - 1)%Z ->
    satisfies model (auxClauses n nv a b slots) = true
    /\ ((exists s t, In (s, t) slots /\ get 0 arr s = a /\ get 0 arr t = b) ->
        clauseTrue model (auxVarsFrom nv slots) = true).
Proof.
  intros Ha Hb Hx. induction slots as [|[s1 s2] slots' IH]; intros pre post nv Hin Hm Hlen.
  - split; [reflexivity|]. intros (s & t & [] & _).
  - assert (Hnv : (0 < nv)%Z) by lia.
    assert (Hv : litTrue model nv = (get 0 arr s1 =? a) && (get 0 arr s2 =? b)).
    { rewrite litTrue_pos by assumption.
      replace (Z.to_nat (nv - 1)) with (length pre) by lia.
      rewrite Hm. unfold get at 1. rewrite app_nth2 by lia. rewrite Nat.sub_diag.
      reflexivity. }
    destruct (Hin s1 s2 (or_introl eq_refl)) as [Hs1 Hs2].
    destruct (IH (pre ++ [(get 0 arr s1 =? a) && (get 0 arr s2 =? b)]) post (nv + 1)%Z)
      as [IHsat IHone].
    { intros s t Hst. apply Hin. right. assumption. }
    { rewrite Hm, <- app_assoc. reflexivity. }
    { rewrite length_app. cbn [length]. lia. }
    split.
    + cbn [auxClauses]. rewrite satisfies_app, IHsat, andb_true_r.
      unfold satisfies, clauseTrue. cbn [forallb existsb].
      rewrite !litTrue_neg by (assumption || apply varIdx_pos).
      rewrite Hv, !Hx by assumption.
      destruct (get 0 arr s1 =? a), (get 0 arr s2 =? b); reflexivity.
    + intros (s & t & Hst & Hsa & Htb). cbn [auxVarsFrom]. unfold clauseTrue.
      cbn [existsb]. apply orb_true_iff.
      destruct Hst as [[= <- <-]|Hst].
      * left. rewrite Hv. rewrite Hsa, Htb, !Nat.eqb_refl. reflexivity.
      * right. apply IHone. exists s, t. auto.
Qed.

Lemma pairs_complete (n : nat) (arr : list nat) (model : list bool)
    (slots : list (nat * nat)) (pairs : list (nat * nat)) :
  (forall item slot, item < n -> slot < n ->
     litTrue model (varIdx n item slot) = (get 0 arr slot =? item)) ->
  (forall s t, In (s, t) slots -> s < n /\ t < n) ->
  forall (pre post : list bool) (nv : Z),
    Forall (fun p => fst p < n /\ snd p < n) pairs ->
    (forall a b, In (a, b) pairs ->
       exists s t, In (s, t) slots /\ get 0 arr s = a /\ get 0 arr t = b) ->
    model = pre ++ pairsVals arr slots pairs ++ post ->
    Z.of_nat (length pre) = (nv - 1)%Z ->
    satisfies model (pairsClauses n slots nv pairs) = true.
Proof.
  intros Hx Hslots. induction pairs as [|[a b] pairs' IH];
    intros pre post nv Hrange Hcov Hm Hlen.
  - reflexivity.
  - apply Forall_cons in Hrange. destruct Hrange as [[Ha Hb] Hrange]. cbn [fst snd] in Ha, Hb.
    cbn [pairsVals flat_map fst snd] in Hm. rewrite <- app_assoc in Hm.
    destruct (aux_complete n arr model a b slots Ha Hb Hx pre _ nv Hslots Hm Hlen)
      as [Hsat Hone].
    cbn [pairsClauses]. rewrite !satisfies_app, Hsat. cbn [andb].
    apply andb_true_iff. split.
    + unfold satisfies. cbn [forallb]. rewrite andb_true_r.
      apply Hone, Hcov. left. reflexivity.
    + apply (IH (pre ++ auxVals arr slots a b) post).
      * assumption.
      * intros a' b' Hin. apply Hcov. right. assumption.
      * rewrite Hm, <- app_assoc. reflexivity.
      * rewrite length_app, auxVals_length. lia.
Qed.

Lemma modelOf_bijective (n : nat) (arr : list nat) (rest : list bool) :
  isArrangement n arr -> bijective n (placement n arr ++ rest).
Proof.
  intros Harr. pose proof Harr as (Hlen & Hnd & Hlt).
  assert (Hp : forall item slot, item < n -> slot < n ->
                 (placed n (placement n arr ++ rest) item slot <-> get 0 arr slot = item)).
  { intros item slot Hi Hs. unfold placed. rewrite placed_modelOf by assumption.
    apply Nat.eqb_eq. }
  assert (Hget : forall slot, slot < n -> get 0 arr slot < n).
  { intros slot Hs. rewrite List.Forall_forall in Hlt. apply Hlt, get_In. lia. }
  unfold bijective. repeat split.
  - intros item Hi. destruct (In_get 0 arr item (isArrangement_In n arr item Harr Hi))
      as [slot [Hs He]].
    exists slot. split; [lia|]. apply Hp; [assumption|lia|assumption].
  - intros item s1 s2 Hi Hs1 Hs2 P1 P2. apply Hp in P1, P2; try assumption.
    apply (proj1 (List.NoDup_nth arr 0) Hnd); [lia..|].
    unfold get in P1, P2. congruence.
  - intros slot Hs. exists (get 0 arr slot). split; [apply Hget; assumption|].
    apply Hp; [apply Hget; assumption|assumption|reflexivity].
  - intros slot i1 i2 Hs Hi1 Hi2 P1 P2. apply Hp in P1, P2; try assumption. congruence.
Qed.

(** X11.  For every [n], every [n] by [n] adjacency matrix and every list of
    uncovered pairs of items, the clauses built by [solveSAT] have a model
    exactly when some bijection [arr3] from slots to items puts the two
    items of every uncovered pair [(a, b)] in slots [s], [t] with
    [adjMatrix[s][t]] (for a symmetric matrix: in adjacent slots).  Every
    model, restricted to the placement variables, has exactly one slot per
    item and one item per slot; the array [solveSAT] decodes from it is that
    bijection and covers all the uncovered pairs. *)
Theorem solveSAT_encoding (n : nat) (uncoveredPairs : list (nat * nat)) (adjMatrix : Table) :
  tableDims n n adjMatrix ->
  Forall (fun p => fst p < n /\ snd p < n) uncoveredPairs ->
  let clauses := buildClauses n uncoveredPairs adjMatrix in
  ((exists model, satisfies model clauses = true)
   <-> (exists arr3, isArrangement n arr3 /\ coversPairs n adjMatrix arr3 uncoveredPairs))
  /\ (forall model, satisfies model clauses = true ->
        bijective n model
        /\ isArrangement n (extract n model)
        /\ (forall item slot, item < n -> slot < n ->
              (placed n model item slot <-> get 0 (extract n model) slot = item))
        /\ coversPairs n adjMatrix (extract n model) uncoveredPairs
        /\ (forall solve, solve clauses = Some model ->
              solveSAT solve n uncoveredPairs adjMatrix = (true, extract n model))).
Proof.
  intros _ Hrange clauses.
  assert (Hmodel : forall model, satisfies model clauses = true ->
            bijective n model
            /\ isArrangement n (extract n model)
            /\ (forall item slot, item < n -> slot < n ->
                  (placed n model item slot <-> get 0 (extract n model) slot = item))
            /\ coversPairs n adjMatrix (extract n model) uncoveredPairs).
  { intros model Hsat. unfold clauses in Hsat.
    rewrite buildClauses_eq, satisfies_app, andb_true_iff in Hsat.
    destruct Hsat as [Hbase Hpairs]. apply base_spec in Hbase.
    destruct (extract_spec n model Hbase) as [Hlen Hget].
    split; [assumption|]. split; [apply extract_arrangement; assumption|].
    split; [intros item slot Hi Hs; apply Hget; assumption|].
    intros a b Hin.
    assert (Hnv : (0 < Z.of_nat (n * n + 1))%Z) by lia.
    destruct (pairs_sound n model _ _ _ Hnv Hpairs a b Hin) as (s & t & Hst & Pa & Pb).
    apply in_adjSlots in Hst. destruct Hst as (Hs & Ht & Hadj).
    rewrite List.Forall_forall in Hrange. destruct (Hrange _ Hin) as [Ha Hb].
    cbn [fst snd] in Ha, Hb.
    exists s, t. repeat split; [assumption..| | |assumption].
    - apply Hget; assumption.
    - apply Hget; assumption. }
  split; [split|].
  - intros [model Hsat]. exists (extract n model).
    destruct (Hmodel model Hsat) as (_ & Harr & _ & Hcov). auto.
  - intros [arr3 [Harr Hcov]].
    exists (modelOf n arr3 (adjSlots n adjMatrix) uncoveredPairs).
    unfold clauses. rewrite buildClauses_eq, satisfies_app. apply andb_true_iff. split.
    + apply base_spec. apply modelOf_bijective. assumption.
    + apply (pairs_complete n arr3 _ (adjSlots n adjMatrix) uncoveredPairs) with
        (pre := placement n arr3) (post := []).
      * intros item slot Hi Hs. apply placed_modelOf; assumption.
      * intros s t Hst. apply in_adjSlots in Hst. tauto.
      * assumption.
      * intros a b Hin. destruct (Hcov a b Hin) as (s & t & Hs & Ht & Ha & Hb & Hadj).
        exists s, t. split; [apply in_adjSlots; auto|auto].
      * unfold modelOf. rewrite app_nil_r. reflexivity.
      * rewrite placement_length. lia.
  - intros model Hsat. destruct (Hmodel model Hsat) as (H1 & H2 & H3 & H4).
    repeat (split; [assumption|]).
    intros solve Hsolve. unfold solveSAT. fold clauses. rewrite Hsolve. reflexivity.
Qed.

(** Three slots in a row, and the one pair that identity leaves uncovered. *)
Definition pathMatrix : Table :=
  [ [false; true; false]; [true; false; true]; [false; true; false] ].

Lemma solveSAT_encoding_witness :
  let clauses := buildClauses 3 [(0, 2)] pathMatrix in
  ((exists model, satisfies model clauses = true)
   <-> (exists arr3, isArrangement 3 arr3 /\ coversPairs 3 pathMatrix arr3 [(0, 2)]))
  /\ (forall model, satisfies model clauses = true ->
        bijective 3 model
        /\ isArrangement 3 (extract 3 model)
        /\ (forall item slot, item < 3 -> slot < 3 ->
              (placed 3 model item slot <-> get 0 (extract 3 model) slot = item))
        /\ coversPairs 3 pathMatrix (extract 3 model) [(0, 2)]
        /\ (forall solve, solve clauses = Some model ->
              solveSAT solve 3 [(0, 2)] pathMatrix = (true, extract 3 model))).
Proof.
  apply (solveSAT_encoding 3 [(0, 2)] pathMatrix).
  - split; [reflexivity|]. repeat constructor.
  - repeat constructor; simpl; lia.
Defined.

(** The encoding at work on that instance: the model placing the items as
    [1; 0; 2] satisfies the clauses, and the identity placement does not. *)
Example pathMatrix_model :
  let clauses := buildClauses 3 [(0, 2)] pathMatrix in
  let model := modelOf 3 [1; 0; 2] (adjSlots 3 pathMatrix) [(0, 2)] in
  satisfies model clauses = true
  /\ extract 3 model = [1; 0; 2]
  /\ satisfies (modelOf 3 [0; 1; 2] (adjSlots 3 pathMatrix) [(0, 2)]) clauses = false.
Proof. vm_compute. auto. Qed.

End SatFacts.

(** * Further properties of the graph tools *)

Module GraphProps.

Import Graphs GraphFacts.

(** ** The tables of [initEdges] *)

Definition symmetric2 (t : list (list nat)) : Prop :=
  forall a b, get2 0 t a b = get2 0 t b a.

Lemma initStep_symmetric (n : nat) (EI : list (list nat)) (EP : list (nat * nat))
    (idx i j : nat) :
  natDims n n EI -> i < n -> j < n -> symmetric2 EI ->
  symmetric2 (fst (fst (initStep (EI, EP, idx) i j))).
Proof.
  intros Hd Hi Hj Hs a b. cbn [initStep fst].
  rewrite !(get2_set2 n n) by (try apply natDims_set2; try assumption; lia).
  repeat destruct (decide _); try reflexivity; try lia; apply Hs.
Qed.

Lemma initFold_symmetric (n : nat) (L : list (nat * nat)) :
  (forall i j, In (i, j) L -> i < j < n) ->
  forall EI EP idx,
    natDims n n EI -> symmetric2 EI ->
    symmetric2 (fst (fst (fold_left (fun st p => initStep st (fst p) (snd p)) L
                                    (EI, EP, idx)))).
Proof.
  induction L as [|[i j] L IH]; intros Hin EI EP idx Hd Hs; [exact Hs|].
  cbn [fold_left fst snd].
  assert (Hij : i < j < n) by (apply Hin; left; reflexivity).
  pose proof (initStep_symmetric n EI EP idx i j Hd ltac:(lia) ltac:(lia) Hs) as Hs'.
  cbn [initStep] in *. apply IH.
  - intros i' j' H'. apply Hin. right. assumption.
  - do 2 apply natDims_set2. assumption.
  - exact Hs'.
Qed.

Lemma initEdges_symmetric (vertices : nat) : symmetric2 (edgeIndex (initEdges vertices)).
Proof.
  pose proof (initFold_symmetric vertices (pairsRM vertices)
                (fun i j H => proj1 (in_pairsRM vertices i j) H)
                (replicate vertices (replicate vertices 0))
                (replicate (vertices * (vertices - 1) / 2) (0, 0)) 0) as H.
  unfold initEdges.
  rewrite (nested_fold initStep (fun i => range (i + 1) vertices)).
  fold (pairsRM vertices).
  destruct (fold_left _ (pairsRM vertices) _) as [[EI EP] idx]. cbn [fst edgeIndex] in *.
  apply H.
  - split; [apply length_replicate|].
    apply List.Forall_forall. intros r Hr. apply list_elem_of_In, elem_of_replicate in Hr.
    destruct Hr as [-> _]. apply length_replicate.
  - intros a b. unfold get2.
    destruct (decide (a < vertices)) as [Ha|Ha], (decide (b < vertices)) as [Hb|Hb];
      repeat first [rewrite get_replicate by assumption
                   | rewrite (get_ge []) by (rewrite length_replicate; lia)
                   | rewrite (get_ge 0) by (rewrite ?length_replicate; simpl; lia)];
      reflexivity.
Qed.

(** Where the pair [(i, j)] stands in the row-major enumeration. *)
Lemma pairsRM_position (n i j : nat) :
  i < j < n ->
  exists k, 2 * k = i * (2 * n - i - 1) + 2 * (j - i - 1)
            /\ k < length (pairsRM n) /\ get (0, 0) (pairsRM n) k = (i, j).
Proof.
  intros Hij. unfold pairsRM.
  rewrite (range_split 0 i n), (range_cons i n), !flat_map_app by lia.
  cbn [flat_map].
  set (pre := flat_map (fun i => map (pair i) (range (i + 1) n)) (range 0 i)).
  set (post := flat_map (fun i => map (pair i) (range (i + 1) n)) (range (S i) n)).
  exists (length pre + (j - i - 1)).
  pose proof (pairsRM_prefix_length n i ltac:(lia)) as Hpre. fold pre in Hpre.
  split; [lia|]. rewrite !length_app, length_map, range_length.
  split; [lia|].
  unfold get. rewrite app_nth2 by lia.
  replace (length pre + (j - i - 1) - length pre) with (j - i - 1) by lia.
  rewrite app_nth1 by (rewrite length_map, range_length; lia).
  fold (get (0, 0) (map (pair i) (range (i + 1) n)) (j - i - 1)).
  rewrite (get_map _ _ 0) by (rewrite range_length; lia).
  unfold range. rewrite get_seq by lia. f_equal. lia.
Qed.

Lemma initEdges_rowmajor (vertices k : nat) :
  k < numEdges (initEdges vertices) ->
  get (0, 0) (edgePairs (initEdges vertices)) k = get (0, 0) (pairsRM vertices) k
  /\ get2 0 (edgeIndex (initEdges vertices))
          (fst (get (0, 0) (pairsRM vertices) k)) (snd (get (0, 0) (pairsRM vertices) k)) = k.
Proof.
  pose proof (initFold_spec vertices (pairsRM vertices)
                (replicate vertices (replicate vertices 0))
                (replicate (vertices * (vertices - 1) / 2) (0, 0))) as H.
  destruct (initEdges_fields vertices) as [_ ->].
  unfold initEdges.
  rewrite (nested_fold initStep (fun i => range (i + 1) vertices)).
  fold (pairsRM vertices).
  destruct (fold_left _ (pairsRM vertices) _) as [[EI EP] idx].
  destruct H as (Hidx & HdE & HlE & Hk).
  - split; [apply length_replicate|].
    apply List.Forall_forall. intros r Hr. apply list_elem_of_In, elem_of_replicate in Hr.
    destruct Hr as [-> _]. apply length_replicate.
  - rewrite length_replicate, pairsRM_length. lia.
  - apply pairsRM_NoDup.
  - intros i j Hij. apply in_pairsRM. assumption.
  - intros Hlt. cbn [edgePairs edgeIndex]. apply Hk. rewrite pairsRM_length. assumption.
Qed.

Lemma half_closed_form (n i j k : nat) :
  i < j < n -> 2 * k = i * (2 * n - i - 1) + 2 * (j - i - 1) ->
  k = i * n - i * (i + 1) / 2 + (j - i - 1).
Proof.
  intros Hij Hk.
  assert (He : exists h, i * (i + 1) = 2 * h).
  { destruct (Nat.Even_or_Odd i) as [[m ->]|[m ->]].
    - exists (m * (2 * m + 1)). nia.
    - exists ((2 * m + 1) * (m + 1)). nia. }
  destruct He as [h Hh]. rewrite Hh. replace (2 * h) with (h * 2) by lia.
  rewrite Nat.div_mul by lia. nia.
Qed.

(** X1.  [initEdges] numbers the pairs [i < j] densely and row by row:
    [edgeIndex[i][j] = edgeIndex[j][i] = i*n - i*(i+1)/2 + (j-i-1)], an id
    below [numEdges = n*(n-1)/2], and [edgePairs] at that id is [(i, j)];
    conversely every id below [numEdges] is the id of the pair that
    [edgePairs] stores for it. *)
Theorem initEdges_dense_index (vertices : nat) :
  let T := initEdges vertices in
  n T = vertices
  /\ numEdges T = vertices * (vertices - 1) / 2
  /\ length (edgePairs T) = numEdges T
  /\ (forall i j, i < j < vertices ->
        get2 0 (edgeIndex T) i j = i * vertices - i * (i + 1) / 2 + (j - i - 1)
        /\ get2 0 (edgeIndex T) j i = get2 0 (edgeIndex T) i j
        /\ get2 0 (edgeIndex T) i j < numEdges T
        /\ get (0, 0) (edgePairs T) (get2 0 (edgeIndex T) i j) = (i, j))
  /\ (forall k, k < numEdges T ->
        exists i j, get (0, 0) (edgePairs T) k = (i, j) /\ i < j < vertices
                    /\ get2 0 (edgeIndex T) i j = k).
Proof.
  intros T. pose proof (initEdges_ok vertices) as HT. fold T in HT.
  destruct (initEdges_fields vertices) as [Hn Hm]. fold T in Hn, Hm.
  split; [assumption|]. split; [assumption|].
  split; [apply (ok_pairs_length T HT)|]. split.
  - intros i j Hij.
    destruct (ok_id_of_pair T HT i j ltac:(lia)) as [Hlt Hget].
    repeat split; [|apply initEdges_symmetric|assumption|assumption].
    destruct (pairsRM_position vertices i j Hij) as (k & Hk & Hklen & Hkget).
    rewrite pairsRM_length, <- Hm in Hklen.
    destruct (initEdges_rowmajor vertices k Hklen) as [_ Hidx].
    rewrite Hkget in Hidx. cbn [fst snd] in Hidx. fold T in Hidx. rewrite Hidx.
    apply (half_closed_form vertices i j k Hij Hk).
  - intros k Hk. destruct (ok_pair_of_id T HT k Hk) as (i & j & H1 & H2 & H3).
    exists i, j. rewrite Hn in H2. auto.
Qed.

(** ** [permutations] *)

Lemma heapBody_length (k k' F : nat) (l : list nat) :
  (forall c, length (snd (heap k' c)) = F) ->
  forall a vs,
    length (snd (fold_left (heapBody k k') l (a, vs))) = length vs + length l * F.
Proof.
  intros HF. induction l as [|i l IH]; intros a vs.
  - simpl. lia.
  - cbn [fold_left]. unfold heapBody at 2. cbn [fst snd].
    rewrite IH, length_app, HF. simpl. lia.
Qed.

Lemma heap_length (k : nat) : 1 <= k -> forall a, length (snd (heap k a)) = fact k.
Proof.
  induction k as [|k' IH]; intros Hk a; [lia|].
  rewrite heap_succ. destruct (Nat.eqb_spec (S k') 1) as [H1|H1].
  - assert (k' = 0) by lia. subst. reflexivity.
  - rewrite (heapBody_length (S k') k' (fact k')) by (intros c; apply IH; lia).
    rewrite range_length. simpl. lia.
Qed.

Lemma isPerm_isArrangement (n : nat) (q : list nat) : isPerm n q <-> isArrangement n q.
Proof.
  split.
  - intros H. split; [apply (isPerm_length n q H)|].
    split; [apply (isPerm_NoDup n q H)|].
    apply List.Forall_forall. intros x Hx. apply (isPerm_In n q x H). assumption.
  - intros H. pose proof H as (Hlen & _ & _).
    apply isPerm_of_surjective; [assumption|].
    intros i Hi. apply (SatFacts.isArrangement_In n q i H Hi).
Qed.

(** X2.  [permutations(n)] (Heap's algorithm with a swap after every
    recursive call) returns [n!] arrays, each one an arrangement of
    [0 .. n-1], and every arrangement of [0 .. n-1] is among them. *)
Theorem permutations_complete (n : nat) :
  length (permutations n) = fact n
  /\ forall q, In q (permutations n) <-> isArrangement n q.
Proof.
  split.
  - unfold permutations. destruct (Nat.eqb_spec n 0) as [->|Hn]; [reflexivity|].
    rewrite generate_heap. cbn [snd].
    assert (Hfold : forall (l acc : list (list nat)),
              fold_left (fun s p => s ++ [p]) l acc = acc ++ l).
    { induction l as [|x l IH]; intros acc; simpl.
      - rewrite app_nil_r. reflexivity.
      - rewrite IH, <- app_assoc. reflexivity. }
    rewrite Hfold, app_nil_l. apply heap_length. lia.
  - intros q. rewrite in_permutations. apply isPerm_isArrangement.
Qed.

(** ** [edgeCount] *)

(** X3.  On a 64-bit value [edgeCount] is the number of set bits; it is zero
    only for the empty graph and never exceeds 64. *)
Theorem edgeCount_popcount (g : Graph) :
  (0 <= g < 2 ^ 64)%Z ->
  edgeCount g = length (bitsOf 64 g)
  /\ (forall k, In k (bitsOf 64 g) <-> k < 64 /\ Z.testbit g (Z.of_nat k) = true)
  /\ List.NoDup (bitsOf 64 g)
  /\ edgeCount g <= 64
  /\ (edgeCount g = 0 <-> g = 0%Z).
Proof.
  intros Hg.
  assert (Hv : validGraph 64 g) by (unfold validGraph; simpl; lia).
  pose proof (edgeCount_bitsOf 64 g Hv) as Hc.
  split; [assumption|]. split; [intros k; apply in_bitsOf|].
  split; [apply bitsOf_NoDup|]. split.
  - rewrite Hc.
    pose proof (List.NoDup_incl_length (bitsOf_NoDup 64 g)
                  (l' := seq 0 64)) as Hl.
    rewrite length_seq in Hl. apply Hl.
    intros k Hk. apply in_bitsOf in Hk. apply in_seq. lia.
  - rewrite Hc. split.
    + intros H0. apply graph_ext; [lia|lia|]. intros k. rewrite Z.bits_0.
      destruct (Z.testbit g (Z.of_nat k)) eqn:Hb; [|reflexivity].
      destruct (validGraph_bits 64 g k Hv Hb) as [Hk _].
      assert (Hin : In k (bitsOf 64 g)) by (apply in_bitsOf; auto).
      destruct (bitsOf 64 g); [destruct Hin|discriminate].
    + intros ->. reflexivity.
Qed.

Lemma edgeCount_popcount_witness :
  edgeCount 27%Z = length (bitsOf 64 27%Z)
  /\ (forall k, In k (bitsOf 64 27%Z) <-> k < 64 /\ Z.testbit 27%Z (Z.of_nat k) = true)
  /\ List.NoDup (bitsOf 64 27%Z)
  /\ edgeCount 27%Z <= 64
  /\ (edgeCount 27%Z = 0 <-> 27%Z = 0%Z).
Proof. apply (edgeCount_popcount 27%Z). lia. Defined.

(** ** [hasEdge] and the subgraph test *)

Import Penny.

Lemma hasEdge_sym (T : Tables) (g : Graph) (i j : nat) :
  hasEdge T g i j = hasEdge T g j i.
Proof.
  unfold hasEdge.
  destruct (Nat.ltb_spec j i), (Nat.ltb_spec i j); try reflexivity; try lia.
  assert (i = j) by lia. subst. reflexivity.
Qed.

Section HasEdge.

Variable T : Tables.
Hypothesis HT : tablesOK T.
Hypothesis H64 : numEdges T <= 64.

Lemma hasEdge_testbit (g : Graph) (i j : nat) :
  i < j < n T ->
  hasEdge T g i j = Z.testbit g (Z.of_nat (get2 0 (edgeIndex T) i j)).
Proof.
  intros Hij. unfold hasEdge.
  destruct (Nat.ltb_spec j i) as [|_]; [lia|].
  rewrite land_bit_zero, negb_involutive.
  destruct (ok_id_of_pair T HT i j Hij) as [Hlt _].
  destruct (Nat.ltb_spec (get2 0 (edgeIndex T) i j) 64) as [_|]; [|lia].
  apply andb_true_r.
Qed.

Lemma hasEdge_relabelId (h : Graph) (p : list nat) (k i j : nat) :
  isPerm (n T) p -> k < numEdges T ->
  get (0, 0) (edgePairs T) k = (i, j) ->
  hasEdge T h (get 0 p i) (get 0 p j) = Z.testbit h (Z.of_nat (relabelId T p k)).
Proof.
  intros Hp Hk Hg.
  destruct (relabelId_spec T HT p k Hp Hk) as (i' & j' & lo & hi & Hg' & Hij & Hlh & Hor & Hr).
  rewrite Hg in Hg'. injection Hg' as <- <-. rewrite Hr.
  destruct Hor as [[-> ->]|[-> ->]].
  - apply hasEdge_testbit. assumption.
  - rewrite hasEdge_sym. apply hasEdge_testbit. assumption.
Qed.

Lemma isoSubgraph_hasEdge (g h : Graph) :
  isoSubgraph T g h <->
  exists p, isArrangement (n T) p
            /\ forall i j, i < n T -> j < n T -> i <> j ->
                 hasEdge T g i j = true -> hasEdge T h (get 0 p i) (get 0 p j) = true.
Proof.
  split.
  - intros [p [Hp Hsub]]. exists p. split; [apply isPerm_isArrangement; assumption|].
    assert (Hlt : forall i j, i < j < n T -> hasEdge T g i j = true ->
                    hasEdge T h (get 0 p i) (get 0 p j) = true).
    { intros i j Hij He. rewrite hasEdge_testbit in He by assumption.
      destruct (ok_id_of_pair T HT i j Hij) as [Hk Hg].
      rewrite (hasEdge_relabelId h p _ i j Hp Hk Hg). apply Hsub; assumption. }
    intros i j Hi Hj Hne He.
    destruct (Nat.lt_total i j) as [Hl|[Heq|Hl]]; [|contradiction|].
    + apply Hlt; [lia|assumption].
    + rewrite hasEdge_sym. apply Hlt; [lia|]. rewrite hasEdge_sym. assumption.
  - intros [p [Hp Hsub]]. apply isPerm_isArrangement in Hp.
    exists p. split; [assumption|]. intros k Hk Hb.
    destruct (ok_pair_of_id T HT k Hk) as (i & j & Hg & Hij & Hid).
    rewrite <- (hasEdge_relabelId h p k i j Hp Hk Hg).
    apply Hsub; [lia..|]. rewrite hasEdge_testbit, Hid by assumption. assumption.
Qed.

End HasEdge.

(** X4.  With the edge ids fitting the 64-bit [Graph] ([n <= 11]),
    [g.isIsomorphicSubgraphOf(other)] answers whether some arrangement [p] of
    the vertices sends every edge of [g] to an edge of [other]. *)
Theorem isIsomorphicSubgraphOf_spec (vertices : nat) (g other : Graph) :
  vertices <= 11 ->
  validGraph (numEdges (initEdges vertices)) g ->
  let T := initEdges vertices in
  isIsomorphicSubgraphOf T g other = true
  <-> exists p, isArrangement vertices p
                /\ forall i j, i < vertices -> j < vertices -> i <> j ->
                     hasEdge T g i j = true ->
                     hasEdge T other (get 0 p i) (get 0 p j) = true.
Proof.
  intros Hv Hg T.
  pose proof (initEdges_ok vertices) as HT.
  pose proof (numEdges_initEdges_le vertices Hv) as H64.
  assert (Hn : n T = vertices) by apply initEdges_fields.
  fold T in HT, H64, Hg. rewrite <- Hn.
  rewrite <- (isoSubgraph_hasEdge T HT H64). split.
  - apply test_isoSubgraph; assumption.
  - apply isoSubgraph_test; assumption.
Qed.

(** The path 0 - 1 - 2 inside the triangle on four vertices. *)
Lemma isIsomorphicSubgraphOf_spec_witness :
  let T := initEdges 4 in
  isIsomorphicSubgraphOf T 9%Z 11%Z = true
  <-> exists p, isArrangement 4 p
                /\ forall i j, i < 4 -> j < 4 -> i <> j ->
                     hasEdge T 9%Z i j = true ->
                     hasEdge T 11%Z (get 0 p i) (get 0 p j) = true.
Proof.
  apply (isIsomorphicSubgraphOf_spec 4 9%Z 11%Z).
  - lia.
  - apply validGraph_dec. vm_compute. reflexivity.
Defined.

(** ** Relabelling *)

Section RelabelProps.

Variable T : Tables.
Hypothesis HT : tablesOK T.
Hypothesis H64 : numEdges T <= 64.

Lemma hasEdge_relabel (g : Graph) (p : list nat) (i j : nat) :
  validGraph (numEdges T) g -> isPerm (n T) p -> i < n T -> j < n T -> i <> j ->
  hasEdge T (relabel T g p) (get 0 p i) (get 0 p j) = hasEdge T g i j.
Proof.
  intros Hg Hp Hi Hj Hne.
  assert (Hlt : forall a b, a < b < n T ->
            hasEdge T (relabel T g p) (get 0 p a) (get 0 p b) = hasEdge T g a b).
  { intros a b Hab. destruct (ok_id_of_pair T HT a b Hab) as [Hk Hget].
    rewrite (hasEdge_relabelId T HT H64 _ p _ a b Hp Hk Hget).
    rewrite (hasEdge_testbit T HT H64 g a b Hab).
    apply eq_true_iff_eq. rewrite (relabel_bit T HT H64 g p _ Hg Hp). split.
    - intros (k & Hk' & Hb & He).
      apply (relabelId_inj T HT p _ _ Hp Hk' Hk) in He. subst k. assumption.
    - intros Hb. exists (get2 0 (edgeIndex T) a b). auto. }
  destruct (Nat.lt_total i j) as [Hl|[Heq|Hl]]; [|contradiction|].
  - apply Hlt. lia.
  - rewrite (hasEdge_sym T g i j), hasEdge_sym. apply Hlt. lia.
Qed.

Lemma bitsOf_relabel (g : Graph) (p : list nat) :
  validGraph (numEdges T) g -> isPerm (n T) p ->
  Permutation (bitsOf (numEdges T) (relabel T g p))
              (map (relabelId T p) (bitsOf (numEdges T) g)).
Proof.
  intros Hg Hp. apply Permutation.NoDup_Permutation.
  - apply bitsOf_NoDup.
  - apply List.NoDup_map_NoDup_ForallPairs; [|apply bitsOf_NoDup].
    intros k k' Hk Hk' He. apply in_bitsOf in Hk, Hk'.
    apply (relabelId_inj T HT p k k' Hp); tauto.
  - intros k'. rewrite in_bitsOf, in_map_iff. split.
    + intros [Hk' Hb]. apply (relabel_bit T HT H64 g p _ Hg Hp) in Hb.
      destruct Hb as (k & Hk & Hb & He). exists k. split; [assumption|].
      apply in_bitsOf. auto.
    + intros (k & He & Hin). apply in_bitsOf in Hin. destruct Hin as [Hk Hb]. subst k'.
      split; [apply relabelId_lt; assumption|].
      apply (relabel_bit T HT H64 g p _ Hg Hp). exists k. auto.
Qed.

Lemma edgeCount_relabel (g : Graph) (p : list nat) :
  validGraph (numEdges T) g -> isPerm (n T) p ->
  edgeCount (relabel T g p) = edgeCount g.
Proof.
  intros Hg Hp.
  rewrite (edgeCount_bitsOf (numEdges T) (relabel T g p))
    by (apply relabel_valid; assumption).
  rewrite (edgeCount_bitsOf (numEdges T) g Hg).
  rewrite (Permutation_length (bitsOf_relabel g p Hg Hp)). apply length_map.
Qed.

End RelabelProps.

(** X5.  The relabelling loop of [canonical] and [isIsomorphicSubgraphOf]
    acts on graphs: relabelling by [p] moves the edge [{i, j}] to
    [{p[i], p[j]}], relabelling by [p] and then by [q] is relabelling by the
    composite, the identity changes nothing and the inverse arrangement
    undoes [p] (for [n <= 11], where the ids fit the 64 bits). *)
Theorem relabel_action (vertices : nat) (g : Graph) (p q : list nat) :
  vertices <= 11 ->
  validGraph (numEdges (initEdges vertices)) g ->
  isArrangement vertices p -> isArrangement vertices q ->
  let T := initEdges vertices in
  validGraph (numEdges T) (relabel T g p)
  /\ (forall i j, i < vertices -> j < vertices -> i <> j ->
        hasEdge T (relabel T g p) (get 0 p i) (get 0 p j) = hasEdge T g i j)
  /\ relabel T (relabel T g p) q = relabel T g (compose q p)
  /\ relabel T g (identity vertices) = g
  /\ relabel T (relabel T g p) (inverse vertices p) = g.
Proof.
  intros Hv Hg Hp Hq T.
  pose proof (initEdges_ok vertices) as HT.
  pose proof (numEdges_initEdges_le vertices Hv) as H64.
  assert (Hn : n T = vertices) by apply initEdges_fields.
  apply isPerm_isArrangement in Hp, Hq.
  fold T in HT, H64, Hg. rewrite <- Hn in *.
  split; [apply relabel_valid; assumption|].
  split; [intros i j Hi Hj Hne; apply hasEdge_relabel; assumption|].
  split; [apply relabel_compose; assumption|].
  split; [apply relabel_identity; assumption|].
  rewrite relabel_compose by (try apply inverse_isPerm; assumption).
  rewrite compose_inverse_l by assumption. apply relabel_identity; assumption.
Qed.

Lemma relabel_action_witness :
  let T := initEdges 4 in
  validGraph (numEdges T) (relabel T 27%Z [1; 2; 3; 0])
  /\ (forall i j, i < 4 -> j < 4 -> i <> j ->
        hasEdge T (relabel T 27%Z [1; 2; 3; 0]) (get 0 [1; 2; 3; 0] i) (get 0 [1; 2; 3; 0] j)
        = hasEdge T 27%Z i j)
  /\ relabel T (relabel T 27%Z [1; 2; 3; 0]) [0; 2; 1; 3]
     = relabel T 27%Z (compose [0; 2; 1; 3] [1; 2; 3; 0])
  /\ relabel T 27%Z (identity 4) = 27%Z
  /\ relabel T (relabel T 27%Z [1; 2; 3; 0]) (inverse 4 [1; 2; 3; 0]) = 27%Z.
Proof.
  apply (relabel_action 4 27%Z [1; 2; 3; 0] [0; 2; 1; 3]).
  - lia.
  - apply validGraph_dec. vm_compute. reflexivity.
  - apply isArrangementb_sound. vm_compute. reflexivity.
  - apply isArrangementb_sound. vm_compute. reflexivity.
Defined.

(** X6.  Neither relabelling nor [canonical] changes the number of edges
    (for [n <= 11]). *)
Theorem edgeCount_invariant (vertices : nat) (g : Graph) (p : list nat) :
  vertices <= 11 ->
  validGraph (numEdges (initEdges vertices)) g ->
  isArrangement vertices p ->
  let T := initEdges vertices in
  edgeCount (relabel T g p) = edgeCount g
  /\ edgeCount (canonical T g) = edgeCount g.
Proof.
  intros Hv Hg Hp T.
  pose proof (initEdges_ok vertices) as HT.
  pose proof (numEdges_initEdges_le vertices Hv) as H64.
  assert (Hn : n T = vertices) by apply initEdges_fields.
  apply isPerm_isArrangement in Hp.
  fold T in HT, H64, Hg. rewrite <- Hn in *.
  split; [apply edgeCount_relabel; assumption|].
  destruct (canonical_attained T HT H64 g Hg) as [p' [Hp' ->]].
  apply edgeCount_relabel; assumption.
Qed.

Lemma edgeCount_invariant_witness :
  let T := initEdges 4 in
  edgeCount (relabel T 27%Z [1; 2; 3; 0]) = edgeCount 27%Z
  /\ edgeCount (canonical T 27%Z) = edgeCount 27%Z.
Proof.
  apply (edgeCount_invariant 4 27%Z [1; 2; 3; 0]).
  - lia.
  - apply validGraph_dec. vm_compute. reflexivity.
  - apply isArrangementb_sound. vm_compute. reflexivity.
Defined.

(** ** The maximality filter *)

Section FilterProps.

Variable T : Tables.
Hypothesis HT : tablesOK T.

Lemma isIsomorphicSubgraphOf_refl (g : Graph) :
  validGraph (numEdges T) g -> isIsomorphicSubgraphOf T g g = true.
Proof.
  intros Hg. apply (isoSubgraph_test T).
  exists (identity (n T)). split; [apply isPerm_identity|].
  intros k Hk Hb. rewrite (relabelId_identity T HT k Hk). assumption.
Qed.

Lemma filterFold_spec (pool : list Graph) :
  Forall (validGraph (numEdges T)) pool ->
  forall kept,
    (exists added, fold_left (filterStep T) pool kept = kept ++ added
                   /\ sublist added pool)
    /\ (forall g, In g pool ->
          exists m, In m (fold_left (filterStep T) pool kept)
                    /\ isIsomorphicSubgraphOf T g m = true).
Proof.
  induction pool as [|g pool IH]; intros Hv kept.
  - split; [|intros g []]. exists []. rewrite app_nil_r. split; [reflexivity|constructor].
  - apply Forall_cons in Hv. destruct Hv as [Hg Hv]. cbn [fold_left].
    destruct (IH Hv (filterStep T kept g)) as [[added [Hout Hsub]] Hdom].
    unfold filterStep in Hout, Hdom |- *.
    destruct (existsb (fun m => isIsomorphicSubgraphOf T g m) kept) eqn:He.
    + split.
      * exists added. split; [assumption|]. apply sublist_cons. assumption.
      * intros g' [<-|Hin]; [|apply Hdom; assumption].
        apply existsb_exists in He. destruct He as [m [Hm Hiso]].
        exists m. split; [|assumption]. rewrite Hout. apply in_or_app. left. assumption.
    + split.
      * exists (g :: added). split; [rewrite Hout, <- app_assoc; reflexivity|].
        apply sublist_skip. assumption.
      * intros g' [<-|Hin]; [|apply Hdom; assumption].
        exists g. split; [|apply isIsomorphicSubgraphOf_refl; assumption].
        rewrite Hout. apply in_or_app. left. apply in_or_app. right. left. reflexivity.
Qed.

End FilterProps.

(** X7.  Whatever the order of the pool, the filter's output is a
    subsequence of it that starts with the first graph of the pool, and every
    graph of the pool, kept or dropped, passes the subgraph test against
    some graph of the output. *)
Theorem filterMaximal_dominates (vertices : nat) (pool : list Graph) :
  Forall (validGraph (numEdges (initEdges vertices))) pool ->
  let T := initEdges vertices in
  sublist (filterMaximal T pool) pool
  /\ (forall g rest, pool = g :: rest -> exists tl, filterMaximal T pool = g :: tl)
  /\ (forall g, In g pool ->
        exists m, In m (filterMaximal T pool) /\ isIsomorphicSubgraphOf T g m = true).
Proof.
  intros Hpool T.
  pose proof (initEdges_ok vertices) as HT.
  fold T in HT, Hpool.
  destruct (filterFold_spec T HT pool Hpool []) as [[added [Hout Hsub]] Hdom].
  unfold filterMaximal. split; [rewrite Hout; assumption|]. split; [|assumption].
  intros g rest ->. cbn [fold_left].
  apply Forall_cons in Hpool. destruct Hpool as [_ Hrest].
  destruct (filterFold_spec T HT rest Hrest (filterStep T [] g)) as [[added' [Hout' _]] _].
  rewrite Hout'. exists added'. reflexivity.
Qed.

(** The pool of C4's example out of order: the path comes first and stays. *)
Lemma filterMaximal_dominates_witness :
  let T := initEdges 4 in
  sublist (filterMaximal T [9; 45; 7; 11]%Z) [9; 45; 7; 11]%Z
  /\ (forall g rest, [9; 45; 7; 11]%Z = g :: rest ->
        exists tl, filterMaximal T [9; 45; 7; 11]%Z = g :: tl)
  /\ (forall g, In g [9; 45; 7; 11]%Z ->
        exists m, In m (filterMaximal T [9; 45; 7; 11]%Z)
                  /\ isIsomorphicSubgraphOf T g m = true).
Proof.
  apply (filterMaximal_dominates 4 [9; 45; 7; 11]%Z).
  repeat (constructor; [apply validGraph_dec; vm_compute; reflexivity|]). constructor.
Defined.

(** ** [edges] and [hasK4] of verify_penny *)

Lemma edgesFold (EP : list (nat * nat)) (sel : nat -> bool) (l : list nat) :
  forall acc,
    fold_left (fun result idx => if sel idx then result ++ [get (0, 0) EP idx] else result)
              l acc
    = acc ++ map (get (0, 0) EP) (List.filter sel l).
Proof.
  induction l as [|k l IH]; intros acc; simpl.
  - rewrite app_nil_r. reflexivity.
  - rewrite IH. destruct (sel k); simpl; [rewrite <- app_assoc|]; reflexivity.
Qed.

Lemma filter_bitsOf (m : nat) (g : Graph) :
  m <= 64 ->
  List.filter (fun idx => negb (Z.eqb (Z.land g (bit idx)) 0)) (range 0 m) = bitsOf m g.
Proof.
  intros Hm. unfold bitsOf, range. rewrite Nat.sub_0_r.
  assert (H : forall l, Forall (fun k => k < 64) l ->
            List.filter (fun idx => negb (Z.eqb (Z.land g (bit idx)) 0)) l
            = filter (fun k => Z.testbit g (Z.of_nat k)) l).
  { induction l as [|k l IH]; intros Hl; [reflexivity|].
    apply Forall_cons in Hl. destruct Hl as [Hk Hl]. cbn [List.filter].
    rewrite filter_cons, IH by assumption.
    rewrite land_bit_zero, negb_involutive.
    destruct (Nat.ltb_spec k 64) as [_|]; [|lia]. rewrite andb_true_r.
    destruct (Z.testbit g (Z.of_nat k)); simpl; reflexivity. }
  apply H. apply List.Forall_forall. intros k Hk. apply in_seq in Hk. lia.
Qed.

(** X8.  [g.edges()] lists the pairs [i < j] with [g.hasEdge(i, j)], in the
    order of their edge ids and without repetition; its length is
    [g.edgeCount()] (for [n <= 11]). *)
Theorem edges_spec (vertices : nat) (g : Graph) :
  vertices <= 11 ->
  validGraph (numEdges (initEdges vertices)) g ->
  let T := initEdges vertices in
  edges T g = map (get (0, 0) (edgePairs T)) (bitsOf (numEdges T) g)
  /\ (forall i j, In (i, j) (edges T g) <-> i < j < vertices /\ hasEdge T g i j = true)
  /\ List.NoDup (edges T g)
  /\ length (edges T g) = edgeCount g.
Proof.
  intros Hv Hg T.
  pose proof (initEdges_ok vertices) as HT.
  pose proof (numEdges_initEdges_le vertices Hv) as H64.
  assert (Hn : n T = vertices) by apply initEdges_fields.
  fold T in HT, H64, Hg. rewrite <- Hn.
  assert (He : edges T g = map (get (0, 0) (edgePairs T)) (bitsOf (numEdges T) g)).
  { unfold edges. rewrite edgesFold, app_nil_l, filter_bitsOf by assumption. reflexivity. }
  split; [assumption|]. rewrite He. split; [|split].
  - intros i j. rewrite in_map_iff. split.
    + intros (k & Hk & Hin). apply in_bitsOf in Hin. destruct Hin as [Hlt Hb].
      destruct (ok_pair_of_id T HT k Hlt) as (i' & j' & Hg' & Hij & Hid).
      rewrite Hg' in Hk. injection Hk as -> ->. split; [assumption|].
      rewrite (hasEdge_testbit T HT H64 g i j Hij), Hid. assumption.
    + intros [Hij Hb]. destruct (ok_id_of_pair T HT i j Hij) as [Hlt Hget].
      exists (get2 0 (edgeIndex T) i j). split; [assumption|].
      apply in_bitsOf. split; [assumption|].
      rewrite <- (hasEdge_testbit T HT H64 g i j Hij). assumption.
  - apply List.NoDup_map_NoDup_ForallPairs; [|apply bitsOf_NoDup].
    intros k k' Hk Hk' Heq. apply in_bitsOf in Hk, Hk'.
    destruct (ok_pair_of_id T HT k (proj1 Hk)) as (i & j & Hg1 & _ & Hid1).
    destruct (ok_pair_of_id T HT k' (proj1 Hk')) as (i' & j' & Hg2 & _ & Hid2).
    rewrite Hg1, Hg2 in Heq. injection Heq as -> ->. congruence.
  - rewrite length_map. symmetry. apply edgeCount_bitsOf. assumption.
Qed.

Lemma edges_spec_witness :
  let T := initEdges 4 in
  edges T 27%Z = map (get (0, 0) (edgePairs T)) (bitsOf (numEdges T) 27%Z)
  /\ (forall i j, In (i, j) (edges T 27%Z) <-> i < j < 4 /\ hasEdge T 27%Z i j = true)
  /\ List.NoDup (edges T 27%Z)
  /\ length (edges T 27%Z) = edgeCount 27%Z.
Proof.
  apply (edges_spec 4 27%Z).
  - lia.
  - apply validGraph_dec. vm_compute. reflexivity.
Defined.

(** X9.  [g.hasK4()] holds exactly when four vertices [a < b < c < d] are
    pairwise joined by [hasEdge]. *)
Theorem hasK4_spec (T : Tables) (g : Graph) :
  hasK4 T g = true
  <-> exists a b c d, a < b /\ b < c /\ c < d /\ d < n T
        /\ hasEdge T g a b = true /\ hasEdge T g a c = true /\ hasEdge T g b c = true
        /\ hasEdge T g a d = true /\ hasEdge T g b d = true /\ hasEdge T g c d = true.
Proof.
  unfold hasK4. rewrite existsb_exists. split.
  - intros (a & Ha & H). apply existsb_exists in H. destruct H as (b & Hb & H).
    destruct (hasEdge T g a b) eqn:Hab; cbn [negb] in H; [|discriminate].
    apply existsb_exists in H. destruct H as (c & Hc & H).
    destruct (hasEdge T g a c) eqn:Hac, (hasEdge T g b c) eqn:Hbc;
      cbn [negb orb] in H; try discriminate.
    apply existsb_exists in H. destruct H as (d & Hd & H).
    rewrite !andb_true_iff in H. destruct H as [[Had Hbd] Hcd].
    apply in_range in Ha, Hb, Hc, Hd.
    exists a, b, c, d. repeat split; (lia || assumption).
  - intros (a & b & c & d & Hab & Hbc & Hcd & Hd & E1 & E2 & E3 & E4 & E5 & E6).
    exists a. split; [apply in_range; lia|].
    apply existsb_exists. exists b. split; [apply in_range; lia|].
    rewrite E1. cbn [negb].
    apply existsb_exists. exists c. split; [apply in_range; lia|].
    rewrite E2, E3. cbn [negb orb].
    apply existsb_exists. exists d. split; [apply in_range; lia|].
    rewrite E4, E5, E6. reflexivity.
Qed.

(** ** The reading loops and the zero sentinel *)

Section Reading.

Variable TrimFunc_IsSpace : list ascii -> list ascii.
Variable TrimRightFunc_IsSpace : list ascii -> list ascii.
Variable T : Tables.

Lemma readLine_nonzero (st : list Graph * nat) (line : list ascii) :
  let st' := readLine TrimFunc_IsSpace TrimRightFunc_IsSpace T st line in
  (Forall (fun g => g <> 0%Z) (fst st) -> Forall (fun g => g <> 0%Z) (fst st'))
  /\ length (fst st') - length (fst st) = snd st' - snd st
  /\ length (fst st) <= length (fst st') /\ snd st <= snd st'.
Proof.
  unfold readLine.
  destruct (Z.eqb_spec (parseGraph6 TrimFunc_IsSpace TrimRightFunc_IsSpace T line) 0)
    as [H0|H0]; cbn [negb fst snd].
  - repeat split; [auto|lia..].
  - rewrite length_app. cbn [length]. repeat split; [|lia..].
    intros Hall. apply Forall_app. split; [assumption|]. constructor; [assumption|constructor].
Qed.

Lemma readLines_nonzero (lines : list (list ascii)) :
  forall st,
    let st' := fold_left (readLine TrimFunc_IsSpace TrimRightFunc_IsSpace T) lines st in
    (Forall (fun g => g <> 0%Z) (fst st) -> Forall (fun g => g <> 0%Z) (fst st'))
    /\ length (fst st') - length (fst st) = snd st' - snd st
    /\ length (fst st) <= length (fst st') /\ snd st <= snd st'.
Proof.
  induction lines as [|line lines IH]; intros st; cbn [fold_left].
  - repeat split; [auto|lia..].
  - specialize (IH (readLine TrimFunc_IsSpace TrimRightFunc_IsSpace T st line)).
    pose proof (readLine_nonzero st line) as H1. cbv zeta in *.
    destruct IH as (I1 & I2 & I3 & I4). destruct H1 as (J1 & J2 & J3 & J4).
    repeat split; [auto|lia..].
Qed.

End Reading.

Lemma graph6_roundtrip_zero
    (TrimFunc_IsSpace TrimRightFunc_IsSpace : list ascii -> list ascii) (vertices : nat) :
  vertices <= 64 ->
  parseGraph6 TrimFunc_IsSpace TrimRightFunc_IsSpace (initEdges vertices)
              (toGraph6 (initEdges vertices) 0%Z) = 0%Z.
Proof.
  intros Hv. apply parse_toGraph6; [apply initEdges_ok| |].
  - destruct (initEdges_fields vertices) as [-> _]. assumption.
  - unfold validGraph. split; [lia|]. apply Z.pow_pos_nonneg; lia.
Qed.

(** X10.  The scanner loop of filter_maximal never puts the zero graph in
    the batch, and [count] is the number of graphs it appended; so the
    edgeless graph cannot be read back: the line [toGraph6] writes for it
    (on [n <= 64] vertices) is dropped like a line for another [n]. *)
Theorem readLines_never_zero
    (TrimFunc_IsSpace TrimRightFunc_IsSpace : list ascii -> list ascii)
    (T : Tables) (allGraphs : list Graph) (lines : list (list ascii)) :
  Forall (fun g => g <> 0%Z) allGraphs ->
  let out := readLines TrimFunc_IsSpace TrimRightFunc_IsSpace T allGraphs lines in
  Forall (fun g => g <> 0%Z) (fst out)
  /\ length (fst out) = length allGraphs + snd out
  /\ (forall vertices st, vertices <= 64 ->
        readLine TrimFunc_IsSpace TrimRightFunc_IsSpace (initEdges vertices) st
                 (toGraph6 (initEdges vertices) 0%Z) = st).
Proof.
  intros Hall out.
  pose proof (readLines_nonzero TrimFunc_IsSpace TrimRightFunc_IsSpace T lines (allGraphs, 0))
    as H.
  cbv zeta in H. cbn [fst snd] in H. fold (readLines TrimFunc_IsSpace TrimRightFunc_IsSpace T
                                             allGraphs lines) in H.
  fold out in H. destruct H as (H1 & H2 & H3 & H4).
  split; [auto|]. split; [lia|].
  intros vertices st Hv. unfold readLine.
  rewrite graph6_roundtrip_zero by assumption. reflexivity.
Qed.

(** Two lines for four vertices: the path [CD] is read, the edgeless [C?]
    is not. *)
Lemma readLines_never_zero_witness :
  let out := readLines (fun s => s) (fun s => s) (initEdges 4) []
                       [["C"; "D"]; ["C"; "?"]]%char in
  Forall (fun g => g <> 0%Z) (fst out)
  /\ length (fst out) = length (@nil Graph) + snd out
  /\ (forall vertices st, vertices <= 64 ->
        readLine (fun s => s) (fun s => s) (initEdges vertices) st
                 (toGraph6 (initEdges vertices) 0%Z) = st).
Proof.
  apply (readLines_never_zero (fun s => s) (fun s => s) (initEdges 4) []
           [["C"; "D"]; ["C"; "?"]]%char).
  constructor.
Defined.

Example readLines_path_then_empty :
  readLines (fun s => s) (fun s => s) (initEdges 4) [] [["C"; "D"]; ["C"; "?"]]%char
  = ([36%Z], 1)
  /\ toGraph6 (initEdges 4) 0%Z = ["C"; "?"]%char.
Proof. vm_compute. auto. Qed.

End GraphProps.

(** * Properties of find_fourth: from the tables to the answer *)

Module FourthProps.

Import Hex FindFourth SatFacts.

(** ** [pairTable] *)

(** The index of the pair [a < b]. *)
Definition pairId (n a b : nat) : nat := a * n - a * (a + 1) / 2 + (b - a - 1).

Lemma pairTable_get (n a b : nat) :
  a < n -> b < n ->
  get2 0 (pairTable n) a b =
  if a <? b then pairId n a b else if b <? a then pairId n b a else 0.
Proof.
  intros Ha Hb. unfold get2, pairTable.
  rewrite (get_map _ [] 0) by (rewrite range_length; lia).
  rewrite (get_map _ 0 0) by (rewrite range_length; lia).
  unfold range. rewrite !get_seq by lia. reflexivity.
Qed.

Lemma pairTable_sym (n a b : nat) :
  a < n -> b < n -> get2 0 (pairTable n) a b = get2 0 (pairTable n) b a.
Proof.
  intros Ha Hb. rewrite !pairTable_get by assumption.
  destruct (Nat.ltb_spec a b), (Nat.ltb_spec b a); try reflexivity; lia.
Qed.

(** [pairId] is the edge id of [initEdges]. *)
Lemma pairId_edgeIndex (n a b : nat) :
  a < b < n ->
  get2 0 (Graphs.edgeIndex (Graphs.initEdges n)) a b = pairId n a b.
Proof.
  intros Hab.
  destruct (GraphProps.pairsRM_position n a b Hab) as (k & Hk & Hklen & Hkget).
  rewrite GraphFacts.pairsRM_length in Hklen.
  destruct (GraphFacts.initEdges_fields n) as [_ Hm]. rewrite <- Hm in Hklen.
  destruct (GraphProps.initEdges_rowmajor n k Hklen) as [_ Hidx].
  rewrite Hkget in Hidx. cbn [fst snd] in Hidx. rewrite Hidx.
  apply (GraphProps.half_closed_form n a b k Hab Hk).
Qed.

Lemma pairId_lt (n a b : nat) : a < b < n -> pairId n a b < n * (n - 1) / 2.
Proof.
  intros Hab. rewrite <- pairId_edgeIndex by assumption.
  destruct (GraphFacts.initEdges_fields n) as [Hn Hm]. rewrite <- Hm.
  apply (GraphFacts.ok_id_of_pair _ (GraphFacts.initEdges_ok n)). rewrite Hn. assumption.
Qed.

Lemma pairId_inj (n a b c d : nat) :
  a < b < n -> c < d < n -> pairId n a b = pairId n c d -> a = c /\ b = d.
Proof.
  intros Hab Hcd He. rewrite <- !pairId_edgeIndex in He by assumption.
  destruct (GraphFacts.initEdges_fields n) as [Hn _].
  pose proof (GraphFacts.ok_id_of_pair _ (GraphFacts.initEdges_ok n) a b) as H1.
  pose proof (GraphFacts.ok_id_of_pair _ (GraphFacts.initEdges_ok n) c d) as H2.
  rewrite Hn in H1, H2. destruct (H1 Hab) as [_ G1]. destruct (H2 Hcd) as [_ G2].
  rewrite He in G1. rewrite G1 in G2. injection G2 as -> ->. auto.
Qed.

(** X12.  [pairTable] indexes the unordered pairs of items densely:
    [pairTable[a][b] = pairTable[b][a] = a*n - a*(a+1)/2 + (b-a-1)] for
    [a < b < n], a number below [n*(n-1)/2]; different pairs have different
    indices, the diagonal is left at zero, and the index is the edge id that
    [initEdges] of the graph tools gives the pair. *)
Theorem pairTable_dense (n : nat) :
  (forall a b, a < b < n ->
     get2 0 (pairTable n) a b = a * n - a * (a + 1) / 2 + (b - a - 1)
     /\ get2 0 (pairTable n) b a = get2 0 (pairTable n) a b
     /\ get2 0 (pairTable n) a b < n * (n - 1) / 2
     /\ get2 0 (pairTable n) a b
        = get2 0 (Graphs.edgeIndex (Graphs.initEdges n)) a b)
  /\ (forall a, a < n -> get2 0 (pairTable n) a a = 0)
  /\ (forall a b c d, a < b < n -> c < d < n ->
        get2 0 (pairTable n) a b = get2 0 (pairTable n) c d -> a = c /\ b = d).
Proof.
  split; [|split].
  - intros a b Hab.
    assert (Hg : get2 0 (pairTable n) a b = pairId n a b).
    { rewrite pairTable_get by lia. destruct (Nat.ltb_spec a b); [reflexivity|lia]. }
    split; [exact Hg|]. split; [apply pairTable_sym; lia|].
    split; [rewrite Hg; apply pairId_lt; assumption|].
    rewrite Hg. symmetry. apply pairId_edgeIndex. assumption.
  - intros a Ha. rewrite pairTable_get by assumption.
    destruct (Nat.ltb_spec a a); [lia|reflexivity].
  - intros a b c d Hab Hcd. rewrite !pairTable_get by lia.
    destruct (Nat.ltb_spec a b); [|lia]. destruct (Nat.ltb_spec c d); [|lia].
    apply pairId_inj; assumption.
Qed.

(** ** [fullAdj] and [adjMatrix] *)

(** Slots [s] and [t] are the two ends of an edge. *)
Definition adjacent (edges : list Edge) (s t : nat) : Prop :=
  exists e, In e edges /\ ((a e = s /\ b e = t) \/ (a e = t /\ b e = s)).

Definition inRange (n : nat) (edges : list Edge) : Prop :=
  Forall (fun e => a e < n /\ b e < n) edges.

Lemma adjacent_sym (edges : list Edge) (s t : nat) : adjacent edges s t -> adjacent edges t s.
Proof. intros (e & He & H). exists e. tauto. Qed.

Lemma adjacent_cons (e : Edge) (edges : list Edge) (s t : nat) :
  adjacent (e :: edges) s t
  <-> ((a e = s /\ b e = t) \/ (a e = t /\ b e = s)) \/ adjacent edges s t.
Proof.
  unfold adjacent. split.
  - intros (e' & [<-|Hin] & H); [left; assumption|right; exists e'; auto].
  - intros [H|(e' & Hin & H)]; [exists e; split; [left; reflexivity|assumption]|].
    exists e'. split; [right; assumption|assumption].
Qed.

Lemma adjMatrix_fold (n : nat) (edges : list Edge) :
  inRange n edges ->
  forall acc, tableDims n n acc ->
    let res := fold_left
                 (fun adjMatrix e => tset (tset adjMatrix (a e) (b e) true) (b e) (a e) true)
                 edges acc in
    tableDims n n res
    /\ forall s t, tget res s t = true <-> tget acc s t = true \/ adjacent edges s t.
Proof.
  intros Hr. induction edges as [|e edges IH]; intros acc Hd; cbn [fold_left].
  - split; [assumption|]. intros s t. split; [auto|]. intros [H|(e & [] & _)]. assumption.
  - apply Forall_cons in Hr. destruct Hr as [[Ha Hb] Hr].
    assert (Hd1 : tableDims n n (tset acc (a e) (b e) true)) by (apply tset_dims; assumption).
    assert (Hd2 : tableDims n n (tset (tset acc (a e) (b e) true) (b e) (a e) true))
      by (apply tset_dims; assumption).
    destruct (IH Hr _ Hd2) as [Hdims Hget]. split; [assumption|].
    intros s t. rewrite Hget, adjacent_cons.
    rewrite (tget_tset n n) by assumption. rewrite (tget_tset n n) by assumption.
    repeat destruct (decide _); intuition (try congruence; try lia).
Qed.

Lemma fullAdj_fold (n : nat) (edges : list Edge) :
  inRange n edges ->
  forall acc, length acc = n ->
    let res := fold_left
                 (fun fullAdj e =>
                    let fullAdj := <[a e := get [] fullAdj (a e) ++ [b e]]> fullAdj in
                    <[b e := get [] fullAdj (b e) ++ [a e]]> fullAdj)
                 edges acc in
    length res = n
    /\ forall s t, In t (get [] res s) <-> In t (get [] acc s) \/ adjacent edges s t.
Proof.
  intros Hr. induction edges as [|e edges IH]; intros acc Hl; cbn [fold_left].
  - split; [assumption|]. intros s t. split; [auto|]. intros [H|(e & [] & _)]. assumption.
  - apply Forall_cons in Hr. destruct Hr as [[Ha Hb] Hr]. cbv zeta.
    set (acc1 := <[a e := get [] acc (a e) ++ [b e]]> acc).
    set (acc2 := <[b e := get [] acc1 (b e) ++ [a e]]> acc1).
    assert (Hl1 : length acc1 = n) by (unfold acc1; rewrite length_insert; assumption).
    assert (Hl2 : length acc2 = n) by (unfold acc2; rewrite length_insert; assumption).
    destruct (IH Hr acc2 Hl2) as [Hlen Hget]. split; [assumption|].
    intros s t. rewrite Hget, adjacent_cons.
    unfold acc2. rewrite get_insert by lia.
    destruct (decide (b e = s)) as [Hbs|Hbs].
    + rewrite in_app_iff. unfold acc1. rewrite get_insert by lia.
      destruct (decide (a e = b e)) as [Hab|Hab].
      * rewrite in_app_iff. cbn [In]. subst s. rewrite <- Hab.
        intuition (try congruence).
      * cbn [In]. subst s. intuition (try congruence).
    + unfold acc1. rewrite get_insert by lia.
      destruct (decide (a e = s)) as [Has|Has].
      * rewrite in_app_iff. cbn [In]. subst s. intuition (try congruence).
      * intuition (try congruence).
Qed.

(** X13.  Built from edges with both ends below [n], [adjMatrix] is an [n]
    by [n] symmetric table that is true at [(s, t)] exactly when [s] and [t]
    are the two ends of an edge, and [fullAdj[s]] lists exactly those [t]. *)
Theorem adjacency_tables (n : nat) (edges : list Edge) :
  inRange n edges ->
  tableDims n n (adjMatrix n edges)
  /\ (forall s t, tget (adjMatrix n edges) s t = true <-> adjacent edges s t)
  /\ (forall s t, tget (adjMatrix n edges) s t = tget (adjMatrix n edges) t s)
  /\ length (fullAdj n edges) = n
  /\ (forall s t, In t (get [] (fullAdj n edges) s) <-> tget (adjMatrix n edges) s t = true).
Proof.
  intros Hr.
  destruct (adjMatrix_fold n edges Hr (newTable n n) (newTable_dims n n)) as [Hd Hget].
  destruct (fullAdj_fold n edges Hr (replicate n []) (length_replicate _ _)) as [Hl Hin].
  fold (adjMatrix n edges) in Hd, Hget. fold (fullAdj n edges) in Hl, Hin.
  assert (Hadj : forall s t, tget (adjMatrix n edges) s t = true <-> adjacent edges s t).
  { intros s t. rewrite Hget, tget_newTable. intuition discriminate. }
  split; [assumption|]. split; [assumption|]. split; [|split; [assumption|]].
  - intros s t. apply eq_true_iff_eq. rewrite !Hadj.
    split; apply adjacent_sym.
  - intros s t. rewrite Hin, Hadj. split; [|auto]. intros [H|H]; [|assumption].
    exfalso. destruct (decide (s < n)) as [Hs|Hs].
    + rewrite get_replicate in H by assumption. destruct H.
    + rewrite get_ge in H by (rewrite length_replicate; lia). destruct H.
Qed.

Lemma adjacency_tables_witness :
  tableDims 3 3 (adjMatrix 3 [mkEdge 0 1; mkEdge 1 2])
  /\ (forall s t, tget (adjMatrix 3 [mkEdge 0 1; mkEdge 1 2]) s t = true
                  <-> adjacent [mkEdge 0 1; mkEdge 1 2] s t)
  /\ (forall s t, tget (adjMatrix 3 [mkEdge 0 1; mkEdge 1 2]) s t
                  = tget (adjMatrix 3 [mkEdge 0 1; mkEdge 1 2]) t s)
  /\ length (fullAdj 3 [mkEdge 0 1; mkEdge 1 2]) = 3
  /\ (forall s t, In t (get [] (fullAdj 3 [mkEdge 0 1; mkEdge 1 2]) s)
                  <-> tget (adjMatrix 3 [mkEdge 0 1; mkEdge 1 2]) s t = true).
Proof.
  apply (adjacency_tables 3 [mkEdge 0 1; mkEdge 1 2]).
  repeat constructor.
Defined.

(** ** Marking covered pairs *)

Lemma markFold {X : Type} (idx : X -> nat) (L : list X) :
  forall c : list bool,
    let res := fold_left (fun c x => <[idx x := true]> c) L c in
    length res = length c
    /\ forall k, get false res k
                 = get false c k || ((k <? length c) && existsb (fun x => idx x =? k) L).
Proof.
  induction L as [|x L IH]; intros c; cbn [fold_left].
  - split; [reflexivity|]. intros k. cbn [existsb]. rewrite andb_false_r, orb_false_r.
    reflexivity.
  - destruct (IH (<[idx x := true]> c)) as [Hl Hg]. rewrite length_insert in Hl, Hg.
    split; [assumption|]. intros k. rewrite Hg. cbn [existsb].
    destruct (decide (idx x < length c)) as [Hlt|Hge].
    + rewrite get_insert by assumption.
      destruct (decide (idx x = k)) as [<-|Hne].
      * rewrite Nat.eqb_refl. destruct (Nat.ltb_spec (idx x) (length c)); [|lia].
        cbn. rewrite orb_true_r. reflexivity.
      * destruct (Nat.eqb_spec (idx x) k); [contradiction|]. reflexivity.
    + rewrite list_insert_ge by lia.
      destruct (Nat.eqb_spec (idx x) k) as [<-|]; [|reflexivity].
      destruct (Nat.ltb_spec (idx x) (length c)); [lia|]. reflexivity.
Qed.

Definition edgesOK (n : nat) (edges : list Edge) : Prop :=
  Forall (fun e => a e < n /\ b e < n /\ a e <> b e) edges.

Definition slotPairs (edges : list Edge) : list (nat * nat) :=
  map (fun e => (a e, b e)) edges.

Lemma edgesOK_inRange (n : nat) (edges : list Edge) : edgesOK n edges -> inRange n edges.
Proof. apply List.Forall_impl. intros e H. tauto. Qed.

Lemma edgesOK_adjacent (n : nat) (edges : list Edge) (s t : nat) :
  edgesOK n edges -> adjacent edges s t -> s < n /\ t < n /\ s <> t.
Proof.
  intros Hok (e & He & H). unfold edgesOK in Hok. rewrite List.Forall_forall in Hok.
  specialize (Hok e He). destruct H as [[<- <-]|[<- <-]]; intuition.
Qed.

Lemma covers_app (l1 l2 : list (nat * nat)) (x y : nat) :
  covers (l1 ++ l2) x y <-> covers l1 x y \/ covers l2 x y.
Proof. unfold covers. rewrite !in_app_iff. tauto. Qed.

Section Marking.

Variable n : nat.
Variable edges : list Edge.
Hypothesis Hok : edgesOK n edges.

Lemma pairTable_covers (arr : list nat) (x y : nat) :
  isArrangement n arr -> x < y < n ->
  (exists s t, adjacent edges s t
               /\ get2 0 (pairTable n) (get 0 arr s) (get 0 arr t) = get2 0 (pairTable n) x y)
  <-> covers (pairSet (slotPairs edges) arr) x y.
Proof.
  intros Harr Hxy. pose proof Harr as (Hlen & Hnd & Hlt).
  assert (Hget : forall s, s < n -> get 0 arr s < n).
  { intros s Hs. rewrite List.Forall_forall in Hlt. apply Hlt, get_In. lia. }
  assert (Hinj : forall s t, s < n -> t < n -> get 0 arr s = get 0 arr t -> s = t).
  { intros s t Hs Ht. apply (proj1 (List.NoDup_nth arr 0) Hnd); lia. }
  unfold covers, pairSet, slotPairs. rewrite !in_map_iff. split.
  - intros (s & t & Hadj & Hpt).
    destruct (edgesOK_adjacent n edges s t Hok Hadj) as (Hs & Ht & Hne).
    pose proof (Hget s Hs) as Hgs. pose proof (Hget t Ht) as Hgt.
    assert (Hgne : get 0 arr s <> get 0 arr t) by (intros He; apply Hne, Hinj; assumption).
    rewrite !pairTable_get in Hpt by lia.
    destruct (Nat.ltb_spec x y) as [_|]; [|lia].
    assert (Hcases : (get 0 arr s = x /\ get 0 arr t = y)
                     \/ (get 0 arr s = y /\ get 0 arr t = x)).
    { destruct (Nat.ltb_spec (get 0 arr s) (get 0 arr t)) as [Hl|Hl].
      - left. apply (pairId_inj n); [lia|lia|assumption].
      - destruct (Nat.ltb_spec (get 0 arr t) (get 0 arr s)) as [Hl'|Hl']; [|lia].
        right. apply and_comm. apply (pairId_inj n); [lia|lia|assumption]. }
    destruct Hadj as (e & He & [[<- <-]|[<- <-]]).
    + destruct Hcases as [[Hx Hy]|[Hx Hy]].
      * left. exists (a e, b e). cbn [fst snd]. rewrite in_map_iff.
        split; [congruence|]. exists e. auto.
      * right. exists (a e, b e). cbn [fst snd]. rewrite in_map_iff.
        split; [congruence|]. exists e. auto.
    + destruct Hcases as [[Hx Hy]|[Hx Hy]].
      * right. exists (a e, b e). cbn [fst snd]. rewrite in_map_iff.
        split; [congruence|]. exists e. auto.
      * left. exists (a e, b e). cbn [fst snd]. rewrite in_map_iff.
        split; [congruence|]. exists e. auto.
  - intros [([s t] & Heq & Hin)|([s t] & Heq & Hin)];
      cbn [fst snd] in Heq; apply in_map_iff in Hin; destruct Hin as (e & [= <- <-] & He);
      injection Heq as Hs Ht; exists (a e), (b e);
      (split; [exists e; auto|]); rewrite Hs, Ht; [reflexivity|].
    apply pairTable_sym; lia.
Qed.

Lemma adjacency_tables_aux :
  (forall s t, In t (get [] (fullAdj n edges) s) <-> adjacent edges s t)
  /\ length (fullAdj n edges) = n.
Proof.
  destruct (fullAdj_fold n edges (edgesOK_inRange n edges Hok) (replicate n [])
              (length_replicate _ _)) as [Hl Hin].
  fold (fullAdj n edges) in Hl, Hin. split; [|assumption].
  intros s t. rewrite Hin. split; [|auto]. intros [H|H]; [|assumption].
  exfalso. destruct (decide (s < n)) as [Hs|Hs].
  - rewrite get_replicate in H by assumption. destruct H.
  - rewrite get_ge in H by (rewrite length_replicate; lia). destruct H.
Qed.

Lemma markArr_spec (arr : list nat) (covered : list bool) (k : nat) :
  get false (markArr n edges arr covered) k = true
  <-> get false covered k = true
      \/ (k < length covered
          /\ exists s t, adjacent edges s t
               /\ get2 0 (pairTable n) (get 0 arr s) (get 0 arr t) = k).
Proof.
  unfold markArr.
  rewrite (GraphFacts.nested_fold
             (fun (covered : list bool) slot adjSlot =>
                <[get2 0 (pairTable n) (get 0 arr slot) (get 0 arr adjSlot) := true]> covered)
             (fun slot => get [] (fullAdj n edges) slot)).
  destruct (markFold
              (fun p : nat * nat =>
                 get2 0 (pairTable n) (get 0 arr (fst p)) (get 0 arr (snd p)))
              (flat_map (fun slot => map (pair slot) (get [] (fullAdj n edges) slot))
                        (range 0 n))
              covered) as [_ Hg].
  rewrite Hg, orb_true_iff, andb_true_iff, Nat.ltb_lt, existsb_exists.
  destruct (adjacency_tables_aux) as [Hfull Hl].
  split; (intros [H|[Hlt H]]; [left; assumption|right; split; [assumption|]]).
  - destruct H as ([s t] & Hin & He). apply Nat.eqb_eq in He. cbn [fst snd] in He.
    apply in_flat_map in Hin. destruct Hin as (s' & Hs' & Hin).
    apply in_map_iff in Hin. destruct Hin as (t' & [= -> ->] & Hin).
    exists s, t. split; [apply Hfull; assumption|assumption].
  - destruct H as (s & t & Hadj & He). exists (s, t). cbn [fst snd].
    split; [|apply Nat.eqb_eq; assumption].
    destruct (edgesOK_adjacent n edges s t Hok Hadj) as (Hs & _).
    apply in_flat_map. exists s. split; [apply in_range; lia|].
    apply in_map_iff. exists t. split; [reflexivity|apply Hfull; assumption].
Qed.

End Marking.

Lemma identity_isArrangement (n : nat) : isArrangement n (identity n).
Proof.
  unfold identity. split; [apply length_seq|]. split; [apply List.seq_NoDup|].
  apply List.Forall_forall. intros i Hi. apply in_seq in Hi. lia.
Qed.

Lemma markArr_length (n : nat) (edges : list Edge) (arr : list nat) (covered : list bool) :
  length (markArr n edges arr covered) = length covered.
Proof.
  unfold markArr.
  rewrite (GraphFacts.nested_fold
             (fun (covered : list bool) slot adjSlot =>
                <[get2 0 (pairTable n) (get 0 arr slot) (get 0 arr adjSlot) := true]> covered)
             (fun slot => get [] (fullAdj n edges) slot)).
  apply (markFold (fun p : nat * nat =>
                     get2 0 (pairTable n) (get 0 arr (fst p)) (get 0 arr (snd p)))).
Qed.

Lemma in_uncoveredPairs (n : nat) (covered : list bool) (x y : nat) :
  In (x, y) (uncoveredPairs n covered)
  <-> x < y < n /\ get false covered (get2 0 (pairTable n) x y) = false.
Proof.
  unfold uncoveredPairs. rewrite in_flat_map. split.
  - intros (x' & Hx & Hin). apply in_flat_map in Hin. destruct Hin as (y' & Hy & Hin).
    apply in_range in Hx, Hy.
    destruct (get false covered (get2 0 (pairTable n) x' y')) eqn:Hc; cbn [negb] in Hin.
    + destruct Hin.
    + destruct Hin as [[= -> ->]|[]]. split; [lia|assumption].
  - intros [Hxy Hc]. exists x. split; [apply in_range; lia|].
    apply in_flat_map. exists y. split; [apply in_range; lia|].
    rewrite Hc. left. reflexivity.
Qed.

Section Uncovered.

Variable n : nat.
Variable edges : list Edge.
Hypothesis Hok : edgesOK n edges.

Lemma covered0_spec (x y : nat) :
  x < y < n ->
  (get false (covered0 n edges) (get2 0 (pairTable n) x y) = true
   <-> covers (pairSet (slotPairs edges) (identity n)) x y)
  /\ length (covered0 n edges) = n * (n - 1) / 2.
Proof.
  intros Hxy. unfold covered0.
  destruct (markFold (fun e : Edge => get2 0 (pairTable n) (a e) (b e)) edges
              (replicate (n * (n - 1) / 2) false)) as [Hl Hg].
  rewrite length_replicate in Hl, Hg. split; [|assumption].
  rewrite Hg.
  assert (Hlt : get2 0 (pairTable n) x y < n * (n - 1) / 2).
  { rewrite pairTable_get by lia. destruct (Nat.ltb_spec x y); [|lia].
    apply pairId_lt. assumption. }
  rewrite get_replicate by assumption. rewrite orb_false_l.
  destruct (Nat.ltb_spec (get2 0 (pairTable n) x y) (n * (n - 1) / 2)); [|lia].
  rewrite andb_true_l, existsb_exists.
  rewrite <- (pairTable_covers n edges Hok (identity n) x y (identity_isArrangement n) Hxy).
  split.
  - intros (e & He & Heq). apply Nat.eqb_eq in Heq.
    assert (Hadj : adjacent edges (a e) (b e)) by (exists e; auto).
    destruct (edgesOK_adjacent n edges _ _ Hok Hadj) as (Ha & Hb & _).
    exists (a e), (b e). split; [assumption|]. rewrite !get_identity by assumption.
    assumption.
  - intros (s & t & Hadj & Heq).
    destruct (edgesOK_adjacent n edges _ _ Hok Hadj) as (Hs & Ht & _).
    rewrite !get_identity in Heq by assumption.
    destruct Hadj as (e & He & [[<- <-]|[<- <-]]); exists e; (split; [assumption|]);
      apply Nat.eqb_eq; [assumption|].
    rewrite pairTable_sym by assumption. assumption.
Qed.

Lemma covered_after (arr1 arr2 : list nat) (x y : nat) :
  isArrangement n arr1 -> isArrangement n arr2 -> x < y < n ->
  get false (markArr n edges arr2 (markArr n edges arr1 (covered0 n edges)))
      (get2 0 (pairTable n) x y) = true
  <-> covers (pairSet (slotPairs edges) (identity n)
              ++ pairSet (slotPairs edges) arr1
              ++ pairSet (slotPairs edges) arr2) x y.
Proof.
  intros H1 H2 Hxy. destruct (covered0_spec x y Hxy) as [H0 Hl0].
  assert (Hlt : get2 0 (pairTable n) x y < n * (n - 1) / 2).
  { rewrite pairTable_get by lia. destruct (Nat.ltb_spec x y); [|lia].
    apply pairId_lt. assumption. }
  rewrite !covers_app, (markArr_spec n edges Hok), (markArr_spec n edges Hok), H0.
  rewrite markArr_length, Hl0.
  rewrite <- (pairTable_covers n edges Hok arr1 x y H1 Hxy).
  rewrite <- (pairTable_covers n edges Hok arr2 x y H2 Hxy).
  tauto.
Qed.

End Uncovered.

(** X14.  For edges between distinct slots below [n] and arrangements
    [arr1], [arr2], the list handed to the solver holds exactly the pairs
    [x < y < n] that none of identity, [arr1], [arr2] lays on an edge. *)
Theorem uncoveredPairs_spec (n : nat) (edges : list Edge) (arr1 arr2 : list nat) :
  edgesOK n edges -> isArrangement n arr1 -> isArrangement n arr2 ->
  forall x y,
    In (x, y) (uncoveredPairs n (markArr n edges arr2 (markArr n edges arr1 (covered0 n edges))))
    <-> x < y < n
        /\ ~ covers (pairSet (slotPairs edges) (identity n)
                     ++ pairSet (slotPairs edges) arr1
                     ++ pairSet (slotPairs edges) arr2) x y.
Proof.
  intros Hok H1 H2 x y. rewrite in_uncoveredPairs. split.
  - intros [Hxy Hc]. split; [assumption|].
    rewrite <- (covered_after n edges Hok arr1 arr2 x y H1 H2 Hxy). rewrite Hc. discriminate.
  - intros [Hxy Hc]. split; [assumption|].
    rewrite <- (covered_after n edges Hok arr1 arr2 x y H1 H2 Hxy) in Hc.
    destruct (get false _ _); [exfalso; apply Hc; reflexivity|reflexivity].
Qed.

Lemma uncoveredPairs_spec_witness :
  In (0, 2) (uncoveredPairs 3 (markArr 3 [mkEdge 0 1; mkEdge 1 2] [0; 1; 2]
                                 (markArr 3 [mkEdge 0 1; mkEdge 1 2] [0; 1; 2]
                                    (covered0 3 [mkEdge 0 1; mkEdge 1 2]))))
  <-> 0 < 2 < 3
      /\ ~ covers (pairSet (slotPairs [mkEdge 0 1; mkEdge 1 2]) (identity 3)
                   ++ pairSet (slotPairs [mkEdge 0 1; mkEdge 1 2]) [0; 1; 2]
                   ++ pairSet (slotPairs [mkEdge 0 1; mkEdge 1 2]) [0; 1; 2]) 0 2.
Proof.
  apply (uncoveredPairs_spec 3 [mkEdge 0 1; mkEdge 1 2] [0; 1; 2] [0; 1; 2]).
  - repeat constructor; simpl; lia.
  - apply isArrangementb_sound. vm_compute. reflexivity.
  - apply isArrangementb_sound. vm_compute. reflexivity.
Defined.

(** ** The worker's answer *)

(** What a worker of [main] computes for one candidate [(arr1, arr2)]: the
    uncovered pairs, and the solver's verdict on them. *)
Definition uncoveredFor (n : nat) (edges : list Edge) (arr1 arr2 : list nat)
    : list (nat * nat) :=
  uncoveredPairs n (markArr n edges arr2 (markArr n edges arr1 (covered0 n edges))).

Definition checkCandidate (solve : list (list Z) -> option (list bool)) (n : nat)
    (edges : list Edge) (arr1 arr2 : list nat) : bool * list nat :=
  solveSAT solve n (uncoveredFor n edges arr1 arr2) (adjMatrix n edges).

Lemma encoding_sound (n : nat) (pairs : list (nat * nat)) (adjMatrix : Table)
    (model : list bool) :
  Forall (fun p => fst p < n /\ snd p < n) pairs ->
  satisfies model (buildClauses n pairs adjMatrix) = true ->
  isArrangement n (extract n model) /\ coversPairs n adjMatrix (extract n model) pairs.
Proof.
  intros Hrange Hsat.
  rewrite buildClauses_eq, satisfies_app, andb_true_iff in Hsat.
  destruct Hsat as [Hbase Hpairs]. apply base_spec in Hbase.
  destruct (extract_spec n model Hbase) as [Hlen Hget].
  split; [apply extract_arrangement; assumption|].
  intros x y Hin.
  assert (Hnv : (0 < Z.of_nat (n * n + 1))%Z) by lia.
  destruct (pairs_sound n model _ _ _ Hnv Hpairs x y Hin) as (s & t & Hst & Pa & Pb).
  apply in_adjSlots in Hst. destruct Hst as (Hs & Ht & Hadj).
  rewrite List.Forall_forall in Hrange. destruct (Hrange _ Hin) as [Hx Hy].
  cbn [fst snd] in Hx, Hy.
  exists s, t. repeat split; [assumption..| | |assumption]; apply Hget; assumption.
Qed.

Lemma encoding_complete (n : nat) (pairs : list (nat * nat)) (adjMatrix : Table)
    (arr3 : list nat) :
  Forall (fun p => fst p < n /\ snd p < n) pairs ->
  isArrangement n arr3 -> coversPairs n adjMatrix arr3 pairs ->
  satisfies (modelOf n arr3 (adjSlots n adjMatrix) pairs) (buildClauses n pairs adjMatrix)
  = true.
Proof.
  intros Hrange Harr Hcov.
  rewrite buildClauses_eq, satisfies_app. apply andb_true_iff. split.
  - apply base_spec. apply modelOf_bijective. assumption.
  - apply (pairs_complete n arr3 _ (adjSlots n adjMatrix) pairs) with
      (pre := placement n arr3) (post := []).
    + intros item slot Hi Hs. apply placed_modelOf; assumption.
    + intros s t Hst. apply in_adjSlots in Hst. tauto.
    + assumption.
    + intros x y Hin. destruct (Hcov x y Hin) as (s & t & Hs & Ht & Hx & Hy & Hadj).
      exists s, t. split; [apply in_adjSlots; auto|auto].
    + unfold modelOf. rewrite app_nil_r. reflexivity.
    + rewrite placement_length. lia.
Qed.

Section Answer.

Variable n : nat.
Variable edges : list Edge.
Hypothesis Hok : edgesOK n edges.

Lemma adjMatrix_adjacent (s t : nat) :
  tget (adjMatrix n edges) s t = true <-> adjacent edges s t.
Proof.
  destruct (adjMatrix_fold n edges (edgesOK_inRange n edges Hok) (newTable n n)
              (newTable_dims n n)) as [_ Hget].
  fold (adjMatrix n edges) in Hget. rewrite Hget, tget_newTable. intuition discriminate.
Qed.

Lemma coversPairs_covers (arr3 : list nat) (x y : nat) :
  (exists s t, s < n /\ t < n /\ get 0 arr3 s = x /\ get 0 arr3 t = y
               /\ tget (adjMatrix n edges) s t = true)
  <-> covers (pairSet (slotPairs edges) arr3) x y.
Proof.
  unfold covers, pairSet, slotPairs. rewrite !in_map_iff. split.
  - intros (s & t & _ & _ & Hx & Hy & Hadj). apply adjMatrix_adjacent in Hadj.
    destruct Hadj as (e & He & [[<- <-]|[<- <-]]).
    + left. exists (a e, b e). cbn [fst snd]. split; [congruence|].
      apply in_map_iff. exists e. auto.
    + right. exists (a e, b e). cbn [fst snd]. split; [congruence|].
      apply in_map_iff. exists e. auto.
  - intros [([s t] & Heq & Hin)|([s t] & Heq & Hin)];
      cbn [fst snd] in Heq; apply in_map_iff in Hin; destruct Hin as (e & [= <- <-] & He);
      injection Heq as Hs Ht;
      assert (Hadj : adjacent edges (a e) (b e)) by (exists e; auto);
      destruct (edgesOK_adjacent n edges _ _ Hok Hadj) as (Ha & Hb & _).
    + exists (a e), (b e). repeat split; try assumption. apply adjMatrix_adjacent. assumption.
    + exists (b e), (a e). repeat split; try assumption.
      apply adjMatrix_adjacent, adjacent_sym. assumption.
Qed.

Lemma fourth_covers (arr1 arr2 arr3 : list nat) :
  isArrangement n arr1 -> isArrangement n arr2 ->
  coversPairs n (adjMatrix n edges) arr3 (uncoveredFor n edges arr1 arr2)
  <-> coversAll n (pairSet (slotPairs edges) (identity n)
                   ++ pairSet (slotPairs edges) arr1
                   ++ pairSet (slotPairs edges) arr2
                   ++ pairSet (slotPairs edges) arr3).
Proof.
  intros H1 H2. unfold coversPairs, coversAll, uncoveredFor. split.
  - intros Hcov x y Hxy.
    destruct (get false (markArr n edges arr2 (markArr n edges arr1 (covered0 n edges)))
                  (get2 0 (pairTable n) x y)) eqn:Hc.
    + apply (covered_after n edges Hok arr1 arr2 x y H1 H2 Hxy) in Hc.
      rewrite !covers_app in Hc. rewrite !covers_app. tauto.
    + rewrite !covers_app. right. right. right. apply coversPairs_covers.
      apply Hcov. apply in_uncoveredPairs. auto.
  - intros Hall x y Hin. apply in_uncoveredPairs in Hin. destruct Hin as [Hxy Hc].
    apply coversPairs_covers. specialize (Hall x y Hxy).
    rewrite !covers_app in Hall.
    destruct Hall as [H|[H|[H|H]]]; [| | |assumption]; exfalso;
      assert (Hcv : get false (markArr n edges arr2 (markArr n edges arr1 (covered0 n edges)))
                        (get2 0 (pairTable n) x y) = true)
        by (apply (covered_after n edges Hok arr1 arr2 x y H1 H2 Hxy);
            rewrite !covers_app; tauto);
      congruence.
Qed.

Lemma uncoveredFor_range (arr1 arr2 : list nat) :
  Forall (fun p => fst p < n /\ snd p < n) (uncoveredFor n edges arr1 arr2).
Proof.
  apply List.Forall_forall. intros [x y] Hin. apply in_uncoveredPairs in Hin.
  cbn [fst snd]. lia.
Qed.

End Answer.

(** X15.  What a worker of find_fourth reports for a candidate
    [(arr1, arr2)], given a solver that is right on the clauses it is
    handed: if it reports [found] with [arr3], then [arr3] is an arrangement
    and identity, [arr1], [arr2], [arr3] together lay every pair of items on
    an edge; if it reports not found, no fourth arrangement does. *)
Theorem checkCandidate_correct (solve : list (list Z) -> option (list bool)) (n : nat)
    (edges : list Edge) (arr1 arr2 : list nat) :
  edgesOK n edges -> isArrangement n arr1 -> isArrangement n arr2 ->
  (forall model,
     solve (buildClauses n (uncoveredFor n edges arr1 arr2) (adjMatrix n edges)) = Some model ->
     satisfies model (buildClauses n (uncoveredFor n edges arr1 arr2) (adjMatrix n edges))
     = true) ->
  (solve (buildClauses n (uncoveredFor n edges arr1 arr2) (adjMatrix n edges)) = None ->
   forall model,
     satisfies model (buildClauses n (uncoveredFor n edges arr1 arr2) (adjMatrix n edges))
     = false) ->
  let covered3 := pairSet (slotPairs edges) (identity n)
                  ++ pairSet (slotPairs edges) arr1
                  ++ pairSet (slotPairs edges) arr2 in
  match checkCandidate solve n edges arr1 arr2 with
  | (true, arr3) =>
      isArrangement n arr3 /\ coversAll n (covered3 ++ pairSet (slotPairs edges) arr3)
  | (false, _) =>
      forall arr3, isArrangement n arr3 ->
        ~ coversAll n (covered3 ++ pairSet (slotPairs edges) arr3)
  end.
Proof.
  intros Hok H1 H2 Hsound Hcomplete covered3. unfold checkCandidate, solveSAT.
  pose proof (uncoveredFor_range n edges arr1 arr2) as Hrange.
  destruct (solve _) as [model|] eqn:Hsolve.
  - destruct (encoding_sound n _ _ model Hrange (Hsound model eq_refl)) as [Harr Hcov].
    split; [assumption|]. unfold covered3. rewrite <- !app_assoc.
    apply (fourth_covers n edges Hok arr1 arr2 _ H1 H2). assumption.
  - intros arr3 Harr Hall. unfold covered3 in Hall. rewrite <- !app_assoc in Hall.
    apply (fourth_covers n edges Hok arr1 arr2 _ H1 H2) in Hall.
    pose proof (encoding_complete n _ _ arr3 Hrange Harr Hall) as Hsat.
    rewrite (Hcomplete eq_refl) in Hsat. discriminate.
Qed.

(** Three slots in a row: identity twice leaves the pair of the two ends,
    which the placement [1; 0; 2] covers. *)
Definition rowEdges : list Edge := [mkEdge 0 1; mkEdge 1 2].

Definition rowSolve (clauses : list (list Z)) : option (list bool) :=
  let model := modelOf 3 [1; 0; 2] (adjSlots 3 (adjMatrix 3 rowEdges)) [(0, 2)] in
  if satisfies model clauses then Some model else None.

Lemma checkCandidate_correct_witness :
  let covered3 := pairSet (slotPairs rowEdges) (identity 3)
                  ++ pairSet (slotPairs rowEdges) [0; 1; 2]
                  ++ pairSet (slotPairs rowEdges) [0; 1; 2] in
  match checkCandidate rowSolve 3 rowEdges [0; 1; 2] [0; 1; 2] with
  | (true, arr3) =>
      isArrangement 3 arr3 /\ coversAll 3 (covered3 ++ pairSet (slotPairs rowEdges) arr3)
  | (false, _) =>
      forall arr3, isArrangement 3 arr3 ->
        ~ coversAll 3 (covered3 ++ pairSet (slotPairs rowEdges) arr3)
  end.
Proof.
  apply (checkCandidate_correct rowSolve 3 rowEdges [0; 1; 2] [0; 1; 2]).
  - repeat constructor; simpl; lia.
  - apply isArrangementb_sound. vm_compute. reflexivity.
  - apply isArrangementb_sound. vm_compute. reflexivity.
  - intros model H. vm_compute in H. injection H as <-. vm_compute. reflexivity.
  - intros H. vm_compute in H. discriminate H.
Defined.

Example checkCandidate_row :
  checkCandidate rowSolve 3 rowEdges [0; 1; 2] [0; 1; 2] = (true, [1; 0; 2])
  /\ uncoveredFor 3 rowEdges [0; 1; 2] [0; 1; 2] = [(0, 2)].
Proof. vm_compute. auto. Qed.

End FourthProps.

(** * Properties of the n = 13 search *)

Module Solver13Props.

Import Solver13.

(** ** The four graphs and their neighbour lists *)

Definition shapeEdges (shape : nat) : list (nat * nat) := get [] allGraphs shape.

(** The neighbours of [pos] in earlier positions, as [search] scans them. *)
Definition backNbrs (nbrs : list (list nat)) (pos : nat) : list nat :=
  List.filter (fun q => q <? pos) (get [] nbrs pos).

Fixpoint backCount (nbrs : list (list nat)) (pos : nat) : nat :=
  match pos with
  | 0 => 0
  | S p => backCount nbrs p + length (backNbrs nbrs p)
  end.

Fixpoint nodupb (l : list (nat * nat)) : bool :=
  match l with
  | [] => true
  | p :: l' => negb (existsb (pairEqb p) l') && nodupb l'
  end.

Lemma nodupb_sound (l : list (nat * nat)) : nodupb l = true -> List.NoDup l.
Proof.
  induction l as [|p l IH]; intros H; [constructor|].
  cbn [nodupb] in H. apply andb_true_iff in H. destruct H as [Hp Hl].
  constructor; [|apply IH; assumption].
  intros Hin. apply existsb_pairEqb in Hin. rewrite Hin in Hp. discriminate.
Qed.

Definition shapeOKb (shape : nat) : bool :=
  (length (shapeEdges shape) =? numEdges)
  && forallb (fun e => (fst e <? snd e) && (snd e <? numItems)
                       && existsb (Nat.eqb (fst e))
                                  (backNbrs (get [] allNeighbors shape) (snd e)))
             (shapeEdges shape)
  && nodupb (shapeEdges shape)
  && (backCount (get [] allNeighbors shape) numItems =? numEdges).

Lemma shapes_OK (shape : nat) : shape < 4 -> shapeOKb shape = true.
Proof.
  intros H. destruct shape as [|[|[|[|shape]]]]; [vm_compute; reflexivity..|lia].
Qed.

Lemma shape_edges (shape u v : nat) :
  shape < 4 -> In (u, v) (shapeEdges shape) ->
  u < v < numItems /\ In u (backNbrs (get [] allNeighbors shape) v).
Proof.
  intros Hs Hin. pose proof (shapes_OK shape Hs) as H. unfold shapeOKb in H.
  rewrite !andb_true_iff in H. destruct H as [[[_ H] _] _].
  rewrite forallb_forall in H. specialize (H _ Hin). cbn [fst snd] in H.
  rewrite !andb_true_iff, !Nat.ltb_lt, existsb_exists in H.
  destruct H as [[Huv Hv] (x & Hx & He)]. apply Nat.eqb_eq in He. subst x. auto.
Qed.

Lemma shape_backCount (shape : nat) :
  shape < 4 -> backCount (get [] allNeighbors shape) numItems = numEdges.
Proof.
  intros Hs. pose proof (shapes_OK shape Hs) as H. unfold shapeOKb in H.
  rewrite !andb_true_iff in H. destruct H as [_ H]. apply Nat.eqb_eq in H. exact H.
Qed.

Lemma shape_NoDup (shape : nat) : shape < 4 -> List.NoDup (shapeEdges shape).
Proof.
  intros Hs. pose proof (shapes_OK shape Hs) as H. unfold shapeOKb in H.
  rewrite !andb_true_iff in H. destruct H as [[_ H] _]. apply nodupb_sound. exact H.
Qed.

Lemma shape_length (shape : nat) : shape < 4 -> length (shapeEdges shape) = numEdges.
Proof.
  intros Hs. pose proof (shapes_OK shape Hs) as H. unfold shapeOKb in H.
  rewrite !andb_true_iff in H. destruct H as [[[H _] _] _]. apply Nat.eqb_eq in H. exact H.
Qed.

(** ** [searchArr2] *)

Lemma scanWaste_spec (neededTable : Table) (arr2 : list nat) (pos item : nat)
    (nbrs : list nat) :
  forall newPairs newPairs',
    scanWaste neededTable arr2 pos item nbrs newPairs = (false, newPairs') ->
    newPairs' = newPairs + length (List.filter (fun q => q <? pos) nbrs)
    /\ forall q, In q (List.filter (fun q => q <? pos) nbrs) ->
                 tget neededTable item (get 0 arr2 q) = true.
Proof.
  induction nbrs as [|nPos nbrs IH]; intros np np' H; cbn [scanWaste] in H.
  - injection H as <-. simpl. split; [lia|]. intros q [].
  - cbn [List.filter]. destruct (nPos <? pos) eqn:Hlt.
    + destruct (tget neededTable item (get 0 arr2 nPos)) eqn:Hn; [|discriminate].
      destruct (IH _ _ H) as [-> Hall]. cbn [length]. split; [lia|].
      intros q [<-|Hq]; [assumption|apply Hall; assumption].
    + apply IH. assumption.
Qed.

(** One round of the [for item] loop of [search], for the position [pos]. *)
Definition tryItem2 (fuel' : nat) (neighbors2 : list (list nat)) (neededTable : Table)
    (neededCount pos : nat) (st : Frame2) (item : nat) : Frame2 :=
  if get false (f2_used2 st) item then st
  else
    let arr2 := <[pos := item]> (f2_arr2 st) in
    let used2 := <[item := true]> (f2_used2 st) in
    let '(isWaste, newPairs) :=
      scanWaste neededTable arr2 pos item (get [] neighbors2 pos) 0 in
    let st := mkFrame2 arr2 used2 (f2_pairsCovered st)
                       (f2_result st) (f2_success st) (f2_found st) in
    let st :=
      if negb isWaste then
        let st := mkFrame2 (f2_arr2 st) (f2_used2 st)
                           (f2_pairsCovered st + newPairs)
                           (f2_result st) (f2_success st) (f2_found st) in
        let st := search2 fuel' neighbors2 neededTable neededCount (pos + 1) st in
        mkFrame2 (f2_arr2 st) (f2_used2 st)
                 (f2_pairsCovered st - newPairs)
                 (f2_result st) (f2_success st) (f2_found st)
      else st in
    mkFrame2 (<[pos := 0]> (f2_arr2 st)) (<[item := false]> (f2_used2 st))
             (f2_pairsCovered st) (f2_result st) (f2_success st) (f2_found st).

Lemma search2_eq (fuel : nat) (neighbors2 : list (list nat)) (neededTable : Table)
    (neededCount pos : nat) (st : Frame2) :
  search2 fuel neighbors2 neededTable neededCount pos st =
  if f2_success st then st
  else
    let '(isFound, fl) := Load (f2_found st) in
    let st := mkFrame2 (f2_arr2 st) (f2_used2 st) (f2_pairsCovered st)
                       (f2_result st) (f2_success st) fl in
    if isFound then st
    else if pos =? numItems then
      if f2_pairsCovered st =? neededCount
      then mkFrame2 (f2_arr2 st) (f2_used2 st) (f2_pairsCovered st)
                    (f2_arr2 st) true (f2_found st)
      else st
    else
      match fuel with
      | 0 => st
      | S fuel' =>
        fold_left (tryItem2 fuel' neighbors2 neededTable neededCount pos)
                  (range 0 numItems) st
      end.
Proof. destruct fuel; reflexivity. Qed.

Lemma insert_restore (l : list bool) (i : nat) (v : bool) :
  i < length l -> get false l i = false -> <[i := false]> (<[i := v]> l) = l.
Proof.
  intros Hi Hg. rewrite list_insert_insert_eq. apply list_insert_id.
  rewrite <- Hg. unfold get.
  destruct (nth_lookup_or_length l i false) as [Hs|Hl]; [assumption|lia].
Qed.

Lemma fold_left_inv {A B : Type} (J : A -> Prop) (f : A -> B -> A) (l : list B) :
  (forall a b, In b l -> J a -> J (f a b)) -> forall a, J a -> J (fold_left f l a).
Proof.
  induction l as [|b l IH]; intros Hf a0 Ha; [assumption|].
  cbn [fold_left]. apply IH.
  - intros a1 b1 Hb. apply Hf. right. assumption.
  - apply Hf; [left; reflexivity|assumption].
Qed.

Lemma backNbrs_lt (nbrs : list (list nat)) (p q : nat) : In q (backNbrs nbrs p) -> q < p.
Proof. unfold backNbrs. rewrite filter_In, Nat.ltb_lt. tauto. Qed.

Section Search2.

Variable neighbors2 : list (list nat).
Variable neededTable : Table.
Variable neededCount : nat.

(** The first [pos] positions of [arr] hold distinct items, and [used] marks
    exactly those. *)
Definition partialArr (pos : nat) (arr : list nat) (used : list bool) : Prop :=
  length arr = numItems /\ length used = numItems
  /\ (forall i, i < pos -> get 0 arr i < numItems)
  /\ (forall i j, i < pos -> j < pos -> get 0 arr i = get 0 arr j -> i = j)
  /\ (forall item, item < numItems ->
        (get false used item = true <-> exists i, i < pos /\ get 0 arr i = item)).

(** Every edge among the first [pos] positions lands on a needed pair. *)
Definition allNeeded (pos : nat) (arr : list nat) : Prop :=
  forall p q, p < pos -> In q (backNbrs neighbors2 p) ->
    tget neededTable (get 0 arr p) (get 0 arr q) = true.

Definition inv2 (pos : nat) (st : Frame2) : Prop :=
  partialArr pos (f2_arr2 st) (f2_used2 st)
  /\ allNeeded pos (f2_arr2 st)
  /\ f2_pairsCovered st = backCount neighbors2 pos.

(** What [searchArr2] promises of a result. *)
Definition good2 (res : list nat) : Prop :=
  isArrangement numItems res
  /\ allNeeded numItems res
  /\ backCount neighbors2 numItems = neededCount.

Definition ok2 (st : Frame2) : Prop := f2_success st = true -> good2 (f2_result st).

Definition frame2 (pos : nat) (st st' : Frame2) : Prop :=
  ok2 st'
  /\ f2_used2 st' = f2_used2 st
  /\ f2_pairsCovered st' = f2_pairsCovered st
  /\ length (f2_arr2 st') = numItems
  /\ forall i, i < pos -> get 0 (f2_arr2 st') i = get 0 (f2_arr2 st) i.

Lemma partialArr_full (arr : list nat) (used : list bool) :
  partialArr numItems arr used -> isArrangement numItems arr.
Proof.
  intros (Hl & _ & Hlt & Hinj & _). split; [assumption|]. split.
  - apply (List.NoDup_nth arr 0). intros i j Hi Hj He. rewrite Hl in Hi, Hj.
    apply Hinj; assumption.
  - apply List.Forall_forall. intros x Hx. destruct (In_get 0 arr x Hx) as [i [Hi <-]].
    apply Hlt. lia.
Qed.

Lemma partialArr_extend (pos : nat) (arr : list nat) (used : list bool) (item : nat) :
  partialArr pos arr used -> pos < numItems -> item < numItems ->
  get false used item = false ->
  partialArr (S pos) (<[pos := item]> arr) (<[item := true]> used).
Proof.
  intros (Hl & Hu & Hlt & Hinj & Hused) Hpos Hitem Hfree.
  assert (Hnew : forall i, i < pos -> get 0 arr i <> item).
  { intros i Hi He. assert (Ht : get false used item = true).
    { apply Hused; [assumption|]. exists i. auto. }
    congruence. }
  split; [rewrite length_insert; assumption|].
  split; [rewrite length_insert; assumption|].
  split; [|split].
  - intros i Hi. rewrite get_insert by lia.
    destruct (decide (pos = i)); [assumption|apply Hlt; lia].
  - intros i j Hi Hj. rewrite !get_insert by lia.
    destruct (decide (pos = i)) as [<-|Hni], (decide (pos = j)) as [<-|Hnj]; intros He.
    + reflexivity.
    + exfalso. apply (Hnew j); [lia|auto].
    + exfalso. apply (Hnew i); [lia|auto].
    + apply Hinj; [lia..|assumption].
  - intros it Hit. rewrite get_insert by lia.
    destruct (decide (item = it)) as [<-|Hne].
    + split; [|reflexivity]. intros _. exists pos. split; [lia|].
      apply get_insert_eq. lia.
    + rewrite (Hused it Hit). split.
      * intros (i & Hi & He). exists i. split; [lia|].
        rewrite get_insert_ne by lia. assumption.
      * intros (i & Hi & He). rewrite get_insert in He by lia.
        destruct (decide (pos = i)); [contradiction|]. exists i. split; [lia|assumption].
Qed.

Lemma partialArr_frame (pos : nat) (arr arr' : list nat) (used : list bool) :
  partialArr pos arr used -> length arr' = numItems ->
  (forall i, i < pos -> get 0 arr' i = get 0 arr i) ->
  partialArr pos arr' used.
Proof.
  intros (Hl & Hu & Hlt & Hinj & Hused) Hl' Hsame.
  split; [assumption|]. split; [assumption|]. split; [|split].
  - intros i Hi. rewrite Hsame by assumption. apply Hlt. assumption.
  - intros i j Hi Hj. rewrite !Hsame by assumption. apply Hinj; assumption.
  - intros it Hit. rewrite (Hused it Hit).
    split; intros (i & Hi & He); exists i; (split; [assumption|]);
      [rewrite Hsame by assumption|rewrite <- Hsame by assumption]; assumption.
Qed.

Lemma allNeeded_frame (pos : nat) (arr arr' : list nat) :
  allNeeded pos arr -> (forall i, i < pos -> get 0 arr' i = get 0 arr i) ->
  allNeeded pos arr'.
Proof.
  intros Hall Hsame p q Hp Hq. pose proof (backNbrs_lt _ _ _ Hq) as Hlt.
  rewrite !Hsame by lia. apply Hall; assumption.
Qed.

Lemma allNeeded_extend (pos : nat) (arr : list nat) (item : nat) :
  allNeeded pos arr -> pos < length arr ->
  (forall q, In q (backNbrs neighbors2 pos) ->
     tget neededTable item (get 0 (<[pos := item]> arr) q) = true) ->
  allNeeded (S pos) (<[pos := item]> arr).
Proof.
  intros Hall Hlen Hnew p q Hp Hq. pose proof (backNbrs_lt _ _ _ Hq) as Hlt.
  destruct (decide (p = pos)) as [->|Hne].
  - rewrite get_insert_eq by assumption. apply Hnew. assumption.
  - rewrite !get_insert_ne by lia. apply Hall; [lia|assumption].
Qed.

Lemma tryItem2_spec (fuel' pos : nat) (st0 : Frame2) :
  (forall pos st, pos <= numItems -> inv2 pos st -> ok2 st ->
     frame2 pos st (search2 fuel' neighbors2 neededTable neededCount pos st)) ->
  pos < numItems -> inv2 pos st0 ->
  forall st item, In item (range 0 numItems) ->
    frame2 pos st0 st ->
    frame2 pos st0 (tryItem2 fuel' neighbors2 neededTable neededCount pos st item).
Proof.
  intros IH Hpos (Hpart & Hneed & Hpc) st item Hitem (Hok & Hused & Hcov & Hlen & Hsame).
  apply in_range in Hitem. unfold tryItem2.
  destruct (get false (f2_used2 st) item) eqn:Hfree.
  { unfold frame2. auto 10. }
  destruct (scanWaste neededTable (<[pos := item]> (f2_arr2 st)) pos item
                      (get [] neighbors2 pos) 0) as [isWaste newPairs] eqn:Hscan.
  pose proof Hpart as (Hl0 & Hu0 & _).
  assert (Hpart' : partialArr pos (f2_arr2 st) (f2_used2 st)).
  { rewrite Hused. apply (partialArr_frame pos (f2_arr2 st0)); assumption. }
  destruct isWaste; cbn [negb f2_arr2 f2_used2 f2_pairsCovered f2_result f2_success f2_found].
  - unfold frame2. cbn [f2_arr2 f2_used2 f2_pairsCovered].
    split; [exact Hok|]. split; [|split; [assumption|split]].
    + rewrite insert_restore by (assumption || (rewrite Hused; lia)). assumption.
    + rewrite !length_insert. assumption.
    + intros i Hi. rewrite !get_insert_ne by lia. apply Hsame. assumption.
  - destruct (scanWaste_spec _ _ _ _ _ _ _ Hscan) as [Hnp Hall]. cbn [Nat.add] in Hnp.
    fold (backNbrs neighbors2 pos) in Hnp, Hall.
    set (stb := mkFrame2 (<[pos := item]> (f2_arr2 st)) (<[item := true]> (f2_used2 st))
                         (f2_pairsCovered st + newPairs) (f2_result st) (f2_success st)
                         (f2_found st)).
    assert (Hinvb : inv2 (pos + 1) stb).
    { replace (pos + 1) with (S pos) by lia. split; [|split]; cbn [stb f2_arr2 f2_used2
                                                                 f2_pairsCovered].
      - apply partialArr_extend; [assumption|assumption|lia|assumption].
      - apply allNeeded_extend; [|lia|assumption].
        apply (allNeeded_frame pos (f2_arr2 st0)); assumption.
      - cbn [backCount]. rewrite Hcov, Hpc, Hnp. reflexivity. }
    destruct (IH (pos + 1) stb ltac:(lia) Hinvb Hok) as (Hok' & Hused' & Hcov' & Hlen' & Hsame').
    cbn [stb f2_arr2 f2_used2 f2_pairsCovered] in Hused', Hcov', Hsame'.
    unfold frame2. cbn [f2_arr2 f2_used2 f2_pairsCovered].
    split; [exact Hok'|]. split; [|split; [|split]].
    + rewrite Hused'. rewrite insert_restore by (assumption || (rewrite Hused; lia)).
      assumption.
    + rewrite Hcov'. lia.
    + rewrite length_insert. assumption.
    + intros i Hi. rewrite get_insert_ne by lia. rewrite Hsame' by lia.
      rewrite get_insert_ne by lia. apply Hsame. assumption.
Qed.

Lemma frame2_refl (pos : nat) (st : Frame2) :
  ok2 st -> length (f2_arr2 st) = numItems -> frame2 pos st st.
Proof. intros Hok Hl. unfold frame2. auto 10. Qed.

Lemma frame2_flag (pos : nat) (arr : list nat) (used : list bool) (pc : nat)
    (res : list nat) (fl fl' : Flag) :
  length arr = numItems ->
  frame2 pos (mkFrame2 arr used pc res false fl) (mkFrame2 arr used pc res false fl').
Proof.
  intros Hl. unfold frame2, ok2.
  cbn [f2_arr2 f2_used2 f2_pairsCovered f2_result f2_success f2_found].
  split; [discriminate|auto 10].
Qed.

Lemma search2_spec (fuel : nat) :
  forall pos st, pos <= numItems -> inv2 pos st -> ok2 st ->
    frame2 pos st (search2 fuel neighbors2 neededTable neededCount pos st).
Proof.
  induction fuel as [|fuel' IH]; intros pos st Hpos Hinv Hok; rewrite search2_eq;
    pose proof Hinv as ((Hl & Hu & Hrest) & Hneed & Hpc);
    destruct st as [arr used pc res succ fl];
    cbn [f2_arr2 f2_used2 f2_pairsCovered f2_result f2_success f2_found] in *.
  all: destruct succ; [apply frame2_refl; assumption|].
  all: destruct (Load fl) as [isFound fl'].
  all: destruct isFound; [apply frame2_flag; assumption|].
  all: destruct (Nat.eqb_spec pos numItems) as [->|Hne].
  1, 3: (destruct (Nat.eqb_spec pc neededCount) as [->|Hc];
        [|apply frame2_flag; assumption];
        unfold frame2, ok2;
        cbn [f2_arr2 f2_used2 f2_pairsCovered f2_result f2_success f2_found];
        split; [|auto 10];
        intros _; split;
        [apply (partialArr_full arr used); unfold partialArr; auto 10
        |split; [assumption|symmetry; assumption]]).
  - apply frame2_flag. assumption.
  - assert (Hinv' : inv2 pos (mkFrame2 arr used pc res false fl')).
    { unfold inv2, partialArr.
      cbn [f2_arr2 f2_used2 f2_pairsCovered f2_result f2_success f2_found]. auto 10. }
    assert (Hok0 : ok2 (mkFrame2 arr used pc res false fl')) by (intros H; discriminate H).
    assert (Hlt : pos < numItems) by lia.
    pose proof (fold_left_inv
                  (frame2 pos (mkFrame2 arr used pc res false fl'))
                  (tryItem2 fuel' neighbors2 neededTable neededCount pos)
                  (range 0 numItems)
                  (tryItem2_spec fuel' pos _ IH Hlt Hinv')
                  _ (frame2_refl pos _ Hok0 Hl)) as (H1 & H2 & H3 & H4 & H5).
    exact (conj H1 (conj H2 (conj H3 (conj H4 H5)))).
Qed.

End Search2.

Lemma searchArr2_good (shape2 : nat) (neededTable : Table) (neededCount : nat)
    (found : Flag) (result : list nat) (fl : Flag) :
  searchArr2 shape2 neededTable neededCount found = (true, result, fl) ->
  good2 (get [] allNeighbors shape2) neededTable neededCount result.
Proof.
  unfold searchArr2. intros H.
  set (st0 := mkFrame2 (replicate numItems 0) (replicate numItems false) 0
                       (replicate numItems 0) false found) in H.
  assert (Hinv : inv2 (get [] allNeighbors shape2) neededTable 0 st0).
  { split; [|split].
    - split; [apply length_replicate|]. split; [apply length_replicate|].
      split; [intros; lia|]. split; [intros; lia|].
      intros item Hitem. unfold st0. cbn [f2_used2]. rewrite get_replicate by assumption.
      split; [discriminate|]. intros (i & Hi & _). lia.
    - intros p q Hp. lia.
    - reflexivity. }
  assert (Hok : ok2 (get [] allNeighbors shape2) neededTable neededCount st0)
    by (intros Hs; discriminate Hs).
  pose proof (search2_spec (get [] allNeighbors shape2) neededTable neededCount numItems
                0 st0 (Nat.le_0_l _) Hinv Hok) as Hsp.
  set (st' := search2 numItems (get [] allNeighbors shape2) neededTable neededCount 0 st0)
    in *.
  clearbody st'. destruct Hsp as (Hok' & _).
  injection H as Hs Hr _. rewrite <- Hr. apply Hok'. assumption.
Qed.

(** X16.  When [searchArr2] reports success, the array it returns is an
    arrangement of the 13 items, every edge of the shape lands under it on a
    pair marked in [neededTable], and [neededCount] is the number of edges of
    the shape, 26. *)
Theorem searchArr2_sound (shape2 : nat) (neededTable : Table) (neededCount : nat)
    (found : Flag) (result : list nat) (fl : Flag) :
  shape2 < 4 ->
  searchArr2 shape2 neededTable neededCount found = (true, result, fl) ->
  isArrangement numItems result
  /\ (forall u v, In (u, v) (shapeEdges shape2) ->
        tget neededTable (get 0 result v) (get 0 result u) = true)
  /\ neededCount = numEdges.
Proof.
  intros Hs H. destruct (searchArr2_good _ _ _ _ _ _ H) as (Harr & Hall & Hcount).
  split; [assumption|]. split.
  - intros u v Hin. destruct (shape_edges shape2 u v Hs Hin) as [Huv Hback].
    apply Hall; [lia|assumption].
  - rewrite <- Hcount. apply shape_backCount. assumption.
Qed.

(** A made-up first arrangement's pair table for which the search succeeds
    at once: with shape A under identity as second arrangement, the 26 pairs
    left are covered by shape A under [demoArr2]. *)
Definition demoPairs0 : list (nat * nat) :=
  [(0, 1); (0, 2); (0, 3); (0, 4); (0, 7); (0, 8); (0, 10); (0, 11); (1, 2); (1, 6);
   (1, 7); (1, 8); (1, 12); (2, 5); (2, 7); (2, 11); (3, 9); (3, 10); (4, 7); (4, 11);
   (5, 8); (5, 9); (5, 10); (6, 12); (7, 9); (8, 9)].

Definition demoTable0 : Table :=
  fold_left (fun t p => tset (tset t (fst p) (snd p) true) (snd p) (fst p) true)
            demoPairs0 (newTable numItems numItems).

Definition demoNeeded : Table * nat :=
  neededPairs demoTable0 (buildPairsTable 0 (identity numItems)).

Definition demoArr2 : list nat := [0; 1; 7; 10; 11; 9; 12; 2; 8; 5; 3; 4; 6].

Lemma searchArr2_sound_witness :
  isArrangement numItems demoArr2
  /\ (forall u v, In (u, v) (shapeEdges 0) ->
        tget (fst demoNeeded) (get 0 demoArr2 v) (get 0 demoArr2 u) = true)
  /\ snd demoNeeded = numEdges.
Proof.
  apply (searchArr2_sound 0 (fst demoNeeded) (snd demoNeeded) quietFlag demoArr2 quietFlag).
  - lia.
  - vm_compute. reflexivity.
Defined.

(** ** [buildPairsTable] and the needed pairs *)

Import Hex.

Lemma symFold_map {X : Type} (f g : X -> nat) (l : list X) (acc : Table) :
  fold_left (fun table x => tset (tset table (f x) (g x) true) (g x) (f x) true) l acc
  = fold_left (fun adjMatrix e => tset (tset adjMatrix (a e) (b e) true) (b e) (a e) true)
              (map (fun x => mkEdge (f x) (g x)) l) acc.
Proof.
  apply (GraphFacts.fold_left_map_pair
           (fun adjMatrix e => tset (tset adjMatrix (a e) (b e) true) (b e) (a e) true)
           (fun x => mkEdge (f x) (g x))).
Qed.

Lemma symFold_spec {X : Type} (f g : X -> nat) (l : list X) (n : nat) :
  (forall x, In x l -> f x < n /\ g x < n) ->
  let res := fold_left (fun table x => tset (tset table (f x) (g x) true) (g x) (f x) true)
                       l (newTable n n) in
  tableDims n n res
  /\ forall s t, tget res s t = true
                 <-> exists x, In x l /\ ((f x = s /\ g x = t) \/ (f x = t /\ g x = s)).
Proof.
  intros Hr. cbv zeta. rewrite symFold_map.
  destruct (FourthProps.adjMatrix_fold n (map (fun x => mkEdge (f x) (g x)) l)) with
    (acc := newTable n n) as [Hd Hget].
  - apply List.Forall_forall. intros e He. apply in_map_iff in He.
    destruct He as (x & <- & Hx). cbn [a b]. apply Hr. assumption.
  - apply newTable_dims.
  - split; [assumption|]. intros s t. rewrite Hget, tget_newTable. split.
    + intros [Hf|(e & He & H)]; [discriminate|].
      apply in_map_iff in He. destruct He as (x & <- & Hx). exists x. auto.
    + intros (x & Hx & H). right. exists (mkEdge (f x) (g x)).
      split; [apply in_map_iff; exists x; auto|assumption].
Qed.

Lemma buildPairsTable_spec (shape : nat) (arr : list nat) :
  (forall u v, In (u, v) (shapeEdges shape) ->
     get 0 arr u < numItems /\ get 0 arr v < numItems) ->
  tableDims numItems numItems (buildPairsTable shape arr)
  /\ forall x y, tget (buildPairsTable shape arr) x y = true
                 <-> covers (pairSet (shapeEdges shape) arr) x y.
Proof.
  intros Hr.
  destruct (symFold_spec (fun e : nat * nat => get 0 arr (fst e))
              (fun e : nat * nat => get 0 arr (snd e)) (shapeEdges shape) numItems) as [Hd Hg].
  { intros [u v] Hin. apply Hr. assumption. }
  split; [exact Hd|]. intros x y.
  change (buildPairsTable shape arr)
    with (fold_left (fun table (e : nat * nat) =>
                       tset (tset table (get 0 arr (fst e)) (get 0 arr (snd e)) true)
                            (get 0 arr (snd e)) (get 0 arr (fst e)) true)
                    (shapeEdges shape) (newTable numItems numItems)).
  rewrite Hg. unfold covers, pairSet. rewrite !in_map_iff. split.
  - intros (e & He & [[H1 H2]|[H1 H2]]); [left|right]; exists e; split; congruence || assumption.
  - intros [(e & Heq & He)|(e & Heq & He)]; injection Heq as H1 H2; exists e; auto.
Qed.

Lemma in_allPairs (i j : nat) : In (i, j) allPairs <-> i < j < numItems.
Proof.
  unfold allPairs. rewrite in_flat_map. split.
  - intros (i' & Hi & Hin). apply in_map_iff in Hin. destruct Hin as (j' & [= -> ->] & Hj).
    apply in_range in Hi, Hj. lia.
  - intros Hij. exists i. split; [apply in_range; lia|].
    apply in_map_iff. exists j. split; [reflexivity|apply in_range; lia].
Qed.

Lemma allPairs_NoDup : List.NoDup allPairs.
Proof.
  unfold allPairs.
  apply (GraphFacts.NoDup_flat_map_pair (range 0 (numItems - 1))
           (fun i => range (i + 1) numItems)).
  - apply GraphFacts.range_NoDup.
  - intros i _. apply GraphFacts.range_NoDup.
Qed.

(** The pairs [neededPairs] keeps. *)
Definition stillNeeded (pairs0Table pairs1Table : Table) : list (nat * nat) :=
  List.filter
    (fun p => negb (tget pairs0Table (fst p) (snd p)) && negb (tget pairs1Table (fst p) (snd p)))
    allPairs.

Lemma countFold (l : list (nat * nat)) :
  forall (t : Table) (c : nat),
    fold_left (fun (st : Table * nat) p =>
                 (tset (tset (fst st) (fst p) (snd p) true) (snd p) (fst p) true, S (snd st)))
              l (t, c)
    = (fold_left (fun table p => tset (tset table (fst p) (snd p) true) (snd p) (fst p) true)
                 l t,
       c + length l).
Proof.
  induction l as [|p l IH]; intros t c; cbn [fold_left length].
  - rewrite Nat.add_0_r. reflexivity.
  - cbn [fst snd]. rewrite IH. f_equal. lia.
Qed.

Lemma neededPairs_spec (pairs0Table pairs1Table : Table) :
  snd (neededPairs pairs0Table pairs1Table) = length (stillNeeded pairs0Table pairs1Table)
  /\ tableDims numItems numItems (fst (neededPairs pairs0Table pairs1Table))
  /\ forall x y, tget (fst (neededPairs pairs0Table pairs1Table)) x y = true
                 <-> In (x, y) (stillNeeded pairs0Table pairs1Table)
                     \/ In (y, x) (stillNeeded pairs0Table pairs1Table).
Proof.
  unfold neededPairs.
  rewrite (GraphFacts.fold_left_ext_eq _
             (fun (st : Table * nat) p =>
                if negb (tget pairs0Table (fst p) (snd p))
                   && negb (tget pairs1Table (fst p) (snd p))
                then (tset (tset (fst st) (fst p) (snd p) true) (snd p) (fst p) true,
                      S (snd st))
                else st))
    by (intros [t c] p; reflexivity).
  rewrite (SatFacts.fold_left_filter
             (fun (st : Table * nat) p =>
                (tset (tset (fst st) (fst p) (snd p) true) (snd p) (fst p) true, S (snd st)))
             (fun p => negb (tget pairs0Table (fst p) (snd p))
                       && negb (tget pairs1Table (fst p) (snd p)))).
  fold (stillNeeded pairs0Table pairs1Table). rewrite countFold. cbn [fst snd].
  split; [reflexivity|].
  destruct (symFold_spec (fun p : nat * nat => fst p) (fun p : nat * nat => snd p)
              (stillNeeded pairs0Table pairs1Table) numItems) as [Hd Hg].
  { intros [i j] Hin. apply filter_In in Hin. destruct Hin as [Hin _].
    apply in_allPairs in Hin. cbn [fst snd]. lia. }
  split; [exact Hd|]. intros x y. rewrite Hg. split.
  - intros ([i j] & Hin & [[H1 H2]|[H1 H2]]); cbn [fst snd] in H1, H2; subst; auto.
  - intros [H|H]; [exists (x, y)|exists (y, x)]; cbn [fst snd]; auto.
Qed.

(** ** Twenty-six edges on twenty-six needed pairs *)

Lemma needed_covered (n : nat) (N : Table) (S E : list (nat * nat)) (arr : list nat) :
  (forall x y, tget N x y = true <-> In (x, y) S \/ In (y, x) S) ->
  (forall i j, In (i, j) S -> i < j) ->
  isArrangement n arr -> List.NoDup E ->
  (forall u v, In (u, v) E -> u < v < n) ->
  (forall u v, In (u, v) E -> tget N (get 0 arr v) (get 0 arr u) = true) ->
  length S <= length E ->
  forall i j, In (i, j) S -> covers (pairSet E arr) i j.
Proof.
  intros HN Hlt (Hlen & Hnd & Hrange) HndE HE Hhit Hcount.
  assert (Hinj : forall s t, s < n -> t < n -> get 0 arr s = get 0 arr t -> s = t).
  { intros s t Hs Ht. apply (proj1 (List.NoDup_nth arr 0) Hnd); lia. }
  set (img := fun e : nat * nat =>
                if get 0 arr (fst e) <? get 0 arr (snd e)
                then (get 0 arr (fst e), get 0 arr (snd e))
                else (get 0 arr (snd e), get 0 arr (fst e))).
  assert (Himg : forall u v, In (u, v) E -> In (img (u, v)) S).
  { intros u v Hin. specialize (Hhit u v Hin). apply HN in Hhit.
    unfold img. cbn [fst snd].
    destruct (Nat.ltb_spec (get 0 arr u) (get 0 arr v)) as [Hl|Hl];
      destruct Hhit as [H|H]; try assumption; apply Hlt in H; lia. }
  assert (HndI : List.NoDup (map img E)).
  { apply List.NoDup_map_NoDup_ForallPairs; [|assumption].
    intros [u v] [u' v'] Hin Hin' Heq.
    destruct (HE u v Hin) as [Huv Hv]. destruct (HE u' v' Hin') as [Huv' Hv'].
    unfold img in Heq. cbn [fst snd] in Heq.
    destruct (Nat.ltb_spec (get 0 arr u) (get 0 arr v)),
             (Nat.ltb_spec (get 0 arr u') (get 0 arr v'));
      injection Heq as H1 H2; apply Hinj in H1; try lia; apply Hinj in H2; try lia;
      f_equal; lia. }
  assert (Hincl : incl S (map img E)).
  { apply List.NoDup_length_incl; [assumption|rewrite length_map; assumption|].
    intros p Hp. apply in_map_iff in Hp. destruct Hp as ([u v] & <- & Hin).
    apply Himg. assumption. }
  intros i j Hin. apply Hincl, in_map_iff in Hin. destruct Hin as ([u v] & Heq & Hin).
  unfold img in Heq. cbn [fst snd] in Heq. unfold covers, pairSet. rewrite !in_map_iff.
  destruct (get 0 arr u <? get 0 arr v); injection Heq as H1 H2; [left|right];
    exists (u, v); cbn [fst snd]; split; congruence || assumption.
Qed.

(** ** [searchArr1Worker] *)

(** A solution is right for the first arrangement's pair table: together
    with it, the two arrangements cover every pair. *)
Definition validSolution (pairs0Table : Table) (sol : Solution) : Prop :=
  shape1 sol <= shape2 sol < 4
  /\ isArrangement numItems (arr1 sol) /\ isArrangement numItems (arr2 sol)
  /\ forall x y, x < y < numItems ->
       tget pairs0Table x y = true
       \/ covers (pairSet (shapeEdges (shape1 sol)) (arr1 sol)) x y
       \/ covers (pairSet (shapeEdges (shape2 sol)) (arr2 sol)) x y.

Lemma solution_valid (pairs0Table : Table) (s0 s1 s2 : nat) (a1 a2 : list nat)
    (fl fl' : Flag) :
  s1 <= s2 < 4 -> isArrangement numItems a1 ->
  searchArr2 s2 (fst (neededPairs pairs0Table (buildPairsTable s1 a1)))
             (snd (neededPairs pairs0Table (buildPairsTable s1 a1))) fl = (true, a2, fl') ->
  validSolution pairs0Table (mkSolution s0 s1 s2 a1 a2).
Proof.
  intros Hs Ha1 Hsearch.
  destruct (searchArr2_good _ _ _ _ _ _ Hsearch) as (Ha2 & Hall & Hcount).
  destruct (neededPairs_spec pairs0Table (buildPairsTable s1 a1)) as (Hc & _ & HN).
  assert (Hget1 : forall u, u < numItems -> get 0 a1 u < numItems).
  { intros u Hu. destruct Ha1 as (Hl & _ & Hr). rewrite List.Forall_forall in Hr.
    apply Hr, get_In. lia. }
  destruct (buildPairsTable_spec s1 a1) as [_ H1].
  { intros u v Hin. destruct (shape_edges s1 u v ltac:(lia) Hin) as [Huv _].
    split; apply Hget1; lia. }
  split; [exact Hs|]. split; [exact Ha1|]. split; [exact Ha2|].
  intros x y Hxy. cbn [shape1 shape2 arr1 arr2].
  destruct (tget pairs0Table x y) eqn:H0; [left; reflexivity|right].
  destruct (tget (buildPairsTable s1 a1) x y) eqn:Hp1; [left; apply H1; assumption|right].
  apply (needed_covered numItems
           (fst (neededPairs pairs0Table (buildPairsTable s1 a1)))
           (stillNeeded pairs0Table (buildPairsTable s1 a1))
           (shapeEdges s2) a2).
  - exact HN.
  - intros i j Hin. apply filter_In in Hin. destruct Hin as [Hin _].
    apply in_allPairs in Hin. lia.
  - exact Ha2.
  - apply shape_NoDup. lia.
  - intros u v Hin. apply (shape_edges s2 u v ltac:(lia) Hin).
  - intros u v Hin. destruct (shape_edges s2 u v ltac:(lia) Hin) as [Huv Hback].
    apply Hall; [lia|assumption].
  - rewrite <- Hc, <- Hcount, shape_backCount, shape_length by lia. apply le_n.
  - apply filter_In. split; [apply in_allPairs; assumption|].
    cbn [fst snd]. rewrite H0, Hp1. reflexivity.
Qed.

Section Worker.

Variable shape0 shape1 : nat.
Variable pairs0Table : Table.

Definition validNew (pos : nat) (st : Frame1) (sol : Solution) : Prop :=
  Solver13.shape0 sol = shape0 /\ Solver13.shape1 sol = shape1
  /\ (forall i, i < pos -> get 0 (arr1 sol) i = get 0 (f1_arr1 st) i)
  /\ validSolution pairs0Table sol.

(** At most one solution is sent, and only by winning the flag. *)
Definition sentBy (pos : nat) (st st' : Frame1) : Prop :=
  f1_sent st' = f1_sent st
  \/ exists sol, f1_sent st' = f1_sent st ++ [sol] /\ validNew pos st sol
                 /\ isSet (f1_found st') = true.

Definition frame1 (pos : nat) (st st' : Frame1) : Prop :=
  f1_used1 st' = f1_used1 st
  /\ length (f1_arr1 st') = numItems
  /\ (forall i, i < pos -> get 0 (f1_arr1 st') i = get 0 (f1_arr1 st) i)
  /\ sentBy pos st st'.

Lemma tryShapes2_spec (neededTable : Table) (neededCount : nat) (shapes : list nat) :
  forall st,
    (forall s, In s shapes -> shape1 <= s < 4) ->
    isArrangement numItems (f1_arr1 st) ->
    neededTable = fst (neededPairs pairs0Table (buildPairsTable shape1 (f1_arr1 st))) ->
    neededCount = snd (neededPairs pairs0Table (buildPairsTable shape1 (f1_arr1 st))) ->
    let st' := tryShapes2 shapes shape0 shape1 neededTable neededCount st in
    f1_arr1 st' = f1_arr1 st /\ f1_used1 st' = f1_used1 st
    /\ sentBy numItems st st'.
Proof.
  induction shapes as [|s shapes IH]; intros st Hsh Harr HN Hc; cbn [tryShapes2].
  - split; [reflexivity|]. split; [reflexivity|]. left. reflexivity.
  - destruct (Load (f1_found st)) as [isFound fl]. destruct isFound.
    { split; [reflexivity|]. split; [reflexivity|]. left. reflexivity. }
    destruct (searchArr2 s neededTable neededCount fl) as [[success a2] fl2] eqn:Hsearch.
    assert (Hrec : forall fl3,
              let st1 := mkFrame1 (f1_arr1 st) (f1_used1 st) (f1_localCount st) fl3
                                  (f1_sent st) in
              let st' := tryShapes2 shapes shape0 shape1 neededTable neededCount st1 in
              f1_arr1 st' = f1_arr1 st /\ f1_used1 st' = f1_used1 st
              /\ sentBy numItems st st').
    { intros fl3. apply (IH (mkFrame1 (f1_arr1 st) (f1_used1 st) (f1_localCount st) fl3
                                      (f1_sent st)));
        [intros s' Hs'; apply Hsh; right; assumption|assumption..]. }
    destruct success; [|apply Hrec].
    destruct (CompareAndSwap fl2) as [swapped fl3] eqn:Hcas.
    destruct swapped; [|apply Hrec].
    cbn [f1_arr1 f1_used1 f1_sent f1_found].
    split; [reflexivity|]. split; [reflexivity|]. right.
    exists (mkSolution shape0 shape1 s (f1_arr1 st) a2).
    split; [reflexivity|]. split.
    + split; [reflexivity|]. split; [reflexivity|]. split; [intros; reflexivity|].
      subst neededTable neededCount.
      apply (solution_valid pairs0Table shape0 shape1 s _ a2 fl fl2);
        [apply Hsh; left; reflexivity|assumption|assumption].
    + unfold CompareAndSwap in Hcas. injection Hcas as _ <-. reflexivity.
Qed.

(** One round of the [for item] loop of the worker's [search]. *)
Definition tryItem1 (fuel' pos : nat) (st : Frame1) (item : nat) : Frame1 :=
  if get false (f1_used1 st) item then st
  else
    let arr1 := <[pos := item]> (f1_arr1 st) in
    let used1 := <[item := true]> (f1_used1 st) in
    let hasOverlap :=
      scanOverlap pairs0Table arr1 pos item
                  (get [] (get [] allNeighbors shape1) pos) in
    let st := mkFrame1 arr1 used1 (f1_localCount st) (f1_found st) (f1_sent st) in
    let st :=
      if negb hasOverlap
      then search1 fuel' shape0 shape1 pairs0Table (pos + 1) st
      else st in
    mkFrame1 (<[pos := 0]> (f1_arr1 st)) (<[item := false]> (f1_used1 st))
             (f1_localCount st) (f1_found st) (f1_sent st).

Lemma search1_eq (fuel pos : nat) (st : Frame1) :
  search1 fuel shape0 shape1 pairs0Table pos st =
  let '(isFound, fl) := Load (f1_found st) in
  let st := mkFrame1 (f1_arr1 st) (f1_used1 st) (f1_localCount st) fl (f1_sent st) in
  if isFound then st
  else if pos =? numItems then
    let st := mkFrame1 (f1_arr1 st) (f1_used1 st) (S (f1_localCount st))
                       (f1_found st) (f1_sent st) in
    let pairs1Table := buildPairsTable shape1 (f1_arr1 st) in
    let '(neededTable, neededCount) := neededPairs pairs0Table pairs1Table in
    tryShapes2 (range shape1 4) shape0 shape1 neededTable neededCount st
  else
    match fuel with
    | 0 => st
    | S fuel' => fold_left (tryItem1 fuel' pos) (range 0 numItems) st
    end.
Proof. destruct fuel; reflexivity. Qed.

Lemma Load_set (f : Flag) : isSet f = true -> fst (Load f) = true /\ isSet (snd (Load f)) = true.
Proof. intros H. unfold Load. cbn [fst snd isSet]. rewrite H. auto. Qed.

(** Once the flag is set, [search] returns at once. *)
Lemma search1_set (fuel pos : nat) (st : Frame1) :
  isSet (f1_found st) = true ->
  let st' := search1 fuel shape0 shape1 pairs0Table pos st in
  f1_arr1 st' = f1_arr1 st /\ f1_used1 st' = f1_used1 st
  /\ f1_sent st' = f1_sent st /\ isSet (f1_found st') = true.
Proof.
  intros Hset. cbv zeta. rewrite search1_eq.
  destruct (Load_set _ Hset) as [H1 H2].
  destruct (Load (f1_found st)) as [isFound fl]. cbn [fst snd] in H1, H2. subst isFound.
  cbn [f1_arr1 f1_used1 f1_sent f1_found]. auto.
Qed.

Definition loop1 (pos : nat) (st0 cur : Frame1) : Prop :=
  f1_used1 cur = f1_used1 st0
  /\ length (f1_arr1 cur) = numItems
  /\ (forall i, i < pos -> get 0 (f1_arr1 cur) i = get 0 (f1_arr1 st0) i)
  /\ sentBy pos st0 cur.

Lemma tryItem1_spec (fuel' pos : nat) (st0 : Frame1) :
  (forall pos st, pos <= numItems -> partialArr pos (f1_arr1 st) (f1_used1 st) ->
     frame1 pos st (search1 fuel' shape0 shape1 pairs0Table pos st)) ->
  pos < numItems -> partialArr pos (f1_arr1 st0) (f1_used1 st0) ->
  forall cur item, In item (range 0 numItems) ->
    loop1 pos st0 cur -> loop1 pos st0 (tryItem1 fuel' pos cur item).
Proof.
  intros IH Hpos Hpart cur item Hitem (Hused & Hlen & Hsame & Hsent).
  apply in_range in Hitem. unfold tryItem1.
  destruct (get false (f1_used1 cur) item) eqn:Hfree.
  { unfold loop1. auto. }
  pose proof Hpart as (Hl0 & Hu0 & _).
  assert (Hpart' : partialArr pos (f1_arr1 cur) (f1_used1 cur)).
  { rewrite Hused. apply (partialArr_frame pos (f1_arr1 st0)); assumption. }
  assert (Hrestore : <[item := false]> (<[item := true]> (f1_used1 cur)) = f1_used1 st0).
  { rewrite insert_restore by (assumption || (rewrite Hused; lia)). assumption. }
  destruct (scanOverlap pairs0Table (<[pos := item]> (f1_arr1 cur)) pos item
                        (get [] (get [] allNeighbors shape1) pos));
    cbn [negb f1_arr1 f1_used1 f1_localCount f1_found f1_sent].
  - unfold loop1. cbn [f1_arr1 f1_used1 f1_sent f1_found].
    split; [assumption|]. split; [rewrite !length_insert; assumption|].
    split; [intros i Hi; rewrite !get_insert_ne by lia; apply Hsame; assumption|].
    exact Hsent.
  - set (stb := mkFrame1 (<[pos := item]> (f1_arr1 cur)) (<[item := true]> (f1_used1 cur))
                         (f1_localCount cur) (f1_found cur) (f1_sent cur)).
    assert (Hpb : partialArr (pos + 1) (f1_arr1 stb) (f1_used1 stb)).
    { replace (pos + 1) with (S pos) by lia. cbn [stb f1_arr1 f1_used1].
      apply partialArr_extend; [assumption|assumption|lia|assumption]. }
    destruct (IH (pos + 1) stb ltac:(lia) Hpb) as (Hused' & Hlen' & Hsame' & Hsent').
    cbn [stb f1_arr1 f1_used1 f1_sent] in Hused', Hsame'.
    unfold loop1. cbn [f1_arr1 f1_used1 f1_sent f1_found].
    split; [rewrite Hused'; assumption|]. split; [rewrite length_insert; assumption|].
    split.
    { intros i Hi. rewrite get_insert_ne by lia. rewrite Hsame' by lia.
      rewrite get_insert_ne by lia. apply Hsame. assumption. }
    destruct Hsent as [Hs|(sol & Hs & Hv & Hset)].
    + destruct Hsent' as [Hs'|(sol & Hs' & Hv' & Hset')].
      * left. rewrite Hs'. assumption.
      * right. exists sol. cbn [stb f1_sent] in Hs'. rewrite Hs', Hs.
        split; [reflexivity|]. split; [|assumption].
        destruct Hv' as (V0 & V1 & Vpre & Vok). split; [assumption|]. split; [assumption|].
        split; [|assumption]. intros i Hi. rewrite Vpre by lia. cbn [stb f1_arr1].
        rewrite get_insert_ne by lia. apply Hsame. assumption.
    + destruct (search1_set fuel' (pos + 1) stb Hset) as (_ & _ & Hs' & Hset').
      right. exists sol. rewrite Hs'. cbn [stb f1_sent]. auto.
Qed.

Lemma search1_spec (fuel : nat) :
  forall pos st, pos <= numItems -> partialArr pos (f1_arr1 st) (f1_used1 st) ->
    frame1 pos st (search1 fuel shape0 shape1 pairs0Table pos st).
Proof.
  induction fuel as [|fuel' IH]; intros pos st Hpos Hpart; rewrite search1_eq;
    pose proof Hpart as (Hl & Hu & _);
    destruct (Load (f1_found st)) as [isFound fl]; destruct isFound.
  1, 3: (unfold frame1, sentBy; cbn [f1_arr1 f1_used1 f1_sent f1_found]; auto 10).
  all: destruct (Nat.eqb_spec pos numItems) as [->|Hne].
  1, 3: (cbv zeta; cbn [f1_arr1 f1_used1 f1_localCount f1_found f1_sent];
         destruct (neededPairs pairs0Table (buildPairsTable shape1 (f1_arr1 st)))
           as [neededTable neededCount] eqn:HN;
         destruct (tryShapes2_spec neededTable neededCount (range shape1 4)
                     (mkFrame1 (f1_arr1 st) (f1_used1 st) (S (f1_localCount st)) fl
                               (f1_sent st))) as (Ha & Hus & Hsent);
         [intros s Hs; apply in_range in Hs; lia
         |apply (partialArr_full _ _ Hpart)
         |cbn [f1_arr1]; rewrite HN; reflexivity
         |cbn [f1_arr1]; rewrite HN; reflexivity
         |];
         cbn [f1_arr1 f1_used1] in Ha, Hus;
         unfold frame1; rewrite Ha, Hus; auto 10).
  - unfold frame1, sentBy; cbn [f1_arr1 f1_used1 f1_sent f1_found]; auto 10.
  - assert (Hlt : pos < numItems) by lia.
    set (st1 := mkFrame1 (f1_arr1 st) (f1_used1 st) (f1_localCount st) fl (f1_sent st)).
    assert (Hp1 : partialArr pos (f1_arr1 st1) (f1_used1 st1)) by exact Hpart.
    assert (H0 : loop1 pos st1 st1).
    { unfold loop1, sentBy. auto 10. }
    pose proof (fold_left_inv (loop1 pos st1) (tryItem1 fuel' pos) (range 0 numItems)
                  (tryItem1_spec fuel' pos st1 IH Hlt Hp1) st1 H0) as (H1 & H2 & H3 & H4).
    exact (conj H1 (conj H2 (conj H3 H4))).
Qed.

End Worker.

Lemma searchArr1Worker_spec (shape0 shape1 firstItem : nat) (pairs0Table : Table)
    (found : Flag) (resultChan : list Solution) :
  firstItem < numItems ->
  let w := searchArr1Worker shape0 shape1 firstItem pairs0Table found resultChan in
  (isSet found = true -> f1_sent w = resultChan /\ isSet (f1_found w) = true)
  /\ (f1_sent w = resultChan
      \/ exists sol, f1_sent w = resultChan ++ [sol]
           /\ isSet (f1_found w) = true
           /\ Solver13.shape0 sol = shape0 /\ Solver13.shape1 sol = shape1
           /\ get 0 (arr1 sol) 0 = firstItem
           /\ validSolution pairs0Table sol).
Proof.
  intros Hfirst. unfold searchArr1Worker. cbv zeta.
  set (st0 := mkFrame1 (<[0 := firstItem]> (replicate numItems 0))
                       (<[firstItem := true]> (replicate numItems false)) 0 found resultChan).
  split.
  - intros Hset. destruct (search1_set shape0 shape1 pairs0Table numItems 1 st0 Hset)
      as (_ & _ & Hs & Hf). auto.
  - assert (Hpart : partialArr 1 (f1_arr1 st0) (f1_used1 st0)).
    { apply (partialArr_extend 0 (replicate numItems 0) (replicate numItems false) firstItem).
      - split; [apply length_replicate|]. split; [apply length_replicate|].
        split; [intros; lia|]. split; [intros; lia|].
        intros item Hitem. rewrite get_replicate by assumption.
        split; [discriminate|]. intros (i & Hi & _). lia.
      - unfold numItems. lia.
      - assumption.
      - apply get_replicate. assumption. }
    destruct (search1_spec shape0 shape1 pairs0Table numItems 1 st0) as (_ & _ & _ & Hsent);
      [unfold numItems; lia|assumption|].
    set (w := search1 numItems shape0 shape1 pairs0Table 1 st0) in *. clearbody w.
    destruct Hsent as [Hs|(sol & Hs & (V0 & V1 & Vpre & Vok) & Hset)]; [left; exact Hs|].
    right. exists sol. split; [exact Hs|]. split; [assumption|].
    split; [assumption|]. split; [assumption|]. split; [|assumption].
    rewrite Vpre by lia. unfold st0. cbn [f1_arr1]. apply get_insert_eq.
    rewrite length_replicate. unfold numItems. lia.
Qed.

Lemma pairs0_identity (shape0 x y : nat) :
  shape0 < 4 ->
  tget (buildPairsTable shape0 (identity numItems)) x y = true
  <-> covers (pairSet (shapeEdges shape0) (identity numItems)) x y.
Proof.
  intros Hs. apply buildPairsTable_spec. intros u v Hin.
  destruct (shape_edges shape0 u v Hs Hin) as [Huv _].
  rewrite !get_identity by lia. lia.
Qed.

(** X17.  A worker sends at most one solution, and none when the flag was
    set before it started; when it sends, the flag is set, the solution
    carries the worker's shapes and first item, both arrays are arrangements
    of the 13 items, and every pair [x < y] is marked in [pairs0Table] or
    covered by one of the two arrangements.  For the table of shape0 under
    identity, the three arrangements cover all 78 pairs. *)
Theorem searchArr1Worker_sound (shape0 shape1 firstItem : nat) (pairs0Table : Table)
    (found : Flag) (resultChan : list Solution) :
  firstItem < numItems ->
  let w := searchArr1Worker shape0 shape1 firstItem pairs0Table found resultChan in
  (isSet found = true -> f1_sent w = resultChan)
  /\ (f1_sent w = resultChan
      \/ exists sol, f1_sent w = resultChan ++ [sol]
           /\ isSet (f1_found w) = true
           /\ Solver13.shape0 sol = shape0 /\ Solver13.shape1 sol = shape1
           /\ shape1 <= shape2 sol < 4
           /\ get 0 (arr1 sol) 0 = firstItem
           /\ isArrangement numItems (arr1 sol) /\ isArrangement numItems (arr2 sol)
           /\ (forall x y, x < y < numItems ->
                 tget pairs0Table x y = true
                 \/ covers (pairSet (shapeEdges shape1) (arr1 sol)) x y
                 \/ covers (pairSet (shapeEdges (shape2 sol)) (arr2 sol)) x y)
           /\ (shape0 < 4 -> pairs0Table = buildPairsTable shape0 (identity numItems) ->
               coversAll numItems
                 (pairSet (shapeEdges shape0) (identity numItems)
                  ++ pairSet (shapeEdges shape1) (arr1 sol)
                  ++ pairSet (shapeEdges (shape2 sol)) (arr2 sol)))).
Proof.
  intros Hfirst w.
  destruct (searchArr1Worker_spec shape0 shape1 firstItem pairs0Table found resultChan Hfirst)
    as [Hset Hsent].
  fold w in Hset, Hsent. split; [intros H; apply Hset; assumption|].
  destruct Hsent as [Hs|(sol & Hs & Hf & V0 & V1 & Vfirst & (Vsh & Va1 & Va2 & Vcov))];
    [left; exact Hs|].
  right. exists sol. rewrite V1 in Vsh, Vcov.
  repeat (split; [assumption|]).
  intros Hs0 -> x y Hxy. rewrite !FourthProps.covers_app.
  destruct (Vcov x y Hxy) as [H|[H|H]]; [left|right; left|right; right]; try assumption.
  apply pairs0_identity; assumption.
Qed.

Lemma searchArr1Worker_sound_witness :
  let w := searchArr1Worker 0 0 0 demoTable0 quietFlag [] in
  (isSet quietFlag = true -> f1_sent w = [])
  /\ (f1_sent w = []
      \/ exists sol, f1_sent w = [] ++ [sol]
           /\ isSet (f1_found w) = true
           /\ Solver13.shape0 sol = 0 /\ Solver13.shape1 sol = 0
           /\ 0 <= shape2 sol < 4
           /\ get 0 (arr1 sol) 0 = 0
           /\ isArrangement numItems (arr1 sol) /\ isArrangement numItems (arr2 sol)
           /\ (forall x y, x < y < numItems ->
                 tget demoTable0 x y = true
                 \/ covers (pairSet (shapeEdges 0) (arr1 sol)) x y
                 \/ covers (pairSet (shapeEdges (shape2 sol)) (arr2 sol)) x y)
           /\ (0 < 4 -> demoTable0 = buildPairsTable 0 (identity numItems) ->
               coversAll numItems
                 (pairSet (shapeEdges 0) (identity numItems)
                  ++ pairSet (shapeEdges 0) (arr1 sol)
                  ++ pairSet (shapeEdges (shape2 sol)) (arr2 sol)))).
Proof.
  apply (searchArr1Worker_sound 0 0 0 demoTable0 quietFlag []).
  unfold numItems. lia.
Defined.

(** On the made-up table the worker does send. *)
Example searchArr1Worker_demo :
  f1_sent (searchArr1Worker 0 0 0 demoTable0 quietFlag [])
  = [mkSolution 0 0 0 (identity numItems) demoArr2].
Proof. vm_compute. reflexivity. Qed.

(** ** [main]: the loops over shapes and workers *)

(** From one state of (flag, channel) to a later one: nothing is sent once
    the flag is set, and at most one solution is sent, setting the flag. *)
Definition oneSend (ok : Solution -> Prop) (st st' : Flag * list Solution) : Prop :=
  (isSet (fst st) = true -> snd st' = snd st /\ isSet (fst st') = true)
  /\ (snd st' = snd st
      \/ exists sol, snd st' = snd st ++ [sol] /\ ok sol /\ isSet (fst st') = true).

Lemma oneSend_refl (ok : Solution -> Prop) (st : Flag * list Solution) : oneSend ok st st.
Proof. split; auto. Qed.

Lemma oneSend_trans (ok : Solution -> Prop) (st1 st2 st3 : Flag * list Solution) :
  oneSend ok st1 st2 -> oneSend ok st2 st3 -> oneSend ok st1 st3.
Proof.
  intros [A1 B1] [A2 B2]. split.
  - intros H. destruct (A1 H) as [E1 F1]. destruct (A2 F1) as [E2 F2].
    split; [congruence|assumption].
  - destruct B1 as [E1|(sol & E1 & Hok & F1)].
    + destruct B2 as [E2|(sol & E2 & Hok & F2)].
      * left. congruence.
      * right. exists sol. rewrite E2, E1. auto.
    + destruct (A2 F1) as [E2 F2]. right. exists sol. rewrite E2, E1. auto.
Qed.

Lemma oneSend_weaken (ok ok' : Solution -> Prop) (st st' : Flag * list Solution) :
  (forall sol, ok sol -> ok' sol) -> oneSend ok st st' -> oneSend ok' st st'.
Proof.
  intros Himp [A B]. split; [assumption|].
  destruct B as [E|(sol & E & Hok & F)]; [left; assumption|].
  right. exists sol. auto.
Qed.

Lemma oneSend_Load (ok : Solution -> Prop) (fl : Flag) (sent : list Solution) :
  oneSend ok (fl, sent) (snd (Load fl), sent).
Proof.
  split; [|left; reflexivity]. cbn [fst snd]. intros H.
  split; [reflexivity|apply Load_set; assumption].
Qed.

Lemma runWorkers_spec (shape0 shape1 : nat) (pairs0Table : Table)
    (st : Flag * list Solution) :
  oneSend (fun sol => Solver13.shape0 sol = shape0 /\ Solver13.shape1 sol = shape1
                      /\ validSolution pairs0Table sol)
          st (runWorkers shape0 shape1 pairs0Table st).
Proof.
  unfold runWorkers.
  apply (fold_left_inv
           (oneSend (fun sol => Solver13.shape0 sol = shape0 /\ Solver13.shape1 sol = shape1
                                /\ validSolution pairs0Table sol) st)).
  - intros cur firstItem Hin Hcur. apply in_range in Hin.
    apply (oneSend_trans _ st cur); [assumption|].
    destruct (searchArr1Worker_spec shape0 shape1 firstItem pairs0Table (fst cur) (snd cur))
      as [Hset Hsent]; [lia|].
    split; cbn [fst snd]; [exact Hset|].
    destruct Hsent as [E|(sol & E & F & V0 & V1 & _ & Vok)]; [left; exact E|].
    right. exists sol. auto.
  - apply oneSend_refl.
Qed.

Lemma shape1Loop_spec (shape0 : nat) (pairs0Table : Table) (shapes : list nat) :
  (forall s, In s shapes -> shape0 <= s) ->
  forall st,
    oneSend (fun sol => Solver13.shape0 sol = shape0 /\ shape0 <= Solver13.shape1 sol
                        /\ validSolution pairs0Table sol)
            st (shape1Loop shapes shape0 pairs0Table st).
Proof.
  induction shapes as [|s shapes IH]; intros Hsh st; cbn [shape1Loop].
  - apply oneSend_refl.
  - destruct st as [fl sent]. cbn [fst snd].
    pose proof (oneSend_Load
                  (fun sol => Solver13.shape0 sol = shape0 /\ shape0 <= Solver13.shape1 sol
                              /\ validSolution pairs0Table sol) fl sent) as HL.
    destruct (Load fl) as [isFound fl1]. cbn [snd] in HL.
    destruct isFound; [exact HL|].
    pose proof (runWorkers_spec shape0 s pairs0Table (fl1, sent)) as HW.
    apply (oneSend_weaken _
             (fun sol => Solver13.shape0 sol = shape0 /\ shape0 <= Solver13.shape1 sol
                         /\ validSolution pairs0Table sol)) in HW.
    2: { intros sol (V0 & V1 & Vok). split; [assumption|]. split; [|assumption].
         rewrite V1. apply Hsh. left. reflexivity. }
    destruct (runWorkers shape0 s pairs0Table (fl1, sent)) as [fl2 sent2].
    cbn [fst snd].
    pose proof (oneSend_Load
                  (fun sol => Solver13.shape0 sol = shape0 /\ shape0 <= Solver13.shape1 sol
                              /\ validSolution pairs0Table sol) fl2 sent2) as HL2.
    destruct (Load fl2) as [isFound2 fl3]. cbn [snd] in HL2.
    assert (H3 : oneSend (fun sol => Solver13.shape0 sol = shape0
                                     /\ shape0 <= Solver13.shape1 sol
                                     /\ validSolution pairs0Table sol)
                         (fl, sent) (fl3, sent2)).
    { apply (oneSend_trans _ _ (fl1, sent)); [assumption|].
      apply (oneSend_trans _ _ (fl2, sent2)); assumption. }
    destruct isFound2; [exact H3|].
    apply (oneSend_trans _ _ (fl3, sent2)); [exact H3|].
    apply IH. intros s' Hs'. apply Hsh. right. assumption.
Qed.

(** A solution as [main] prints it. *)
Definition coveringSolution (sol : Solution) : Prop :=
  shape0 sol <= shape1 sol /\ shape1 sol <= shape2 sol /\ shape2 sol < 4
  /\ isArrangement numItems (arr1 sol) /\ isArrangement numItems (arr2 sol)
  /\ coversAll numItems
       (pairSet (shapeEdges (shape0 sol)) (identity numItems)
        ++ pairSet (shapeEdges (shape1 sol)) (arr1 sol)
        ++ pairSet (shapeEdges (shape2 sol)) (arr2 sol)).

Lemma covering_of_valid (sol : Solution) :
  shape0 sol < 4 -> shape0 sol <= shape1 sol ->
  validSolution (buildPairsTable (shape0 sol) (identity numItems)) sol ->
  coveringSolution sol.
Proof.
  intros H0 H01 (Hsh & Ha1 & Ha2 & Hcov).
  split; [assumption|]. split; [lia|]. split; [lia|].
  split; [assumption|]. split; [assumption|].
  intros x y Hxy. rewrite !FourthProps.covers_app.
  destruct (Hcov x y Hxy) as [H|[H|H]]; [left|right; left|right; right]; try assumption.
  apply pairs0_identity; assumption.
Qed.

Lemma shape0Loop_spec (shapes : list nat) :
  (forall s, In s shapes -> s < 4) ->
  forall st, oneSend coveringSolution st (shape0Loop shapes st).
Proof.
  induction shapes as [|s shapes IH]; intros Hsh st; cbn [shape0Loop].
  - apply oneSend_refl.
  - destruct st as [fl sent]. cbn [fst snd].
    pose proof (oneSend_Load coveringSolution fl sent) as HL.
    destruct (Load fl) as [isFound fl1]. cbn [snd] in HL.
    destruct isFound; [exact HL|].
    pose proof (shape1Loop_spec s (buildPairsTable s (identity numItems)) (range s 4)
                  (fun s' H => proj1 (proj1 (in_range s 4 s') H)) (fl1, sent)) as H1.
    apply (oneSend_weaken _ coveringSolution) in H1.
    2: { intros sol (V0 & V1 & Vok). apply covering_of_valid.
         - rewrite V0. apply Hsh. left. reflexivity.
         - rewrite V0. assumption.
         - rewrite V0. assumption. }
    apply (oneSend_trans _ _ (fl1, sent)); [assumption|].
    apply (oneSend_trans _ _ _ _ H1).
    apply IH. intros s' Hs'. apply Hsh. right. assumption.
Qed.

(** X18.  Under any schedule of flag observations, the loops of [main] put
    at most one solution on the (capacity one) result channel, none once the
    flag is set; the solution has [shape0 <= shape1 <= shape2 < 4], two
    arrangements of the 13 items, and with identity on shape0 covers all 78
    pairs. *)
Theorem shape0Loop_sound (shapes : list nat) (st : Flag * list Solution) :
  (forall s, In s shapes -> s < 4) ->
  let st' := shape0Loop shapes st in
  (isSet (fst st) = true -> snd st' = snd st)
  /\ (snd st' = snd st
      \/ exists sol, snd st' = snd st ++ [sol] /\ isSet (fst st') = true
           /\ coveringSolution sol).
Proof.
  intros Hsh st'. destruct (shape0Loop_spec shapes Hsh st) as [A B]. fold st' in A, B.
  split; [intros H; apply A; assumption|].
  destruct B as [E|(sol & E & Hok & F)]; [left; exact E|]. right. exists sol. auto.
Qed.

Lemma shape0Loop_sound_witness :
  let st' := shape0Loop [0; 1; 2; 3] (mkFlag true [], []) in
  (isSet (fst (mkFlag true [], @nil Solution)) = true
   -> snd st' = snd (mkFlag true [], @nil Solution))
  /\ (snd st' = snd (mkFlag true [], @nil Solution)
      \/ exists sol, snd st' = snd (mkFlag true [], @nil Solution) ++ [sol]
           /\ isSet (fst st') = true /\ coveringSolution sol).
Proof.
  apply (shape0Loop_sound [0; 1; 2; 3] (mkFlag true [], [])).
  intros s Hs. simpl in Hs. lia.
Defined.

(** What [main] prints as a solution is a cover of all 78 pairs. *)
Corollary main_sound :
  match main with
  | Some sol => coveringSolution sol
  | None => True
  end.
Proof.
  unfold main.
  destruct (shape0Loop_spec (range 0 4) (fun s H => proj2 (proj1 (in_range 0 4 s) H))
              (quietFlag, [])) as [_ B].
  set (st := shape0Loop (range 0 4) (quietFlag, [])) in *. clearbody st.
  cbn [snd app] in B.
  destruct (fst (Load (fst st))); [|exact I].
  destruct B as [E|(sol & E & Hok & _)]; rewrite E; cbn [head]; [exact I|exact Hok].
Qed.

End Solver13Props.

(** * The n = 13 search finds what there is to find *)

Module Solver13Complete.

Import Solver13 Solver13Props.

(** ** The neighbour lists hold nothing but the edges *)

Definition backEdgesb (shape : nat) : bool :=
  forallb
    (fun p => forallb (fun q => existsb (pairEqb (q, p)) (shapeEdges shape))
                      (backNbrs (get [] allNeighbors shape) p))
    (range 0 numItems).

Lemma backNbrs_edge (shape p q : nat) :
  shape < 4 -> p < numItems -> In q (backNbrs (get [] allNeighbors shape) p) ->
  In (q, p) (shapeEdges shape).
Proof.
  intros Hs Hp Hq.
  assert (H : backEdgesb shape = true).
  { destruct shape as [|[|[|[|shape]]]]; [vm_compute; reflexivity..|lia]. }
  unfold backEdgesb in H. rewrite forallb_forall in H.
  specialize (H p ltac:(apply in_range; lia)). rewrite forallb_forall in H.
  apply existsb_pairEqb. apply H. assumption.
Qed.

(** ** A flag nobody sets *)

Lemma Load_quiet : Load quietFlag = (false, quietFlag).
Proof. reflexivity. Qed.

Lemma CompareAndSwap_quiet : fst (CompareAndSwap quietFlag) = true.
Proof. reflexivity. Qed.

(** ** [searchArr2] *)

Lemma scanWaste_complete (neededTable : Table) (arr2 : list nat) (pos item : nat)
    (nbrs : list nat) :
  (forall q, In q (List.filter (fun q => q <? pos) nbrs) ->
     tget neededTable item (get 0 arr2 q) = true) ->
  forall newPairs,
    scanWaste neededTable arr2 pos item nbrs newPairs
    = (false, newPairs + length (List.filter (fun q => q <? pos) nbrs)).
Proof.
  induction nbrs as [|nPos nbrs IH]; intros Hall np; cbn [scanWaste List.filter].
  - cbn [length]. rewrite Nat.add_0_r. reflexivity.
  - cbn [List.filter] in Hall. destruct (nPos <? pos) eqn:Hlt.
    + rewrite (Hall nPos (or_introl eq_refl)).
      rewrite IH by (intros q Hq; apply Hall; right; assumption).
      cbn [length]. f_equal. lia.
    + apply IH. assumption.
Qed.

Section Complete2.

Variable neighbors2 : list (list nat).
Variable neededTable : Table.
Variable neededCount : nat.

Lemma tryItem2_sticky (fuel' pos : nat) (st : Frame2) (item : nat) :
  f2_success st = true ->
  f2_success (tryItem2 fuel' neighbors2 neededTable neededCount pos st item) = true.
Proof.
  intros Hs. unfold tryItem2. destruct (get false (f2_used2 st) item); [assumption|].
  destruct (scanWaste _ _ _ _ _ _) as [isWaste newPairs].
  destruct isWaste; cbn [negb f2_success]; [assumption|].
  rewrite search2_eq. cbn [f2_success]. rewrite Hs. reflexivity.
Qed.

Lemma fold_sticky (fuel' pos : nat) (l : list nat) :
  forall st, f2_success st = true ->
    f2_success (fold_left (tryItem2 fuel' neighbors2 neededTable neededCount pos) l st) = true.
Proof.
  induction l as [|item l IH]; intros st Hs; [assumption|].
  cbn [fold_left]. apply IH. apply tryItem2_sticky. assumption.
Qed.

Lemma search2_quiet (fuel : nat) :
  forall pos st, f2_found st = quietFlag ->
    f2_found (search2 fuel neighbors2 neededTable neededCount pos st) = quietFlag.
Proof.
  induction fuel as [|fuel' IH]; intros pos st Hq; rewrite search2_eq;
    destruct (f2_success st); try assumption; rewrite Hq, Load_quiet;
    cbn [f2_found f2_pairsCovered f2_arr2 f2_used2 f2_result f2_success];
    destruct (pos =? numItems);
    try (destruct (f2_pairsCovered st =? neededCount); reflexivity); try reflexivity.
  apply (fold_left_inv (fun cur => f2_found cur = quietFlag)); [|reflexivity].
  intros cur item _ Hcur. unfold tryItem2.
  destruct (get false (f2_used2 cur) item); [assumption|].
  destruct (scanWaste _ _ _ _ _ _) as [isWaste newPairs].
  destruct isWaste; cbn [negb f2_found]; [assumption|].
  apply IH. assumption.
Qed.

Definition extends (pos : nat) (target arr : list nat) : Prop :=
  forall i, i < pos -> get 0 target i = get 0 arr i.

Lemma target_free (pos : nat) (target arr : list nat) (used : list bool) :
  isArrangement numItems target -> partialArr pos arr used -> extends pos target arr ->
  pos < numItems ->
  get 0 target pos < numItems /\ get false used (get 0 target pos) = false.
Proof.
  intros (Hl & Hnd & Hr) (_ & _ & _ & _ & Hused) Hext Hpos.
  assert (Hlt : get 0 target pos < numItems).
  { rewrite List.Forall_forall in Hr. apply Hr, get_In. lia. }
  split; [assumption|].
  destruct (get false used (get 0 target pos)) eqn:Hu; [|reflexivity].
  apply (Hused _ Hlt) in Hu. destruct Hu as (i & Hi & He).
  rewrite <- (Hext i Hi) in He.
  apply (proj1 (List.NoDup_nth target 0) Hnd) in He; lia.
Qed.

Lemma search2_complete (fuel : nat) :
  forall pos st target,
    pos <= numItems -> numItems - pos <= fuel ->
    inv2 neighbors2 neededTable pos st -> f2_found st = quietFlag ->
    good2 neighbors2 neededTable neededCount target ->
    extends pos target (f2_arr2 st) ->
    f2_success (search2 fuel neighbors2 neededTable neededCount pos st) = true.
Proof.
  induction fuel as [|fuel' IH]; intros pos st target Hpos Hfuel Hinv Hq Hgood Hext;
    rewrite search2_eq; destruct (f2_success st) eqn:Hs; try assumption;
    rewrite Hq, Load_quiet;
    cbn [f2_found f2_pairsCovered f2_arr2 f2_used2 f2_result f2_success];
    pose proof Hinv as (Hpart & Hneed & Hpc); pose proof Hgood as (Htarget & Hall & Hcount);
    destruct (Nat.eqb_spec pos numItems) as [Heq|Hne].
  1, 3: (subst pos; rewrite Hpc, Hcount, Nat.eqb_refl; reflexivity).
  - lia.
  - assert (Hlt : pos < numItems) by lia.
    set (st1 := mkFrame2 (f2_arr2 st) (f2_used2 st) (f2_pairsCovered st) (f2_result st)
                         false quietFlag).
    assert (Hinv1 : inv2 neighbors2 neededTable pos st1) by exact Hinv.
    destruct (target_free pos target _ _ Htarget Hpart Hext Hlt) as [Htlt Htfree].
    set (t := get 0 target pos) in *.
    assert (Hsplit : range 0 numItems = range 0 t ++ t :: range (S t) numItems).
    { rewrite (range_split 0 t numItems) by lia. f_equal. apply range_cons. assumption. }
    rewrite Hsplit, fold_left_app. cbn [fold_left].
    set (cur := fold_left (tryItem2 fuel' neighbors2 neededTable neededCount pos)
                          (range 0 t) st1).
    apply fold_sticky.
    assert (Hcur : frame2 neighbors2 neededTable neededCount pos st1 cur
                   /\ f2_found cur = quietFlag).
    { apply (fold_left_inv
               (fun c => frame2 neighbors2 neededTable neededCount pos st1 c
                         /\ f2_found c = quietFlag)).
      - intros c item Hin [Hf Hcq]. split.
        + apply (tryItem2_spec neighbors2 neededTable neededCount fuel' pos st1
                   (search2_spec neighbors2 neededTable neededCount fuel') Hlt Hinv1);
            [|assumption].
          apply in_range. apply in_range in Hin. lia.
        + unfold tryItem2. destruct (get false (f2_used2 c) item); [assumption|].
          destruct (scanWaste _ _ _ _ _ _) as [isWaste newPairs].
          destruct isWaste; cbn [negb f2_found]; [assumption|].
          apply search2_quiet. assumption.
      - split; [|reflexivity]. apply frame2_refl; [intros H; discriminate H|].
        exact (proj1 Hpart). }
    destruct Hcur as [(Hok & Hused & Hcov & Hlen & Hsame) Hcq].
    destruct (f2_success cur) eqn:Hsc; [apply tryItem2_sticky; assumption|].
    unfold tryItem2. cbn [st1 f2_used2 f2_arr2 f2_pairsCovered] in Hused, Hcov, Hsame.
    rewrite Hused, Htfree.
    assert (Hext' : extends (S pos) target (<[pos := t]> (f2_arr2 cur))).
    { intros i Hi. rewrite get_insert by lia.
      destruct (decide (pos = i)) as [<-|Hni]; [reflexivity|].
      rewrite Hsame by lia. apply Hext. lia. }
    rewrite (scanWaste_complete neededTable (<[pos := t]> (f2_arr2 cur)) pos t
               (get [] neighbors2 pos)).
    2: { intros q Hq'. fold (backNbrs neighbors2 pos) in Hq'.
         pose proof (backNbrs_lt _ _ _ Hq') as Hqlt.
         rewrite <- (Hext' q) by lia. unfold t. apply Hall; assumption. }
    cbn [negb f2_arr2 f2_used2 f2_pairsCovered f2_result f2_success f2_found Nat.add].
    fold (backNbrs neighbors2 pos).
    apply (IH (pos + 1) _ target); [lia|lia| |exact Hcq|exact Hgood|].
    + replace (pos + 1) with (S pos) by lia.
      destruct Hpart as (Hl0 & Hu0 & Hrest).
      assert (Hpc' : partialArr pos (f2_arr2 cur) (f2_used2 st)).
      { apply (partialArr_frame pos (f2_arr2 st)); [split; auto|assumption..]. }
      split; [|split]; cbn [f2_arr2 f2_used2 f2_pairsCovered].
      * apply partialArr_extend; assumption.
      * apply allNeeded_extend; [|lia|].
        -- apply (allNeeded_frame neighbors2 neededTable pos (f2_arr2 st)); assumption.
        -- intros q Hq'. pose proof (backNbrs_lt _ _ _ Hq') as Hqlt.
           rewrite <- (Hext' q) by lia. unfold t. apply Hall; assumption.
      * cbn [backCount]. rewrite Hcov, Hpc. reflexivity.
    + replace (pos + 1) with (S pos) by lia. exact Hext'.
Qed.

End Complete2.

(** What a second arrangement has to do: put every edge of the shape on a
    needed pair. *)
Definition fits (shape2 : nat) (neededTable : Table) (target : list nat) : Prop :=
  isArrangement numItems target
  /\ forall u v, In (u, v) (shapeEdges shape2) ->
       tget neededTable (get 0 target v) (get 0 target u) = true.

Lemma fits_good (shape2 : nat) (neededTable : Table) (target : list nat) :
  shape2 < 4 -> fits shape2 neededTable target ->
  good2 (get [] allNeighbors shape2) neededTable numEdges target.
Proof.
  intros Hs [Harr Hall]. split; [assumption|]. split.
  - intros p q Hp Hq. apply Hall. apply backNbrs_edge; assumption.
  - apply shape_backCount. assumption.
Qed.

Lemma searchArr2_quiet (shape2 : nat) (neededTable : Table) (neededCount : nat) :
  snd (searchArr2 shape2 neededTable neededCount quietFlag) = quietFlag.
Proof.
  unfold searchArr2. cbn [snd]. apply search2_quiet. reflexivity.
Qed.

Lemma searchArr2_finds (shape2 : nat) (neededTable : Table) (target : list nat) :
  shape2 < 4 -> fits shape2 neededTable target ->
  fst (fst (searchArr2 shape2 neededTable numEdges quietFlag)) = true.
Proof.
  intros Hs Hfit. unfold searchArr2. cbn [fst].
  apply (search2_complete (get [] allNeighbors shape2) neededTable numEdges numItems 0 _ target).
  - apply Nat.le_0_l.
  - lia.
  - split; [|split].
    + split; [apply length_replicate|]. split; [apply length_replicate|].
      split; [intros; lia|]. split; [intros; lia|].
      intros item Hitem. cbn [f2_used2]. rewrite get_replicate by assumption.
      split; [discriminate|]. intros (i & Hi & _). lia.
    + intros p q Hp. lia.
    + reflexivity.
  - reflexivity.
  - apply fits_good; assumption.
  - intros i Hi. lia.
Qed.

(** ** [searchArr1Worker] *)

Section Complete1.

Variable shape0 shape1 : nat.
Variable pairs0Table : Table.

(** Either nothing happened to the flag and the channel, or one solution
    was sent and the flag is set. *)
Definition sentOne (sent : list Solution) (st' : Frame1) : Prop :=
  isSet (f1_found st') = true /\ exists sol, f1_sent st' = sent ++ [sol].

Definition quietOrSent (sent : list Solution) (st' : Frame1) : Prop :=
  (f1_found st' = quietFlag /\ f1_sent st' = sent) \/ sentOne sent st'.

Lemma tryShapes2_progress (neededTable : Table) (neededCount : nat) (shapes : list nat) :
  forall st, f1_found st = quietFlag ->
    quietOrSent (f1_sent st) (tryShapes2 shapes shape0 shape1 neededTable neededCount st).
Proof.
  induction shapes as [|s shapes IH]; intros st Hq; cbn [tryShapes2].
  - left. auto.
  - rewrite Hq, Load_quiet.
    pose proof (searchArr2_quiet s neededTable neededCount) as Hfl.
    destruct (searchArr2 s neededTable neededCount quietFlag) as [[success a2] fl2].
    cbn [snd] in Hfl. subst fl2. destruct success.
    + cbn [CompareAndSwap quietFlag isSet pending hd orb negb tl f1_found f1_sent].
      right. split; [reflexivity|]. eexists. reflexivity.
    + apply (IH (mkFrame1 (f1_arr1 st) (f1_used1 st) (f1_localCount st) quietFlag
                          (f1_sent st))). reflexivity.
Qed.

Lemma tryShapes2_complete (neededTable : Table) (neededCount : nat) (s2 : nat)
    (shapes : list nat) :
  fst (fst (searchArr2 s2 neededTable neededCount quietFlag)) = true ->
  forall st, In s2 shapes -> f1_found st = quietFlag ->
    sentOne (f1_sent st) (tryShapes2 shapes shape0 shape1 neededTable neededCount st).
Proof.
  intros Hfind. induction shapes as [|s shapes IH]; intros st Hin Hq; [destruct Hin|].
  cbn [tryShapes2]. rewrite Hq, Load_quiet.
  pose proof (searchArr2_quiet s neededTable neededCount) as Hfl.
  destruct (searchArr2 s neededTable neededCount quietFlag) as [[success a2] fl2] eqn:Hs.
  cbn [snd] in Hfl. subst fl2. destruct success.
  - cbn [CompareAndSwap quietFlag isSet pending hd orb negb tl f1_found f1_sent].
    split; [reflexivity|]. eexists. reflexivity.
  - destruct Hin as [->|Hin]; [rewrite Hs in Hfind; discriminate Hfind|].
    apply (IH (mkFrame1 (f1_arr1 st) (f1_used1 st) (f1_localCount st) quietFlag
                        (f1_sent st))); [assumption|reflexivity].
Qed.

Lemma tryItem1_set (fuel' pos : nat) (cur : Frame1) (item : nat) :
  isSet (f1_found cur) = true ->
  f1_sent (tryItem1 shape0 shape1 pairs0Table fuel' pos cur item) = f1_sent cur
  /\ isSet (f1_found (tryItem1 shape0 shape1 pairs0Table fuel' pos cur item)) = true.
Proof.
  intros Hset. unfold tryItem1. destruct (get false (f1_used1 cur) item); [auto|].
  destruct (scanOverlap _ _ _ _ _); cbn [negb f1_sent f1_found]; [auto|].
  match goal with
  | |- context [search1 ?f _ _ _ ?p ?s] =>
      destruct (search1_set shape0 shape1 pairs0Table f p s Hset) as (_ & _ & H1 & H2)
  end.
  auto.
Qed.

Lemma fold_set (fuel' pos : nat) (sent : list Solution) (l : list nat) :
  forall cur, sentOne sent cur ->
    sentOne sent (fold_left (tryItem1 shape0 shape1 pairs0Table fuel' pos) l cur).
Proof.
  induction l as [|item l IH]; intros cur Hc; [assumption|].
  cbn [fold_left]. apply IH. destruct Hc as [Hset (sol & Hsent)].
  destruct (tryItem1_set fuel' pos cur item Hset) as [H1 H2].
  split; [assumption|]. exists sol. rewrite H1. assumption.
Qed.

Lemma search1_progress (fuel : nat) :
  forall pos st, f1_found st = quietFlag ->
    quietOrSent (f1_sent st) (search1 fuel shape0 shape1 pairs0Table pos st).
Proof.
  induction fuel as [|fuel' IH]; intros pos st Hq; rewrite search1_eq;
    rewrite Hq, Load_quiet; cbn [f1_arr1 f1_used1 f1_localCount f1_found f1_sent];
    destruct (pos =? numItems).
  1, 3: (destruct (neededPairs pairs0Table (buildPairsTable shape1 (f1_arr1 st)))
           as [neededTable neededCount];
         apply (tryShapes2_progress neededTable neededCount (range shape1 4)
                  (mkFrame1 (f1_arr1 st) (f1_used1 st) (S (f1_localCount st)) quietFlag
                            (f1_sent st))); reflexivity).
  - left. auto.
  - apply (fold_left_inv (quietOrSent (f1_sent st))); [|left; auto].
    intros cur item _ [[Hcq Hcs]|Hsent].
    + unfold tryItem1. destruct (get false (f1_used1 cur) item); [left; auto|].
      destruct (scanOverlap _ _ _ _ _); cbn [negb f1_sent f1_found]; [left; auto|].
      match goal with
      | |- context [search1 _ _ _ _ ?p ?s] =>
          destruct (IH p s Hcq) as [[H1 H2]|[H1 (sol & H2)]]
      end.
      * left. cbn [f1_sent f1_found] in *. rewrite H1, H2. auto.
      * right. split; cbn [f1_sent f1_found] in *; [assumption|].
        exists sol. rewrite H2, Hcs. reflexivity.
    + right. apply (fold_set fuel' pos (f1_sent st) [item] cur Hsent).
Qed.

Lemma scanOverlap_none (arr1 : list nat) (pos item : nat) (nbrs : list nat) :
  (forall q, In q (List.filter (fun q => q <? pos) nbrs) ->
     tget pairs0Table item (get 0 arr1 q) = false) ->
  scanOverlap pairs0Table arr1 pos item nbrs = false.
Proof.
  induction nbrs as [|nPos nbrs IH]; intros Hall; cbn [scanOverlap]; [reflexivity|].
  cbn [List.filter] in Hall. destruct (nPos <? pos).
  - rewrite (Hall nPos (or_introl eq_refl)). apply IH. intros q Hq. apply Hall. right.
    assumption.
  - apply IH. assumption.
Qed.

(** A first arrangement the worker must not prune and at whose leaf the
    second search succeeds. *)
Definition noOverlap (target : list nat) : Prop :=
  forall p q, p < numItems -> In q (backNbrs (get [] allNeighbors shape1) p) ->
    tget pairs0Table (get 0 target p) (get 0 target q) = false.

Definition leafFinds (target : list nat) : Prop :=
  exists s2, shape1 <= s2 < 4
    /\ fst (fst (searchArr2 s2
                   (fst (neededPairs pairs0Table (buildPairsTable shape1 target)))
                   (snd (neededPairs pairs0Table (buildPairsTable shape1 target)))
                   quietFlag)) = true.

Lemma extends_full (target arr : list nat) :
  length target = numItems -> length arr = numItems -> extends numItems target arr ->
  arr = target.
Proof.
  intros Ht Ha Hext. apply (nth_ext arr target 0 0); [congruence|].
  intros i Hi. symmetry. apply Hext. lia.
Qed.

Lemma search1_complete (fuel : nat) :
  forall pos st target,
    pos <= numItems -> numItems - pos <= fuel ->
    partialArr pos (f1_arr1 st) (f1_used1 st) -> f1_found st = quietFlag ->
    isArrangement numItems target -> noOverlap target -> leafFinds target ->
    extends pos target (f1_arr1 st) ->
    sentOne (f1_sent st) (search1 fuel shape0 shape1 pairs0Table pos st).
Proof.
  induction fuel as [|fuel' IH];
    intros pos st target Hpos Hfuel Hpart Hq Htarget Hno Hleaf Hext;
    rewrite search1_eq; rewrite Hq, Load_quiet;
    cbn [f1_arr1 f1_used1 f1_localCount f1_found f1_sent];
    destruct (Nat.eqb_spec pos numItems) as [Heq|Hne].
  1, 3: (subst pos;
         rewrite (extends_full target (f1_arr1 st) (proj1 Htarget) (proj1 Hpart) Hext);
         destruct Hleaf as (s2 & Hs2 & Hfind);
         destruct (neededPairs pairs0Table (buildPairsTable shape1 target))
           as [neededTable neededCount]; cbn [fst snd] in Hfind;
         apply (tryShapes2_complete neededTable neededCount s2 (range shape1 4) Hfind
                  (mkFrame1 target (f1_used1 st) (S (f1_localCount st)) quietFlag
                            (f1_sent st))); [apply in_range; lia|reflexivity]).
  - lia.
  - assert (Hlt : pos < numItems) by lia.
    set (st1 := mkFrame1 (f1_arr1 st) (f1_used1 st) (f1_localCount st) quietFlag
                         (f1_sent st)).
    assert (Hp1 : partialArr pos (f1_arr1 st1) (f1_used1 st1)) by exact Hpart.
    destruct (target_free pos target _ _ Htarget Hpart Hext Hlt) as [Htlt Htfree].
    set (t := get 0 target pos) in *.
    assert (Hsplit : range 0 numItems = range 0 t ++ t :: range (S t) numItems).
    { rewrite (range_split 0 t numItems) by lia. f_equal. apply range_cons. assumption. }
    rewrite Hsplit, fold_left_app. cbn [fold_left].
    set (cur := fold_left (tryItem1 shape0 shape1 pairs0Table fuel' pos) (range 0 t) st1).
    apply fold_set.
    assert (Hcur : loop1 shape0 shape1 pairs0Table pos st1 cur
                   /\ quietOrSent (f1_sent st) cur).
    { split.
      - apply (fold_left_inv (loop1 shape0 shape1 pairs0Table pos st1)).
        + intros c item Hin Hc.
          apply (tryItem1_spec shape0 shape1 pairs0Table fuel' pos st1
                   (search1_spec shape0 shape1 pairs0Table fuel') Hlt Hp1);
            [|assumption].
          apply in_range. apply in_range in Hin. lia.
        + unfold loop1, sentBy. pose proof (proj1 Hpart). auto 10.
      - apply (fold_left_inv (quietOrSent (f1_sent st))); [|left; auto].
        intros c item _ [[Hcq Hcs]|Hsent].
        + unfold tryItem1. destruct (get false (f1_used1 c) item); [left; auto|].
          destruct (scanOverlap _ _ _ _ _); cbn [negb f1_sent f1_found]; [left; auto|].
          match goal with
          | |- context [search1 ?f _ _ _ ?p ?s] =>
              destruct (search1_progress f p s Hcq) as [[H1 H2]|[H1 (sol & H2)]]
          end.
          * left. cbn [f1_sent f1_found] in *. rewrite H1, H2. auto.
          * right. split; cbn [f1_sent f1_found] in *; [assumption|].
            exists sol. rewrite H2, Hcs. reflexivity.
        + right. apply (fold_set fuel' pos (f1_sent st) [item] c Hsent). }
    destruct Hcur as [(Hused & Hlen & Hsame & _) [[Hcq Hcs]|Hsent]];
      [|apply (fold_set fuel' pos (f1_sent st) [t] cur Hsent)].
    cbn [st1 f1_used1 f1_arr1] in Hused, Hsame.
    unfold tryItem1. rewrite Hused, Htfree.
    assert (Hext' : extends (S pos) target (<[pos := t]> (f1_arr1 cur))).
    { intros i Hi. rewrite get_insert by lia.
      destruct (decide (pos = i)) as [<-|Hni]; [reflexivity|].
      rewrite Hsame by lia. apply Hext. lia. }
    rewrite scanOverlap_none.
    2: { intros q Hq'. fold (backNbrs (get [] allNeighbors shape1) pos) in Hq'.
         pose proof (backNbrs_lt _ _ _ Hq') as Hqlt.
         rewrite <- (Hext' q) by lia. unfold t. apply Hno; assumption. }
    cbn [negb f1_arr1 f1_used1 f1_localCount f1_found f1_sent].
    set (stb := mkFrame1 (<[pos := t]> (f1_arr1 cur)) (<[t := true]> (f1_used1 st))
                         (f1_localCount cur) (f1_found cur) (f1_sent cur)).
    assert (Hb : sentOne (f1_sent stb) (search1 fuel' shape0 shape1 pairs0Table (pos + 1) stb)).
    { apply (IH (pos + 1) stb target); try assumption; [lia|lia| |].
      - replace (pos + 1) with (S pos) by lia. cbn [stb f1_arr1 f1_used1].
        apply partialArr_extend; [|lia|assumption|assumption].
        apply (partialArr_frame pos (f1_arr1 st)); assumption.
      - replace (pos + 1) with (S pos) by lia. exact Hext'. }
    destruct Hb as [Hset (sol & Hsol)]. cbn [stb f1_sent] in Hsol.
    split; cbn [f1_found f1_sent]; [assumption|].
    exists sol. rewrite Hsol, Hcs. reflexivity.
Qed.

End Complete1.

(** ** Three times twenty-six is seventy-eight

    A pair of items as [allPairs] lists it, smaller item first. *)
Definition norm (p : nat * nat) : nat * nat :=
  if fst p <? snd p then p else (snd p, fst p).

Definition image (arr : list nat) (e : nat * nat) : nat * nat :=
  norm (get 0 arr (fst e), get 0 arr (snd e)).

(** The pairs a table marks. *)
Definition marked (table : Table) : list (nat * nat) :=
  List.filter (fun p => tget table (fst p) (snd p)) allPairs.

Lemma NoDup_app_inv {A : Type} (l k : list A) :
  List.NoDup (l ++ k) ->
  List.NoDup l /\ List.NoDup k /\ forall x, In x l -> In x k -> False.
Proof.
  induction l as [|a l IH]; cbn [app]; intros H.
  - split; [constructor|]. split; [assumption|]. intros x [].
  - inversion H as [|a' l' Hnin Hnd]; subst. destruct (IH Hnd) as (H1 & H2 & H3).
    split; [|split; [assumption|]].
    + constructor; [|assumption]. intros Hin. apply Hnin, in_or_app. left. assumption.
    + intros x [->|Hx] Hk; [apply Hnin, in_or_app; right; assumption|].
      apply (H3 x); assumption.
Qed.

Lemma allPairs_length : length allPairs = 3 * numEdges.
Proof. vm_compute. reflexivity. Qed.

Lemma image_cases (arr : list nat) (u v : nat) :
  image arr (u, v) = (get 0 arr u, get 0 arr v) /\ get 0 arr u < get 0 arr v
  \/ image arr (u, v) = (get 0 arr v, get 0 arr u) /\ get 0 arr v <= get 0 arr u.
Proof.
  unfold image, norm. cbn [fst snd].
  destruct (Nat.ltb_spec (get 0 arr u) (get 0 arr v)); [left|right]; auto.
Qed.

Lemma image_allPairs (arr : list nat) (u v : nat) :
  isArrangement numItems arr -> u < v < numItems -> In (image arr (u, v)) allPairs.
Proof.
  intros (Hl & Hnd & Hr) Huv. rewrite List.Forall_forall in Hr.
  assert (Hu : get 0 arr u < numItems) by (apply Hr, get_In; lia).
  assert (Hv : get 0 arr v < numItems) by (apply Hr, get_In; lia).
  assert (Hne : get 0 arr u <> get 0 arr v).
  { intros He. apply (proj1 (List.NoDup_nth arr 0) Hnd) in He; lia. }
  destruct (image_cases arr u v) as [[-> H]|[-> H]]; apply in_allPairs; lia.
Qed.

Lemma covers_image (E : list (nat * nat)) (arr : list nat) (x y : nat) :
  x < y -> covers (pairSet E arr) x y -> In (x, y) (map (image arr) E).
Proof.
  intros Hxy [H|H]; unfold pairSet in H; apply in_map_iff in H;
    destruct H as ([u v] & He & Hin); cbn [fst snd] in He; injection He as Hu Hv;
    apply in_map_iff; exists (u, v); (split; [|assumption]);
    destruct (image_cases arr u v) as [[-> Hc]|[-> Hc]]; f_equal; lia.
Qed.

Lemma image_covers (E : list (nat * nat)) (arr : list nat) (x y : nat) :
  In (x, y) (map (image arr) E) -> covers (pairSet E arr) x y.
Proof.
  intros H. apply in_map_iff in H. destruct H as ([u v] & He & Hin).
  unfold covers, pairSet. rewrite !in_map_iff.
  destruct (image_cases arr u v) as [[Hi Hc]|[Hi Hc]]; rewrite Hi in He;
    injection He as Hx Hy; [left|right]; exists (u, v); cbn [fst snd];
    (split; [congruence|assumption]).
Qed.

Lemma in_marked (table : Table) (x y : nat) :
  In (x, y) (marked table) <-> x < y < numItems /\ tget table x y = true.
Proof.
  unfold marked. rewrite filter_In, in_allPairs. cbn [fst snd]. reflexivity.
Qed.

Lemma get_arr_lt (arr : list nat) (u : nat) :
  isArrangement numItems arr -> u < numItems -> get 0 arr u < numItems.
Proof.
  intros (Hl & _ & Hr) Hu. rewrite List.Forall_forall in Hr. apply Hr, get_In. lia.
Qed.

Section Counting.

Variable pairs0Table : Table.
Variable shape1 shape2 : nat.
Variable arr1 arr2 : list nat.

Hypothesis Hs1 : shape1 < 4.
Hypothesis Hs2 : shape2 < 4.
Hypothesis Hsym : forall x y, x < numItems -> y < numItems ->
  tget pairs0Table x y = tget pairs0Table y x.
Hypothesis Hcount : length (marked pairs0Table) <= numEdges.
Hypothesis Harr1 : isArrangement numItems arr1.
Hypothesis Harr2 : isArrangement numItems arr2.
Hypothesis Hcover : forall x y, x < y < numItems ->
  tget pairs0Table x y = true
  \/ covers (pairSet (shapeEdges shape1) arr1) x y
  \/ covers (pairSet (shapeEdges shape2) arr2) x y.

Lemma three_disjoint :
  List.NoDup (marked pairs0Table
              ++ map (image arr1) (shapeEdges shape1)
              ++ map (image arr2) (shapeEdges shape2)).
Proof.
  eapply List.NoDup_incl_NoDup; [apply allPairs_NoDup| |].
  - rewrite !length_app, allPairs_length.
    rewrite !length_map, !shape_length by assumption. lia.
  - intros [x y] Hin. pose proof (proj1 (in_allPairs x y) Hin) as Hxy.
    rewrite !in_app_iff. destruct (Hcover x y Hxy) as [H|[H|H]].
    + left. apply in_marked. auto.
    + right. left. apply covers_image; [lia|assumption].
    + right. right. apply covers_image; [lia|assumption].
Qed.

Lemma first_no_overlap (u v : nat) :
  In (u, v) (shapeEdges shape1) -> tget pairs0Table (get 0 arr1 v) (get 0 arr1 u) = false.
Proof.
  intros Hin. destruct (shape_edges shape1 u v Hs1 Hin) as [Huv _].
  destruct (NoDup_app_inv _ _ three_disjoint) as (_ & _ & Hdis).
  destruct (tget pairs0Table (get 0 arr1 v) (get 0 arr1 u)) eqn:Ht; [exfalso|reflexivity].
  pose proof (image_allPairs arr1 u v Harr1 Huv) as Hall.
  apply (Hdis (image arr1 (u, v))).
  - destruct (image arr1 (u, v)) as [x y] eqn:Him. apply in_marked.
    apply in_allPairs in Hall. split; [assumption|].
    destruct (image_cases arr1 u v) as [[Hi _]|[Hi _]]; rewrite Him in Hi;
      injection Hi as -> ->; [|assumption].
    rewrite Hsym by (apply get_arr_lt; [assumption|lia]). assumption.
  - apply in_or_app. left. apply in_map. assumption.
Qed.

Lemma table1_spec (x y : nat) :
  tget (buildPairsTable shape1 arr1) x y = true
  <-> covers (pairSet (shapeEdges shape1) arr1) x y.
Proof.
  apply buildPairsTable_spec. intros u v Hin.
  destruct (shape_edges shape1 u v Hs1 Hin) as [Huv _].
  split; apply get_arr_lt; (assumption || lia).
Qed.

Lemma second_needed (u v : nat) :
  In (u, v) (shapeEdges shape2) ->
  In (image arr2 (u, v)) (stillNeeded pairs0Table (buildPairsTable shape1 arr1)).
Proof.
  intros Hin. destruct (shape_edges shape2 u v Hs2 Hin) as [Huv _].
  destruct (NoDup_app_inv _ _ three_disjoint) as (_ & H12 & Hdis0).
  destruct (NoDup_app_inv _ _ H12) as (_ & _ & Hdis1).
  pose proof (image_allPairs arr2 u v Harr2 Huv) as Hall.
  assert (Hin2 : In (image arr2 (u, v)) (map (image arr2) (shapeEdges shape2)))
    by (apply in_map; assumption).
  destruct (image arr2 (u, v)) as [x y] eqn:Him.
  apply filter_In. split; [assumption|]. cbn [fst snd].
  apply in_allPairs in Hall.
  destruct (tget pairs0Table x y) eqn:H0.
  { exfalso. apply (Hdis0 (x, y)); [apply in_marked; auto|].
    apply in_or_app. right. assumption. }
  destruct (tget (buildPairsTable shape1 arr1) x y) eqn:H1; [exfalso|reflexivity].
  apply (Hdis1 (x, y)); [|assumption].
  apply covers_image; [lia|]. apply table1_spec. assumption.
Qed.

Lemma second_fits :
  fits shape2 (fst (neededPairs pairs0Table (buildPairsTable shape1 arr1))) arr2.
Proof.
  split; [assumption|]. intros u v Hin.
  destruct (neededPairs_spec pairs0Table (buildPairsTable shape1 arr1)) as (_ & _ & HN).
  apply HN. pose proof (second_needed u v Hin) as H.
  destruct (image_cases arr2 u v) as [[Hi _]|[Hi _]]; rewrite Hi in H; auto.
Qed.

Lemma needed_count :
  snd (neededPairs pairs0Table (buildPairsTable shape1 arr1)) = numEdges.
Proof.
  destruct (neededPairs_spec pairs0Table (buildPairsTable shape1 arr1)) as (-> & _ & _).
  destruct (NoDup_app_inv _ _ three_disjoint) as (_ & H12 & _).
  destruct (NoDup_app_inv _ _ H12) as (_ & Hnd2 & _).
  assert (Hlen : length (map (image arr2) (shapeEdges shape2)) = numEdges).
  { rewrite length_map. apply shape_length. assumption. }
  rewrite <- Hlen. apply Nat.le_antisymm.
  - apply List.NoDup_incl_length.
    + apply List.NoDup_filter, allPairs_NoDup.
    + intros [x y] Hin. apply filter_In in Hin. destruct Hin as [Hin Hf].
      apply in_allPairs in Hin. cbn [fst snd] in Hf.
      apply andb_true_iff in Hf. destruct Hf as [Hf0 Hf1].
      apply negb_true_iff in Hf0, Hf1.
      destruct (Hcover x y Hin) as [H|[H|H]].
      * rewrite H in Hf0. discriminate Hf0.
      * apply table1_spec in H. rewrite H in Hf1. discriminate Hf1.
      * apply covers_image; [lia|assumption].
  - apply List.NoDup_incl_length; [exact Hnd2|].
    intros p Hp. apply in_map_iff in Hp. destruct Hp as ([u v] & <- & Hin).
    apply second_needed. assumption.
Qed.

End Counting.

(** A first table as the search takes it for granted: symmetric, and
    marking no more pairs than a shape has edges. *)
Definition exactTable (pairs0Table : Table) : Prop :=
  (forall x y, x < numItems -> y < numItems ->
     tget pairs0Table x y = tget pairs0Table y x)
  /\ length (marked pairs0Table) <= numEdges.

Lemma worker_finds (shape0 shape1 shape2 : nat) (pairs0Table : Table)
    (arr1 arr2 : list nat) (resultChan : list Solution) :
  exactTable pairs0Table -> validSolution pairs0Table (mkSolution shape0 shape1 shape2 arr1 arr2) ->
  sentOne resultChan
    (searchArr1Worker shape0 shape1 (get 0 arr1 0) pairs0Table quietFlag resultChan).
Proof.
  intros [Hsym Hcount] (Hsh & Ha1 & Ha2 & Hcov). cbn [Solver13.shape1 Solver13.shape2
    Solver13.arr1 Solver13.arr2] in Hsh, Ha1, Ha2, Hcov.
  assert (Hs1 : shape1 < 4) by lia. assert (Hs2 : shape2 < 4) by lia.
  assert (Hfirst : get 0 arr1 0 < numItems).
  { apply get_arr_lt; [assumption|unfold numItems; lia]. }
  unfold searchArr1Worker. cbv zeta.
  set (st0 := mkFrame1 (<[0 := get 0 arr1 0]> (replicate numItems 0))
                       (<[get 0 arr1 0 := true]> (replicate numItems false))
                       0 quietFlag resultChan).
  change (sentOne (f1_sent st0) (search1 numItems shape0 shape1 pairs0Table 1 st0)).
  apply (search1_complete shape0 shape1 pairs0Table numItems 1 st0 arr1).
  - unfold numItems. lia.
  - lia.
  - cbn [st0 f1_arr1 f1_used1].
    apply (partialArr_extend 0 (replicate numItems 0) (replicate numItems false)).
    + split; [apply length_replicate|]. split; [apply length_replicate|].
      split; [intros; lia|]. split; [intros; lia|].
      intros item Hitem. rewrite get_replicate by assumption.
      split; [discriminate|]. intros (i & Hi & _). lia.
    + unfold numItems. lia.
    + assumption.
    + apply get_replicate. assumption.
  - reflexivity.
  - assumption.
  - intros p q Hp Hq. apply (first_no_overlap pairs0Table shape1 shape2 arr1 arr2); try assumption.
    apply backNbrs_edge; assumption.
  - exists shape2. split; [assumption|].
    rewrite (needed_count pairs0Table shape1 shape2 arr1 arr2) by assumption.
    apply (searchArr2_finds shape2 _ arr2); [assumption|].
    apply second_fits; assumption.
  - intros i Hi. assert (i = 0) as -> by lia. cbn [st0 f1_arr1].
    symmetry. apply get_insert_eq. rewrite length_replicate. unfold numItems. lia.
Qed.

(** ** The loops of [main] *)

Definition sentP (chan : list Solution) (st : Flag * list Solution) : Prop :=
  isSet (fst st) = true /\ exists sol, snd st = chan ++ [sol].

Definition quietOrSentP (chan : list Solution) (st : Flag * list Solution) : Prop :=
  (fst st = quietFlag /\ snd st = chan) \/ sentP chan st.

Lemma Load_sentP (chan : list Solution) (fl : Flag) (sent : list Solution) :
  sentP chan (fl, sent) -> fst (Load fl) = true /\ sentP chan (snd (Load fl), sent).
Proof.
  intros [Hset Hsol]. cbn [fst snd] in Hset, Hsol.
  destruct (Load_set fl Hset) as [H1 H2]. split; [assumption|]. split; assumption.
Qed.

Section Loops.

Variable shape0 : nat.
Variable pairs0Table : Table.

Definition workerStep (shape1 : nat) (st : Flag * list Solution) (firstItem : nat)
    : Flag * list Solution :=
  let w := searchArr1Worker shape0 shape1 firstItem pairs0Table (fst st) (snd st) in
  (f1_found w, f1_sent w).

Lemma workerStep_sent (shape1 : nat) (chan : list Solution) (st : Flag * list Solution)
    (firstItem : nat) :
  sentP chan st -> sentP chan (workerStep shape1 st firstItem).
Proof.
  intros [Hset (sol & Hsol)]. unfold workerStep, searchArr1Worker. cbv zeta.
  match goal with
  | |- context [search1 ?f _ _ _ ?p ?s] =>
      destruct (search1_set shape0 shape1 pairs0Table f p s Hset) as (_ & _ & H1 & H2)
  end.
  split; cbn [fst snd]; [assumption|]. exists sol. rewrite H1. assumption.
Qed.

Lemma workerStep_progress (shape1 : nat) (chan : list Solution)
    (st : Flag * list Solution) (firstItem : nat) :
  quietOrSentP chan st -> quietOrSentP chan (workerStep shape1 st firstItem).
Proof.
  intros [[Hq Hs]|Hsent]; [|right; apply workerStep_sent; assumption].
  unfold workerStep, searchArr1Worker. cbv zeta. rewrite Hq, Hs.
  match goal with
  | |- context [search1 ?f _ _ _ ?p ?s] =>
      destruct (search1_progress shape0 shape1 pairs0Table f p s eq_refl)
        as [[H1 H2]|[H1 H2]]
  end.
  - left. split; assumption.
  - right. split; assumption.
Qed.

Lemma workers_sent (shape1 : nat) (chan : list Solution) (l : list nat) :
  forall st, sentP chan st -> sentP chan (fold_left (workerStep shape1) l st).
Proof.
  induction l as [|f l IH]; intros st H; [assumption|].
  cbn [fold_left]. apply IH, workerStep_sent. assumption.
Qed.

Lemma runWorkers_progress (shape1 : nat) (chan : list Solution)
    (st : Flag * list Solution) :
  quietOrSentP chan st -> quietOrSentP chan (runWorkers shape0 shape1 pairs0Table st).
Proof.
  intros H. unfold runWorkers.
  apply (fold_left_inv (quietOrSentP chan) (workerStep shape1)); [|assumption].
  intros cur f _ Hc. apply workerStep_progress. assumption.
Qed.

Hypothesis Hexact : exactTable pairs0Table.

Lemma runWorkers_complete (shape1 shape2 : nat) (arr1 arr2 : list nat)
    (chan : list Solution) :
  validSolution pairs0Table (mkSolution shape0 shape1 shape2 arr1 arr2) ->
  sentP chan (runWorkers shape0 shape1 pairs0Table (quietFlag, chan)).
Proof.
  intros Hv. pose proof Hv as (_ & Ha1 & _).
  cbn [Solver13.arr1] in Ha1.
  assert (Hfirst : get 0 arr1 0 < numItems).
  { apply get_arr_lt; [assumption|unfold numItems; lia]. }
  unfold runWorkers. fold (workerStep shape1).
  set (t := get 0 arr1 0) in *.
  assert (Hsplit : range 0 numItems = range 0 t ++ t :: range (S t) numItems).
  { rewrite (range_split 0 t numItems) by lia. f_equal. apply range_cons. assumption. }
  rewrite Hsplit, fold_left_app. cbn [fold_left]. apply workers_sent.
  assert (Hcur : quietOrSentP chan (fold_left (workerStep shape1) (range 0 t)
                                              (quietFlag, chan))).
  { apply (fold_left_inv (quietOrSentP chan) (workerStep shape1)); [|left; auto].
    intros cur f _ Hc. apply workerStep_progress. assumption. }
  destruct Hcur as [[Hq Hs]|Hsent]; [|apply workerStep_sent; assumption].
  unfold workerStep at 1. cbv zeta. rewrite Hq, Hs.
  destruct (worker_finds shape0 shape1 shape2 pairs0Table arr1 arr2 chan Hexact Hv)
    as [H1 H2].
  split; assumption.
Qed.

Lemma shape1Loop_sent (chan : list Solution) (shapes : list nat)
    (st : Flag * list Solution) :
  sentP chan st -> sentP chan (shape1Loop shapes shape0 pairs0Table st).
Proof.
  intros H. destruct shapes as [|s shapes]; [assumption|]. cbn [shape1Loop].
  destruct st as [fl sent]. cbn [fst snd]. destruct (Load_sentP chan fl sent H) as [H1 H2].
  destruct (Load fl) as [isFound fl1]. cbn [fst snd] in H1, H2. subst isFound. assumption.
Qed.

Lemma shape1Loop_progress (chan : list Solution) (shapes : list nat) :
  forall st, quietOrSentP chan st ->
    quietOrSentP chan (shape1Loop shapes shape0 pairs0Table st).
Proof.
  induction shapes as [|s shapes IH]; intros st H; [assumption|].
  destruct H as [[Hq Hs]|Hsent]; [|right; apply shape1Loop_sent; assumption].
  cbn [shape1Loop]. destruct st as [fl sent]. cbn [fst snd] in *. subst fl sent.
  rewrite Load_quiet.
  destruct (runWorkers_progress s chan (quietFlag, chan)) as [[Hq Hs]|Hsent];
    [left; auto| |].
  - destruct (runWorkers shape0 s pairs0Table (quietFlag, chan)) as [fl2 sent2].
    cbn [fst snd] in *. subst fl2 sent2. rewrite Load_quiet. apply IH. left. auto.
  - destruct (runWorkers shape0 s pairs0Table (quietFlag, chan)) as [fl2 sent2].
    cbn [fst snd]. destruct (Load_sentP chan fl2 sent2 Hsent) as [H1 H2].
    destruct (Load fl2) as [isFound fl3]. cbn [fst snd] in H1, H2. subst isFound.
    right. assumption.
Qed.

Lemma shape1Loop_finds (shape1 shape2 : nat) (arr1 arr2 : list nat)
    (chan : list Solution) (shapes : list nat) :
  validSolution pairs0Table (mkSolution shape0 shape1 shape2 arr1 arr2) ->
  In shape1 shapes ->
  sentP chan (shape1Loop shapes shape0 pairs0Table (quietFlag, chan)).
Proof.
  intros Hv. induction shapes as [|s shapes IH]; intros Hin; [destruct Hin|].
  cbn [shape1Loop fst snd]. rewrite Load_quiet.
  assert (Hrun : sentP chan (runWorkers shape0 s pairs0Table (quietFlag, chan))
                 \/ (s <> shape1
                     /\ runWorkers shape0 s pairs0Table (quietFlag, chan) = (quietFlag, chan))).
  { destruct (Nat.eq_dec s shape1) as [->|Hne].
    - left. apply (runWorkers_complete shape1 shape2 arr1 arr2). assumption.
    - destruct (runWorkers_progress s chan (quietFlag, chan)) as [[Hq Hs]|Hsent];
        [left; auto| |left; assumption].
      right. split; [assumption|].
      destruct (runWorkers shape0 s pairs0Table (quietFlag, chan)). cbn [fst snd] in *.
      congruence. }
  destruct Hrun as [Hsent|[Hne Hrun]].
  - destruct (runWorkers shape0 s pairs0Table (quietFlag, chan)) as [fl2 sent2].
    cbn [fst snd]. destruct (Load_sentP chan fl2 sent2 Hsent) as [H1 H2].
    destruct (Load fl2) as [isFound fl3]. cbn [fst snd] in H1, H2. subst isFound.
    assumption.
  - rewrite Hrun. cbn [fst snd]. rewrite Load_quiet. apply IH.
    destruct Hin as [Heq|Hin]; [contradiction|assumption].
Qed.

End Loops.

(** The table of a shape under identity is such a table. *)
Lemma identity_exact (shape0 : nat) :
  shape0 < 4 -> exactTable (buildPairsTable shape0 (identity numItems)).
Proof.
  intros Hs. split.
  - intros x y _ _.
    destruct (tget (buildPairsTable shape0 (identity numItems)) x y) eqn:Hxy;
      destruct (tget (buildPairsTable shape0 (identity numItems)) y x) eqn:Hyx;
      try reflexivity; exfalso.
    + apply pairs0_identity in Hxy; [|assumption].
      assert (H : covers (pairSet (shapeEdges shape0) (identity numItems)) y x)
        by (destruct Hxy; [right|left]; assumption).
      apply pairs0_identity in H; [|assumption]. congruence.
    + apply pairs0_identity in Hyx; [|assumption].
      assert (H : covers (pairSet (shapeEdges shape0) (identity numItems)) x y)
        by (destruct Hyx; [right|left]; assumption).
      apply pairs0_identity in H; [|assumption]. congruence.
  - rewrite <- (shape_length shape0 Hs),
      <- (length_map (image (identity numItems)) (shapeEdges shape0)).
    apply List.NoDup_incl_length; [apply List.NoDup_filter, allPairs_NoDup|].
    intros [x y] Hin. apply in_marked in Hin. destruct Hin as [Hxy Ht].
    apply covers_image; [lia|]. apply pairs0_identity; assumption.
Qed.

Lemma valid_of_covering (sol : Solution) :
  coveringSolution sol ->
  validSolution (buildPairsTable (Solver13.shape0 sol) (identity numItems))
    (mkSolution (Solver13.shape0 sol) (Solver13.shape1 sol) (Solver13.shape2 sol)
                (Solver13.arr1 sol) (Solver13.arr2 sol)).
Proof.
  intros (H01 & H12 & H2 & Ha1 & Ha2 & Hcov).
  split; [cbn [Solver13.shape1 Solver13.shape2]; lia|].
  split; [assumption|]. split; [assumption|].
  intros x y Hxy. cbn [Solver13.shape1 Solver13.shape2 Solver13.arr1 Solver13.arr2].
  specialize (Hcov x y Hxy). rewrite !FourthProps.covers_app in Hcov.
  destruct Hcov as [H|[H|H]]; [left|right; left|right; right]; try assumption.
  apply pairs0_identity; [lia|assumption].
Qed.

Lemma shape0Loop_sent (chan : list Solution) (shapes : list nat)
    (st : Flag * list Solution) :
  sentP chan st -> sentP chan (shape0Loop shapes st).
Proof.
  intros H. destruct shapes as [|s shapes]; [assumption|]. cbn [shape0Loop].
  destruct st as [fl sent]. cbn [fst snd]. destruct (Load_sentP chan fl sent H) as [H1 H2].
  destruct (Load fl) as [isFound fl1]. cbn [fst snd] in H1, H2. subst isFound. assumption.
Qed.

Lemma shape0Loop_finds (sol : Solution) (chan : list Solution) (shapes : list nat) :
  coveringSolution sol -> In (Solver13.shape0 sol) shapes ->
  sentP chan (shape0Loop shapes (quietFlag, chan)).
Proof.
  intros Hc. pose proof (valid_of_covering sol Hc) as Hv.
  pose proof Hc as (H01 & H12 & H2 & _).
  induction shapes as [|s shapes IH]; intros Hin; [destruct Hin|].
  cbn [shape0Loop fst snd]. rewrite Load_quiet.
  destruct (Nat.eq_dec s (Solver13.shape0 sol)) as [->|Hne].
  - apply shape0Loop_sent.
    assert (H0 : Solver13.shape0 sol < 4) by lia.
    apply (shape1Loop_finds _ _ (identity_exact _ H0) _ _ _ _ chan _ Hv).
    apply in_range. lia.
  - destruct (shape1Loop_progress s (buildPairsTable s (identity numItems)) chan
                (range s 4) (quietFlag, chan)) as [[Hq Hs]|Hsent];
      [left; auto| |apply shape0Loop_sent; assumption].
    destruct (shape1Loop (range s 4) s (buildPairsTable s (identity numItems))
                         (quietFlag, chan)) as [fl2 sent2].
    cbn [fst snd] in Hq, Hs. subst fl2 sent2. apply IH.
    destruct Hin as [Heq|Hin]; [contradiction|assumption].
Qed.

(** ** Checks by computation *)

Definition arrangementb (n : nat) (arr : list nat) : bool :=
  (length arr =? n) && forallb (fun i => existsb (Nat.eqb i) arr) (range 0 n).

Lemma arrangementb_spec (n : nat) (arr : list nat) :
  arrangementb n arr = true -> isArrangement n arr.
Proof.
  intros H. apply andb_true_iff in H. destruct H as [Hl Hs].
  apply Nat.eqb_eq in Hl. apply GraphProps.isPerm_isArrangement.
  apply GraphFacts.isPerm_of_surjective; [assumption|].
  intros i Hi. rewrite forallb_forall in Hs.
  specialize (Hs i ltac:(apply in_range; lia)). apply existsb_exists in Hs.
  destruct Hs as (j & Hj & He). apply Nat.eqb_eq in He. subst. assumption.
Qed.

Definition fitsb (shape2 : nat) (neededTable : Table) (arr : list nat) : bool :=
  forallb (fun e => tget neededTable (get 0 arr (snd e)) (get 0 arr (fst e)))
          (shapeEdges shape2).

Lemma fitsb_spec (shape2 : nat) (neededTable : Table) (arr : list nat) :
  fitsb shape2 neededTable arr = true ->
  forall u v, In (u, v) (shapeEdges shape2) ->
    tget neededTable (get 0 arr v) (get 0 arr u) = true.
Proof.
  intros H u v Hin. unfold fitsb in H. rewrite forallb_forall in H.
  apply (H (u, v) Hin).
Qed.

Definition symb (table : Table) : bool :=
  forallb (fun x => forallb (fun y => Bool.eqb (tget table x y) (tget table y x))
                            (range 0 numItems))
          (range 0 numItems).

Lemma symb_spec (table : Table) :
  symb table = true ->
  forall x y, x < numItems -> y < numItems -> tget table x y = tget table y x.
Proof.
  intros H x y Hx Hy. unfold symb in H. rewrite forallb_forall in H.
  specialize (H x ltac:(apply in_range; lia)). rewrite forallb_forall in H.
  apply Bool.eqb_prop. apply H. apply in_range. lia.
Qed.

Definition coverb (pairs0Table : Table) (shape1 : nat) (arr1 : list nat)
    (shape2 : nat) (arr2 : list nat) : bool :=
  forallb (fun p => tget pairs0Table (fst p) (snd p)
                    || existsb (pairEqb p) (map (image arr1) (shapeEdges shape1))
                    || existsb (pairEqb p) (map (image arr2) (shapeEdges shape2)))
          allPairs.

Lemma coverb_spec (pairs0Table : Table) (shape1 : nat) (arr1 : list nat)
    (shape2 : nat) (arr2 : list nat) :
  coverb pairs0Table shape1 arr1 shape2 arr2 = true ->
  forall x y, x < y < numItems ->
    tget pairs0Table x y = true
    \/ covers (pairSet (shapeEdges shape1) arr1) x y
    \/ covers (pairSet (shapeEdges shape2) arr2) x y.
Proof.
  intros H x y Hxy. unfold coverb in H. rewrite forallb_forall in H.
  specialize (H (x, y) (proj2 (in_allPairs x y) Hxy)). cbn [fst snd] in H.
  apply orb_true_iff in H. destruct H as [H|H].
  - apply orb_true_iff in H. destruct H as [H|H]; [left; assumption|].
    right. left. apply image_covers, existsb_pairEqb. assumption.
  - right. right. apply image_covers, existsb_pairEqb. assumption.
Qed.

(** X19.  With the flag left alone, [searchArr2] finds an arrangement
    whenever one exists: if some arrangement of the 13 items puts every edge
    of the shape on a pair marked in [neededTable], the search called with
    [neededCount = 26] reports success, leaves the flag untouched, and the
    array it returns is such an arrangement. *)
Theorem searchArr2_complete (shape2 : nat) (neededTable : Table) (target : list nat) :
  shape2 < 4 ->
  isArrangement numItems target ->
  (forall u v, In (u, v) (shapeEdges shape2) ->
     tget neededTable (get 0 target v) (get 0 target u) = true) ->
  exists result,
    searchArr2 shape2 neededTable numEdges quietFlag = (true, result, quietFlag)
    /\ isArrangement numItems result
    /\ forall u v, In (u, v) (shapeEdges shape2) ->
         tget neededTable (get 0 result v) (get 0 result u) = true.
Proof.
  intros Hs Harr Hall.
  pose proof (searchArr2_finds shape2 neededTable target Hs (conj Harr Hall)) as Hfind.
  pose proof (searchArr2_quiet shape2 neededTable numEdges) as Hq.
  pose proof (searchArr2_good shape2 neededTable numEdges quietFlag) as Hgood.
  destruct (searchArr2 shape2 neededTable numEdges quietFlag) as [[success result] fl].
  cbn [fst snd] in Hfind, Hq. subst success fl.
  exists result. split; [reflexivity|].
  destruct (Hgood result quietFlag eq_refl) as (Hres & Hneed & _).
  split; [assumption|]. intros u v Hin.
  destruct (shape_edges shape2 u v Hs Hin) as [Huv Hback].
  apply Hneed; [lia|assumption].
Qed.

Lemma searchArr2_complete_witness :
  exists result,
    searchArr2 0 (fst demoNeeded) numEdges quietFlag = (true, result, quietFlag)
    /\ isArrangement numItems result
    /\ forall u v, In (u, v) (shapeEdges 0) ->
         tget (fst demoNeeded) (get 0 result v) (get 0 result u) = true.
Proof.
  apply (searchArr2_complete 0 (fst demoNeeded) demoArr2).
  - lia.
  - apply arrangementb_spec. vm_compute. reflexivity.
  - apply fitsb_spec. vm_compute. reflexivity.
Defined.

(** X20.  The zero-overlap pruning of the worker loses nothing.  Let
    [pairs0Table] be symmetric and mark at most 26 pairs.  If arrangements
    [arr1] on [shape1] and [arr2] on [shape2], [shape1 <= shape2 < 4], cover
    together with the marked pairs all 78 pairs, then the worker started on
    [arr1]'s first item with the flag left alone sets the flag and sends
    exactly one solution, which is again such a cover with the same shape1
    and first item. *)
Theorem searchArr1Worker_complete (shape0 shape1 shape2 : nat) (pairs0Table : Table)
    (arr1 arr2 : list nat) (resultChan : list Solution) :
  (forall x y, x < numItems -> y < numItems ->
     tget pairs0Table x y = tget pairs0Table y x) ->
  length (marked pairs0Table) <= numEdges ->
  shape1 <= shape2 < 4 ->
  isArrangement numItems arr1 -> isArrangement numItems arr2 ->
  (forall x y, x < y < numItems ->
     tget pairs0Table x y = true
     \/ covers (pairSet (shapeEdges shape1) arr1) x y
     \/ covers (pairSet (shapeEdges shape2) arr2) x y) ->
  let w := searchArr1Worker shape0 shape1 (get 0 arr1 0) pairs0Table quietFlag resultChan in
  isSet (f1_found w) = true
  /\ exists sol, f1_sent w = resultChan ++ [sol]
       /\ Solver13.shape1 sol = shape1
       /\ get 0 (Solver13.arr1 sol) 0 = get 0 arr1 0
       /\ validSolution pairs0Table sol.
Proof.
  intros Hsym Hcount Hsh Ha1 Ha2 Hcov w.
  assert (Hv : validSolution pairs0Table (mkSolution shape0 shape1 shape2 arr1 arr2)).
  { split; [exact Hsh|]. split; [exact Ha1|]. split; [exact Ha2|]. exact Hcov. }
  destruct (worker_finds shape0 shape1 shape2 pairs0Table arr1 arr2 resultChan
              (conj Hsym Hcount) Hv) as [Hset (sol & Hsol)].
  fold w in Hset, Hsol. split; [assumption|]. exists sol. split; [assumption|].
  destruct (searchArr1Worker_spec shape0 shape1 (get 0 arr1 0) pairs0Table quietFlag
              resultChan) as [_ Hsent].
  { apply get_arr_lt; [assumption|unfold numItems; lia]. }
  fold w in Hsent. clearbody w.
  destruct Hsent as [E|(sol' & E & _ & _ & V1 & Vf & Vok)].
  - rewrite E in Hsol. apply (f_equal (@length Solution)) in Hsol.
    rewrite length_app in Hsol. cbn [length] in Hsol. lia.
  - rewrite E in Hsol. apply app_inj_tail in Hsol. destruct Hsol as [_ <-]. auto.
Qed.

Lemma searchArr1Worker_complete_witness :
  let w := searchArr1Worker 0 0 (get 0 (identity numItems) 0) demoTable0 quietFlag [] in
  isSet (f1_found w) = true
  /\ exists sol, f1_sent w = [] ++ [sol]
       /\ Solver13.shape1 sol = 0
       /\ get 0 (Solver13.arr1 sol) 0 = get 0 (identity numItems) 0
       /\ validSolution demoTable0 sol.
Proof.
  apply (searchArr1Worker_complete 0 0 0 demoTable0 (identity numItems) demoArr2 []).
  - apply symb_spec. vm_compute. reflexivity.
  - apply Nat.leb_le. vm_compute. reflexivity.
  - lia.
  - apply arrangementb_spec. vm_compute. reflexivity.
  - apply arrangementb_spec. vm_compute. reflexivity.
  - apply coverb_spec. vm_compute. reflexivity.
Defined.

(** X21.  [main] decides the question it is run for, when its workers are
    scheduled one after the other: what it prints as a solution has
    [shape0 <= shape1 <= shape2 < 4] and covers, with identity on shape0, all
    78 pairs; and when it prints "No solution found." there is no such
    cover for any two arrangements on any such shapes. *)
Theorem main_decides :
  match main with
  | Some sol => coveringSolution sol
  | None => forall sol, ~ coveringSolution sol
  end.
Proof.
  unfold main.
  destruct (shape0Loop_spec (range 0 4) (fun s H => proj2 (proj1 (in_range 0 4 s) H))
              (quietFlag, [])) as [_ B].
  assert (C : forall sol, coveringSolution sol ->
                sentP [] (shape0Loop (range 0 4) (quietFlag, []))).
  { intros sol Hc. apply (shape0Loop_finds sol [] (range 0 4) Hc).
    destruct Hc as (H01 & H12 & H2 & _). apply in_range. lia. }
  set (st := shape0Loop (range 0 4) (quietFlag, [])) in *. clearbody st.
  destruct st as [fl sent]. cbn [fst snd app] in B |- *.
  unfold sentP in C. cbn [fst snd app] in C.
  destruct (fst (Load fl)) eqn:HL.
  - destruct B as [E|(sol & E & Hok & _)]; rewrite E; cbn [head]; [|exact Hok].
    intros sol Hc. destruct (C sol Hc) as [_ (sol' & E')]. rewrite E in E'.
    discriminate E'.
  - intros sol Hc. destruct (C sol Hc) as [Hset _].
    destruct (Load_set fl Hset) as [H1 _]. rewrite H1 in HL. discriminate HL.
Qed.

End Solver13Complete.

(** * The N = 20 backtracker stores only covers *)

Module Solver20Props.

Import Hex Solver20 FourthProps.

(** ** Bit vectors of covered pairs *)

Definition countTrue (l : list bool) : nat := length (List.filter (fun v => v) l).

Lemma countTrue_le (l : list bool) : countTrue l <= length l.
Proof. apply List.filter_length_le. Qed.

Lemma countTrue_full (l : list bool) (i : nat) :
  countTrue l = length l -> i < length l -> get false l i = true.
Proof.
  unfold countTrue, get. revert i. induction l as [|v l IH]; intros i Hc Hi; cbn [length] in *.
  - lia.
  - cbn [List.filter] in Hc. pose proof (List.filter_length_le (fun v => v) l) as Hle.
    destruct v; cbn [length] in Hc; [|lia].
    destruct i as [|i]; [reflexivity|]. cbn [nth]. apply IH; lia.
Qed.

Lemma countTrue_insert (l : list bool) (i : nat) :
  i < length l -> get false l i = false ->
  countTrue (<[i := true]> l) = S (countTrue l).
Proof.
  unfold countTrue, get. revert i. induction l as [|v l IH]; intros i Hi Hg; cbn [length] in *.
  - lia.
  - destruct i as [|i]; cbn [nth] in Hg.
    + subst v. reflexivity.
    + change (<[S i := true]> (v :: l)) with (v :: <[i := true]> l).
      cbn [List.filter]. destruct v; cbn [length]; rewrite IH by (assumption || lia);
        reflexivity.
Qed.

Lemma markPairs_length (cs : list bool) (l : list nat) (v : bool) :
  length (markPairs cs l v) = length cs.
Proof.
  unfold markPairs. revert cs. induction l as [|pi l IH]; intros cs; cbn [fold_left];
    [reflexivity|]. rewrite IH. apply length_insert.
Qed.

Lemma get_markPairs (cs : list bool) (l : list nat) (v : bool) (i : nat) :
  (forall pi, In pi l -> pi < length cs) ->
  get false (markPairs cs l v) i = if existsb (Nat.eqb i) l then v else get false cs i.
Proof.
  unfold markPairs. revert cs. induction l as [|pi l IH]; intros cs Hlt; cbn [fold_left existsb];
    [reflexivity|].
  rewrite IH by (intros pj Hj; rewrite length_insert; apply Hlt; right; assumption).
  destruct (existsb (Nat.eqb i) l) eqn:Hex; [rewrite orb_true_r; reflexivity|].
  rewrite orb_false_r. rewrite get_insert by (apply Hlt; left; reflexivity).
  destruct (decide (pi = i)) as [->|Hne]; [rewrite Nat.eqb_refl; reflexivity|].
  destruct (Nat.eqb_spec i pi); [congruence|reflexivity].
Qed.

Lemma existsb_eqb_In (i : nat) (l : list nat) : existsb (Nat.eqb i) l = true <-> In i l.
Proof.
  rewrite existsb_exists. split.
  - intros (j & Hj & He). apply Nat.eqb_eq in He. subst. assumption.
  - intros H. exists i. split; [assumption|apply Nat.eqb_refl].
Qed.

Lemma countTrue_markPairs (l : list nat) :
  forall cs, List.NoDup l ->
    (forall pi, In pi l -> pi < length cs /\ get false cs pi = false) ->
    countTrue (markPairs cs l true) = countTrue cs + length l.
Proof.
  unfold markPairs. induction l as [|pi l IH]; intros cs Hnd Hall; cbn [fold_left length].
  - lia.
  - inversion Hnd as [|pi' l' Hnin Hnd']; subst.
    destruct (Hall pi (or_introl eq_refl)) as [Hlt Hf].
    rewrite IH; [rewrite countTrue_insert by assumption; lia|assumption|].
    intros pj Hj. destruct (Hall pj (or_intror Hj)) as [Hjlt Hjf].
    rewrite length_insert. split; [assumption|].
    rewrite get_insert_ne by (intros ->; contradiction). assumption.
Qed.

Lemma markPairs_undo (cs : list bool) (l : list nat) :
  (forall pi, In pi l -> pi < length cs /\ get false cs pi = false) ->
  markPairs (markPairs cs l true) l false = cs.
Proof.
  intros Hall. apply (nth_ext _ _ false false); [rewrite !markPairs_length; reflexivity|].
  intros i Hi. rewrite !markPairs_length in Hi.
  change (get false (markPairs (markPairs cs l true) l false) i = get false cs i).
  rewrite get_markPairs by (intros pi Hpi; rewrite markPairs_length; apply Hall; assumption).
  rewrite get_markPairs by (intros pi Hpi; apply Hall; assumption).
  destruct (existsb (Nat.eqb i) l) eqn:Hex; [|reflexivity].
  apply existsb_eqb_In in Hex. symmetry. apply Hall. assumption.
Qed.

Lemma copySlice_same {A : Type} (dst src : list A) :
  length src = length dst -> copySlice dst src = src.
Proof.
  intros H. unfold copySlice. rewrite <- H, firstn_all.
  rewrite H, skipn_all. apply app_nil_r.
Qed.

(** ** The solver's tables *)

Definition natNoDupb (l : list nat) : bool :=
  (fix go (l : list nat) : bool :=
     match l with
     | [] => true
     | x :: l' => negb (existsb (Nat.eqb x) l') && go l'
     end) l.

Lemma natNoDupb_sound (l : list nat) : natNoDupb l = true -> List.NoDup l.
Proof.
  unfold natNoDupb. induction l as [|x l IH]; intros H; [constructor|].
  apply andb_true_iff in H. destruct H as [Hx Hl].
  constructor; [|apply IH; assumption].
  intros Hin. apply existsb_eqb_In in Hin. rewrite Hin in Hx. discriminate.
Qed.

(** What the search needs of a solver: the tables of [NewSolver], whatever
    the overlap limits. *)
Record wellFormed (s : Solver) : Prop := mkWF {
  wf_pairs : numPairs s = N * (N - 1) / 2;
  wf_table : pairTable s = FindFourth.pairTable N;
  wf_edges : edgesOK N (edges s);
  wf_adj : forall slot t, In t (get [] (slotAdj s) slot) <-> adjacent (edges s) slot t;
  wf_nodup : forall slot, slot < N -> List.NoDup (get [] (slotAdj s) slot)
}.

Definition edgesOKb (edges : list Edge) : bool :=
  forallb (fun e => (a e <? N) && (b e <? N) && negb (a e =? b e)) edges.

Lemma edgesOKb_sound (edges : list Edge) : edgesOKb edges = true -> edgesOK N edges.
Proof.
  intros H. unfold edgesOKb in H. rewrite forallb_forall in H.
  apply List.Forall_forall. intros e He. specialize (H e He).
  apply andb_true_iff in H. destruct H as [H Hne]. apply andb_true_iff in H.
  destruct H as [Ha Hb]. apply Nat.ltb_lt in Ha, Hb. apply negb_true_iff in Hne.
  apply Nat.eqb_neq in Hne. auto.
Qed.

Lemma NewSolver_slotAdj : slotAdj NewSolver = FindFourth.fullAdj N (edges NewSolver).
Proof. unfold NewSolver, FindFourth.fullAdj. cbn [slotAdj edges]. reflexivity. Qed.

Lemma NewSolver_wellFormed : wellFormed NewSolver.
Proof.
  assert (Hok : edgesOK N (edges NewSolver)).
  { apply edgesOKb_sound. vm_compute. reflexivity. }
  constructor.
  - reflexivity.
  - reflexivity.
  - exact Hok.
  - rewrite NewSolver_slotAdj.
    exact (proj1 (adjacency_tables_aux N (edges NewSolver) Hok)).
  - intros slot Hslot. apply natNoDupb_sound.
    assert (H : forallb (fun slot => natNoDupb (get [] (slotAdj NewSolver) slot)) (range 0 N)
                = true) by (vm_compute; reflexivity).
    rewrite forallb_forall in H. apply H. apply in_range. lia.
Qed.

Lemma SetMaxOverlap_wellFormed (s : Solver) (limits : list Z) :
  wellFormed s -> wellFormed (SetMaxOverlap s limits).
Proof. intros [H1 H2 H3 H4 H5]. constructor; assumption. Qed.

Lemma insert_undo {A : Type} (d : A) (l : list A) (i : nat) (v : A) :
  i < length l -> <[i := get d l i]> (<[i := v]> l) = l.
Proof.
  intros Hi. rewrite list_insert_insert_eq. apply list_insert_id.
  unfold get. destruct (nth_lookup_or_length l i d) as [Hs|Hl]; [assumption|lia].
Qed.

Lemma In_take {A : Type} (x : A) (n : nat) (l : list A) : In x (take n l) -> In x l.
Proof. intros H. rewrite <- (take_drop n l). apply in_or_app. left. assumption. Qed.

Lemma storeFold (newParentArrs : list (list Z)) (m : nat) (solution : list (list Z)) :
  m < length solution ->
  let res := fold_left (fun solution i => <[i + 1 := get [] newParentArrs i]> solution)
                       (range 0 m) solution in
  length res = length solution
  /\ get [] res 0 = get [] solution 0
  /\ forall i, i < m -> get [] res (i + 1) = get [] newParentArrs i.
Proof.
  induction m as [|m IH]; intros Hlen; cbv zeta.
  - rewrite range_nil by lia. cbn [fold_left].
    split; [reflexivity|]. split; [reflexivity|]. intros i Hi. lia.
  - rewrite range_succ_r by lia. rewrite fold_left_app. cbn [fold_left].
    destruct IH as (H1 & H2 & H3); [lia|].
    split; [rewrite length_insert; assumption|].
    split; [rewrite get_insert_ne by lia; assumption|].
    intros i Hi. rewrite get_insert by (rewrite H1; lia).
    destruct (decide (m + 1 = i + 1)) as [He|Hne].
    + replace i with m by lia. reflexivity.
    + apply H3. lia.
Qed.

Lemma storeSolution_spec (solution newParentArrs : list (list Z)) :
  length newParentArrs < length solution ->
  length (storeSolution solution newParentArrs) = length solution
  /\ get [] (storeSolution solution newParentArrs) 0 = get [] solution 0
  /\ forall i, i < length newParentArrs ->
       get [] (storeSolution solution newParentArrs) (i + 1) = get [] newParentArrs i.
Proof. intros H. apply (storeFold newParentArrs (length newParentArrs) solution H). Qed.

Section Sound.

Variable R : Type.
Variable Shuffle : R -> list nat -> list nat * R.
Variable s : Solver.
Hypothesis Hwf : wellFormed s.
Hypothesis Hshuffle : forall r l, Permutation (fst (Shuffle r l)) l.

(** A stored row read as an arrangement of the items. *)
Definition rowArr (row : list Z) : list nat := map Z.to_nat row.

Definition isRow (row : list Z) : Prop :=
  isArrangement N (rowArr row) /\ row = map Z.of_nat (rowArr row).

(** What a stored solution is worth to the caller of [solve] at [level]:
    the parents' rows are kept, the rows below are arrangements, and every
    pair is one the caller had covered or one the rows below cover. *)
Definition Good (level : nat) (parentArrs : list (list Z)) (covered : list bool)
    (sol : list (list Z)) : Prop :=
  (forall i, i < level -> get [] sol (i + 1) = get [] parentArrs i)
  /\ (forall i, level < i < K -> isRow (get [] sol i))
  /\ (forall x y, x < y < N ->
        get false covered (pairIndex s x y) = true
        \/ exists i, level < i < K
             /\ covers (pairSet (slotPairs (edges s)) (rowArr (get [] sol i))) x y).

Definition post (level : nat) (parentArrs : list (list Z)) (covered : list bool)
    (w w' : World R) : Prop :=
  length (w_solution w') = length (w_solution w)
  /\ get [] (w_solution w') 0 = get [] (w_solution w) 0
  /\ (isSet (w_found w) = true ->
      w_solution w' = w_solution w /\ isSet (w_found w') = true)
  /\ (w_solution w' = w_solution w
      \/ (isSet (w_found w') = true /\ Good level parentArrs covered (w_solution w')))
  /\ (pending (w_found w) = [] ->
      pending (w_found w') = []
      /\ (isSet (w_found w') = true ->
          isSet (w_found w) = true \/ Good level parentArrs covered (w_solution w'))).

Lemma post_refl (level : nat) (parentArrs : list (list Z)) (covered : list bool)
    (w : World R) : post level parentArrs covered w w.
Proof. unfold post. auto 10. Qed.

Lemma post_same (level : nat) (parentArrs : list (list Z)) (covered : list bool)
    (w w' : World R) :
  w_solution w' = w_solution w -> w_found w' = w_found w ->
  post level parentArrs covered w w'.
Proof. intros Hs Hf. unfold post. rewrite Hs, Hf. auto 10. Qed.

Lemma post_trans (level : nat) (parentArrs : list (list Z)) (covered : list bool)
    (w1 w2 w3 : World R) :
  post level parentArrs covered w1 w2 -> post level parentArrs covered w2 w3 ->
  post level parentArrs covered w1 w3.
Proof.
  intros (L1 & Z1 & A1 & B1 & Q1) (L2 & Z2 & A2 & B2 & Q2). unfold post.
  split; [congruence|]. split; [congruence|]. split; [|split].
  - intros H. destruct (A1 H) as [E1 F1]. destruct (A2 F1) as [E2 F2].
    split; [congruence|assumption].
  - destruct B1 as [E1|[F1 G1]].
    + destruct B2 as [E2|[F2 G2]]; [left; congruence|right; auto].
    + destruct (A2 F1) as [E2 F2]. right. rewrite E2. auto.
  - intros H. destruct (Q1 H) as [P1 S1]. destruct (Q2 P1) as [P2 S2].
    split; [assumption|]. intros H3. destruct (S2 H3) as [H2|G3]; [|right; assumption].
    destruct (S1 H2) as [H1|G2]; [left; assumption|].
    destruct (A2 H2) as [E2 _]. right. rewrite E2. assumption.
Qed.

Lemma Load_isSet (f : Flag) : isSet f = true -> isSet (snd (Load f)) = true.
Proof. intros H. unfold Load. cbn [snd isSet]. rewrite H. reflexivity. Qed.

Lemma Load_false (f : Flag) : fst (Load f) = false -> isSet f = false.
Proof.
  unfold Load. cbn [fst]. intros H. apply orb_false_iff in H. tauto.
Qed.

Lemma Load_pending (f : Flag) :
  pending f = [] -> pending (snd (Load f)) = [] /\ isSet (snd (Load f)) = isSet f.
Proof.
  intros H. unfold Load. cbn [snd pending isSet]. rewrite H. cbn [tl hd].
  rewrite orb_false_r. auto.
Qed.

(** ** The frame and the invariant of [enumerate] *)

Definition frameOK (fr : Frame) : Prop :=
  level fr <= K - 2 /\ length (parentArrs fr) = level fr
  /\ List.NoDup (slotOrder fr) /\ length (slotOrder fr) = N
  /\ Forall (fun slot => slot < N) (slotOrder fr)
  /\ Forall (fun item => item < N) (order fr).

Definition itemAt (loc : Local) (slot : nat) : nat := Z.to_nat (get 0%Z (arr loc) slot).

Record Inv (fr : Frame) (covered : list bool) (depth : nat) (loc : Local)
    (localCovered : nat) : Prop := mkInv {
  inv_arr : length (arr loc) = N;
  inv_used : length (used loc) = N;
  inv_cs : length (coveredSet loc) = numPairs s;
  inv_filled : filledSlots loc = take depth (slotOrder fr);
  inv_item : forall slot, In slot (filledSlots loc) ->
    itemAt loc slot < N
    /\ get 0%Z (arr loc) slot = Z.of_nat (itemAt loc slot)
    /\ get false (used loc) (itemAt loc slot) = true;
  inv_empty : forall slot, slot < N -> ~ In slot (filledSlots loc) ->
    get 0%Z (arr loc) slot = (-1)%Z;
  inv_usedBy : forall item, item < N -> get false (used loc) item = true ->
    exists slot, In slot (filledSlots loc) /\ itemAt loc slot = item;
  inv_inj : forall s1 s2, In s1 (filledSlots loc) -> In s2 (filledSlots loc) ->
    itemAt loc s1 = itemAt loc s2 -> s1 = s2;
  inv_cov : forall pi, pi < numPairs s -> get false (coveredSet loc) pi = true ->
    get false covered pi = true
    \/ exists u v, In u (filledSlots loc) /\ In v (filledSlots loc)
         /\ adjacent (edges s) u v
         /\ pi = pairIndex s (itemAt loc u) (itemAt loc v);
  inv_count : localCovered = countTrue (coveredSet loc)
}.

Lemma filled_lt (fr : Frame) (covered : list bool) (depth : nat) (loc : Local) (lc : nat)
    (slot : nat) :
  frameOK fr -> Inv fr covered depth loc lc -> In slot (filledSlots loc) -> slot < N.
Proof.
  intros (_ & _ & _ & _ & Hlt & _) HI Hin. rewrite (inv_filled _ _ _ _ _ HI) in Hin.
  rewrite List.Forall_forall in Hlt. apply Hlt.
  apply (In_take _ _ _ Hin).
Qed.

(** ** Pair indices *)

Lemma pairIndex_eq (x y : nat) : pairIndex s x y = get2 0 (FindFourth.pairTable N) x y.
Proof. unfold pairIndex. rewrite (wf_table s Hwf). reflexivity. Qed.

Lemma pairIndex_lt (x y : nat) : x < N -> y < N -> x <> y -> pairIndex s x y < numPairs s.
Proof.
  intros Hx Hy Hne. rewrite pairIndex_eq, (wf_pairs s Hwf), pairTable_get by assumption.
  destruct (Nat.ltb_spec x y); [apply pairId_lt; lia|].
  destruct (Nat.ltb_spec y x); [apply pairId_lt; lia|lia].
Qed.

Lemma pairIndex_inj (x y z : nat) :
  x < N -> y < N -> z < N -> x <> y -> x <> z ->
  pairIndex s x y = pairIndex s x z -> y = z.
Proof.
  intros Hx Hy Hz Hxy Hxz. rewrite !pairIndex_eq, !pairTable_get by assumption.
  destruct (Nat.ltb_spec x y), (Nat.ltb_spec x z); intros He.
  - apply (pairId_inj N) in He; lia.
  - destruct (Nat.ltb_spec z x); [|lia]. apply (pairId_inj N) in He; lia.
  - destruct (Nat.ltb_spec y x); [|lia]. apply (pairId_inj N) in He; lia.
  - destruct (Nat.ltb_spec y x); [|lia]. destruct (Nat.ltb_spec z x); [|lia].
    apply (pairId_inj N) in He; lia.
Qed.

(** ** The scan of the adjacent slots *)

Definition scanKeep (loc : Local) (item adjSlot : nat) : bool :=
  negb (Z.eqb (get 0%Z (arr loc) adjSlot) (-1))
  && negb (get false (coveredSet loc) (pairIndex s item (itemAt loc adjSlot))).

Lemma scanAdj_pairs (loc : Local) (slot item : nat) :
  snd (scanAdj s loc slot item)
  = map (fun adjSlot => pairIndex s item (itemAt loc adjSlot))
        (List.filter (scanKeep loc item) (get [] (slotAdj s) slot)).
Proof.
  unfold scanAdj.
  match goal with
  | |- snd (fold_left ?f _ _) = _ => set (step := f)
  end.
  assert (H : forall l no np,
             snd (fold_left step l (no, np))
             = np ++ map (fun adjSlot => pairIndex s item (itemAt loc adjSlot))
                         (List.filter (scanKeep loc item) l)).
  { induction l as [|t l IH]; intros no np; cbn [fold_left List.filter].
    - cbn [snd map]. rewrite app_nil_r. reflexivity.
    - unfold step at 2, scanKeep at 1. fold (itemAt loc t).
      destruct (Z.eqb (get 0%Z (arr loc) t) (-1)); cbn [negb andb]; [apply IH|].
      cbv zeta.
      destruct (get false (coveredSet loc) (pairIndex s item (itemAt loc t)));
        cbn [negb]; [apply IH|].
      rewrite IH. cbn [map]. rewrite <- app_assoc. reflexivity. }
  rewrite H. reflexivity.
Qed.

Section Placing.

Variable fr : Frame.
Variable covered : list bool.
Variable depth : nat.
Variable loc : Local.
Variable localCovered : nat.
Hypothesis Hfr : frameOK fr.
Hypothesis HI : Inv fr covered depth loc localCovered.
Hypothesis Hdepth : depth < N.
Variable item : nat.
Hypothesis Hitem : item < N.
Hypothesis Hfree : get false (used loc) item = false.

Variable slot : nat.
Hypothesis Hslot : slot = get 0 (slotOrder fr) depth.
Variable newPairs : list nat.
Hypothesis Hpairs : newPairs = snd (scanAdj s loc slot item).

Lemma slot_lt : slot < N.
Proof.
  destruct Hfr as (_ & _ & _ & Hlen & Hlt & _). rewrite List.Forall_forall in Hlt.
  rewrite Hslot. apply Hlt, get_In. lia.
Qed.

Lemma slot_fresh : ~ In slot (filledSlots loc).
Proof.
  destruct Hfr as (_ & _ & Hnd & Hlen & _). rewrite (inv_filled _ _ _ _ _ HI).
  intros Hin. apply (In_nth _ _ 0) in Hin. destruct Hin as (i & Hi & He).
  rewrite length_take in Hi.
  assert (Hnth : nth i (take depth (slotOrder fr)) 0 = nth i (slotOrder fr) 0).
  { rewrite !nth_lookup, lookup_take_lt by lia. reflexivity. }
  rewrite Hnth in He. rewrite Hslot in He. unfold get in He.
  apply (proj1 (List.NoDup_nth (slotOrder fr) 0) Hnd) in He; lia.
Qed.

Lemma filled_next : filledSlots loc ++ [slot] = take (depth + 1) (slotOrder fr).
Proof.
  destruct Hfr as (_ & _ & _ & Hlen & _). rewrite (inv_filled _ _ _ _ _ HI).
  replace (depth + 1) with (S depth) by lia. symmetry. apply take_S_r.
  rewrite Hslot. unfold get.
  destruct (nth_lookup_or_length (slotOrder fr) depth 0) as [H|H];
    [assumption|lia].
Qed.

Lemma filled_item (t : nat) :
  t < N -> get 0%Z (arr loc) t <> (-1)%Z -> In t (filledSlots loc).
Proof.
  intros Ht Hne. destruct (in_dec Nat.eq_dec t (filledSlots loc)) as [H|H]; [assumption|].
  exfalso. apply Hne. apply (inv_empty _ _ _ _ _ HI); assumption.
Qed.

Lemma newPairs_spec (pi : nat) :
  In pi newPairs ->
  exists t, In t (filledSlots loc) /\ adjacent (edges s) slot t
            /\ pi = pairIndex s item (itemAt loc t)
            /\ pi < numPairs s /\ get false (coveredSet loc) pi = false.
Proof.
  rewrite Hpairs, scanAdj_pairs. intros Hin. apply in_map_iff in Hin.
  destruct Hin as (t & <- & Hin). apply filter_In in Hin. destruct Hin as [Hadj Hkeep].
  apply (wf_adj s Hwf) in Hadj.
  destruct (edgesOK_adjacent N (edges s) slot t (wf_edges s Hwf) Hadj) as (_ & Ht & _).
  unfold scanKeep in Hkeep. apply andb_true_iff in Hkeep. destruct Hkeep as [Hne Hcov].
  apply negb_true_iff in Hne, Hcov. apply Z.eqb_neq in Hne.
  pose proof (filled_item t Ht Hne) as Hfilled.
  destruct (inv_item _ _ _ _ _ HI t Hfilled) as (Hlt & _ & Hused).
  exists t. split; [assumption|]. split; [assumption|]. split; [reflexivity|].
  split; [|assumption]. apply pairIndex_lt; [assumption|assumption|].
  intros ->. rewrite Hused in Hfree. discriminate Hfree.
Qed.

Lemma newPairs_NoDup : List.NoDup newPairs.
Proof.
  rewrite Hpairs, scanAdj_pairs.
  apply List.NoDup_map_NoDup_ForallPairs.
  - intros t1 t2 H1 H2 He. apply filter_In in H1, H2.
    destruct H1 as [A1 K1]. destruct H2 as [A2 K2].
    apply (wf_adj s Hwf) in A1, A2.
    destruct (edgesOK_adjacent N (edges s) slot t1 (wf_edges s Hwf) A1) as (_ & Ht1 & _).
    destruct (edgesOK_adjacent N (edges s) slot t2 (wf_edges s Hwf) A2) as (_ & Ht2 & _).
    unfold scanKeep in K1, K2. apply andb_true_iff in K1, K2.
    destruct K1 as [N1 _]. destruct K2 as [N2 _].
    apply negb_true_iff in N1, N2. apply Z.eqb_neq in N1, N2.
    pose proof (filled_item t1 Ht1 N1) as F1. pose proof (filled_item t2 Ht2 N2) as F2.
    destruct (inv_item _ _ _ _ _ HI t1 F1) as (L1 & _ & U1).
    destruct (inv_item _ _ _ _ _ HI t2 F2) as (L2 & _ & U2).
    apply (inv_inj _ _ _ _ _ HI); [assumption|assumption|].
    apply (pairIndex_inj item); try assumption.
    + intros ->. rewrite U1 in Hfree. discriminate Hfree.
    + intros ->. rewrite U2 in Hfree. discriminate Hfree.
  - apply List.NoDup_filter. apply (wf_nodup s Hwf). apply slot_lt.
Qed.

Lemma itemAt_place (t : nat) :
  itemAt (place loc slot item newPairs) t = if decide (slot = t) then item else itemAt loc t.
Proof.
  unfold itemAt, place. cbn [arr].
  rewrite get_insert by (rewrite (inv_arr _ _ _ _ _ HI); apply slot_lt).
  destruct (decide (slot = t)); [apply Nat2Z.id|reflexivity].
Qed.

Lemma Inv_place :
  Inv fr covered (depth + 1) (place loc slot item newPairs)
      (localCovered + length newPairs).
Proof.
  pose proof slot_lt as Hsl. pose proof slot_fresh as Hfresh.
  assert (Hold : forall t, In t (filledSlots loc) -> slot <> t).
  { intros t Ht ->. contradiction. }
  assert (Hmark : forall pi, In pi newPairs -> pi < length (coveredSet loc)).
  { intros pi Hpi. destruct (newPairs_spec pi Hpi) as (_ & _ & _ & _ & Hlt & _).
    rewrite (inv_cs _ _ _ _ _ HI). assumption. }
  constructor.
  - cbn [place arr]. rewrite length_insert. apply (inv_arr _ _ _ _ _ HI).
  - cbn [place used]. rewrite length_insert. apply (inv_used _ _ _ _ _ HI).
  - cbn [place coveredSet]. rewrite markPairs_length. apply (inv_cs _ _ _ _ _ HI).
  - cbn [place filledSlots]. apply filled_next.
  - intros t Ht. rewrite itemAt_place. cbn [place filledSlots arr used] in *.
    apply in_app_iff in Ht.
    rewrite !get_insert
      by (rewrite ?(inv_arr _ _ _ _ _ HI), ?(inv_used _ _ _ _ _ HI); assumption).
    destruct (decide (slot = t)) as [->|Hne].
    + split; [assumption|]. split; [reflexivity|].
      destruct (decide (item = item)); [reflexivity|congruence].
    + destruct Ht as [Ht|[Ht|[]]]; [|congruence].
      destruct (inv_item _ _ _ _ _ HI t Ht) as (H1 & H2 & H3).
      split; [assumption|]. split; [assumption|].
      destruct (decide (item = itemAt loc t)); [reflexivity|assumption].
  - intros t Ht Hnin. cbn [place filledSlots arr] in *.
    rewrite in_app_iff in Hnin. rewrite get_insert_ne by (intros ->; apply Hnin; right; left; reflexivity).
    apply (inv_empty _ _ _ _ _ HI); [assumption|]. intros H. apply Hnin. left. assumption.
  - intros it Hit Hu. cbn [place used filledSlots] in *.
    rewrite get_insert in Hu by (rewrite (inv_used _ _ _ _ _ HI); assumption).
    destruct (decide (item = it)) as [<-|Hne].
    + exists slot. split; [apply in_app_iff; right; left; reflexivity|].
      rewrite itemAt_place. destruct (decide (slot = slot)); [reflexivity|congruence].
    + destruct (inv_usedBy _ _ _ _ _ HI it Hit Hu) as (t & Ht & He).
      exists t. split; [apply in_app_iff; left; assumption|].
      rewrite itemAt_place. destruct (decide (slot = t)) as [->|]; [contradiction|assumption].
  - intros s1 s2 H1 H2. cbn [place filledSlots] in H1, H2.
    apply in_app_iff in H1, H2. rewrite !itemAt_place.
    destruct (decide (slot = s1)) as [<-|N1]; destruct (decide (slot = s2)) as [<-|N2].
    + reflexivity.
    + destruct H2 as [H2|[H2|[]]]; [|congruence]. intros He.
      destruct (inv_item _ _ _ _ _ HI s2 H2) as (_ & _ & U2).
      rewrite <- He, Hfree in U2. discriminate U2.
    + destruct H1 as [H1|[H1|[]]]; [|congruence]. intros He.
      destruct (inv_item _ _ _ _ _ HI s1 H1) as (_ & _ & U1).
      rewrite He, Hfree in U1. discriminate U1.
    + destruct H1 as [H1|[H1|[]]]; [|congruence].
      destruct H2 as [H2|[H2|[]]]; [|congruence].
      apply (inv_inj _ _ _ _ _ HI); assumption.
  - intros pi Hpi Hget. cbn [place coveredSet filledSlots] in *.
    rewrite get_markPairs in Hget by exact Hmark.
    destruct (existsb (Nat.eqb pi) newPairs) eqn:Hex.
    + apply existsb_eqb_In in Hex.
      destruct (newPairs_spec pi Hex) as (t & Ht & Hadj & -> & _).
      right. exists slot, t. split; [apply in_app_iff; right; left; reflexivity|].
      split; [apply in_app_iff; left; assumption|]. split; [assumption|].
      rewrite !itemAt_place. destruct (decide (slot = slot)); [|congruence].
      destruct (decide (slot = t)) as [->|]; [contradiction|reflexivity].
    + destruct (inv_cov _ _ _ _ _ HI pi Hpi Hget) as [H|(u & v & Hu & Hv & Hadj & ->)];
        [left; assumption|].
      right. exists u, v. split; [apply in_app_iff; left; assumption|].
      split; [apply in_app_iff; left; assumption|]. split; [assumption|].
      rewrite !itemAt_place.
      destruct (decide (slot = u)) as [->|]; [contradiction|].
      destruct (decide (slot = v)) as [->|]; [contradiction|reflexivity].
  - cbn [place coveredSet]. rewrite countTrue_markPairs.
    + rewrite (inv_count _ _ _ _ _ HI). reflexivity.
    + apply newPairs_NoDup.
    + intros pi Hpi. split; [apply Hmark; assumption|].
      destruct (newPairs_spec pi Hpi) as (_ & _ & _ & _ & _ & H). assumption.
Qed.

Lemma unplace_place : unplace (place loc slot item newPairs) slot item newPairs = loc.
Proof.
  pose proof slot_lt as Hlt. pose proof slot_fresh as Hfresh.
  transitivity (mkLocal (arr loc) (used loc) (filledSlots loc) (coveredSet loc));
    [|destruct loc; reflexivity].
  unfold unplace, place. cbn [arr used filledSlots coveredSet]. f_equal.
  - rewrite <- (inv_empty _ _ _ _ _ HI slot Hlt Hfresh) at 1.
    apply insert_undo. rewrite (inv_arr _ _ _ _ _ HI). assumption.
  - rewrite <- Hfree at 1. apply insert_undo. rewrite (inv_used _ _ _ _ _ HI). assumption.
  - rewrite length_app. cbn [length].
    replace (length (filledSlots loc) + 1 - 1) with (length (filledSlots loc)) by lia.
    rewrite take_app_length. reflexivity.
  - apply markPairs_undo. intros pi Hpi.
    destruct (newPairs_spec pi Hpi) as (_ & _ & _ & _ & Hpl & Hf).
    rewrite (inv_cs _ _ _ _ _ HI). split; assumption.
Qed.

End Placing.

(** ** A full arrangement *)

Lemma get_rowArr (row : list Z) (t : nat) :
  t < length row -> get 0 (rowArr row) t = Z.to_nat (get 0%Z row t).
Proof. intros H. unfold rowArr. apply (get_map Z.to_nat 0 0%Z). assumption. Qed.

Lemma Inv_row (fr : Frame) (covered : list bool) (loc : Local) (localCovered : nat) :
  frameOK fr -> Inv fr covered N loc localCovered ->
  isRow (arr loc)
  /\ forall x y, x < y < N ->
       get false (coveredSet loc) (pairIndex s x y) = true ->
       get false covered (pairIndex s x y) = true
       \/ covers (pairSet (slotPairs (edges s)) (rowArr (arr loc))) x y.
Proof.
  intros Hfr HI. pose proof Hfr as (_ & _ & Hnd & Hlen & Hlt & _).
  pose proof (inv_arr _ _ _ _ _ HI) as Harr.
  assert (Hall : forall slot, slot < N -> In slot (filledSlots loc)).
  { assert (Hincl : incl (range 0 N) (slotOrder fr)).
    { apply List.NoDup_length_incl; [assumption|rewrite range_length; lia|].
      intros x Hx. rewrite List.Forall_forall in Hlt. apply in_range.
      specialize (Hlt x Hx). lia. }
    intros slot Hslot. rewrite (inv_filled _ _ _ _ _ HI), take_ge by lia.
    apply Hincl. apply in_range. lia. }
  assert (Hget : forall t, t < N -> get 0 (rowArr (arr loc)) t = itemAt loc t).
  { intros t Ht. apply get_rowArr. lia. }
  assert (Hrow : isArrangement N (rowArr (arr loc))).
  { split; [unfold rowArr; rewrite length_map; assumption|]. split.
    - apply (List.NoDup_nth (rowArr (arr loc)) 0). intros i j Hi Hj He.
      unfold rowArr in Hi, Hj. rewrite length_map in Hi, Hj.
      change (get 0 (rowArr (arr loc)) i = get 0 (rowArr (arr loc)) j) in He.
      rewrite !Hget in He by lia.
      apply (inv_inj _ _ _ _ _ HI); [apply Hall; lia|apply Hall; lia|assumption].
    - apply List.Forall_forall. intros x Hx. apply (In_get 0) in Hx.
      destruct Hx as (i & Hi & <-). unfold rowArr in Hi. rewrite length_map in Hi.
      rewrite Hget by lia. apply (inv_item _ _ _ _ _ HI). apply Hall. lia. }
  split.
  - split; [assumption|].
    apply (nth_ext _ _ 0%Z 0%Z); [unfold rowArr; rewrite !length_map; reflexivity|].
    intros i Hi.
    change (get 0%Z (arr loc) i = get 0%Z (map Z.of_nat (rowArr (arr loc))) i).
    rewrite (get_map Z.of_nat 0%Z 0) by (unfold rowArr; rewrite length_map; assumption).
    rewrite Hget by lia. apply (inv_item _ _ _ _ _ HI). apply Hall. lia.
  - intros x y Hxy Hc.
    destruct (inv_cov _ _ _ _ _ HI (pairIndex s x y)) as [H|(u & v & Hu & Hv & Hadj & He)];
      [apply pairIndex_lt; lia|assumption|left; assumption|].
    right. apply (pairTable_covers N (edges s) (wf_edges s Hwf) _ x y Hrow Hxy).
    destruct (edgesOK_adjacent N (edges s) u v (wf_edges s Hwf) Hadj) as (Hul & Hvl & _).
    exists u, v. split; [assumption|]. rewrite !Hget by assumption.
    rewrite <- !pairIndex_eq. symmetry. assumption.
Qed.

Lemma Good_step (fr : Frame) (covered : list bool) (loc : Local) (localCovered : nat)
    (sol : list (list Z)) :
  frameOK fr -> Inv fr covered N loc localCovered ->
  Good (level fr + 1) (parentArrs fr ++ [arr loc]) (coveredSet loc) sol ->
  Good (level fr) (parentArrs fr) covered sol.
Proof.
  intros Hfr HI (Hpre & Hrows & Hcov). pose proof Hfr as (_ & Hpl & _).
  destruct (Inv_row fr covered loc localCovered Hfr HI) as [Hrow Hmine].
  assert (Hnew : get [] sol (level fr + 1) = arr loc).
  { rewrite Hpre by lia. unfold get. rewrite app_nth2 by lia.
    rewrite Hpl, Nat.sub_diag. reflexivity. }
  split; [|split].
  - intros i Hi. rewrite Hpre by lia. unfold get. apply app_nth1. lia.
  - intros i Hi. destruct (decide (i = level fr + 1)) as [->|Hne];
      [rewrite Hnew; assumption|apply Hrows; lia].
  - intros x y Hxy. destruct (Hcov x y Hxy) as [H|(i & Hi & H)].
    + destruct (Hmine x y Hxy H) as [H'|H']; [left; assumption|].
      right. exists (level fr + 1). split; [unfold K; destruct Hfr; unfold K in *; lia|].
      rewrite Hnew. assumption.
    + right. exists i. split; [lia|assumption].
Qed.

Lemma Good_accept (fr : Frame) (covered : list bool) (loc : Local) (sol : list (list Z)) :
  frameOK fr -> Inv fr covered N loc (numPairs s) -> level fr = K - 2 -> length sol = K ->
  Good (level fr) (parentArrs fr) covered
       (storeSolution sol (parentArrs fr ++ [arr loc])).
Proof.
  intros Hfr HI Hlevel Hsol. pose proof Hfr as (_ & Hpl & _).
  destruct (Inv_row fr covered loc _ Hfr HI) as [Hrow Hmine].
  destruct (storeSolution_spec sol (parentArrs fr ++ [arr loc])) as (_ & _ & Hst).
  { rewrite length_app, Hpl, Hlevel, Hsol. cbn [length]. unfold K. lia. }
  rewrite length_app, Hpl in Hst. cbn [length] in Hst.
  assert (Hnew : get [] (storeSolution sol (parentArrs fr ++ [arr loc])) (level fr + 1)
                 = arr loc).
  { rewrite Hst by lia. unfold get. rewrite app_nth2 by lia.
    rewrite Hpl, Nat.sub_diag. reflexivity. }
  split; [|split].
  - intros i Hi. rewrite Hst by lia. unfold get. apply app_nth1. lia.
  - intros i Hi. replace i with (level fr + 1) by (unfold K in *; lia).
    rewrite Hnew. assumption.
  - intros x y Hxy.
    assert (Hc : get false (coveredSet loc) (pairIndex s x y) = true).
    { apply countTrue_full.
      - rewrite <- (inv_count _ _ _ _ _ HI), (inv_cs _ _ _ _ _ HI). reflexivity.
      - rewrite (inv_cs _ _ _ _ _ HI). apply pairIndex_lt; lia. }
    destruct (Hmine x y Hxy Hc) as [H|H]; [left; assumption|].
    right. exists (level fr + 1). split; [unfold K in *; lia|]. rewrite Hnew. assumption.
Qed.

(** ** The loops of [enumerate] and [solve] *)

(** The [for _, item := range candidates] loop, over what [enumerate] does
    one slot further. *)
Definition tryItemsWith (rec : Z -> nat -> Local * World R -> Local * World R)
    (fr : Frame) (slot : nat) (overlap : Z) (localCovered : nat)
    : list nat -> Local * World R -> Local * World R :=
  fix tryItems (candidates : list nat) (st : Local * World R) : Local * World R :=
    match candidates with
    | [] => st
    | item :: candidates' =>
      let '(loc, w) := st in
      let '(isFound, fl) := Load (w_found w) in
      let w := setFound R w fl in
      if isFound then (loc, w)
      else
        let '(newOverlap, newPairs) := scanAdj s loc slot item in
        if (overlap + newOverlap >? maxOverlap fr)%Z then tryItems candidates' (loc, w)
        else if (remaining fr =? 1)%Z && isDoomed s loc item newPairs
        then tryItems candidates' (loc, w)
        else
          let '(loc, w) :=
            rec (overlap + newOverlap)%Z (localCovered + length newPairs)
                (place loc slot item newPairs, w) in
          tryItems candidates' (unplace loc slot item newPairs, w)
    end.

Lemma enumerate_eq (fuel' : nat) (fr : Frame) (depth : nat) (overlap : Z)
    (localCovered : nat) (loc : Local) (w : World R) :
  enumerate R Shuffle s (S fuel') fr depth overlap localCovered (loc, w) =
  let '(isFound, fl) := Load (w_found w) in
  let w := setFound R w fl in
  if isFound then (loc, w)
  else if depth =? N then
    let arrCopy := copySlice (replicate N 0%Z) (arr loc) in
    let coveredCopy := copySlice (replicate (numPairs s) false) (coveredSet loc) in
    let newParentArrs := parentArrs fr ++ [arrCopy] in
    if level fr =? K - 2 then
      if localCovered =? numPairs s then
        let '(swapped, fl) := CompareAndSwap (w_found w) in
        if swapped
        then (loc, mkWorld fl (storeSolution (w_solution w) newParentArrs) (w_rng w))
        else (loc, setFound R w fl)
      else (loc, w)
    else (loc, solve R Shuffle s fuel' (level fr + 1) coveredCopy localCovered
                     newParentArrs w)
  else
    tryItemsWith (fun o l st => enumerate R Shuffle s fuel' fr (depth + 1) o l st)
                 fr (get 0 (slotOrder fr) depth) overlap localCovered
                 (candidatesOf s fr loc depth) (loc, w).
Proof. reflexivity. Qed.

Lemma solve_eq (fuel' : nat) (level : nat) (covered : list bool) (coveredCount : nat)
    (parentArrs : list (list Z)) (w : World R) :
  solve R Shuffle s (S fuel') level covered coveredCount parentArrs w =
  let '(isFound, fl) := Load (w_found w) in
  let w := setFound R w fl in
  if isFound then w
  else
    let remaining := (Z.of_nat K - Z.of_nat level - 1)%Z in
    let missing := (Z.of_nat (numPairs s) - Z.of_nat coveredCount)%Z in
    if (missing >? remaining * Z.of_nat (numEdges s))%Z then w
    else
      let maxOverlap :=
        if level <? length (maxOverlapArr s) then get 0%Z (maxOverlapArr s) level
        else
          let minNewEdges := Z.quot (missing + remaining - 1) remaining in
          (Z.of_nat (numEdges s) - minNewEdges)%Z in
      let arr := replicate N (-1)%Z in
      let used := replicate N false in
      let filledSlots := [] in
      let coveredSet := copySlice (replicate (numPairs s) false) covered in
      let '(order, rng) := Shuffle (w_rng w) (range 0 N) in
      let w := mkWorld (w_found w) (w_solution w) rng in
      let isLastLevel := level =? K - 2 in
      let slotOrder :=
        if isLastLevel
        then specialSlot :: List.filter (fun i => negb (i =? specialSlot)) (range 0 N)
        else range 0 N in
      snd (enumerate R Shuffle s fuel'
             (mkFrame level parentArrs remaining maxOverlap order slotOrder isLastLevel)
             0 0%Z coveredCount
             (mkLocal arr used filledSlots coveredSet, w)).
Proof. reflexivity. Qed.

Definition solveSpec (fuel : nat) : Prop :=
  forall level covered coveredCount parentArrs w,
    level <= K - 2 -> length parentArrs = level -> length covered = numPairs s ->
    coveredCount = countTrue covered -> length (w_solution w) = K ->
    post level parentArrs covered w
         (solve R Shuffle s fuel level covered coveredCount parentArrs w).

Definition recSpec (fr : Frame) (covered : list bool) (depth : nat)
    (rec : Z -> nat -> Local * World R -> Local * World R) : Prop :=
  forall overlap localCovered loc w,
    Inv fr covered depth loc localCovered -> length (w_solution w) = K ->
    fst (rec overlap localCovered (loc, w)) = loc
    /\ post (level fr) (parentArrs fr) covered w (snd (rec overlap localCovered (loc, w))).

Definition enumSpec (fuel : nat) : Prop :=
  forall fr covered depth, frameOK fr -> depth <= N ->
    recSpec fr covered depth (enumerate R Shuffle s fuel fr depth).

Lemma post_Load (level : nat) (parentArrs : list (list Z)) (covered : list bool)
    (w : World R) :
  post level parentArrs covered w (setFound R w (snd (Load (w_found w)))).
Proof.
  unfold post. cbn [setFound w_solution w_found].
  split; [reflexivity|]. split; [reflexivity|].
  split; [intros H; split; [reflexivity|apply Load_isSet; assumption]|].
  split; [left; reflexivity|].
  intros H. destruct (Load_pending _ H) as [H1 H2]. split; [assumption|].
  rewrite H2. auto.
Qed.

Lemma tryItems_spec (rec : Z -> nat -> Local * World R -> Local * World R) (fr : Frame)
    (covered : list bool) (depth : nat) (overlap : Z) (localCovered : nat) (loc : Local) :
  frameOK fr -> Inv fr covered depth loc localCovered -> depth < N ->
  recSpec fr covered (depth + 1) rec ->
  forall candidates,
    (forall item, In item candidates -> item < N /\ get false (used loc) item = false) ->
    forall w, length (w_solution w) = K ->
      fst (tryItemsWith rec fr (get 0 (slotOrder fr) depth) overlap localCovered
                        candidates (loc, w)) = loc
      /\ post (level fr) (parentArrs fr) covered w
              (snd (tryItemsWith rec fr (get 0 (slotOrder fr) depth) overlap localCovered
                                 candidates (loc, w))).
Proof.
  intros Hfr HI Hdepth Hrec. induction candidates as [|item candidates IH];
    intros Hcand w Hsol; cbn [tryItemsWith].
  - split; [reflexivity|apply post_refl].
  - pose proof (post_Load (level fr) (parentArrs fr) covered w) as HL.
    destruct (Load (w_found w)) as [isFound fl]. cbn [snd] in HL.
    destruct isFound; [split; [reflexivity|exact HL]|].
    assert (Hcand' : forall it, In it candidates ->
                       it < N /\ get false (used loc) it = false).
    { intros it Hit. apply Hcand. right. assumption. }
    assert (Hskip :
              fst (tryItemsWith rec fr (get 0 (slotOrder fr) depth) overlap localCovered
                                candidates (loc, setFound R w fl)) = loc
              /\ post (level fr) (parentArrs fr) covered w
                      (snd (tryItemsWith rec fr (get 0 (slotOrder fr) depth) overlap
                                         localCovered candidates (loc, setFound R w fl)))).
    { destruct (IH Hcand' (setFound R w fl) Hsol) as [H1 H2].
      split; [assumption|]. apply (post_trans _ _ _ _ _ _ HL H2). }
    destruct (Hcand item (or_introl eq_refl)) as [Hitem Hfree].
    pose proof (scanAdj_pairs loc (get 0 (slotOrder fr) depth) item) as Hscan.
    destruct (scanAdj s loc (get 0 (slotOrder fr) depth) item) as [newOverlap newPairs].
    cbn [snd] in Hscan.
    destruct (overlap + newOverlap >? maxOverlap fr)%Z; [exact Hskip|].
    destruct ((remaining fr =? 1)%Z && isDoomed s loc item newPairs); [exact Hskip|].
    assert (Hnp : newPairs = snd (scanAdj s loc (get 0 (slotOrder fr) depth) item)).
    { rewrite scanAdj_pairs. assumption. }
    pose proof (Inv_place fr covered depth loc localCovered Hfr HI Hdepth item Hitem Hfree
                  _ eq_refl newPairs Hnp) as HI'.
    pose proof (unplace_place fr covered depth loc localCovered Hfr HI Hdepth item Hitem
                  Hfree _ eq_refl newPairs Hnp) as Hun.
    destruct (Hrec (overlap + newOverlap)%Z (localCovered + length newPairs)
                   (place loc (get 0 (slotOrder fr) depth) item newPairs)
                   (setFound R w fl) HI' Hsol) as [H1 H2].
    destruct (rec (overlap + newOverlap)%Z (localCovered + length newPairs)
                  (place loc (get 0 (slotOrder fr) depth) item newPairs, setFound R w fl))
      as [loc2 w2].
    cbn [fst snd] in H1, H2. subst loc2. rewrite Hun.
    assert (Hsol2 : length (w_solution w2) = K).
    { destruct H2 as (Hl & _). cbn [setFound w_solution] in Hl. congruence. }
    destruct (IH Hcand' w2 Hsol2) as [H3 H4].
    split; [assumption|].
    apply (post_trans _ _ _ _ _ _ HL). apply (post_trans _ _ _ _ _ _ H2 H4).
Qed.

Lemma candidates_free (fr : Frame) (loc : Local) (depth item : nat) :
  frameOK fr -> In item (candidatesOf s fr loc depth) ->
  item < N /\ get false (used loc) item = false.
Proof.
  intros (_ & _ & _ & _ & _ & Hord) Hin. rewrite List.Forall_forall in Hord.
  unfold candidatesOf in Hin.
  destruct (isLastLevel fr && (depth =? 0)); apply filter_In in Hin;
    destruct Hin as [Hin Hf]; (split; [apply Hord; assumption|]).
  - apply andb_true_iff in Hf. destruct Hf as [Hf _]. apply negb_true_iff in Hf. assumption.
  - apply negb_true_iff in Hf. assumption.
Qed.

Lemma CompareAndSwap_set (f : Flag) : isSet (snd (CompareAndSwap f)) = true.
Proof. reflexivity. Qed.

Lemma enum_step (fuel' : nat) : solveSpec fuel' -> enumSpec fuel' -> enumSpec (S fuel').
Proof.
  intros Hsolve Henum fr covered depth Hfr Hdepth overlap localCovered loc w HI Hsol.
  rewrite enumerate_eq.
  pose proof (post_Load (level fr) (parentArrs fr) covered w) as HL.
  pose proof (Load_false (w_found w)) as Hquiet.
  destruct (Load (w_found w)) as [isFound fl] eqn:HLoad. cbn [fst snd] in HL, Hquiet.
  destruct isFound; [split; [reflexivity|exact HL]|].
  specialize (Hquiet eq_refl).
  destruct (Nat.eqb_spec depth N) as [->|Hne].
  - cbv zeta.
    rewrite (copySlice_same (replicate N 0%Z) (arr loc))
      by (rewrite length_replicate; apply (inv_arr _ _ _ _ _ HI)).
    rewrite (copySlice_same (replicate (numPairs s) false) (coveredSet loc))
      by (rewrite length_replicate; apply (inv_cs _ _ _ _ _ HI)).
    destruct (Nat.eqb_spec (level fr) (K - 2)) as [Hlast|Hnot].
    + destruct (Nat.eqb_spec localCovered (numPairs s)) as [->|Hnc];
        [|split; [reflexivity|exact HL]].
      cbn [setFound w_found w_solution w_rng].
      pose proof (CompareAndSwap_set fl) as Hcas.
      assert (Hcas2 : pending (snd (CompareAndSwap fl)) = tl (pending fl)) by reflexivity.
      assert (Hcas3 : fst (CompareAndSwap fl) = negb (isSet fl || hd false (pending fl)))
        by reflexivity.
      destruct (CompareAndSwap fl) as [swapped fl2]. cbn [fst snd] in Hcas, Hcas2, Hcas3.
      destruct swapped.
      * split; [reflexivity|]. pose proof Hfr as (_ & Hpl & _).
        destruct (storeSolution_spec (w_solution w) (parentArrs fr ++ [arr loc]))
          as (Hl & Hz & _).
        { rewrite length_app, Hpl, Hlast, Hsol. cbn [length]. unfold K. lia. }
        assert (HG : Good (level fr) (parentArrs fr) covered
                          (storeSolution (w_solution w) (parentArrs fr ++ [arr loc])))
          by (apply Good_accept; assumption).
        destruct HL as (_ & _ & _ & _ & HLq). cbn [setFound w_found] in HLq.
        unfold post. cbn [w_solution w_found].
        split; [assumption|]. split; [assumption|].
        split; [intros H; rewrite H in Hquiet; discriminate Hquiet|].
        split; [right; split; assumption|].
        intros Hp. split; [|intros _; right; assumption].
        destruct (HLq Hp) as [Hp1 _]. cbn [snd w_found]. rewrite Hcas2, Hp1. reflexivity.
      * split; [reflexivity|].
        destruct HL as (_ & _ & _ & _ & HLq). cbn [setFound w_found] in HLq.
        unfold post. cbn [setFound w_solution w_found].
        split; [reflexivity|]. split; [reflexivity|].
        split; [intros H; rewrite H in Hquiet; discriminate Hquiet|].
        split; [left; reflexivity|].
        intros Hp. destruct (HLq Hp) as [Hp1 _]. exfalso.
        rewrite Hp1 in Hcas3. cbn [hd] in Hcas3.
        rewrite orb_false_r in Hcas3. symmetry in Hcas3. apply negb_false_iff in Hcas3.
        pose proof (Load_pending (w_found w) Hp) as [_ HLs]. rewrite HLoad in HLs.
        cbn [snd] in HLs. rewrite HLs, Hquiet in Hcas3. discriminate Hcas3.
    + destruct (Hsolve (level fr + 1) (coveredSet loc) localCovered
                       (parentArrs fr ++ [arr loc]) (setFound R w fl))
        as (Hl & Hz & Hs & Hg & Hq).
      * destruct Hfr as (Hlv & _). lia.
      * destruct Hfr as (_ & Hpl & _). rewrite length_app, Hpl. reflexivity.
      * apply (inv_cs _ _ _ _ _ HI).
      * apply (inv_count _ _ _ _ _ HI).
      * assumption.
      * split; [reflexivity|]. cbn [fst snd].
        apply (post_trans _ _ _ _ _ _ HL). unfold post.
        split; [assumption|]. split; [assumption|]. split; [assumption|]. split.
        -- destruct Hg as [Hg|[Hf Hg]]; [left; assumption|right].
           split; [assumption|].
           apply (Good_step fr covered loc localCovered); assumption.
        -- intros Hp. destruct (Hq Hp) as [Hp1 Hq1]. split; [assumption|].
           intros Hset. destruct (Hq1 Hset) as [H|H]; [left; assumption|right].
           apply (Good_step fr covered loc localCovered); assumption.
  - assert (Hlt : depth < N) by lia.
    destruct (tryItems_spec
                (fun o l st => enumerate R Shuffle s fuel' fr (depth + 1) o l st)
                fr covered depth overlap localCovered loc Hfr HI Hlt
                (Henum fr covered (depth + 1) Hfr ltac:(lia))
                (candidatesOf s fr loc depth)
                (fun item => candidates_free fr loc depth item Hfr)
                (setFound R w fl) Hsol) as [H1 H2].
    split; [assumption|]. apply (post_trans _ _ _ _ _ _ HL H2).
Qed.

Definition lastOrder : list nat :=
  specialSlot :: List.filter (fun i => negb (i =? specialSlot)) (range 0 N).

Lemma slotOrder_OK (b : bool) :
  let slotOrder := if b then lastOrder else range 0 N in
  List.NoDup slotOrder /\ length slotOrder = N /\ Forall (fun slot => slot < N) slotOrder.
Proof.
  assert (Hb : forall l, natNoDupb l && (length l =? N) && forallb (fun x => x <? N) l = true ->
                 List.NoDup l /\ length l = N /\ Forall (fun slot => slot < N) l).
  { intros l H. apply andb_true_iff in H. destruct H as [H H3].
    apply andb_true_iff in H. destruct H as [H1 H2].
    split; [apply natNoDupb_sound; assumption|]. split; [apply Nat.eqb_eq; assumption|].
    apply List.Forall_forall. intros x Hx. rewrite forallb_forall in H3.
    apply Nat.ltb_lt, H3. assumption. }
  destruct b; apply Hb; vm_compute; reflexivity.
Qed.

Lemma solve_step (fuel' : nat) : enumSpec fuel' -> solveSpec (S fuel').
Proof.
  intros Henum level covered coveredCount parentArrs w Hlevel Hpl Hcov Hcount Hsol.
  rewrite solve_eq.
  pose proof (post_Load level parentArrs covered w) as HL.
  destruct (Load (w_found w)) as [isFound fl]. cbn [snd] in HL.
  destruct isFound; [exact HL|]. cbv zeta.
  destruct ((Z.of_nat (numPairs s) - Z.of_nat coveredCount
             >? (Z.of_nat K - Z.of_nat level - 1) * Z.of_nat (numEdges s))%Z);
    [exact HL|].
  pose proof (Hshuffle (w_rng (setFound R w fl)) (range 0 N)) as Hperm.
  destruct (Shuffle (w_rng (setFound R w fl)) (range 0 N)) as [order rng].
  cbn [fst] in Hperm.
  match goal with
  | |- post _ _ _ _ (snd (enumerate _ _ _ _ ?fr0 _ _ _ (?loc0, ?w0))) =>
      set (fr := fr0); set (loc := loc0); set (w1 := w0)
  end.
  assert (Hfr : frameOK fr).
  { destruct (slotOrder_OK (level =? K - 2)) as (H1 & H2 & H3).
    unfold frameOK, fr. cbn [Solver20.level Solver20.parentArrs slotOrder Solver20.order].
    split; [assumption|]. split; [assumption|]. split; [exact H1|]. split; [exact H2|].
    split; [exact H3|].
    apply List.Forall_forall. intros item Hitem.
    apply (Permutation_in _ Hperm) in Hitem. apply in_range in Hitem. lia. }
  assert (HI : Inv fr covered 0 loc coveredCount).
  { unfold loc. constructor; cbn [arr used filledSlots coveredSet].
    - apply length_replicate.
    - apply length_replicate.
    - rewrite copySlice_same by (rewrite length_replicate; assumption). assumption.
    - reflexivity.
    - intros slot [].
    - intros slot Hslot _. apply get_replicate. assumption.
    - intros item Hitem Hu. rewrite get_replicate in Hu by assumption. discriminate Hu.
    - intros s1 s2 [].
    - intros pi Hpi Hget. left.
      rewrite copySlice_same in Hget by (rewrite length_replicate; assumption). assumption.
    - rewrite copySlice_same by (rewrite length_replicate; assumption). assumption. }
  destruct (Henum fr covered 0 Hfr (Nat.le_0_l _) 0%Z coveredCount loc w1 HI Hsol)
    as [_ Hpost].
  apply (post_trans _ _ _ _ _ _ HL).
  apply (post_trans _ _ _ (setFound R w fl) w1); [apply post_same; reflexivity|exact Hpost].
Qed.

Lemma search_spec (fuel : nat) : solveSpec fuel /\ enumSpec fuel.
Proof.
  induction fuel as [|fuel' [IHs IHe]].
  - split.
    + intros level covered coveredCount parentArrs w _ _ _ _ _. apply post_refl.
    + intros fr covered depth _ _ overlap localCovered loc w _ _.
      split; [reflexivity|apply post_refl].
  - split; [apply solve_step; assumption|apply enum_step; assumption].
Qed.

End Sound.

(** ** [Solve]: the pairs of the first arrangement *)

Lemma rowArr_of_nat (l : list nat) : rowArr (map Z.of_nat l) = l.
Proof.
  unfold rowArr. rewrite map_map. rewrite <- (map_id l) at 2.
  apply map_ext. intros x. apply Nat2Z.id.
Qed.

Lemma initCovered_spec (s : Solver) :
  wellFormed s ->
  forall l covered coveredCount,
    length covered = numPairs s -> coveredCount = countTrue covered ->
    (forall pi, pi < numPairs s -> get false covered pi = true ->
       exists u v, adjacent (edges s) u v /\ pi = pairIndex s u v) ->
    incl l (edges s) ->
    let res :=
      fold_left
        (fun st e =>
           let '(covered, coveredCount) := st in
           let pi := pairIndex s (a e) (b e) in
           if negb (get false covered pi) then (<[pi := true]> covered, coveredCount + 1)
           else st)
        l (covered, coveredCount) in
    length (fst res) = numPairs s /\ snd res = countTrue (fst res)
    /\ forall pi, pi < numPairs s -> get false (fst res) pi = true ->
         exists u v, adjacent (edges s) u v /\ pi = pairIndex s u v.
Proof.
  intros Hwf. induction l as [|e l IH]; intros covered coveredCount Hlen Hcnt Hcov Hincl;
    cbn [fold_left]; [cbn [fst snd]; auto|].
  assert (He : In e (edges s)) by (apply Hincl; left; reflexivity).
  assert (Hl : incl l (edges s)) by (intros x Hx; apply Hincl; right; assumption).
  pose proof (wf_edges s Hwf) as Hok. unfold edgesOK in Hok.
  rewrite List.Forall_forall in Hok. destruct (Hok e He) as (Ha & Hb & Hne).
  assert (Hpi : pairIndex s (a e) (b e) < numPairs s)
    by (apply pairIndex_lt; assumption).
  destruct (get false covered (pairIndex s (a e) (b e))) eqn:Hget; cbn [negb].
  - apply IH; assumption.
  - apply IH; [rewrite length_insert; assumption| | |assumption].
    + rewrite countTrue_insert by (assumption || lia). lia.
    + intros pi Hlt Hg. rewrite get_insert in Hg by lia.
      destruct (decide (pairIndex s (a e) (b e) = pi)) as [<-|Hn]; [|apply Hcov; assumption].
      exists (a e), (b e). split; [|reflexivity]. exists e. auto.
Qed.

Lemma covers_flat_map (rows : list (list Z)) (f : list Z -> list (nat * nat)) (x y : nat) :
  (exists i, i < length rows /\ covers (f (get [] rows i)) x y) ->
  covers (flat_map f rows) x y.
Proof.
  intros (i & Hi & [H|H]); [left|right]; apply in_flat_map;
    exists (get [] rows i); (split; [apply get_In; assumption|assumption]).
Qed.

(** X22.  [solve] stores only what covers.  Let [Shuffle] return a
    permutation of its argument, [level <= K - 2] with one parent row per
    level above, [covered] a vector over the 190 pairs and [coveredCount]
    the number of its true entries.  Then [solve] leaves the stored solution
    alone when the flag is already set; and if it does store, the flag is
    set, row 0 and the parents' rows are as they were, every row below is an
    arrangement of the 20 items, and every pair of items is marked in
    [covered] or covered on the spiral by one of the rows below. *)
Theorem solve_sound (R : Type) (Shuffle : R -> list nat -> list nat * R) (limits : list Z)
    (fuel level : nat) (covered : list bool) (parentArrs : list (list Z)) (w : World R) :
  (forall r l, Permutation (fst (Shuffle r l)) l) ->
  level <= K - 2 -> length parentArrs = level ->
  length covered = N * (N - 1) / 2 -> length (w_solution w) = K ->
  let s := SetMaxOverlap NewSolver limits in
  let w' := solve R Shuffle s fuel level covered (countTrue covered) parentArrs w in
  (isSet (w_found w) = true -> w_solution w' = w_solution w)
  /\ (w_solution w' = w_solution w
      \/ (isSet (w_found w') = true
          /\ length (w_solution w') = K
          /\ get [] (w_solution w') 0 = get [] (w_solution w) 0
          /\ (forall i, i < level -> get [] (w_solution w') (i + 1) = get [] parentArrs i)
          /\ (forall i, level < i < K ->
                isArrangement N (rowArr (get [] (w_solution w') i)))
          /\ (forall x y, x < y < N ->
                get false covered (pairIndex s x y) = true
                \/ exists i, level < i < K
                     /\ covers (pairSet (slotPairs buildSpiral)
                                        (rowArr (get [] (w_solution w') i))) x y))).
Proof.
  intros Hshuffle Hlevel Hpl Hcov Hsol s w'.
  assert (Hwf : wellFormed s) by apply SetMaxOverlap_wellFormed, NewSolver_wellFormed.
  destruct (search_spec R Shuffle s Hwf Hshuffle fuel) as [Hsolve _].
  destruct (Hsolve level covered (countTrue covered) parentArrs w Hlevel Hpl Hcov eq_refl
              Hsol) as (Hl & Hz & Hs & Hg & _).
  fold w' in Hl, Hz, Hs, Hg.
  split; [intros H; apply Hs; assumption|].
  destruct Hg as [Hg|[Hf (G1 & G2 & G3)]]; [left; assumption|right].
  split; [assumption|]. split; [congruence|]. split; [assumption|].
  split; [assumption|]. split; [intros i Hi; apply G2; assumption|assumption].
Qed.

(** A made-up call at the last level: everything is covered but the pairs
    of the spiral under identity, and the three parents repeat identity. *)
Definition demoCovered : list bool :=
  fold_left (fun covered e => <[pairIndex NewSolver (a e) (b e) := false]> covered)
            buildSpiral (replicate (N * (N - 1) / 2) true).

Definition demoRow : list Z := map Z.of_nat (range 0 N).

Definition demoWorld : World unit := mkWorld quietFlag (replicate K []) tt.

Definition sameOrder (r : unit) (l : list nat) : list nat * unit := (l, r).

Lemma solve_sound_witness :
  let s := SetMaxOverlap NewSolver [] in
  let w' := solve unit sameOrder s solveFuel 3 demoCovered (countTrue demoCovered)
                  [demoRow; demoRow; demoRow] demoWorld in
  (isSet (w_found demoWorld) = true -> w_solution w' = w_solution demoWorld)
  /\ (w_solution w' = w_solution demoWorld
      \/ (isSet (w_found w') = true
          /\ length (w_solution w') = K
          /\ get [] (w_solution w') 0 = get [] (w_solution demoWorld) 0
          /\ (forall i, i < 3 ->
                get [] (w_solution w') (i + 1) = get [] [demoRow; demoRow; demoRow] i)
          /\ (forall i, 3 < i < K ->
                isArrangement N (rowArr (get [] (w_solution w') i)))
          /\ (forall x y, x < y < N ->
                get false demoCovered (pairIndex s x y) = true
                \/ exists i, 3 < i < K
                     /\ covers (pairSet (slotPairs buildSpiral)
                                        (rowArr (get [] (w_solution w') i))) x y))).
Proof.
  apply (solve_sound unit sameOrder [] solveFuel 3 demoCovered [demoRow; demoRow; demoRow]
           demoWorld).
  - intros r l. apply Permutation_refl.
  - unfold K. lia.
  - reflexivity.
  - vm_compute. reflexivity.
  - reflexivity.
Defined.

(** There the search does store: identity once more. *)
Example solve_demo :
  w_solution (solve unit sameOrder NewSolver solveFuel 3 demoCovered
                    (countTrue demoCovered) [demoRow; demoRow; demoRow] demoWorld)
  = [[]; demoRow; demoRow; demoRow; demoRow].
Proof. vm_compute. reflexivity. Qed.

Lemma Solve_spec (R : Type) (Shuffle : R -> list nat -> list nat * R) (s : Solver)
    (seeds : list R) (dummy : R) :
  wellFormed s -> (forall r l, Permutation (fst (Shuffle r l)) l) ->
  let res := Solve R Shuffle s seeds dummy in
  fst res = false
  \/ (length (snd res) = K
      /\ rowArr (get [] (snd res) 0) = identity N
      /\ (forall i, i < K -> isArrangement N (rowArr (get [] (snd res) i)))
      /\ coversAll N (flat_map (fun row => pairSet (slotPairs (edges s)) (rowArr row))
                               (snd res))).
Proof.
  intros Hwf Hshuffle. unfold Solve. generalize solveFuel as fuel. intros fuel.
  pose proof (initCovered_spec s Hwf (edges s) (replicate (numPairs s) false) 0) as Hinit.
  cbv zeta in Hinit.
  destruct (fold_left _ (edges s) (replicate (numPairs s) false, 0))
    as [covered coveredCount].
  cbn [fst snd] in Hinit.
  destruct Hinit as (Hlen & Hcnt & Hcov).
  { apply length_replicate. }
  { unfold countTrue. induction (numPairs s) as [|k IH]; [reflexivity|exact IH]. }
  { intros pi Hpi Hg. rewrite get_replicate in Hg by assumption. discriminate Hg. }
  { intros e He. assumption. }
  set (sol0 := <[0 := map Z.of_nat (range 0 N)]> (replicate K [])).
  set (w0 := mkWorld quietFlag sol0 dummy).
  assert (Hfold : forall l w, length (w_solution w) = K ->
            let w' := fold_left
                        (fun w seed =>
                           solve R Shuffle s fuel 0 covered coveredCount []
                                 (mkWorld (w_found w) (w_solution w) seed)) l w in
            post R s 0 [] covered w w').
  { induction l as [|seed l IH]; intros w Hw; cbn [fold_left]; [apply post_refl|].
    destruct (search_spec R Shuffle s Hwf Hshuffle fuel) as [Hsolve _].
    pose proof (Hsolve 0 covered coveredCount []
                  (mkWorld (w_found w) (w_solution w) seed) (Nat.le_0_l _) eq_refl Hlen
                  Hcnt Hw) as Hp.
    apply (post_trans R s _ _ _ w (mkWorld (w_found w) (w_solution w) seed));
      [apply post_same; reflexivity|].
    apply (post_trans R s _ _ _ _ _ _ Hp). apply IH.
    destruct Hp as (Hl & _). cbn [w_solution] in Hl. congruence. }
  assert (Hsol0 : length sol0 = K) by (unfold sol0; rewrite length_insert; apply length_replicate).
  specialize (Hfold seeds w0 Hsol0). cbv zeta in Hfold.
  set (w := fold_left _ seeds w0) in *. clearbody w.
  destruct Hfold as (Hl & Hz & _ & _ & Hq). cbn [fst snd].
  destruct (Hq eq_refl) as [Hp Hs].
  unfold Load. cbn [fst]. rewrite Hp. cbn [hd]. rewrite orb_false_r.
  destruct (isSet (w_found w)) eqn:Hset; [right|left; reflexivity].
  destruct (Hs eq_refl) as [H|(_ & Hrows & Hgood)]; [discriminate H|].
  assert (Hrow0 : rowArr (get [] (w_solution w) 0) = identity N).
  { rewrite Hz. unfold w0, sol0. cbn [w_solution].
    rewrite get_insert_eq by (rewrite length_replicate; unfold K; lia).
    apply rowArr_of_nat. }
  split; [cbn [w0 w_solution] in Hl; congruence|]. split; [assumption|]. split.
  - intros i Hi. destruct i as [|i].
    + rewrite Hrow0. apply identity_isArrangement.
    + apply Hrows. lia.
  - intros x y Hxy. apply covers_flat_map.
    destruct (Hgood x y Hxy) as [H|(i & Hi & H)].
    + exists 0. split; [cbn [w0 w_solution] in Hl; rewrite Hl, Hsol0; unfold K; lia|].
      rewrite Hrow0.
      destruct (Hcov (pairIndex s x y)) as (u & v & Hadj & He);
        [apply pairIndex_lt; (assumption || lia)|assumption|].
      apply (pairTable_covers N (edges s) (wf_edges s Hwf) _ x y
               (identity_isArrangement N) Hxy).
      destruct (edgesOK_adjacent N (edges s) u v (wf_edges s Hwf) Hadj) as (Hu & Hv & _).
      exists u, v. split; [assumption|]. rewrite !get_identity by assumption.
      rewrite <- !(pairIndex_eq s Hwf). symmetry. assumption.
    + exists i. split; [cbn [w0 w_solution] in Hl; rewrite Hl, Hsol0; lia|assumption].
Qed.


(** X23.  What [Solve] reports as found is a cover: when it returns true
    (the workers run one after the other, each on its own random source whose
    [Shuffle] permutes), the solution has [K = 5] rows, each an arrangement
    of the 20 items, the first one identity, and the spiral's edges under
    these rows cover all 190 pairs. *)
Theorem Solve_sound (R : Type) (Shuffle : R -> list nat -> list nat * R) (limits : list Z)
    (seeds : list R) (dummy : R) :
  (forall r l, Permutation (fst (Shuffle r l)) l) ->
  let res := Solve R Shuffle (SetMaxOverlap NewSolver limits) seeds dummy in
  fst res = false
  \/ (length (snd res) = K
      /\ rowArr (get [] (snd res) 0) = identity N
      /\ (forall i, i < K -> isArrangement N (rowArr (get [] (snd res) i)))
      /\ coversAll N (flat_map (fun row => pairSet (slotPairs buildSpiral) (rowArr row))
                               (snd res))).
Proof.
  intros Hshuffle.
  apply (Solve_spec R Shuffle (SetMaxOverlap NewSolver limits) seeds dummy);
    [apply SetMaxOverlap_wellFormed, NewSolver_wellFormed|assumption].
Qed.

Lemma Solve_sound_witness :
  let res := Solve unit sameOrder (SetMaxOverlap NewSolver []) [tt] tt in
  fst res = false
  \/ (length (snd res) = K
      /\ rowArr (get [] (snd res) 0) = identity N
      /\ (forall i, i < K -> isArrangement N (rowArr (get [] (snd res) i)))
      /\ coversAll N (flat_map (fun row => pairSet (slotPairs buildSpiral) (rowArr row))
                               (snd res))).
Proof.
  apply (Solve_sound unit sameOrder [] [tt] tt).
  intros r l. apply Permutation_refl.
Defined.

End Solver20Props.

(** * canonicalize.go: one graph per isomorphism class *)

Module CanonicalizeProps.

Import Graphs GraphFacts Canonicalize.

Lemma seenFold (T : Tables) (graphs : list Graph) (seen : gset Z) (c : Z) :
  c ∈ fold_left (fun seen gr => let canon := canonical T gr in {[ canon ]} ∪ seen)
                graphs seen
  <-> c ∈ seen \/ exists g, In g graphs /\ c = canonical T g.
Proof.
  revert seen. induction graphs as [|gr graphs IH]; intros seen; cbn [fold_left].
  - split; [auto|]. intros [H|(g & [] & _)]. assumption.
  - rewrite IH. cbv zeta. rewrite elem_of_union, elem_of_singleton. split.
    + intros [[->|H]|(g & Hg & ->)]; [right; exists gr; split; [left|]; reflexivity
                                      |left; assumption
                                      |right; exists g; split; [right; assumption|reflexivity]].
    + intros [H|(g & [<-|Hg] & ->)]; [left; right; assumption|left; left; reflexivity|].
      right. exists g. auto.
Qed.

Lemma allUniqueFold (T : Tables) (groups : list (list Graph)) (acc : gset Z) (c : Z) :
  c ∈ fold_left (fun allUnique graphs => seenOf T graphs ∪ allUnique) groups acc
  <-> c ∈ acc \/ exists g, In g (concat groups) /\ c = canonical T g.
Proof.
  revert acc. induction groups as [|graphs groups IH]; intros acc; cbn [fold_left concat].
  - split; [auto|]. intros [H|(g & [] & _)]. assumption.
  - rewrite IH, elem_of_union. unfold seenOf. rewrite seenFold. split.
    + intros [[[H|(g & Hg & ->)]|H]|(g & Hg & ->)].
      * exfalso. apply (not_elem_of_empty c H).
      * right. exists g. split; [apply in_or_app; left; assumption|reflexivity].
      * left. assumption.
      * right. exists g. split; [apply in_or_app; right; assumption|reflexivity].
    + intros [H|(g & Hg & ->)]; [left; right; assumption|].
      apply in_app_or in Hg. destruct Hg as [Hg|Hg].
      * left. left. right. exists g. auto.
      * right. exists g. auto.
Qed.

Lemma allUniqueOf_spec (T : Tables) (groups : list (list Graph)) (c : Z) :
  c ∈ allUniqueOf T groups <-> exists g, In g (concat groups) /\ c = canonical T g.
Proof.
  unfold allUniqueOf. rewrite allUniqueFold. split; [|auto].
  intros [H|H]; [|assumption]. exfalso. apply (not_elem_of_empty c H).
Qed.

Lemma totalGraphs_concat (groups : list (list Graph)) :
  totalGraphs groups = length (concat groups).
Proof.
  unfold totalGraphs.
  assert (H : forall acc, fold_left (fun total graphs => total + length graphs) groups acc
                          = acc + length (concat groups)).
  { induction groups as [|graphs groups IH]; intros acc; cbn [fold_left concat].
    - cbn [length]. lia.
    - rewrite IH, length_app. lia. }
  apply (H 0).
Qed.

Lemma sorted_strict (l : list Z) :
  StronglySorted Z.le l -> List.NoDup l -> StronglySorted Z.lt l.
Proof.
  induction 1 as [|x l Hs IH Hall]; intros Hnd; [constructor|].
  inversion Hnd as [|x' l' Hnin Hnd']; subst. constructor; [apply IH; assumption|].
  rewrite List.Forall_forall in *. intros y Hy. specialize (Hall y Hy).
  assert (x <> y) by (intros ->; contradiction). lia.
Qed.

Lemma sortedOf_spec (U : gset Z) :
  StronglySorted Z.lt (sortedOf U) /\ length (sortedOf U) = size U
  /\ forall c, In c (sortedOf U) <-> c ∈ U.
Proof.
  unfold sortedOf.
  pose proof (merge_sort_Permutation Z.le (elements U)) as Hperm.
  split; [|split].
  - apply sorted_strict.
    + apply (StronglySorted_merge_sort Z.le).
    + apply (Permutation.Permutation_NoDup (l := elements U)); [symmetry; exact Hperm|].
      apply NoDup_ListNoDup, NoDup_elements.
  - rewrite Hperm. reflexivity.
  - intros c. rewrite <- list_elem_of_In, Hperm, elem_of_elements. reflexivity.
Qed.

(** An isomorphism from [g] onto [h]: a renaming [p] of the vertices under
    which [p i] and [p j] are joined in [h] exactly when [i] and [j] are
    joined in [g]. *)
Definition isomorphic (T : Tables) (g h : Graph) : Prop :=
  exists p, isPerm (n T) p /\ relabelling T p g h.

(** X24.  [canonicalize] keeps exactly one graph per isomorphism class of
    its input.  For [vertices <= 11] and input graphs that use only the
    edge bits, the lines of the [.txt] output are strictly increasing, as
    many as [allUnique] has keys and no more than graphs were read; they are
    the canonical forms of the input graphs; every input graph is isomorphic
    to one of them; and no two different ones are isomorphic. *)
Theorem canonicalize_transversal (vertices : nat) (groups : list (list Graph)) :
  vertices <= 11 ->
  Forall (validGraph (vertices * (vertices - 1) / 2)) (concat groups) ->
  let T := initEdges vertices in
  let allUnique := allUniqueOf T groups in
  let out := sortedOf allUnique in
  StronglySorted Z.lt out
  /\ length out = size allUnique
  /\ length out <= totalGraphs groups
  /\ (forall c, In c out <-> exists g, In g (concat groups) /\ c = canonical T g)
  /\ (forall g, In g (concat groups) -> exists c, In c out /\ isomorphic T g c)
  /\ (forall c1 c2, In c1 out -> In c2 out -> isomorphic T c1 c2 -> c1 = c2).
Proof.
  intros Hv Hvalid T allUnique out.
  pose proof (initEdges_ok vertices) as HT. fold T in HT.
  pose proof (numEdges_initEdges_le vertices Hv) as H64. fold T in H64.
  destruct (initEdges_fields vertices) as [Hn Hm]. fold T in Hn, Hm.
  rewrite <- Hm in Hvalid. rewrite List.Forall_forall in Hvalid.
  destruct (sortedOf_spec allUnique) as (Hsorted & Hlen & Hin). fold out in Hsorted, Hlen, Hin.
  assert (Hout : forall c, In c out <-> exists g, In g (concat groups) /\ c = canonical T g).
  { intros c. rewrite Hin. apply allUniqueOf_spec. }
  assert (Hfix : forall c, In c out -> validGraph (numEdges T) c /\ canonical T c = c).
  { intros c Hc. apply Hout in Hc. destruct Hc as (g & Hg & ->).
    destruct (canonical_attained T HT H64 g (Hvalid g Hg)) as (p & Hp & He).
    split; [rewrite He; apply relabel_valid; auto|].
    apply canonical_idempotent; auto. }
  split; [assumption|]. split; [assumption|]. split; [|split; [assumption|split]].
  - rewrite totalGraphs_concat, <- (length_map (canonical T) (concat groups)).
    apply List.NoDup_incl_length.
    + clear -Hsorted. induction Hsorted as [|x l Hs IH Hall]; constructor; [|assumption].
      intros Hx. rewrite List.Forall_forall in Hall. specialize (Hall x Hx). lia.
    + intros c Hc. apply Hout in Hc. destruct Hc as (g & Hg & ->). apply in_map. assumption.
  - intros g Hg. exists (canonical T g). split; [apply Hout; exists g; auto|].
    destruct (canonical_attained T HT H64 g (Hvalid g Hg)) as (p & Hp & He).
    exists p. split; [assumption|]. rewrite He.
    apply relabel_relabelling; auto.
  - intros c1 c2 H1 H2 (p & Hp & Hrel).
    destruct (Hfix c1 H1) as [V1 F1]. destruct (Hfix c2 H2) as [V2 F2].
    pose proof (relabelling_unique T HT H64 c1 c2 p V1 Hp Hrel) as He.
    rewrite <- F1, <- F2, He. symmetry. apply canonical_relabel; assumption.
Qed.

Lemma canonicalize_transversal_witness :
  let T := initEdges 4 in
  let allUnique := allUniqueOf T [[3%Z; 5%Z]; [33%Z; 63%Z]] in
  let out := sortedOf allUnique in
  StronglySorted Z.lt out
  /\ length out = size allUnique
  /\ length out <= totalGraphs [[3%Z; 5%Z]; [33%Z; 63%Z]]
  /\ (forall c, In c out
                <-> exists g, In g (concat [[3%Z; 5%Z]; [33%Z; 63%Z]]) /\ c = canonical T g)
  /\ (forall g, In g (concat [[3%Z; 5%Z]; [33%Z; 63%Z]]) ->
        exists c, In c out /\ isomorphic T g c)
  /\ (forall c1 c2, In c1 out -> In c2 out -> isomorphic T c1 c2 -> c1 = c2).
Proof.
  apply (canonicalize_transversal 4 [[3%Z; 5%Z]; [33%Z; 63%Z]]).
  - lia.
  - repeat constructor; vm_compute; intuition discriminate.
Defined.

(** Two paths of two edges, two disjoint edges and the complete graph:
    three classes. *)
Example canonicalize_demo :
  sortedOf (allUniqueOf (initEdges 4) [[3%Z; 5%Z]; [33%Z; 63%Z]]) = [3%Z; 12%Z; 63%Z].
Proof. vm_compute. reflexivity. Qed.

End CanonicalizeProps.

(** * The general backtracker reports only covers *)

Module SolverNKProps.

Import Hex SolverNK FourthProps.

(** ** The edges of the spiral, for any number of nodes *)

Lemma placeNode_edges (st : list Vec2 * list Edge) (node : nat) :
  exists l, snd (placeNode st node) = snd st ++ map (fun i => mkEdge i node) l
            /\ List.NoDup l /\ forall i, In i l -> i < node.
Proof.
  unfold placeNode. destruct st as [positions edges].
  destruct (fold_left _ hexDirs _) as [[bestPos bestContacts] bestDist].
  cbn [snd]. eexists. split; [reflexivity|]. split.
  - apply NoDup_ListNoDup, NoDup_filter, NoDup_ListNoDup, GraphFacts.range_NoDup.
  - intros i Hi. apply list_elem_of_In, list_elem_of_filter in Hi. destruct Hi as [_ Hi].
    apply list_elem_of_In, in_range in Hi. lia.
Qed.

Lemma spiral_fold (nodes : list nat) :
  List.NoDup nodes ->
  forall st, exists added,
    snd (fold_left placeNode nodes st) = snd st ++ added
    /\ (forall e, In e added -> a e < b e /\ In (b e) nodes)
    /\ List.NoDup added.
Proof.
  induction nodes as [|node nodes IH]; intros Hnd st; cbn [fold_left].
  - exists []. rewrite app_nil_r. split; [reflexivity|]. split; [intros e []|constructor].
  - inversion Hnd as [|x l Hnin Hnd']; subst.
    destruct (placeNode_edges st node) as (l & Hl & Hndl & Hlt).
    destruct (IH Hnd' (placeNode st node)) as (added & Ha & Hb & Hnda).
    exists (map (fun i => mkEdge i node) l ++ added).
    split; [rewrite Ha, Hl, app_assoc; reflexivity|]. split.
    + intros e He. apply in_app_or in He. destruct He as [He|He].
      * apply in_map_iff in He. destruct He as (i & <- & Hi). cbn [a b].
        split; [apply Hlt; assumption|left; reflexivity].
      * destruct (Hb e He) as [H1 H2]. split; [assumption|right; assumption].
    + apply NoDup_ListNoDup, NoDup_app. split; [|split].
      * apply NoDup_ListNoDup. apply List.NoDup_map_NoDup_ForallPairs; [|assumption].
        intros i j _ _ He. injection He as ->. reflexivity.
      * intros e He Ha'. apply list_elem_of_In in He, Ha'.
        apply in_map_iff in He. destruct He as (i & <- & Hi).
        destruct (Hb _ Ha') as [_ Hin]. cbn [b] in Hin. contradiction.
      * apply NoDup_ListNoDup. assumption.
Qed.

Lemma buildSpiral_edges (n : nat) :
  (forall e, In e (buildSpiral n) -> a e < b e < n) /\ List.NoDup (buildSpiral n).
Proof.
  unfold buildSpiral. destruct (n <? 2); [split; [intros e []|constructor]|].
  destruct (spiral_fold (range 1 n) (GraphFacts.range_NoDup 1 n)
              (replicate n (mkVec2 0 0), [])) as (added & Ha & Hb & Hnd).
  cbn [snd app] in Ha. cbv zeta. rewrite Ha. split; [|assumption].
  intros e He. destruct (Hb e He) as [H1 H2]. apply in_range in H2. lia.
Qed.

(** ** Bit vectors of covered pairs and the solver's tables *)

Import Solver20Props.

Definition backOf (edges : list Edge) (s : nat) : list nat :=
  map a (List.filter (fun e => b e =? s) edges).

Lemma slotAdj_fold (s : nat) (edges : list Edge) :
  (forall e, In e edges -> a e < b e) ->
  forall acc,
    fold_left
      (fun adj e =>
         if (a e =? s) && (b e <? s) then adj ++ [b e]
         else if (b e =? s) && (a e <? s) then adj ++ [a e]
         else adj)
      edges acc
    = acc ++ backOf edges s.
Proof.
  unfold backOf. induction edges as [|e edges IH]; intros Hlt acc; cbn [fold_left List.filter map].
  - rewrite app_nil_r. reflexivity.
  - pose proof (Hlt e (or_introl eq_refl)) as He.
    rewrite IH by (intros e' He'; apply Hlt; right; assumption).
    destruct (Nat.eqb_spec (a e) s) as [Ha|Ha]; cbn [andb].
    + destruct (Nat.ltb_spec (b e) s) as [Hb|Hb]; [lia|].
      destruct (Nat.eqb_spec (b e) s) as [Hb'|Hb']; [lia|reflexivity].
    + destruct (Nat.eqb_spec (b e) s) as [Hb|Hb]; cbn [andb]; [|reflexivity].
      destruct (Nat.ltb_spec (a e) s) as [Hl|Hl]; [|lia].
      cbn [map]. rewrite <- app_assoc. reflexivity.
Qed.

Record wellFormed (s : Solver) : Prop := mkWF {
  wf_pairs : numPairs s = n s * (n s - 1) / 2;
  wf_table : pairTable s = FindFourth.pairTable (n s);
  wf_edges : edgesOK (n s) (edges s);
  wf_adj : forall slot t, slot < n s -> In t (get [] (slotAdj s) slot) ->
             t < slot /\ adjacent (edges s) slot t;
  wf_nodup : forall slot, slot < n s -> List.NoDup (get [] (slotAdj s) slot)
}.

Lemma NewSolver_slotAdj_nk (n k slot : nat) :
  slot < n -> get [] (slotAdj (NewSolver n k)) slot = backOf (buildSpiral n) slot.
Proof.
  intros Hslot. unfold NewSolver. cbn [slotAdj].
  rewrite (get_map _ [] 0) by (rewrite range_length; lia).
  assert (Hget : get 0 (range 0 n) slot = slot)
    by (unfold range; rewrite get_seq by lia; reflexivity).
  rewrite Hget. rewrite slotAdj_fold; [reflexivity|].
  intros e He. apply (proj1 (buildSpiral_edges n)) in He. lia.
Qed.

Lemma NewSolver_fields (n k : nat) :
  SolverNK.n (NewSolver n k) = n /\ SolverNK.k (NewSolver n k) = k
  /\ edges (NewSolver n k) = buildSpiral n.
Proof. auto. Qed.

Lemma NewSolver_wellFormed_nk (n k : nat) : wellFormed (NewSolver n k).
Proof.
  destruct (buildSpiral_edges n) as [Hlt Hnd].
  destruct (NewSolver_fields n k) as (Hn & _ & He).
  constructor; rewrite ?Hn, ?He.
  - reflexivity.
  - reflexivity.
  - apply List.Forall_forall. intros e Hin. specialize (Hlt e Hin). lia.
  - intros slot t Hslot Hin.
    rewrite NewSolver_slotAdj_nk in Hin by assumption. unfold backOf in Hin.
    apply in_map_iff in Hin. destruct Hin as (e & <- & Hin).
    apply filter_In in Hin. destruct Hin as [Hin Hb]. apply Nat.eqb_eq in Hb.
    specialize (Hlt e Hin). split; [lia|]. exists e. split; [assumption|]. right. auto.
  - intros slot Hslot. rewrite NewSolver_slotAdj_nk by assumption.
    unfold backOf. apply List.NoDup_map_NoDup_ForallPairs; [|apply List.NoDup_filter; assumption].
    intros e1 e2 H1 H2 Heq. apply filter_In in H1, H2.
    destruct H1 as [_ B1]. destruct H2 as [_ B2]. apply Nat.eqb_eq in B1, B2.
    destruct e1 as [a1 b1], e2 as [a2 b2]. cbn [a b] in *. congruence.
Qed.

Lemma storeFold_nk (newParentArrs : list (list nat)) (m : nat) (solution : list (list nat)) :
  m < length solution ->
  let res := fold_left (fun solution i => <[i + 1 := get [] newParentArrs i]> solution)
                       (range 0 m) solution in
  length res = length solution
  /\ get [] res 0 = get [] solution 0
  /\ forall i, i < m -> get [] res (i + 1) = get [] newParentArrs i.
Proof.
  induction m as [|m IH]; intros Hlen; cbv zeta.
  - rewrite range_nil by lia. cbn [fold_left].
    split; [reflexivity|]. split; [reflexivity|]. intros i Hi. lia.
  - rewrite range_succ_r by lia. rewrite fold_left_app. cbn [fold_left].
    destruct IH as (H1 & H2 & H3); [lia|].
    split; [rewrite length_insert; assumption|].
    split; [rewrite get_insert_ne by lia; assumption|].
    intros i Hi. rewrite get_insert by (rewrite H1; lia).
    destruct (decide (m + 1 = i + 1)) as [He|Hne].
    + replace i with m by lia. reflexivity.
    + apply H3. lia.
Qed.

Lemma storeSolution_spec_nk (solution newParentArrs : list (list nat)) :
  length newParentArrs < length solution ->
  length (storeSolution solution newParentArrs) = length solution
  /\ get [] (storeSolution solution newParentArrs) 0 = get [] solution 0
  /\ forall i, i < length newParentArrs ->
       get [] (storeSolution solution newParentArrs) (i + 1) = get [] newParentArrs i.
Proof. intros H. apply (storeFold_nk newParentArrs (length newParentArrs) solution H). Qed.

Section Sound.

Variable R : Type.
Variable Shuffle : R -> list nat -> list nat * R.
Variable s : Solver.
Hypothesis Hwf : wellFormed s.
Hypothesis Hshuffle : forall r l, Permutation (fst (Shuffle r l)) l.

(** What a stored solution is worth to the caller of [solve] at [level]. *)
Definition Good (level : nat) (parentArrs : list (list nat)) (covered : list bool)
    (sol : list (list nat)) : Prop :=
  (forall i, i < level -> get [] sol (i + 1) = get [] parentArrs i)
  /\ (forall i, level < i < k s -> isArrangement (n s) (get [] sol i))
  /\ (forall x y, x < y < n s ->
        get false covered (pairIndex s x y) = true
        \/ exists i, level < i < k s
             /\ covers (pairSet (slotPairs (edges s)) (get [] sol i)) x y).

Definition post (level : nat) (parentArrs : list (list nat)) (covered : list bool)
    (w w' : World R) : Prop :=
  length (w_solution w') = length (w_solution w)
  /\ get [] (w_solution w') 0 = get [] (w_solution w) 0
  /\ (isSet (w_found w) = true ->
      w_solution w' = w_solution w /\ isSet (w_found w') = true)
  /\ (w_solution w' = w_solution w
      \/ (isSet (w_found w') = true /\ Good level parentArrs covered (w_solution w')))
  /\ (pending (w_found w) = [] ->
      pending (w_found w') = []
      /\ (isSet (w_found w') = true ->
          isSet (w_found w) = true \/ Good level parentArrs covered (w_solution w'))).

Lemma post_refl_nk (level : nat) (parentArrs : list (list nat)) (covered : list bool)
    (w : World R) : post level parentArrs covered w w.
Proof. unfold post. auto 10. Qed.

Lemma post_same_nk (level : nat) (parentArrs : list (list nat)) (covered : list bool)
    (w w' : World R) :
  w_solution w' = w_solution w -> w_found w' = w_found w ->
  post level parentArrs covered w w'.
Proof. intros Hs Hf. unfold post. rewrite Hs, Hf. auto 10. Qed.

Lemma post_trans_nk (level : nat) (parentArrs : list (list nat)) (covered : list bool)
    (w1 w2 w3 : World R) :
  post level parentArrs covered w1 w2 -> post level parentArrs covered w2 w3 ->
  post level parentArrs covered w1 w3.
Proof.
  intros (L1 & Z1 & A1 & B1 & Q1) (L2 & Z2 & A2 & B2 & Q2). unfold post.
  split; [congruence|]. split; [congruence|]. split; [|split].
  - intros H. destruct (A1 H) as [E1 F1]. destruct (A2 F1) as [E2 F2].
    split; [congruence|assumption].
  - destruct B1 as [E1|[F1 G1]].
    + destruct B2 as [E2|[F2 G2]]; [left; congruence|right; auto].
    + destruct (A2 F1) as [E2 F2]. right. rewrite E2. auto.
  - intros H. destruct (Q1 H) as [P1 S1]. destruct (Q2 P1) as [P2 S2].
    split; [assumption|]. intros H3. destruct (S2 H3) as [H2|G3]; [|right; assumption].
    destruct (S1 H2) as [H1|G2]; [left; assumption|].
    destruct (A2 H2) as [E2 _]. right. rewrite E2. assumption.
Qed.

Lemma post_Load_nk (level : nat) (parentArrs : list (list nat)) (covered : list bool)
    (w : World R) :
  post level parentArrs covered w (setFound R w (snd (Load (w_found w)))).
Proof.
  unfold post. cbn [setFound w_solution w_found].
  split; [reflexivity|]. split; [reflexivity|].
  split; [intros H; split; [reflexivity|apply Load_isSet; assumption]|].
  split; [left; reflexivity|].
  intros H. destruct (Load_pending _ H) as [H1 H2]. split; [assumption|].
  rewrite H2. auto.
Qed.

(** ** The frame and the invariant of [enumerate] *)

Definition frameOK (fr : Frame) : Prop :=
  level fr + 2 <= k s /\ length (parentArrs fr) = level fr
  /\ Forall (fun item => item < n s) (order fr).

Record Inv (covered : list bool) (slot : nat) (loc : Local) (localCovered : nat)
    : Prop := mkInv {
  inv_arr : length (arr loc) = n s;
  inv_used : length (used loc) = n s;
  inv_cs : length (coveredSet loc) = numPairs s;
  inv_items : usedItems loc = take slot (arr loc);
  inv_item : forall t, t < slot ->
    get 0 (arr loc) t < n s /\ get false (used loc) (get 0 (arr loc) t) = true;
  inv_usedBy : forall item, item < n s -> get false (used loc) item = true ->
    exists t, t < slot /\ get 0 (arr loc) t = item;
  inv_inj : forall t1 t2, t1 < slot -> t2 < slot ->
    get 0 (arr loc) t1 = get 0 (arr loc) t2 -> t1 = t2;
  inv_cov : forall pi, pi < numPairs s -> get false (coveredSet loc) pi = true ->
    get false covered pi = true
    \/ exists u v, u < slot /\ v < slot /\ adjacent (edges s) u v
         /\ pi = pairIndex s (get 0 (arr loc) u) (get 0 (arr loc) v);
  inv_count : localCovered = countTrue (coveredSet loc)
}.

(** What [enumerate] leaves of the variables it updates: everything but the
    slots of [arr] from [slot] on. *)
Definition Same (slot : nat) (loc loc' : Local) : Prop :=
  used loc' = used loc /\ usedItems loc' = usedItems loc
  /\ coveredSet loc' = coveredSet loc
  /\ length (arr loc') = length (arr loc)
  /\ forall t, t < slot -> get 0 (arr loc') t = get 0 (arr loc) t.

Lemma Same_refl (slot : nat) (loc : Local) : Same slot loc loc.
Proof. unfold Same. auto. Qed.

Lemma Same_trans (slot : nat) (l1 l2 l3 : Local) :
  Same slot l1 l2 -> Same slot l2 l3 -> Same slot l1 l3.
Proof.
  intros (A1 & B1 & C1 & D1 & E1) (A2 & B2 & C2 & D2 & E2). unfold Same.
  split; [congruence|]. split; [congruence|]. split; [congruence|]. split; [congruence|].
  intros t Ht. rewrite E2, E1 by assumption. reflexivity.
Qed.

Lemma Inv_Same (covered : list bool) (slot : nat) (loc loc' : Local) (lc : nat) :
  slot <= n s -> Inv covered slot loc lc -> Same slot loc loc' -> Inv covered slot loc' lc.
Proof.
  intros Hslot HI (Hu & Hi & Hc & Hl & Ha).
  constructor; rewrite ?Hu, ?Hi, ?Hc.
  - rewrite Hl. apply (inv_arr _ _ _ _ HI).
  - apply (inv_used _ _ _ _ HI).
  - apply (inv_cs _ _ _ _ HI).
  - rewrite (inv_items _ _ _ _ HI).
    apply (nth_ext _ _ 0 0); [rewrite !length_take, Hl; reflexivity|].
    intros i Hi'. rewrite length_take in Hi'. rewrite !nth_lookup, !lookup_take_lt by lia.
    rewrite <- !nth_lookup. symmetry. apply Ha. lia.
  - intros t Ht. rewrite Ha by assumption. apply (inv_item _ _ _ _ HI). assumption.
  - intros item Hitem Hused. destruct (inv_usedBy _ _ _ _ HI item Hitem Hused) as (t & Ht & He).
    exists t. split; [assumption|]. rewrite Ha by assumption. assumption.
  - intros t1 t2 H1 H2. rewrite !Ha by assumption. apply (inv_inj _ _ _ _ HI); assumption.
  - intros pi Hpi Hget.
    destruct (inv_cov _ _ _ _ HI pi Hpi Hget) as [H|(u & v & Hu' & Hv & Hadj & ->)];
      [left; assumption|].
    right. exists u, v. rewrite !Ha by assumption. auto 10.
  - apply (inv_count _ _ _ _ HI).
Qed.

(** ** Pair indices *)

Lemma pairIndex_eq_nk (x y : nat) :
  pairIndex s x y = get2 0 (FindFourth.pairTable (n s)) x y.
Proof. unfold pairIndex. rewrite (wf_table s Hwf). reflexivity. Qed.

Lemma pairIndex_lt_nk (x y : nat) :
  x < n s -> y < n s -> x <> y -> pairIndex s x y < numPairs s.
Proof.
  intros Hx Hy Hne. rewrite pairIndex_eq_nk, (wf_pairs s Hwf), pairTable_get by assumption.
  destruct (Nat.ltb_spec x y); [apply pairId_lt; lia|].
  destruct (Nat.ltb_spec y x); [apply pairId_lt; lia|lia].
Qed.

Lemma pairIndex_inj_nk (x y z : nat) :
  x < n s -> y < n s -> z < n s -> x <> y -> x <> z ->
  pairIndex s x y = pairIndex s x z -> y = z.
Proof.
  intros Hx Hy Hz Hxy Hxz. rewrite !pairIndex_eq_nk, !pairTable_get by assumption.
  destruct (Nat.ltb_spec x y), (Nat.ltb_spec x z); intros He.
  - apply (pairId_inj (n s)) in He; lia.
  - destruct (Nat.ltb_spec z x); [|lia]. apply (pairId_inj (n s)) in He; lia.
  - destruct (Nat.ltb_spec y x); [|lia]. apply (pairId_inj (n s)) in He; lia.
  - destruct (Nat.ltb_spec y x); [|lia]. destruct (Nat.ltb_spec z x); [|lia].
    apply (pairId_inj (n s)) in He; lia.
Qed.

(** ** The scan of the adjacent slots *)

Definition scanKeep (loc : Local) (item adjSlot : nat) : bool :=
  negb (get false (coveredSet loc) (pairIndex s item (get 0 (arr loc) adjSlot))).

Lemma scanAdj_pairs_nk (loc : Local) (slot item : nat) :
  snd (scanAdj s loc slot item)
  = map (fun adjSlot => pairIndex s item (get 0 (arr loc) adjSlot))
        (List.filter (scanKeep loc item) (get [] (slotAdj s) slot)).
Proof.
  unfold scanAdj.
  match goal with
  | |- snd (fold_left ?f _ _) = _ => set (step := f)
  end.
  assert (H : forall l no np,
             snd (fold_left step l (no, np))
             = np ++ map (fun adjSlot => pairIndex s item (get 0 (arr loc) adjSlot))
                         (List.filter (scanKeep loc item) l)).
  { induction l as [|t l IH]; intros no np; cbn [fold_left List.filter].
    - cbn [snd map]. rewrite app_nil_r. reflexivity.
    - unfold step at 2, scanKeep at 1. cbv zeta.
      destruct (get false (coveredSet loc) (pairIndex s item (get 0 (arr loc) t)));
        cbn [negb]; [apply IH|].
      rewrite IH. cbn [map]. rewrite <- app_assoc. reflexivity. }
  rewrite H. reflexivity.
Qed.

Section Placing.

Variable covered : list bool.
Variable slot : nat.
Variable loc : Local.
Variable localCovered : nat.
Hypothesis HI : Inv covered slot loc localCovered.
Hypothesis Hslot : slot < n s.
Variable item : nat.
Hypothesis Hitem : item < n s.
Hypothesis Hfree : get false (used loc) item = false.
Variable newPairs : list nat.
Hypothesis Hpairs : newPairs = snd (scanAdj s loc slot item).

Lemma newPairs_spec_nk (pi : nat) :
  In pi newPairs ->
  exists t, t < slot /\ adjacent (edges s) slot t
            /\ pi = pairIndex s item (get 0 (arr loc) t)
            /\ pi < numPairs s /\ get false (coveredSet loc) pi = false.
Proof.
  rewrite Hpairs, scanAdj_pairs_nk. intros Hin. apply in_map_iff in Hin.
  destruct Hin as (t & <- & Hin). apply filter_In in Hin. destruct Hin as [Hadj Hkeep].
  destruct (wf_adj s Hwf slot t Hslot Hadj) as [Ht Hadj'].
  unfold scanKeep in Hkeep. apply negb_true_iff in Hkeep.
  destruct (inv_item _ _ _ _ HI t Ht) as (Hlt & Hused).
  exists t. split; [assumption|]. split; [assumption|]. split; [reflexivity|].
  split; [|assumption]. apply pairIndex_lt_nk; [assumption|assumption|].
  intros ->. rewrite Hused in Hfree. discriminate Hfree.
Qed.

Lemma newPairs_NoDup_nk : List.NoDup newPairs.
Proof.
  rewrite Hpairs, scanAdj_pairs_nk.
  apply List.NoDup_map_NoDup_ForallPairs.
  - intros t1 t2 H1 H2 He. apply filter_In in H1, H2.
    destruct H1 as [A1 _]. destruct H2 as [A2 _].
    destruct (wf_adj s Hwf slot t1 Hslot A1) as [Ht1 _].
    destruct (wf_adj s Hwf slot t2 Hslot A2) as [Ht2 _].
    destruct (inv_item _ _ _ _ HI t1 Ht1) as (L1 & U1).
    destruct (inv_item _ _ _ _ HI t2 Ht2) as (L2 & U2).
    apply (inv_inj _ _ _ _ HI); [assumption|assumption|].
    apply (pairIndex_inj_nk item); try assumption.
    + intros ->. rewrite U1 in Hfree. discriminate Hfree.
    + intros ->. rewrite U2 in Hfree. discriminate Hfree.
  - apply List.NoDup_filter. apply (wf_nodup s Hwf). assumption.
Qed.

Lemma get_place (t : nat) :
  get 0 (arr (place loc slot item newPairs)) t
  = if decide (slot = t) then item else get 0 (arr loc) t.
Proof.
  unfold place. cbn [arr]. apply get_insert. rewrite (inv_arr _ _ _ _ HI). assumption.
Qed.

Lemma Inv_place_nk :
  Inv covered (slot + 1) (place loc slot item newPairs) (localCovered + length newPairs).
Proof.
  assert (Hmark : forall pi, In pi newPairs -> pi < length (coveredSet loc)).
  { intros pi Hpi. destruct (newPairs_spec_nk pi Hpi) as (_ & _ & _ & _ & Hlt & _).
    rewrite (inv_cs _ _ _ _ HI). assumption. }
  pose proof (inv_arr _ _ _ _ HI) as Harr.
  constructor.
  - cbn [place arr]. rewrite length_insert. assumption.
  - cbn [place used]. rewrite length_insert. apply (inv_used _ _ _ _ HI).
  - cbn [place coveredSet]. rewrite Solver20Props.markPairs_length. apply (inv_cs _ _ _ _ HI).
  - cbn [place usedItems arr]. rewrite (inv_items _ _ _ _ HI).
    replace (slot + 1) with (S slot) by lia.
    rewrite (take_S_r (<[slot := item]> (arr loc)) slot item)
      by (apply list_lookup_insert_eq; lia).
    rewrite take_insert_ge by lia. reflexivity.
  - intros t Ht. rewrite get_place. cbn [place used].
    destruct (decide (slot = t)) as [->|Hne].
    + split; [assumption|]. apply get_insert_eq. rewrite (inv_used _ _ _ _ HI). assumption.
    + destruct (inv_item _ _ _ _ HI t ltac:(lia)) as (H1 & H2). split; [assumption|].
      rewrite get_insert by (rewrite (inv_used _ _ _ _ HI); assumption).
      destruct (decide (item = get 0 (arr loc) t)); [reflexivity|assumption].
  - intros it Hit Hu. cbn [place used] in Hu.
    rewrite get_insert in Hu by (rewrite (inv_used _ _ _ _ HI); assumption).
    destruct (decide (item = it)) as [<-|Hne].
    + exists slot. split; [lia|]. rewrite get_place.
      destruct (decide (slot = slot)); [reflexivity|congruence].
    + destruct (inv_usedBy _ _ _ _ HI it Hit Hu) as (t & Ht & He).
      exists t. split; [lia|]. rewrite get_place.
      destruct (decide (slot = t)) as [->|]; [lia|assumption].
  - intros t1 t2 H1 H2. rewrite !get_place.
    destruct (decide (slot = t1)) as [<-|N1]; destruct (decide (slot = t2)) as [<-|N2].
    + reflexivity.
    + intros He. destruct (inv_item _ _ _ _ HI t2 ltac:(lia)) as (_ & U2).
      rewrite <- He, Hfree in U2. discriminate U2.
    + intros He. destruct (inv_item _ _ _ _ HI t1 ltac:(lia)) as (_ & U1).
      rewrite He, Hfree in U1. discriminate U1.
    + apply (inv_inj _ _ _ _ HI); lia.
  - intros pi Hpi Hget. cbn [place coveredSet] in Hget.
    rewrite Solver20Props.get_markPairs in Hget by exact Hmark.
    destruct (existsb (Nat.eqb pi) newPairs) eqn:Hex.
    + apply Solver20Props.existsb_eqb_In in Hex.
      destruct (newPairs_spec_nk pi Hex) as (t & Ht & Hadj & -> & _).
      right. exists slot, t. split; [lia|]. split; [lia|]. split; [assumption|].
      rewrite !get_place. destruct (decide (slot = slot)); [|congruence].
      destruct (decide (slot = t)) as [->|]; [lia|reflexivity].
    + destruct (inv_cov _ _ _ _ HI pi Hpi Hget) as [H|(u & v & Hu & Hv & Hadj & ->)];
        [left; assumption|].
      right. exists u, v. split; [lia|]. split; [lia|]. split; [assumption|].
      rewrite !get_place.
      destruct (decide (slot = u)) as [->|]; [lia|].
      destruct (decide (slot = v)) as [->|]; [lia|reflexivity].
  - cbn [place coveredSet]. rewrite Solver20Props.countTrue_markPairs.
    + rewrite (inv_count _ _ _ _ HI). reflexivity.
    + apply newPairs_NoDup_nk.
    + intros pi Hpi. split; [apply Hmark; assumption|].
      destruct (newPairs_spec_nk pi Hpi) as (_ & _ & _ & _ & _ & H). assumption.
Qed.

Lemma unplace_Same (loc2 : Local) :
  Same (slot + 1) (place loc slot item newPairs) loc2 ->
  Same slot loc (unplace loc2 item newPairs).
Proof.
  intros (Hu & Hi & Hc & Hl & Ha). unfold Same, unplace.
  cbn [place arr used usedItems coveredSet] in *.
  split; [|split; [|split; [|split]]].
  - rewrite Hu, <- Hfree at 1. rewrite <- Hfree at 1.
    apply Solver20Props.insert_undo. rewrite (inv_used _ _ _ _ HI). assumption.
  - rewrite Hi, length_app. cbn [length].
    replace (length (usedItems loc) + 1 - 1) with (length (usedItems loc)) by lia.
    rewrite take_app_length. reflexivity.
  - rewrite Hc. apply Solver20Props.markPairs_undo. intros pi Hpi.
    destruct (newPairs_spec_nk pi Hpi) as (_ & _ & _ & _ & Hpl & Hf).
    rewrite (inv_cs _ _ _ _ HI). split; assumption.
  - rewrite Hl, length_insert. reflexivity.
  - intros t Ht. rewrite Ha by lia. apply get_insert_ne. lia.
Qed.

End Placing.

(** ** A full arrangement *)

Lemma Inv_row_nk (covered : list bool) (loc : Local) (localCovered : nat) :
  Inv covered (n s) loc localCovered ->
  isArrangement (n s) (arr loc)
  /\ forall x y, x < y < n s ->
       get false (coveredSet loc) (pairIndex s x y) = true ->
       get false covered (pairIndex s x y) = true
       \/ covers (pairSet (slotPairs (edges s)) (arr loc)) x y.
Proof.
  intros HI. pose proof (inv_arr _ _ _ _ HI) as Harr.
  assert (Hrow : isArrangement (n s) (arr loc)).
  { split; [assumption|]. split.
    - apply (List.NoDup_nth (arr loc) 0). intros i j Hi Hj He.
      apply (inv_inj _ _ _ _ HI); [lia|lia|assumption].
    - apply List.Forall_forall. intros x Hx. apply (In_get 0) in Hx.
      destruct Hx as (i & Hi & <-). apply (inv_item _ _ _ _ HI). lia. }
  split; [assumption|].
  intros x y Hxy Hc.
  destruct (inv_cov _ _ _ _ HI (pairIndex s x y)) as [H|(u & v & Hu & Hv & Hadj & He)];
    [apply pairIndex_lt_nk; lia|assumption|left; assumption|].
  right. apply (pairTable_covers (n s) (edges s) (wf_edges s Hwf) _ x y Hrow Hxy).
  exists u, v. split; [assumption|]. rewrite <- !pairIndex_eq_nk. symmetry. assumption.
Qed.

Lemma Good_step_nk (fr : Frame) (covered : list bool) (loc : Local) (localCovered : nat)
    (sol : list (list nat)) :
  frameOK fr -> Inv covered (n s) loc localCovered ->
  Good (level fr + 1) (parentArrs fr ++ [arr loc]) (coveredSet loc) sol ->
  Good (level fr) (parentArrs fr) covered sol.
Proof.
  intros Hfr HI (Hpre & Hrows & Hcov). pose proof Hfr as (Hlv & Hpl & _).
  destruct (Inv_row_nk covered loc localCovered HI) as [Hrow Hmine].
  assert (Hnew : get [] sol (level fr + 1) = arr loc).
  { rewrite Hpre by lia. unfold get. rewrite app_nth2 by lia.
    rewrite Hpl, Nat.sub_diag. reflexivity. }
  split; [|split].
  - intros i Hi. rewrite Hpre by lia. unfold get. apply app_nth1. lia.
  - intros i Hi. destruct (decide (i = level fr + 1)) as [->|Hne];
      [rewrite Hnew; assumption|apply Hrows; lia].
  - intros x y Hxy. destruct (Hcov x y Hxy) as [H|(i & Hi & H)].
    + destruct (Hmine x y Hxy H) as [H'|H']; [left; assumption|].
      right. exists (level fr + 1). split; [lia|]. rewrite Hnew. assumption.
    + right. exists i. split; [lia|assumption].
Qed.

Lemma Good_accept_nk (fr : Frame) (covered : list bool) (loc : Local) (sol : list (list nat)) :
  frameOK fr -> Inv covered (n s) loc (numPairs s) -> level fr + 2 = k s ->
  length sol = k s ->
  Good (level fr) (parentArrs fr) covered
       (storeSolution sol (parentArrs fr ++ [arr loc])).
Proof.
  intros Hfr HI Hlevel Hsol. pose proof Hfr as (_ & Hpl & _).
  destruct (Inv_row_nk covered loc _ HI) as [Hrow Hmine].
  destruct (storeSolution_spec_nk sol (parentArrs fr ++ [arr loc])) as (_ & _ & Hst).
  { rewrite length_app, Hpl, Hsol. cbn [length]. lia. }
  rewrite length_app, Hpl in Hst. cbn [length] in Hst.
  assert (Hnew : get [] (storeSolution sol (parentArrs fr ++ [arr loc])) (level fr + 1)
                 = arr loc).
  { rewrite Hst by lia. unfold get. rewrite app_nth2 by lia.
    rewrite Hpl, Nat.sub_diag. reflexivity. }
  split; [|split].
  - intros i Hi. rewrite Hst by lia. unfold get. apply app_nth1. lia.
  - intros i Hi. replace i with (level fr + 1) by lia. rewrite Hnew. assumption.
  - intros x y Hxy.
    assert (Hc : get false (coveredSet loc) (pairIndex s x y) = true).
    { apply Solver20Props.countTrue_full.
      - rewrite <- (inv_count _ _ _ _ HI), (inv_cs _ _ _ _ HI). reflexivity.
      - rewrite (inv_cs _ _ _ _ HI). apply pairIndex_lt_nk; lia. }
    destruct (Hmine x y Hxy Hc) as [H|H]; [left; assumption|].
    right. exists (level fr + 1). split; [lia|]. rewrite Hnew. assumption.
Qed.

(** ** The loops of [enumerate] and [solve] *)

(** The [for _, item := range order] loop, over what [enumerate] does one
    slot further. *)
Definition tryItemsWith (rec : Z -> nat -> Local * World R -> Local * World R)
    (fr : Frame) (slot : nat) (overlap : Z) (localCovered : nat)
    : list nat -> Local * World R -> Local * World R :=
  fix tryItems (items : list nat) (st : Local * World R) : Local * World R :=
    match items with
    | [] => st
    | item :: items' =>
      let '(loc, w) := st in
      let '(isFound, fl) := Load (w_found w) in
      let w := setFound R w fl in
      if isFound then (loc, w)
      else if get false (used loc) item then tryItems items' (loc, w)
      else
        let '(newOverlap, newPairs) := scanAdj s loc slot item in
        if (overlap + newOverlap >? maxOverlap fr)%Z then tryItems items' (loc, w)
        else if (remaining fr =? 1)%Z && isDoomed s loc item newPairs
        then tryItems items' (loc, w)
        else
          let '(loc, w) :=
            rec (overlap + newOverlap)%Z (localCovered + length newPairs)
                (place loc slot item newPairs, w) in
          tryItems items' (unplace loc item newPairs, w)
    end.

Lemma enumerate_eq_nk (fuel' : nat) (fr : Frame) (slot : nat) (overlap : Z)
    (localCovered : nat) (loc : Local) (w : World R) :
  enumerate R Shuffle s (S fuel') fr slot overlap localCovered (loc, w) =
  let '(isFound, fl) := Load (w_found w) in
  let w := setFound R w fl in
  if isFound then (loc, w)
  else
    let missingNow := (Z.of_nat (numPairs s) - Z.of_nat localCovered)%Z in
    let maxPossible :=
      (Z.of_nat (get 0%nat (remEdges s) slot)
       + (remaining fr - 1) * Z.of_nat (numEdges s))%Z in
    if (missingNow >? maxPossible)%Z then (loc, w)
    else if slot =? n s then
      let arrCopy := Solver20.copySlice (replicate (n s) 0) (arr loc) in
      let coveredCopy :=
        Solver20.copySlice (replicate (numPairs s) false) (coveredSet loc) in
      let newParentArrs := parentArrs fr ++ [arrCopy] in
      if (Z.of_nat (level fr) =? Z.of_nat (k s) - 2)%Z then
        if localCovered =? numPairs s then
          let '(swapped, fl) := CompareAndSwap (w_found w) in
          if swapped
          then (loc, mkWorld fl (storeSolution (w_solution w) newParentArrs) (w_rng w))
          else (loc, setFound R w fl)
        else (loc, w)
      else (loc, solve R Shuffle s fuel' (level fr + 1) coveredCopy localCovered
                       newParentArrs w)
    else
      tryItemsWith (fun o l st => enumerate R Shuffle s fuel' fr (slot + 1) o l st)
                   fr slot overlap localCovered (order fr) (loc, w).
Proof. reflexivity. Qed.

Lemma solve_eq_nk (fuel' : nat) (level : nat) (covered : list bool) (coveredCount : nat)
    (parentArrs : list (list nat)) (w : World R) :
  solve R Shuffle s (S fuel') level covered coveredCount parentArrs w =
  let '(isFound, fl) := Load (w_found w) in
  let w := setFound R w fl in
  if isFound then w
  else
    let remaining := (Z.of_nat (k s) - Z.of_nat level - 1)%Z in
    let missing := (Z.of_nat (numPairs s) - Z.of_nat coveredCount)%Z in
    if (missing >? remaining * Z.of_nat (numEdges s))%Z then w
    else
      let minNewEdges := Z.quot (missing + remaining - 1) remaining in
      let maxOverlap := (Z.of_nat (numEdges s) - minNewEdges)%Z in
      let arr := replicate (n s) 0 in
      let used := replicate (n s) false in
      let usedItems := [] in
      let coveredSet := Solver20.copySlice (replicate (numPairs s) false) covered in
      let '(order, rng) := Shuffle (w_rng w) (range 0 (n s)) in
      let w := mkWorld (w_found w) (w_solution w) rng in
      snd (enumerate R Shuffle s fuel'
             (mkFrame level parentArrs remaining maxOverlap order)
             0 0%Z coveredCount
             (mkLocal arr used usedItems coveredSet, w)).
Proof. reflexivity. Qed.

Definition solveSpec (fuel : nat) : Prop :=
  forall level covered coveredCount parentArrs w,
    level + 2 <= k s -> length parentArrs = level -> length covered = numPairs s ->
    coveredCount = countTrue covered -> length (w_solution w) = k s ->
    post level parentArrs covered w
         (solve R Shuffle s fuel level covered coveredCount parentArrs w).

Definition recSpec (fr : Frame) (covered : list bool) (slot : nat)
    (rec : Z -> nat -> Local * World R -> Local * World R) : Prop :=
  forall overlap localCovered loc w,
    Inv covered slot loc localCovered -> length (w_solution w) = k s ->
    Same slot loc (fst (rec overlap localCovered (loc, w)))
    /\ post (level fr) (parentArrs fr) covered w (snd (rec overlap localCovered (loc, w))).

Definition enumSpec (fuel : nat) : Prop :=
  forall fr covered slot, frameOK fr -> slot <= n s ->
    recSpec fr covered slot (enumerate R Shuffle s fuel fr slot).

Lemma tryItems_spec_nk (rec : Z -> nat -> Local * World R -> Local * World R) (fr : Frame)
    (covered : list bool) (slot : nat) (overlap : Z) (localCovered : nat) :
  slot < n s -> recSpec fr covered (slot + 1) rec ->
  forall items, (forall item, In item items -> item < n s) ->
    forall loc w, Inv covered slot loc localCovered -> length (w_solution w) = k s ->
      Same slot loc (fst (tryItemsWith rec fr slot overlap localCovered items (loc, w)))
      /\ post (level fr) (parentArrs fr) covered w
              (snd (tryItemsWith rec fr slot overlap localCovered items (loc, w))).
Proof.
  intros Hslot Hrec. induction items as [|item items IH];
    intros Hitems loc w HI Hsol; cbn [tryItemsWith].
  - split; [apply Same_refl|apply post_refl_nk].
  - pose proof (post_Load_nk (level fr) (parentArrs fr) covered w) as HL.
    destruct (Load (w_found w)) as [isFound fl]. cbn [snd] in HL.
    destruct isFound; [split; [apply Same_refl|exact HL]|].
    assert (Hitems' : forall it, In it items -> it < n s).
    { intros it Hit. apply Hitems. right. assumption. }
    assert (Hskip :
              Same slot loc
                   (fst (tryItemsWith rec fr slot overlap localCovered items
                                      (loc, setFound R w fl)))
              /\ post (level fr) (parentArrs fr) covered w
                      (snd (tryItemsWith rec fr slot overlap localCovered items
                                         (loc, setFound R w fl)))).
    { destruct (IH Hitems' loc (setFound R w fl) HI Hsol) as [H1 H2].
      split; [assumption|]. apply (post_trans_nk _ _ _ _ _ _ HL H2). }
    destruct (get false (used loc) item) eqn:Hfree; [exact Hskip|].
    pose proof (Hitems item (or_introl eq_refl)) as Hitem.
    pose proof (scanAdj_pairs_nk loc slot item) as Hscan.
    destruct (scanAdj s loc slot item) as [newOverlap newPairs]. cbn [snd] in Hscan.
    destruct (overlap + newOverlap >? maxOverlap fr)%Z; [exact Hskip|].
    destruct ((remaining fr =? 1)%Z && isDoomed s loc item newPairs); [exact Hskip|].
    assert (Hnp : newPairs = snd (scanAdj s loc slot item)).
    { rewrite scanAdj_pairs_nk. assumption. }
    pose proof (Inv_place_nk covered slot loc localCovered HI Hslot item Hitem Hfree
                  newPairs Hnp) as HI'.
    destruct (Hrec (overlap + newOverlap)%Z (localCovered + length newPairs)
                   (place loc slot item newPairs) (setFound R w fl) HI' Hsol) as [H1 H2].
    destruct (rec (overlap + newOverlap)%Z (localCovered + length newPairs)
                  (place loc slot item newPairs, setFound R w fl)) as [loc2 w2].
    cbn [fst snd] in H1, H2.
    pose proof (unplace_Same covered slot loc localCovered HI Hslot item Hitem Hfree
                  newPairs Hnp loc2 H1) as Hsame.
    assert (Hsol2 : length (w_solution w2) = k s).
    { destruct H2 as (Hl & _). cbn [setFound w_solution] in Hl. congruence. }
    destruct (IH Hitems' (unplace loc2 item newPairs) w2
                 (Inv_Same covered slot loc _ localCovered ltac:(lia) HI Hsame) Hsol2)
      as [H3 H4].
    split; [apply (Same_trans _ _ _ _ Hsame H3)|].
    apply (post_trans_nk _ _ _ _ _ _ HL). apply (post_trans_nk _ _ _ _ _ _ H2 H4).
Qed.

Lemma enum_step_nk (fuel' : nat) : solveSpec fuel' -> enumSpec fuel' -> enumSpec (S fuel').
Proof.
  intros Hsolve Henum fr covered slot Hfr Hslot overlap localCovered loc w HI Hsol.
  rewrite enumerate_eq_nk.
  pose proof (post_Load_nk (level fr) (parentArrs fr) covered w) as HL.
  pose proof (Load_false (w_found w)) as Hquiet.
  destruct (Load (w_found w)) as [isFound fl] eqn:HLoad. cbn [fst snd] in HL, Hquiet.
  destruct isFound; [split; [apply Same_refl|exact HL]|].
  specialize (Hquiet eq_refl). cbv zeta.
  match goal with
  | |- context [if (?x >? ?y)%Z then _ else _] => destruct (x >? y)%Z
  end; [split; [apply Same_refl|exact HL]|].
  destruct (Nat.eqb_spec slot (n s)) as [->|Hne].
  - rewrite (Solver20Props.copySlice_same (replicate (n s) 0) (arr loc))
      by (rewrite length_replicate; apply (inv_arr _ _ _ _ HI)).
    rewrite (Solver20Props.copySlice_same (replicate (numPairs s) false) (coveredSet loc))
      by (rewrite length_replicate; apply (inv_cs _ _ _ _ HI)).
    destruct (Z.eqb_spec (Z.of_nat (level fr)) (Z.of_nat (k s) - 2)) as [Hlast|Hnot].
    + destruct (Nat.eqb_spec localCovered (numPairs s)) as [->|Hnc];
        [|split; [apply Same_refl|exact HL]].
      cbn [setFound w_found w_solution w_rng].
      pose proof (CompareAndSwap_set fl) as Hcas.
      assert (Hcas2 : pending (snd (CompareAndSwap fl)) = tl (pending fl)) by reflexivity.
      assert (Hcas3 : fst (CompareAndSwap fl) = negb (isSet fl || hd false (pending fl)))
        by reflexivity.
      destruct (CompareAndSwap fl) as [swapped fl2]. cbn [fst snd] in Hcas, Hcas2, Hcas3.
      destruct HL as (_ & _ & _ & _ & HLq). cbn [setFound w_found] in HLq.
      destruct swapped.
      * split; [apply Same_refl|]. pose proof Hfr as (_ & Hpl & _).
        destruct (storeSolution_spec_nk (w_solution w) (parentArrs fr ++ [arr loc]))
          as (Hl & Hz & _).
        { rewrite length_app, Hpl, Hsol. cbn [length]. lia. }
        assert (HG : Good (level fr) (parentArrs fr) covered
                          (storeSolution (w_solution w) (parentArrs fr ++ [arr loc])))
          by (apply Good_accept_nk; (assumption || lia)).
        unfold post. cbn [fst snd w_solution w_found].
        split; [assumption|]. split; [assumption|].
        split; [intros H; rewrite H in Hquiet; discriminate Hquiet|].
        split; [right; split; assumption|].
        intros Hp. split; [|intros _; right; assumption].
        destruct (HLq Hp) as [Hp1 _]. rewrite Hcas2, Hp1. reflexivity.
      * split; [apply Same_refl|].
        unfold post. cbn [fst snd setFound w_solution w_found].
        split; [reflexivity|]. split; [reflexivity|].
        split; [intros H; rewrite H in Hquiet; discriminate Hquiet|].
        split; [left; reflexivity|].
        intros Hp. destruct (HLq Hp) as [Hp1 _]. exfalso.
        rewrite Hp1 in Hcas3. cbn [hd] in Hcas3.
        rewrite orb_false_r in Hcas3. symmetry in Hcas3. apply negb_false_iff in Hcas3.
        pose proof (Load_pending (w_found w) Hp) as [_ HLs]. rewrite HLoad in HLs.
        cbn [snd] in HLs. rewrite HLs, Hquiet in Hcas3. discriminate Hcas3.
    + destruct (Hsolve (level fr + 1) (coveredSet loc) localCovered
                       (parentArrs fr ++ [arr loc]) (setFound R w fl))
        as (Hl & Hz & Hs & Hg & Hq).
      * destruct Hfr as (Hlv & _). lia.
      * destruct Hfr as (_ & Hpl & _). rewrite length_app, Hpl. reflexivity.
      * apply (inv_cs _ _ _ _ HI).
      * apply (inv_count _ _ _ _ HI).
      * assumption.
      * split; [apply Same_refl|]. cbn [fst snd].
        apply (post_trans_nk _ _ _ _ _ _ HL). unfold post.
        split; [assumption|]. split; [assumption|]. split; [assumption|]. split.
        -- destruct Hg as [Hg|[Hf Hg]]; [left; assumption|right].
           split; [assumption|].
           apply (Good_step_nk fr covered loc localCovered); assumption.
        -- intros Hp. destruct (Hq Hp) as [Hp1 Hq1]. split; [assumption|].
           intros Hset. destruct (Hq1 Hset) as [H|H]; [left; assumption|right].
           apply (Good_step_nk fr covered loc localCovered); assumption.
  - assert (Hlt : slot < n s) by lia.
    destruct (tryItems_spec_nk
                (fun o l st => enumerate R Shuffle s fuel' fr (slot + 1) o l st)
                fr covered slot overlap localCovered Hlt
                (Henum fr covered (slot + 1) Hfr ltac:(lia))
                (order fr)
                (proj1 (List.Forall_forall _ _) (proj2 (proj2 Hfr)))
                loc (setFound R w fl) HI Hsol) as [H1 H2].
    split; [assumption|]. apply (post_trans_nk _ _ _ _ _ _ HL H2).
Qed.

Lemma solve_step_nk (fuel' : nat) : enumSpec fuel' -> solveSpec (S fuel').
Proof.
  intros Henum level covered coveredCount parentArrs w Hlevel Hpl Hcov Hcount Hsol.
  rewrite solve_eq_nk.
  pose proof (post_Load_nk level parentArrs covered w) as HL.
  destruct (Load (w_found w)) as [isFound fl]. cbn [snd] in HL.
  destruct isFound; [exact HL|]. cbv zeta.
  match goal with
  | |- context [if (?x >? ?y)%Z then _ else _] => destruct (x >? y)%Z
  end; [exact HL|].
  pose proof (Hshuffle (w_rng (setFound R w fl)) (range 0 (n s))) as Hperm.
  destruct (Shuffle (w_rng (setFound R w fl)) (range 0 (n s))) as [order rng].
  cbn [fst] in Hperm.
  match goal with
  | |- post _ _ _ _ (snd (enumerate _ _ _ _ ?fr0 _ _ _ (?loc0, ?w0))) =>
      set (fr := fr0); set (loc := loc0); set (w1 := w0)
  end.
  assert (Hfr : frameOK fr).
  { unfold frameOK, fr. cbn [SolverNK.level SolverNK.parentArrs SolverNK.order].
    split; [assumption|]. split; [assumption|].
    apply List.Forall_forall. intros item Hitem.
    apply (Permutation_in _ Hperm) in Hitem. apply in_range in Hitem. lia. }
  assert (HI : Inv covered 0 loc coveredCount).
  { unfold loc. constructor; cbn [arr used usedItems coveredSet].
    - apply length_replicate.
    - apply length_replicate.
    - rewrite Solver20Props.copySlice_same by (rewrite length_replicate; assumption).
      assumption.
    - reflexivity.
    - intros t Ht. lia.
    - intros item Hitem Hu. rewrite get_replicate in Hu by assumption. discriminate Hu.
    - intros t1 t2 Ht. lia.
    - intros pi Hpi Hget. left.
      rewrite Solver20Props.copySlice_same in Hget by (rewrite length_replicate; assumption).
      assumption.
    - rewrite Solver20Props.copySlice_same by (rewrite length_replicate; assumption).
      assumption. }
  destruct (Henum fr covered 0 Hfr (Nat.le_0_l _) 0%Z coveredCount loc w1 HI Hsol)
    as [_ Hpost].
  apply (post_trans_nk _ _ _ _ _ _ HL).
  apply (post_trans_nk _ _ _ (setFound R w fl) w1); [apply post_same_nk; reflexivity|exact Hpost].
Qed.

Lemma search_spec_nk (fuel : nat) : solveSpec fuel /\ enumSpec fuel.
Proof.
  induction fuel as [|fuel' [IHs IHe]].
  - split.
    + intros level covered coveredCount parentArrs w _ _ _ _ _. apply post_refl_nk.
    + intros fr covered slot _ _ overlap localCovered loc w _ _.
      split; [apply Same_refl|apply post_refl_nk].
  - split; [apply solve_step_nk; assumption|apply enum_step_nk; assumption].
Qed.

End Sound.

(** ** [Solve] *)

Lemma initCovered_spec_nk (s : Solver) :
  wellFormed s ->
  forall l covered coveredCount,
    length covered = numPairs s -> coveredCount = countTrue covered ->
    (forall pi, pi < numPairs s -> get false covered pi = true ->
       exists u v, adjacent (edges s) u v /\ pi = pairIndex s u v) ->
    incl l (edges s) ->
    let res :=
      fold_left
        (fun st e =>
           let '(covered, coveredCount) := st in
           let pi := pairIndex s (a e) (b e) in
           if negb (get false covered pi) then (<[pi := true]> covered, coveredCount + 1)
           else st)
        l (covered, coveredCount) in
    length (fst res) = numPairs s /\ snd res = countTrue (fst res)
    /\ forall pi, pi < numPairs s -> get false (fst res) pi = true ->
         exists u v, adjacent (edges s) u v /\ pi = pairIndex s u v.
Proof.
  intros Hwf. induction l as [|e l IH]; intros covered coveredCount Hlen Hcnt Hcov Hincl;
    cbn [fold_left]; [cbn [fst snd]; auto|].
  assert (He : In e (edges s)) by (apply Hincl; left; reflexivity).
  assert (Hl : incl l (edges s)) by (intros x Hx; apply Hincl; right; assumption).
  pose proof (wf_edges s Hwf) as Hok. unfold edgesOK in Hok.
  rewrite List.Forall_forall in Hok. destruct (Hok e He) as (Ha & Hb & Hne).
  assert (Hpi : pairIndex s (a e) (b e) < numPairs s)
    by (apply pairIndex_lt_nk; assumption).
  destruct (get false covered (pairIndex s (a e) (b e))) eqn:Hget; cbn [negb].
  - apply IH; assumption.
  - apply IH; [rewrite length_insert; assumption| | |assumption].
    + rewrite Solver20Props.countTrue_insert by (assumption || lia). lia.
    + intros pi Hlt Hg. rewrite get_insert in Hg by lia.
      destruct (decide (pairIndex s (a e) (b e) = pi)) as [<-|Hn]; [|apply Hcov; assumption].
      exists (a e), (b e). split; [|reflexivity]. exists e. auto.
Qed.

Lemma covers_rows (rows : list (list nat)) (f : list nat -> list (nat * nat)) (x y : nat) :
  (exists i, i < length rows /\ covers (f (get [] rows i)) x y) ->
  covers (flat_map f rows) x y.
Proof.
  intros (i & Hi & [H|H]); [left|right]; apply in_flat_map;
    exists (get [] rows i); (split; [apply get_In; assumption|assumption]).
Qed.

Lemma countTrue_replicate (m : nat) : countTrue (replicate m false) = 0.
Proof. unfold countTrue. induction m as [|m IH]; [reflexivity|exact IH]. Qed.

Lemma Solve_spec_nk (R : Type) (Shuffle : R -> list nat -> list nat * R) (s : Solver)
    (seeds : list R) (dummy : R) :
  wellFormed s -> (forall r l, Permutation (fst (Shuffle r l)) l) -> 1 <= k s ->
  let res := Solve R Shuffle s seeds dummy in
  fst res = true ->
  length (snd res) = k s
  /\ get [] (snd res) 0 = identity (n s)
  /\ (forall i, i < k s -> isArrangement (n s) (get [] (snd res) i))
  /\ coversAll (n s) (flat_map (fun row => pairSet (slotPairs (edges s)) row) (snd res)).
Proof.
  intros Hwf Hshuffle Hk. unfold Solve. generalize (solveFuel s) as fuel. intros fuel.
  pose proof (initCovered_spec_nk s Hwf (edges s) (replicate (numPairs s) false) 0) as Hinit.
  cbv zeta in Hinit.
  destruct (fold_left _ (edges s) (replicate (numPairs s) false, 0))
    as [covered coveredCount].
  cbn [fst snd] in Hinit.
  destruct Hinit as (Hlen & Hcnt & Hcov).
  { apply length_replicate. }
  { symmetry. apply countTrue_replicate. }
  { intros pi Hpi Hg. rewrite get_replicate in Hg by assumption. discriminate Hg. }
  { intros e He. assumption. }
  set (sol0 := <[0 := range 0 (n s)]> (replicate (k s) [])).
  assert (Hsol0 : length sol0 = k s)
    by (unfold sol0; rewrite length_insert; apply length_replicate).
  assert (Hrow0 : get [] sol0 0 = identity (n s)).
  { unfold sol0. rewrite get_insert_eq by (rewrite length_replicate; lia).
    unfold range, identity. rewrite Nat.sub_0_r. reflexivity. }
  assert (Hid : forall x y, x < y < n s ->
            get false covered (pairIndex s x y) = true ->
            covers (pairSet (slotPairs (edges s)) (identity (n s))) x y).
  { intros x y Hxy Hg.
    destruct (Hcov (pairIndex s x y)) as (u & v & Hadj & He);
      [apply pairIndex_lt_nk; (assumption || lia)|assumption|].
    apply (pairTable_covers (n s) (edges s) (wf_edges s Hwf) _ x y
             (identity_isArrangement (n s)) Hxy).
    destruct (edgesOK_adjacent (n s) (edges s) u v (wf_edges s Hwf) Hadj) as (Hu & Hv & _).
    exists u, v. split; [assumption|]. rewrite !get_identity by assumption.
    rewrite <- !(pairIndex_eq_nk s Hwf). symmetry. assumption. }
  destruct (Nat.eqb_spec (k s) 1) as [Hk1|Hk1]; cbv zeta; cbn [fst snd].
  - intros Hall. apply Nat.eqb_eq in Hall.
    split; [assumption|]. split; [assumption|]. split.
    + intros i Hi. replace i with 0 by lia. rewrite Hrow0. apply identity_isArrangement.
    + intros x y Hxy. apply covers_rows. exists 0. split; [lia|]. rewrite Hrow0.
      apply Hid; [assumption|]. apply Solver20Props.countTrue_full; [congruence|].
      rewrite Hlen. apply pairIndex_lt_nk; (assumption || lia).
  - set (w0 := mkWorld quietFlag sol0 dummy).
    assert (Hfold : forall l w, length (w_solution w) = k s ->
              let w' := fold_left
                          (fun w seed =>
                             solve R Shuffle s fuel 0 covered coveredCount []
                                   (mkWorld (w_found w) (w_solution w) seed)) l w in
              post R s 0 [] covered w w').
    { induction l as [|seed l IH]; intros w Hw; cbn [fold_left]; [apply post_refl_nk|].
      destruct (search_spec_nk R Shuffle s Hwf Hshuffle fuel) as [Hsolve _].
      pose proof (Hsolve 0 covered coveredCount []
                    (mkWorld (w_found w) (w_solution w) seed) ltac:(lia) eq_refl Hlen
                    Hcnt Hw) as Hp.
      apply (post_trans_nk R s _ _ _ w (mkWorld (w_found w) (w_solution w) seed));
        [apply post_same_nk; reflexivity|].
      apply (post_trans_nk R s _ _ _ _ _ _ Hp). apply IH.
      destruct Hp as (Hl & _). cbn [w_solution] in Hl. congruence. }
    specialize (Hfold seeds w0 Hsol0). cbv zeta in Hfold.
    set (w := fold_left _ seeds w0) in *. clearbody w.
    destruct Hfold as (Hl & Hz & _ & _ & Hq).
    destruct (Hq eq_refl) as [Hp Hs].
    unfold Load. cbn [fst]. rewrite Hp. cbn [hd]. rewrite orb_false_r. intros Hset.
    destruct (Hs Hset) as [H|(_ & Hrows & Hgood)]; [discriminate H|].
    cbn [w0 w_solution] in Hl, Hz.
    split; [congruence|]. split; [congruence|]. split.
    + intros i Hi. destruct i as [|i].
      * rewrite Hz, Hrow0. apply identity_isArrangement.
      * apply Hrows. lia.
    + intros x y Hxy. apply covers_rows.
      destruct (Hgood x y Hxy) as [H|(i & Hi & H)].
      * exists 0. split; [lia|]. rewrite Hz, Hrow0. apply Hid; assumption.
      * exists i. split; [lia|assumption].
Qed.

(** X25.  For any number of items [n] and of arrangements [k >= 1], what
    [Solve] reports as found is a cover: when it returns true (the workers
    run one after the other, each on its own random source whose [Shuffle]
    permutes), the solution has [k] rows, each an arrangement of the [n]
    items, the first one identity, and the edges of the [n]-spiral under
    these rows cover all pairs of items. *)
Theorem Solve_covers (R : Type) (Shuffle : R -> list nat -> list nat * R) (n k : nat)
    (seeds : list R) (dummy : R) :
  (forall r l, Permutation (fst (Shuffle r l)) l) -> 1 <= k ->
  let res := Solve R Shuffle (NewSolver n k) seeds dummy in
  fst res = true ->
  length (snd res) = k
  /\ get [] (snd res) 0 = identity n
  /\ (forall i, i < k -> isArrangement n (get [] (snd res) i))
  /\ coversAll n (flat_map (fun row => pairSet (slotPairs (buildSpiral n)) row) (snd res)).
Proof.
  intros Hshuffle Hk.
  apply (Solve_spec_nk R Shuffle (NewSolver n k) seeds dummy (NewSolver_wellFormed_nk n k)
           Hshuffle Hk).
Qed.

Lemma Solve_covers_witness :
  let res := Solve unit sameOrder (NewSolver 6 2) [tt] tt in
  length (snd res) = 2
  /\ get [] (snd res) 0 = identity 6
  /\ (forall i, i < 2 -> isArrangement 6 (get [] (snd res) i))
  /\ coversAll 6 (flat_map (fun row => pairSet (slotPairs (buildSpiral 6)) row) (snd res)).
Proof.
  apply (Solve_covers unit sameOrder 6 2 [tt] tt).
  - intros r l. apply Permutation_refl.
  - lia.
  - vm_compute. reflexivity.
Defined.

(** Six items on the spiral need two arrangements, and two are enough. *)
Example Solve_six :
  Solve unit sameOrder (NewSolver 6 1) [tt] tt = (false, [[0; 1; 2; 3; 4; 5]])
  /\ Solve unit sameOrder (NewSolver 6 2) [tt] tt
     = (true, [[0; 1; 2; 3; 4; 5]; [1; 0; 3; 5; 2; 4]]).
Proof. split; vm_compute; reflexivity. Qed.

End SolverNKProps.
